(** * Blink-DB storage engine: a shallow embedding and its verified properties

    The development follows the engine sources leaf first:
    [key_value.hpp], [skiplist.hpp], [memtable.hpp], [sstable.hpp] and
    [lsm.hpp].  Raw pointers become indices into an explicit node store,
    files become byte lists held in a small file system, and the outcomes of
    the random generator and of the clock are inputs of the operations that
    consult them. *)

From Stdlib Require Import ZArith Lia Ascii String.
From Stdlib Require DecimalString DecimalZ.
From stdpp Require Import base tactics option list.

Local Open Scope Z_scope.

(** ** std::string *)

(** A [std::string] is a Rocq [string]: a finite sequence of 8-bit
    characters.  [operator<], [operator<=] and [operator==] compare
    lexicographically on unsigned character codes, which is what
    [String.ltb], [String.leb] and [String.eqb] compute. *)

Definition str_lt (a b : string) : bool := String.ltb a b.
Definition str_le (a b : string) : bool := String.leb a b.
Definition str_eq (a b : string) : bool := String.eqb a b.

(** [s.size()] *)
Definition str_size (s : string) : Z := Z.of_nat (String.length s).

(** ** constants.hpp *)

Definition xFF : ascii := Ascii.ascii_of_nat 255.

(** [#define TOMBSTONE "\xFF\xFF\xFF\xFF"] *)
Definition TOMBSTONE : string := String xFF (String xFF (String xFF (String xFF EmptyString))).

Definition INDEX_EXTENSION : string := ".index".
Definition DATA_EXTENSION : string := ".data".
Definition DATA_DIR : string := "data/".
Definition MAX_MEMTABLE_SIZE : Z := 32 * 1024 * 1024.
Definition MAX_SSTABLE_COUNT : Z := 100.

(** Unsigned machine integers wrap around. *)
Definition wrap32 (z : Z) : Z := z mod 2 ^ 32.
Definition wrap64 (z : Z) : Z := z mod 2 ^ 64.

(** ** The standard library's string representation

    [KeyValuePair::size] depends on [sizeof(std::string)] and on
    [std::string::capacity], which the C++ standard leaves to the
    implementation.  They are an interface of the embedding; the instance
    below is the one of libstdc++ on a 64-bit target. *)

Class StdStringImpl := {
  sizeof_string : Z;
  capacity : string -> Z;
}.

Definition libstdcxx : StdStringImpl := {|
  sizeof_string := 32;
  capacity := fun s => Z.max 15 (str_size s);
|}.

(** ** key_value.hpp *)

Record KeyValuePair := mkKV {
  kv_key : string;
  kv_value : string;
}.

(** [KeyValuePair()] *)
Definition KeyValuePair_default : KeyValuePair := mkKV "" "".

Definition getKey (kv : KeyValuePair) : string := kv_key kv.
Definition getValue (kv : KeyValuePair) : string := kv_value kv.
Definition setValue (newValue : string) (kv : KeyValuePair) : KeyValuePair :=
  mkKV (kv_key kv) newValue.

(** [KeyValuePair::size], in [size_t] arithmetic. *)
Definition kv_size `{StdStringImpl} (kv : KeyValuePair) : Z :=
  wrap64 (wrap64 (wrap64 (sizeof_string * 2) + capacity (kv_key kv)) + capacity (kv_value kv)).

(** ** skiplist.hpp *)

Inductive SentinelType := NEGATIVE_INFINITY | NORMAL | POSITIVE_INFINITY.

Definition SentinelType_eqb (a b : SentinelType) : bool :=
  match a, b with
  | NEGATIVE_INFINITY, NEGATIVE_INFINITY => true
  | NORMAL, NORMAL => true
  | POSITIVE_INFINITY, POSITIVE_INFINITY => true
  | _, _ => false
  end.

(** A [Node*] is an address in the node store; [nullptr] is [None]. *)
Abbreviation ptr := nat.

Record Node := mkNode {
  n_type : SentinelType;
  n_data : KeyValuePair;
  n_prev : option ptr;
  n_next : option ptr;
  n_up : option ptr;
  n_down : option ptr;
}.

(** [Node(type, data)]: all four links start out null. *)
Definition new_Node (ty : SentinelType) (d : KeyValuePair) : Node :=
  mkNode ty d None None None None.

(** The store holds every node allocated by [new]; address [p] holds
    the [p]-th allocated node. *)
Abbreviation store := (list Node).

(** [new Node(...)]: the fresh address and the extended store. *)
Definition alloc (n : Node) (m : store) : ptr * store := (length m, m ++ [n]).

(** Assignments through a pointer, one per field. *)
Definition with_data (d : KeyValuePair) (n : Node) : Node :=
  mkNode (n_type n) d (n_prev n) (n_next n) (n_up n) (n_down n).
Definition with_prev (v : option ptr) (n : Node) : Node :=
  mkNode (n_type n) (n_data n) v (n_next n) (n_up n) (n_down n).
Definition with_next (v : option ptr) (n : Node) : Node :=
  mkNode (n_type n) (n_data n) (n_prev n) v (n_up n) (n_down n).
Definition with_up (v : option ptr) (n : Node) : Node :=
  mkNode (n_type n) (n_data n) (n_prev n) (n_next n) v (n_down n).
Definition with_down (v : option ptr) (n : Node) : Node :=
  mkNode (n_type n) (n_data n) (n_prev n) (n_next n) (n_up n) v.

(** [p->field = v]; dereferencing an address outside the store is an
    error ([None]). *)
Definition assign (f : Node -> Node) (p : ptr) (m : store) : option store :=
  n ← m !! p; Some (<[p := f n]> m).

(** [p->field] where the field is itself dereferenced next: a null
    field is an error. *)
Definition follow (f : Node -> option ptr) (m : store) (p : ptr) : option ptr :=
  n ← m !! p; f n.

Module SkipList.

Definition MAX_LEVEL : Z := 16.

Record t := mk {
  nodes : store;
  head : ptr;
  tail : ptr;
  current_level : Z;
  totalSize : Z;
}.

(** [SkipList()]: one level made of the two sentinels. *)
Definition create : t :=
  let '(h, m) := alloc (new_Node NEGATIVE_INFINITY KeyValuePair_default) [] in
  let '(tl, m) := alloc (new_Node POSITIVE_INFINITY KeyValuePair_default) m in
  let m := <[h := with_next (Some tl) (new_Node NEGATIVE_INFINITY KeyValuePair_default)]> m in
  let m := <[tl := with_prev (Some h) (new_Node POSITIVE_INFINITY KeyValuePair_default)]> m in
  mk m h tl 0 0.

(** The inner loop of [search]:
    [while (cur->next->type != POSITIVE_INFINITY && cur->next->data.getKey() <= key) cur = cur->next;] *)
Fixpoint search_right (fuel : nat) (m : store) (key : string) (cur : ptr) : option ptr :=
  match fuel with
  | O => None
  | S fuel' =>
      nx ← follow n_next m cur;
      n ← m !! nx;
      if negb (SentinelType_eqb (n_type n) POSITIVE_INFINITY) && str_le (getKey (n_data n)) key
      then search_right fuel' m key nx
      else Some cur
  end.

(** The outer loop of [search]: move right, then down while there is a
    level below. *)
Fixpoint search_down (fuel : nat) (m : store) (key : string) (cur : ptr) : option ptr :=
  match fuel with
  | O => None
  | S fuel' =>
      cur ← search_right (length m) m key cur;
      c ← m !! cur;
      match n_down c with
      | Some d => search_down fuel' m key d
      | None => Some cur
      end
  end.

(** [search]: both loops visit each node at most once, so the size of
    the store bounds them. *)
Definition search (s : t) (key : string) : option ptr :=
  search_down (length (nodes s)) (nodes s) key (head s).

Definition get (s : t) (key : string) : option (bool * string) :=
  cur ← search s key;
  c ← nodes s !! cur;
  if str_eq (getKey (n_data c)) key
  then Some (true, getValue (n_data c))
  else Some (false, ""%string).

(** The body of [if (i >= current_level)] in [put]: a new top level. *)
Definition add_level (s : t) : option t :=
  let '(newHead, m) := alloc (new_Node NEGATIVE_INFINITY KeyValuePair_default) (nodes s) in
  let '(newTail, m) := alloc (new_Node POSITIVE_INFINITY KeyValuePair_default) m in
  m ← assign (with_next (Some newTail)) newHead m;
  m ← assign (with_prev (Some newHead)) newTail m;
  m ← assign (with_down (Some (head s))) newHead m;
  m ← assign (with_down (Some (tail s))) newTail m;
  m ← assign (with_up (Some newHead)) (head s) m;
  m ← assign (with_up (Some newTail)) (tail s) m;
  Some (mk m newHead newTail (current_level s + 1) (totalSize s)).

(** [while (current->up == nullptr) current = current->prev;] *)
Fixpoint climb (fuel : nat) (m : store) (current : ptr) : option ptr :=
  match fuel with
  | O => None
  | S fuel' =>
      c ← m !! current;
      match n_up c with
      | None => p ← n_prev c; climb fuel' m p
      | Some _ => Some current
      end
  end.

(** Linking a freshly allocated node [n] right after [current]:
    [n->prev = current; n->next = current->next;
     current->next->prev = n; current->next = n;] *)
Definition link_after (current n : ptr) (m : store) : option store :=
  m ← assign (with_prev (Some current)) n m;
  nx ← follow n_next m current;
  m ← assign (with_next (Some nx)) n m;
  nx ← follow n_next m current;
  m ← assign (with_prev (Some n)) nx m;
  assign (with_next (Some n)) current m.

(** The promotion loop of [put],
    [while (i < MAX_LEVEL && dis(gen) < P) { ... i++; }].
    [coins] lists the outcomes of the successive tests [dis(gen) < P];
    the generator is only consulted when [i < MAX_LEVEL]. *)
Fixpoint promote (fuel : nat) (coins : list bool) (i : Z) (key : string)
    (current newNode : ptr) (s : t) : option t :=
  match fuel with
  | O => None
  | S fuel' =>
      if negb (i <? MAX_LEVEL) then Some s else
      match coins with
      | true :: coins' =>
          s ← (if i >=? current_level s then add_level s else Some s);
          current ← climb (length (nodes s)) (nodes s) current;
          current ← follow n_up (nodes s) current;
          let '(newNodeUp, m) := alloc (new_Node NORMAL (mkKV key "")) (nodes s) in
          m ← link_after current newNodeUp m;
          m ← assign (with_up (Some newNodeUp)) newNode m;
          m ← assign (with_down (Some newNode)) newNodeUp m;
          promote fuel' coins' (i + 1) key current newNodeUp
            (mk m (head s) (tail s) (current_level s) (totalSize s))
      | _ => Some s
      end
  end.

(** [put].  The loop runs at most [MAX_LEVEL] times, plus the final
    test. *)
Definition put `{StdStringImpl} (coins : list bool) (key value : string) (s : t) : option t :=
  current ← search s key;
  c ← nodes s !! current;
  if str_eq (getKey (n_data c)) key then
    m ← assign (with_data (setValue value (n_data c))) current (nodes s);
    Some (mk m (head s) (tail s) (current_level s) (totalSize s))
  else
    let kv := mkKV key value in
    let total := wrap64 (totalSize s + kv_size kv) in
    let '(newNode, m) := alloc (new_Node NORMAL kv) (nodes s) in
    m ← link_after current newNode m;
    promote (Z.to_nat MAX_LEVEL + 1) coins 0 key current newNode
      (mk m (head s) (tail s) (current_level s) total).

Definition getSize (s : t) : Z := totalSize s.

(** An [Iterator] holds a node address or [nullptr]. *)
Definition Iterator := option ptr.

Definition end_ : Iterator := None.

(** [while (current->down != nullptr) current = current->down;] *)
Fixpoint descend (fuel : nat) (m : store) (current : ptr) : option ptr :=
  match fuel with
  | O => None
  | S fuel' =>
      c ← m !! current;
      match n_down c with
      | Some d => descend fuel' m d
      | None => Some current
      end
  end.

Definition begin (s : t) : option Iterator :=
  current ← descend (length (nodes s)) (nodes s) (head s);
  current ← follow n_next (nodes s) current;
  c ← nodes s !! current;
  if SentinelType_eqb (n_type c) POSITIVE_INFINITY then Some end_ else Some (Some current).

(** [Iterator::operator++] *)
Definition incr (m : store) (it : Iterator) : option Iterator :=
  match it with
  | None => Some None
  | Some current =>
      c ← m !! current;
      match n_next c with
      | None => Some None
      | Some nx =>
          n ← m !! nx;
          if SentinelType_eqb (n_type n) POSITIVE_INFINITY then Some None else Some (Some nx)
      end
  end.

(** [Iterator::operator*] *)
Definition star (m : store) (it : Iterator) : option KeyValuePair :=
  current ← it; c ← m !! current; Some (n_data c).

(** [find] *)
Definition find (s : t) (key : string) : option Iterator :=
  node ← search s key;
  c ← nodes s !! node;
  if str_eq (getKey (n_data c)) key && SentinelType_eqb (n_type c) NORMAL
  then Some (Some node) else Some end_.

(** [for (auto it = begin(); it != end(); ++it) entries.push_back( *it );] *)
Fixpoint collect (fuel : nat) (m : store) (it : Iterator) : option (list KeyValuePair) :=
  match fuel with
  | O => None
  | S fuel' =>
      match it with
      | None => Some []
      | Some _ =>
          kv ← star m it;
          it' ← incr m it;
          rest ← collect fuel' m it';
          Some (kv :: rest)
      end
  end.

Definition to_vector (s : t) : option (list KeyValuePair) :=
  it ← begin s; collect (length (nodes s)) (nodes s) it.

End SkipList.

(** ** memtable.hpp *)

Module MemTable.

(** The table owns exactly one skip list ([SkipList *list]). *)
Record t := mk { list_ : SkipList.t }.

(** [MemTable()] *)
Definition create : t := mk SkipList.create.

Definition put `{StdStringImpl} (coins : list bool) (key value : string) (mt : t) : option t :=
  l ← SkipList.put coins key value (list_ mt); Some (mk l).

Definition get (mt : t) (key : string) : option (bool * string) :=
  result ← SkipList.get (list_ mt) key;
  if negb (fst result) then Some (false, ""%string)
  else if str_eq (snd result) TOMBSTONE then Some (false, snd result)
  else Some (true, snd result).

Definition remove `{StdStringImpl} (coins : list bool) (key : string) (mt : t) : option t :=
  l ← SkipList.put coins key TOMBSTONE (list_ mt); Some (mk l).

Definition getSize (mt : t) : Z := SkipList.getSize (list_ mt).

Definition begin (mt : t) : option SkipList.Iterator := SkipList.begin (list_ mt).
Definition end_ : SkipList.Iterator := SkipList.end_.
Definition find (mt : t) (key : string) : option SkipList.Iterator := SkipList.find (list_ mt) key.

End MemTable.

(** ** Files and streams *)

(** A file is its sequence of bytes; the file system maps paths to
    files. *)
Definition file := list ascii.
Definition filesystem := list (string * file).

Fixpoint fs_lookup (path : string) (fs : filesystem) : option file :=
  match fs with
  | [] => None
  | (p, c) :: fs' => if str_eq p path then Some c else fs_lookup path fs'
  end.

(** [std::filesystem::remove] *)
Fixpoint fs_remove (path : string) (fs : filesystem) : filesystem :=
  match fs with
  | [] => []
  | (p, c) :: fs' => if str_eq p path then fs_remove path fs' else (p, c) :: fs_remove path fs'
  end.

(** The file a closed [std::ofstream] leaves behind. *)
Definition fs_write (path : string) (c : file) (fs : filesystem) : filesystem :=
  (path, c) :: fs_remove path fs.

(** [std::filesystem::directory_iterator(dir)]: the paths below [dir],
    in the order the file system lists them. *)
Definition directory_iterator (dir : string) (fs : filesystem) : list string :=
  filter (fun p => String.prefix dir p = true) (map fst fs).

(** Integers are written from and read into memory byte by byte; the
    encoding is little-endian. *)
Fixpoint le_encode (n : nat) (z : Z) : list ascii :=
  match n with
  | O => []
  | S n' => ascii_of_N (Z.to_N (z mod 256)) :: le_encode n' (z / 256)
  end.

Fixpoint le_decode (bs : list ascii) : Z :=
  match bs with
  | [] => 0
  | b :: bs' => Z.of_N (N_of_ascii b) + 256 * le_decode bs'
  end.

(** [s.write(str.c_str(), n)]: the first [n] characters of [str]. *)
Definition chars (str : string) (n : Z) : list ascii :=
  take (Z.to_nat n) (list_ascii_of_string str).

(** An open [std::ifstream]: contents, read position, and the two
    state bits that the engine's loops depend on. *)
Record ifstream := mk_ifstream {
  content : file;
  gpos : nat;
  eofbit : bool;
  failbit : bool;
}.

(** [std::ifstream f(path, std::ios::binary)]; [None] when
    [!f.is_open()]. *)
Definition open_in (fs : filesystem) (path : string) : option ifstream :=
  c ← fs_lookup path fs; Some (mk_ifstream c 0 false false).

(** [f.seekg(pos)] clears [eofbit] and moves the read position unless
    the stream has failed. *)
Definition seekg (pos : Z) (f : ifstream) : ifstream :=
  if failbit f then mk_ifstream (content f) (gpos f) false true
  else mk_ifstream (content f) (Z.to_nat pos) false false.

(** [f.read(buf, n)]: the bytes extracted.  A stream that is not
    [good()] extracts nothing and fails; a short read sets [eofbit] and
    [failbit]. *)
Definition read (n : nat) (f : ifstream) : list ascii * ifstream :=
  if eofbit f || failbit f then ([], mk_ifstream (content f) (gpos f) (eofbit f) true)
  else
    let avail := take n (drop (gpos f) (content f)) in
    if (length avail <? n)%nat
    then (avail, mk_ifstream (content f) (gpos f + length avail) true true)
    else (avail, mk_ifstream (content f) (gpos f + n) false false).

(** [uintN_t x; f.read(reinterpret_cast<char*>(&x), sizeof x);]
    [x] is only defined when all its bytes were read. *)
Definition read_uint (bytes : nat) (f : ifstream) : option Z * ifstream :=
  let '(bs, f') := read bytes f in
  ((if (length bs =? bytes)%nat then Some (le_decode bs) else None), f').

(** [std::string s(n, 0); f.read(&s[0], n);]: the characters that a
    short read leaves untouched stay zero. *)
Definition read_string (n : Z) (f : ifstream) : string * ifstream :=
  let '(bs, f') := read (Z.to_nat n) f in
  (string_of_list_ascii (bs ++ replicate (Z.to_nat n - length bs) zero), f').

(** ** sstable.hpp *)

Module SS_Table.

Definition KEYS_PER_INDEX_ENTRY : Z := 10.

Record t := mk {
  index_filename : string;
  data_filename : string;
  index : list (string * Z);
  indexLoaded : bool;
}.

(** The loop of [findStartOffset], in [size_t] arithmetic.  [None]
    stands for an access outside the vector. *)
Fixpoint bsearch (fuel : nat) (index : list (string * Z)) (key : string) (left right : Z) : option Z :=
  match fuel with
  | O => None
  | S fuel' =>
      if left <? right then
        let mid := wrap64 (left + wrap64 (wrap64 (wrap64 (right - left) + 1) / 2)) in
        e ← index !! Z.to_nat mid;
        if str_le (fst e) key
        then bsearch fuel' index key mid right
        else bsearch fuel' index key left (wrap64 (mid - 1))
      else Some left
  end.

(** [findStartOffset]: the outer option is definedness, the inner one
    the returned [std::optional]. *)
Definition findStartOffset (index : list (string * Z)) (key : string) : option (option Z) :=
  match index with
  | [] => Some None
  | e0 :: _ =>
      if str_lt key (fst e0) then Some (Some (snd e0))
      else
        left ← bsearch (length index) index key 0 (wrap64 (Z.of_nat (length index) - 1));
        e ← index !! Z.to_nat left;
        Some (Some (snd e))
  end.

(** The loop of [createFromMemTable] over [entries], from position [i]
    on; it returns what has been written to both files. *)
Fixpoint write_entries (i : Z) (entries : list KeyValuePair) (indexFile dataFile : file)
    (offset : Z) : file * file :=
  match entries with
  | [] => (indexFile, dataFile)
  | entry :: rest =>
      let key_size := wrap32 (str_size (getKey entry)) in
      let value_size := wrap32 (str_size (getValue entry)) in
      let indexFile :=
        if i mod KEYS_PER_INDEX_ENTRY =? 0
        then indexFile ++ le_encode 4 key_size ++ chars (getKey entry) key_size ++ le_encode 8 offset
        else indexFile in
      let dataFile :=
        dataFile ++ le_encode 4 key_size ++ chars (getKey entry) key_size
                 ++ le_encode 4 value_size ++ chars (getValue entry) value_size in
      write_entries (wrap64 (i + 1)) rest indexFile dataFile
        (wrap64 (offset + 4 + key_size + 4 + value_size))
  end.

(** [createFromMemTable].  [opens] tells whether the two output streams
    could be opened; an opened stream creates or truncates its file.
    The result is the returned flag and the file system afterwards. *)
Definition createFromMemTable (opens : bool * bool) (filename : string) (memTable : MemTable.t)
    (fs : filesystem) : option (bool * filesystem) :=
  let fs := if fst opens then fs_write (filename ++ INDEX_EXTENSION) [] fs else fs in
  let fs := if snd opens then fs_write (filename ++ DATA_EXTENSION) [] fs else fs in
  if negb (fst opens) || negb (snd opens) then Some (false, fs)
  else
    entries ← SkipList.to_vector (MemTable.list_ memTable);
    let entries_count := wrap64 (Z.of_nat (length entries)) in
    let sparse_index_count :=
      wrap64 (wrap64 (entries_count + KEYS_PER_INDEX_ENTRY) - 1) / KEYS_PER_INDEX_ENTRY in
    let '(indexFile, dataFile) := write_entries 0 entries (le_encode 8 sparse_index_count) [] 0 in
    let fs := fs_write (filename ++ INDEX_EXTENSION) indexFile fs in
    let fs := fs_write (filename ++ DATA_EXTENSION) dataFile fs in
    Some (true, fs).

(** The loop of [loadIndex]; reading an integer that was not fully
    read is undefined ([None]). *)
Fixpoint load_entries (count : nat) (f : ifstream) (index : list (string * Z))
    : option (list (string * Z)) :=
  match count with
  | O => Some index
  | S count' =>
      let '(key_size, f) := read_uint 4 f in
      key_size ← key_size;
      let '(key, f) := read_string key_size f in
      let '(offset, f) := read_uint 8 f in
      offset ← offset;
      load_entries count' f (index ++ [(key, offset)])
  end.

(** [loadIndex]: the returned flag and the table afterwards
    ([index.reserve] only affects capacity). *)
Definition loadIndex (fs : filesystem) (tb : t) : option (bool * t) :=
  match open_in fs (index_filename tb) with
  | None => Some (false, tb)
  | Some indexFile =>
      let '(entries_count, indexFile) := read_uint 8 indexFile in
      entries_count ← entries_count;
      index ← load_entries (Z.to_nat entries_count) indexFile [];
      Some (true, mk (index_filename tb) (data_filename tb) index (indexLoaded tb))
  end.

(** [SS_Table(index_filename, data_filename)] *)
Definition open_files (fs : filesystem) (index_filename data_filename : string) : option t :=
  r ← loadIndex fs (mk index_filename data_filename [] false);
  Some (mk (SS_Table.index_filename (snd r)) (SS_Table.data_filename (snd r))
          (index (snd r)) (fst r)).

(** [SS_Table(filename)] *)
Definition open (fs : filesystem) (filename : string) : option t :=
  open_files fs (filename ++ INDEX_EXTENSION) (filename ++ DATA_EXTENSION).

(** The scan loop of [getValue], [while (!dataFile.eof()) { ... }]. *)
Fixpoint scan (fuel : nat) (key : string) (dataFile : ifstream) : option (bool * string) :=
  match fuel with
  | O => None
  | S fuel' =>
      if eofbit dataFile then Some (false, ""%string) else
      let '(key_size, dataFile) := read_uint 4 dataFile in
      if eofbit dataFile then Some (false, ""%string) else
      key_size ← key_size;
      let '(stored_key, dataFile) := read_string key_size dataFile in
      if str_lt key stored_key then Some (false, ""%string) else
      let '(value_size, dataFile) := read_uint 4 dataFile in
      value_size ← value_size;
      let '(value, dataFile) := read_string value_size dataFile in
      if str_eq stored_key key then
        if str_eq value TOMBSTONE then Some (false, value) else Some (true, value)
      else scan fuel' key dataFile
  end.

(** [getValue].  Every pass of the loop that does not leave it reads
    at least the four bytes of a key size. *)
Definition getValue (fs : filesystem) (tb : t) (key : string) : option (bool * string) :=
  if negb (indexLoaded tb) then Some (false, ""%string) else
  start_offset ← findStartOffset (index tb) key;
  match start_offset with
  | None => Some (false, ""%string)
  | Some start_offset =>
      match open_in fs (data_filename tb) with
      | None => Some (false, ""%string)
      | Some dataFile =>
          scan (length (content dataFile) + 2) key (seekg start_offset dataFile)
      end
  end.

Definition getIndexFile (tb : t) : string := index_filename tb.
Definition getDataFilename (tb : t) : string := data_filename tb.

End SS_Table.

(** ** std::map<std::string, std::string>

    An ordered map is the list of its entries in ascending key order. *)

Definition strmap := list (string * string).

(** [m.find(key)]; [None] is [m.end()]. *)
Fixpoint map_find (key : string) (m : strmap) : option string :=
  match m with
  | [] => None
  | (k, v) :: m' => if str_eq k key then Some v else map_find key m'
  end.

(** [m[key] = value] *)
Fixpoint map_assign (key value : string) (m : strmap) : strmap :=
  match m with
  | [] => [(key, value)]
  | (k, v) :: m' =>
      if str_lt key k then (key, value) :: (k, v) :: m'
      else if str_eq k key then (k, value) :: m'
      else (k, v) :: map_assign key value m'
  end.

(** [std::to_string(long long)] *)
Definition to_string (z : Z) : string :=
  DecimalString.NilZero.string_of_int (Z.to_int z).

(** [s.find(needle)]; [None] is [npos]. *)
Definition str_find (needle s : string) : option nat := String.index 0 needle s.

(** ** lsm.hpp *)

Module LSMTree.

(** The coordinator's data.  Locks, condition variables and the two
    worker threads are not part of the state: every operation below is
    one critical section or one pass of a worker, taken atomically. *)
Record t := mk {
  SS_TABLE_PATH : string;
  activeMemTable : MemTable.t;
  memTables : list MemTable.t;
  sstables : list SS_Table.t;
}.

Definition rotate_memtable (s : t) : t :=
  let new_memtable := MemTable.create in
  mk (SS_TABLE_PATH s) new_memtable (memTables s ++ [activeMemTable s]) (sstables s).

(** [flush_memtable]; [timestamp] is the clock reading in
    milliseconds. *)
Definition flush_memtable (opens : bool * bool) (timestamp : Z) (memtable : MemTable.t)
    (fs : filesystem) (s : t) : option (filesystem * t) :=
  let filename := (SS_TABLE_PATH s ++ "sstable_" ++ to_string timestamp)%string in
  r ← SS_Table.createFromMemTable opens filename memtable fs;
  let success : bool := fst r in
  let fs := snd r in
  if success then
    sstable ← SS_Table.open fs filename;
    Some (fs, mk (SS_TABLE_PATH s) (activeMemTable s) (memTables s) (sstables s ++ [sstable]))
  else Some (fs, s).

(** One pass of [flush_worker] once it has been woken up: the oldest
    sealed memtable, if any, is flushed. *)
Definition flush_worker (opens : bool * bool) (timestamp : Z) (fs : filesystem) (s : t)
    : option (filesystem * t) :=
  match memTables s with
  | [] => Some (fs, s)
  | memtable_to_flush :: rest =>
      flush_memtable opens timestamp memtable_to_flush fs
        (mk (SS_TABLE_PATH s) (activeMemTable s) rest (sstables s))
  end.

(** [std::sort] with the comparison [a->getIndexFile() < b->getIndexFile()].
    Handles with equal names, whose relative order [std::sort] leaves
    open, keep their order here. *)
Fixpoint sort_insert (x : SS_Table.t) (l : list SS_Table.t) : list SS_Table.t :=
  match l with
  | [] => [x]
  | y :: l' =>
      if str_lt (SS_Table.getIndexFile y) (SS_Table.getIndexFile x)
      then y :: sort_insert x l' else x :: y :: l'
  end.

Definition sort_by_index_file (l : list SS_Table.t) : list SS_Table.t :=
  foldr sort_insert [] l.

(** The loop of [perform_compaction] over the records of one data
    file: a key enters [merged_data] only if it is not there yet. *)
Fixpoint merge_records (fuel : nat) (data_file : ifstream) (merged_data : strmap) : option strmap :=
  match fuel with
  | O => None
  | S fuel' =>
      if eofbit data_file then Some merged_data else
      let '(key_size, data_file) := read_uint 4 data_file in
      if eofbit data_file then Some merged_data else
      key_size ← key_size;
      let '(key, data_file) := read_string key_size data_file in
      let '(value_size, data_file) := read_uint 4 data_file in
      value_size ← value_size;
      let '(value, data_file) := read_string value_size data_file in
      let merged_data :=
        match map_find key merged_data with
        | None => map_assign key value merged_data
        | Some _ => merged_data
        end in
      merge_records fuel' data_file merged_data
  end.

(** The loop over [tables_to_compact]; a data file that cannot be
    opened is skipped. *)
Fixpoint merge_tables (fs : filesystem) (tables : list SS_Table.t) (merged_data : strmap)
    : option strmap :=
  match tables with
  | [] => Some merged_data
  | sstable :: rest =>
      match open_in fs (SS_Table.getDataFilename sstable) with
      | None => merge_tables fs rest merged_data
      | Some data_file =>
          merged_data ← merge_records (length (content data_file) + 2) data_file merged_data;
          merge_tables fs rest merged_data
      end
  end.

(** [for (x : merged_data) if (x.second != TOMBSTONE) merged_memtable->put(x.first, x.second);]
    The i-th [put] draws the coins [coins !! i]. *)
Fixpoint put_merged `{StdStringImpl} (coins : list (list bool)) (merged_data : strmap)
    (merged_memtable : MemTable.t) : option MemTable.t :=
  match merged_data with
  | [] => Some merged_memtable
  | x :: rest =>
      if negb (str_eq (snd x) TOMBSTONE) then
        merged_memtable ← MemTable.put (hd [] coins) (fst x) (snd x) merged_memtable;
        put_merged (tl coins) rest merged_memtable
      else put_merged coins rest merged_memtable
  end.

(** Deleting both files of every compacted table. *)
Fixpoint remove_tables (tables : list SS_Table.t) (fs : filesystem) : filesystem :=
  match tables with
  | [] => fs
  | sstable :: rest =>
      remove_tables rest
        (fs_remove (SS_Table.getDataFilename sstable) (fs_remove (SS_Table.getIndexFile sstable) fs))
  end.

(** [perform_compaction]: one compaction pass. *)
Definition perform_compaction `{StdStringImpl} (coins : list (list bool)) (opens : bool * bool)
    (timestamp : Z) (fs : filesystem) (s : t) : option (filesystem * t) :=
  if Z.of_nat (length (sstables s)) <? MAX_SSTABLE_COUNT then Some (fs, s) else
  let tables_to_take := Z.to_nat MAX_SSTABLE_COUNT in
  let tables_to_compact := take tables_to_take (sstables s) in
  let s := mk (SS_TABLE_PATH s) (activeMemTable s) (memTables s) (drop tables_to_take (sstables s)) in
  match tables_to_compact with
  | [] => Some (fs, s)
  | _ =>
      let tables_to_compact := sort_by_index_file tables_to_compact in
      merged_data ← merge_tables fs tables_to_compact [];
      merged_memtable ← put_merged coins merged_data MemTable.create;
      let filename := (SS_TABLE_PATH s ++ "sstable_" ++ to_string timestamp)%string in
      r ← SS_Table.createFromMemTable opens filename merged_memtable fs;
      let success : bool := fst r in
      let fs := snd r in
      if success then
        let fs := remove_tables tables_to_compact fs in
        new_sstable ← SS_Table.open fs filename;
        Some (fs, mk (SS_TABLE_PATH s) (activeMemTable s) (memTables s) (sstables s ++ [new_sstable]))
      else Some (fs, s)
  end.

(** The loop of [load_existing_sstables] over the directory listing. *)
Fixpoint load_files (fs : filesystem) (files : list string) (sstables : list SS_Table.t)
    : option (list SS_Table.t) :=
  match files with
  | [] => Some sstables
  | file :: rest =>
      match str_find INDEX_EXTENSION file with
      | Some pos =>
          let data_file := String.substring 0 pos file in
          sstable ← SS_Table.open_files fs file (data_file ++ DATA_EXTENSION);
          r ← SS_Table.loadIndex fs sstable;
          if (fst r : bool) then load_files fs rest (sstables ++ [snd r])
          else load_files fs rest sstables
      | None => load_files fs rest sstables
      end
  end.

Definition load_existing_sstables (fs : filesystem) (s : t) : option t :=
  let files := directory_iterator (SS_TABLE_PATH s) fs in
  sstables ← load_files fs files (sstables s);
  Some (mk (SS_TABLE_PATH s) (activeMemTable s) (memTables s) (sort_by_index_file sstables)).

(** [LSMTree()] *)
Definition create (fs : filesystem) : option t :=
  load_existing_sstables fs (mk DATA_DIR MemTable.create [] []).

Definition put `{StdStringImpl} (coins : list bool) (key value : string) (s : t) : option t :=
  m ← MemTable.put coins key value (activeMemTable s);
  let s := mk (SS_TABLE_PATH s) m (memTables s) (sstables s) in
  if MemTable.getSize (activeMemTable s) >=? MAX_MEMTABLE_SIZE
  then Some (rotate_memtable s) else Some s.

(** The loop of [get] over the sealed memtables, newest first. *)
Fixpoint get_memTables (rits : list MemTable.t) (key : string) : option (option (bool * string)) :=
  match rits with
  | [] => Some None
  | it :: rest =>
      result ← MemTable.get it key;
      if (fst result : bool) then Some (Some result)
      else if negb (fst result) && str_eq (snd result) TOMBSTONE then Some (Some (false, snd result))
      else get_memTables rest key
  end.

(** The loop of [get] over the SSTables, newest first. *)
Fixpoint get_sstables (fs : filesystem) (rits : list SS_Table.t) (key : string)
    : option (option (bool * string)) :=
  match rits with
  | [] => Some None
  | it :: rest =>
      result ← SS_Table.getValue fs it key;
      if (fst result : bool) then Some (Some result)
      else if negb (fst result) && str_eq (snd result) TOMBSTONE then Some (Some (false, snd result))
      else get_sstables fs rest key
  end.

(** [get]; the reverse iterators walk [rev memTables] and
    [rev sstables]. *)
Definition get (fs : filesystem) (s : t) (key : string) : option (bool * string) :=
  result ← MemTable.get (activeMemTable s) key;
  if (fst result : bool) then Some result
  else if negb (fst result) && str_eq (snd result) TOMBSTONE then Some (false, snd result)
  else
    r ← get_memTables (rev (memTables s)) key;
    match r with
    | Some result => Some result
    | None =>
        r ← get_sstables fs (rev (sstables s)) key;
        match r with
        | Some result => Some result
        | None => Some (false, ""%string)
        end
    end.

Definition remove `{StdStringImpl} (coins : list bool) (key : string) (s : t) : option t :=
  m ← MemTable.put coins key TOMBSTONE (activeMemTable s);
  Some (mk (SS_TABLE_PATH s) m (memTables s) (sstables s)).

End LSMTree.

(** * Part I, continued: the front ends *)

(** ** Character classification

    [std::isspace] and [::tolower] depend on the C locale in force, and
    on what the implementation does with the negative values that bytes
    above 127 have as [char]s.  They are an interface of the embedding;
    the instance below is the "C" locale, in which those bytes are
    neither spaces nor letters. *)

Class Ctype := {
  isspace : ascii -> bool;
  tolower : ascii -> ascii;
}.

Definition c_locale : Ctype := {|
  isspace := fun c =>
    let n := N_of_ascii c in ((9 <=? n) && (n <=? 13))%N || (n =? 32)%N;
  tolower := fun c =>
    let n := N_of_ascii c in
    if ((65 <=? n) && (n <=? 90))%N then ascii_of_N (n + 32) else c;
|}.

(** Characters that string literals cannot hold directly. *)
Definition CR : ascii := "013".
Definition LF : ascii := "010".
Definition ESC : ascii := "027".
Definition DQUOTE : ascii := "034".
Definition NUL : ascii := "000".

(** [#define CRLF "\r\n"] *)
Definition CRLF : string := String CR (String LF EmptyString).

(** ** resp/resp_encoder.hpp *)

Module RespEncoder.

Definition simpleString (str : string) : string := ("+" ++ str ++ CRLF)%string.

Definition error (message : string) : string := ("-ERR " ++ message ++ CRLF)%string.

Definition integer (value : Z) : string := (":" ++ to_string value ++ CRLF)%string.

Definition bulkString (str : string) (isNull : bool) : string :=
  if isNull then ("$-1" ++ CRLF)%string
  else if str_size str =? 0 then ("$0" ++ CRLF ++ CRLF)%string
  else ("$" ++ to_string (str_size str) ++ CRLF ++ str ++ CRLF)%string.

End RespEncoder.

(** ** command_parser.hpp *)

Module CommandParser.

Record ValidationResult := mkValidationResult {
  success : bool;
  errmsg : string;
  key : string;
  value : string;
}.

(** [ValidationResult()] *)
Definition ValidationResult_default : ValidationResult :=
  mkValidationResult false "" "" "".

(** The loop of [split] from a position on, with the locals [tokens],
    [token] and [inQuotes], and the test after the loop. *)
Fixpoint split_loop `{Ctype} (str : string) (tokens : list string) (token : string)
    (inQuotes : bool) : list string :=
  match str with
  | EmptyString => if negb (str_size token =? 0) then tokens ++ [token] else tokens
  | String c rest =>
      if Ascii.eqb c DQUOTE then split_loop rest tokens token (negb inQuotes)
      else if isspace c && negb inQuotes then
        if negb (str_size token =? 0) then split_loop rest (tokens ++ [token]) ""%string inQuotes
        else split_loop rest tokens token inQuotes
      else split_loop rest tokens (token ++ String c EmptyString)%string inQuotes
  end.

Definition split `{Ctype} (str : string) : list string := split_loop str [] ""%string false.

(** [tokens[i]] after the size of [tokens] has been checked. *)
Definition token_at (tokens : list string) (i : nat) : string := nth i tokens ""%string.

(** The validators return their flag and the [result] they leave. *)
Definition validate_set (tokens : list string) (result : ValidationResult)
    : bool * ValidationResult :=
  if negb (length tokens =? 3)%nat then
    (false, mkValidationResult false "wrong number of arguments for 'set' command"
              (key result) (value result))
  else if str_size (token_at tokens 1) =? 0 then
    (false, mkValidationResult false "invalid key" (key result) (value result))
  else (true, mkValidationResult true (errmsg result) (token_at tokens 1) (token_at tokens 2)).

Definition validate_get (tokens : list string) (result : ValidationResult)
    : bool * ValidationResult :=
  if negb (length tokens =? 2)%nat then
    (false, mkValidationResult false "wrong number of arguments for 'get' command"
              (key result) (value result))
  else if str_size (token_at tokens 1) =? 0 then
    (false, mkValidationResult false "invalid key" (key result) (value result))
  else (true, mkValidationResult true (errmsg result) (token_at tokens 1) (value result)).

Definition validate_del (tokens : list string) (result : ValidationResult)
    : bool * ValidationResult :=
  if negb (length tokens =? 2)%nat then
    (false, mkValidationResult false "wrong number of arguments for 'del' command"
              (key result) (value result))
  else if str_size (token_at tokens 1) =? 0 then
    (false, mkValidationResult false "invalid key" (key result) (value result))
  else (true, mkValidationResult true (errmsg result) (token_at tokens 1) (value result)).

Definition nl : string := String LF EmptyString.

Definition help : string :=
  ("Available commands:" ++ nl ++
   " SET <key> <value> - Set key to hold the string value" ++ nl ++
   " GET <key>         - Get the value of key" ++ nl ++
   " DEL <key>         - Delete a key" ++ nl ++
   " help              - Show this help menu" ++ nl ++
   " exit              - Exit the program" ++ nl ++
   " clear             - Clear the screen" ++ nl)%string.

(** [std::transform(command.begin(), command.end(), command.begin(), ::tolower)] *)
Fixpoint lowercase `{Ctype} (s : string) : string :=
  match s with
  | EmptyString => EmptyString
  | String c rest => String (tolower c) (lowercase rest)
  end.

(** What a call of [parser] ends in: the returned string, or the end of
    the process by [exit(0)]. *)
Inductive outcome :=
  | Return (s : string)
  | Exit.

(** [parser] on the engine [db].  The engine's background threads are
    not part of a call; [coins] are the coin flips of the insertion, if
    the command makes one, and [fs] is the file system that [get]
    reads.  None of the operations embedded here throws, so the [catch]
    clause has no counterpart. *)
Definition parser `{StdStringImpl} `{Ctype} (coins : list bool) (fs : filesystem)
    (line : string) (db : LSMTree.t) : option (outcome * LSMTree.t) :=
  let tokens := split line in
  match tokens with
  | [] => Some (Return ""%string, db)
  | token0 :: _ =>
      let result := ValidationResult_default in
      let command := lowercase token0 in
      if str_eq command "set" then
        let '(ok, result) := validate_set tokens result in
        if negb ok then Some (Return (RespEncoder.error (errmsg result)), db)
        else
          db ← LSMTree.put coins (key result) (value result) db;
          Some (Return (RespEncoder.simpleString "OK"), db)
      else if str_eq command "get" then
        let '(ok, result) := validate_get tokens result in
        if negb ok then Some (Return (RespEncoder.error (errmsg result)), db)
        else
          found_value ← LSMTree.get fs db (key result);
          if negb (fst found_value) then Some (Return ("NULL" ++ nl)%string, db)
          else Some (Return (snd found_value ++ nl)%string, db)
      else if str_eq command "del" then
        let '(ok, result) := validate_del tokens result in
        if negb ok then Some (Return (RespEncoder.error (errmsg result)), db)
        else
          found_value ← LSMTree.get fs db (key result);
          if negb (fst found_value) then
            Some (Return ("key " ++ String DQUOTE (key result) ++ String DQUOTE " not found"
                          ++ nl)%string, db)
          else
            db ← LSMTree.remove coins (key result) db;
            Some (Return (RespEncoder.integer 1), db)
      else if str_eq command "help" then Some (Return help, db)
      else if str_eq command "exit" then Some (Exit, db)
      else if str_eq command "clear" then
        Some (Return (String ESC "[2J" ++ String ESC "[1;1H")%string, db)
      else Some (Return (RespEncoder.error ("unknown command '" ++ command ++ "'")), db)
  end.

End CommandParser.

(** ** resp/resp_decoder.hpp *)

Inductive Operation := SET | GET | DEL | UNKNOWN.

Definition Operation_eqb (a b : Operation) : bool :=
  match a, b with
  | SET, SET | GET, GET | DEL, DEL | UNKNOWN, UNKNOWN => true
  | _, _ => false
  end.

(** [class Resp] *)
Module Resp.

Record t := mk {
  operation : Operation;
  key : string;
  value : string;
  success : bool;
  error : string;
}.

(** [Resp()] *)
Definition default : t := mk UNKNOWN "" "" false "".

(** Assignments to one member. *)
Definition with_error (e : string) (r : t) : t :=
  mk (operation r) (key r) (value r) (success r) e.
Definition with_operation (o : Operation) (r : t) : t :=
  mk o (key r) (value r) (success r) (error r).
Definition with_key (k : string) (r : t) : t :=
  mk (operation r) k (value r) (success r) (error r).
Definition with_value (v : string) (r : t) : t :=
  mk (operation r) (key r) v (success r) (error r).
Definition with_success (b : bool) (r : t) : t :=
  mk (operation r) (key r) (value r) b (error r).

End Resp.

(** [int] bounds. *)
Definition INT_MIN : Z := - 2 ^ 31.
Definition INT_MAX : Z := 2 ^ 31 - 1.

Definition is_digit (c : ascii) : bool :=
  let n := N_of_ascii c in ((48 <=? n) && (n <=? 57))%N.

(** The leading whitespace that [strtol] skips. *)
Fixpoint skip_spaces `{Ctype} (s : string) : string :=
  match s with
  | EmptyString => EmptyString
  | String c rest => if isspace c then skip_spaces rest else s
  end.

(** The decimal digits at the start of [s], accumulated onto [acc];
    [None] when there is none ([seen] tells whether one was read). *)
Fixpoint read_digits (s : string) (acc : Z) (seen : bool) : option Z :=
  match s with
  | EmptyString => if seen then Some acc else None
  | String c rest =>
      if is_digit c then read_digits rest (10 * acc + (Z.of_N (N_of_ascii c) - 48)) true
      else if seen then Some acc else None
  end.

(** [std::stoi(str)]: optional whitespace, an optional sign, decimal
    digits; what follows the digits is ignored.  [None] stands for the
    exceptions [std::invalid_argument] (no digits) and
    [std::out_of_range] (the value is no [int]), which the callers catch
    alike. *)
Definition stoi `{Ctype} (str : string) : option Z :=
  let s := skip_spaces str in
  let '(negative, s) :=
    match s with
    | String c rest =>
        if Ascii.eqb c "-" then (true, rest)
        else if Ascii.eqb c "+" then (false, rest)
        else (false, s)
    | EmptyString => (false, s)
    end in
  v ← read_digits s 0 false;
  let v := if negative then - v else v in
  if (INT_MIN <=? v) && (v <=? INT_MAX) then Some v else None.

(** [input.remove_prefix(n)], for [n] up to the size of the view. *)
Fixpoint remove_prefix (n : nat) (input : string) : string :=
  match n, input with
  | O, _ => input
  | S n', String _ rest => remove_prefix n' rest
  | S _, EmptyString => EmptyString
  end.

(** [input[0] != c], on a view that may be empty. *)
Definition first_is_not (c : ascii) (input : string) : bool :=
  match input with
  | EmptyString => true
  | String c0 _ => negb (Ascii.eqb c0 c)
  end.

Module RespDecoder.

(** [parseOperation], [parseKey] and [parseValue] take [input] and
    [resp] by reference; here they return their flag together with the
    two.  The outer option is [None] where the [int] addition [len + 2]
    overflows. *)
Definition parseOperation `{Ctype} (input : string) (resp : Resp.t)
    : option (bool * string * Resp.t) :=
  if (str_size input =? 0) || first_is_not "$" input then
    Some (false, input, Resp.with_error "Invalid request: missing operation string marker" resp)
  else
    match str_find CRLF input with
    | None => Some (false, input, Resp.with_error "Invalid request: malformed operation length" resp)
    | Some pos =>
        match stoi (String.substring 1 (pos - 1) input) with
        | None => Some (false, input, Resp.with_error "Invalid request: invalid operation length" resp)
        | Some op_len =>
            let input := remove_prefix (pos + 2) input in
            if str_size input <? wrap64 (wrap64 op_len + 2) then
              Some (false, input, Resp.with_error "Invalid request: truncated operation" resp)
            else
              let op := String.substring 0 (Z.to_nat (wrap64 op_len)) input in
              let resp' :=
                if str_eq op "DEL" then Some (Resp.with_operation DEL resp)
                else if str_eq op "GET" then Some (Resp.with_operation GET resp)
                else if str_eq op "SET" then Some (Resp.with_operation SET resp)
                else None in
              match resp' with
              | None => Some (false, input, Resp.with_error "Invalid request: unknown operation" resp)
              | Some resp =>
                  if INT_MAX <? op_len + 2 then None
                  else Some (true, remove_prefix (Z.to_nat (wrap64 (op_len + 2))) input, resp)
              end
        end
    end.

Definition parseKey `{Ctype} (input : string) (resp : Resp.t) : option (bool * string * Resp.t) :=
  if (str_size input =? 0) || first_is_not "$" input then
    Some (false, input, Resp.with_error "Invalid request: missing key string marker" resp)
  else
    match str_find CRLF input with
    | None => Some (false, input, Resp.with_error "Invalid request: malformed key length" resp)
    | Some pos =>
        match stoi (String.substring 1 (pos - 1) input) with
        | None => Some (false, input, Resp.with_error "Invalid request: invalid key length" resp)
        | Some key_len =>
            let input := remove_prefix (pos + 2) input in
            if str_size input <? wrap64 (wrap64 key_len + 2) then
              Some (false, input, Resp.with_error "Invalid request: truncated key" resp)
            else
              let resp := Resp.with_key (String.substring 0 (Z.to_nat (wrap64 key_len)) input) resp in
              if INT_MAX <? key_len + 2 then None
              else Some (true, remove_prefix (Z.to_nat (wrap64 (key_len + 2))) input, resp)
        end
    end.

Definition parseValue `{Ctype} (input : string) (resp : Resp.t) : option (bool * string * Resp.t) :=
  if (str_size input =? 0) || first_is_not "$" input then
    Some (false, input, Resp.with_error "Invalid request: missing value string marker" resp)
  else
    match str_find CRLF input with
    | None => Some (false, input, Resp.with_error "Invalid request: malformed value length" resp)
    | Some pos =>
        match stoi (String.substring 1 (pos - 1) input) with
        | None => Some (false, input, Resp.with_error "Invalid request: invalid value length" resp)
        | Some value_len =>
            let input := remove_prefix (pos + 2) input in
            if str_size input <? wrap64 (wrap64 value_len + 2) then
              Some (false, input, Resp.with_error "Invalid request: truncated value" resp)
            else
              let resp :=
                Resp.with_value (String.substring 0 (Z.to_nat (wrap64 value_len)) input) resp in
              if INT_MAX <? value_len + 2 then None
              else Some (true, remove_prefix (Z.to_nat (wrap64 (value_len + 2))) input, resp)
        end
    end.

(** [decode(buffer, length)] on the [length] bytes of [buffer]. *)
Definition decode `{Ctype} (input : string) : option Resp.t :=
  let resp := Resp.default in
  if (str_size input =? 0) || first_is_not "*" input then
    Some (Resp.with_error "Invalid request: missing array marker" resp)
  else
    match str_find CRLF input with
    | None => Some (Resp.with_error "Invalid request: malformed array header" resp)
    | Some pos =>
        match stoi (String.substring 1 (pos - 1) input) with
        | None => Some (Resp.with_error "Invalid request: invalid argument count" resp)
        | Some num_args =>
            if (num_args <? 2) || (3 <? num_args) then
              Some (Resp.with_error "Invalid request: unexpected argument count" resp)
            else
              let input := remove_prefix (pos + 2) input in
              '(ok, input, resp) ← parseOperation input resp;
              if negb (ok : bool) then Some resp else
              '(ok, input, resp) ← parseKey input resp;
              if negb (ok : bool) then Some resp else
              r ← (if Operation_eqb (Resp.operation resp) SET then
                     if negb (num_args =? 3) then
                       Some (inr (Resp.with_error "Invalid request: SET requires a value" resp))
                     else
                       '(ok, input, resp) ← parseValue input resp;
                       if negb (ok : bool) then Some (inr resp) else Some (inl (input, resp))
                   else if 2 <? num_args then
                     Some (inr (Resp.with_error "Invalid request: too many arguments" resp))
                   else Some (inl (input, resp)));
              match r with
              | inr resp => Some resp
              | inl (input, resp) =>
                  if negb (str_size input =? 0) && negb (str_eq input CRLF) then
                    Some (Resp.with_error "Invalid request: extra data after command" resp)
                  else Some (Resp.with_success true resp)
              end
        end
    end.

(** [std::strlen]: the bytes before the first zero byte. *)
Fixpoint c_str (buffer : string) : string :=
  match buffer with
  | EmptyString => EmptyString
  | String c rest => if Ascii.eqb c NUL then EmptyString else String c (c_str rest)
  end.

(** [decode(buffer)] on a zero-terminated buffer. *)
Definition decode_c_str `{Ctype} (buffer : string) : option Resp.t := decode (c_str buffer).

End RespDecoder.

(** ** kqueue_server.hpp *)

Module KqueueServer.

(** [handle_op]: the response that is sent, and the engine afterwards.
    None of the operations embedded here throws, so the [catch] clause
    has no counterpart. *)
Definition handle_op `{StdStringImpl} (coins : list bool) (fs : filesystem) (resp : Resp.t)
    (lsm : LSMTree.t) : option (string * LSMTree.t) :=
  match Resp.operation resp with
  | GET =>
      result ← LSMTree.get fs lsm (Resp.key resp);
      Some (RespEncoder.bulkString (snd result) (negb (fst result)), lsm)
  | SET =>
      lsm ← LSMTree.put coins (Resp.key resp) (Resp.value resp) lsm;
      Some (RespEncoder.simpleString "OK", lsm)
  | DEL =>
      lsm ← LSMTree.remove coins (Resp.key resp) lsm;
      Some (RespEncoder.integer 1, lsm)
  | UNKNOWN => Some (RespEncoder.error "Unknown operation", lsm)
  end.

(** [handleClientMessage] once the receive loop has ended with the
    bytes [buffer]: a zero byte is appended and the message is decoded
    and served.  The result is what is sent, if anything, and the engine
    afterwards. *)
Definition handleClientMessage `{StdStringImpl} `{Ctype} (coins : list bool) (fs : filesystem)
    (buffer : string) (lsm : LSMTree.t) : option (option string * LSMTree.t) :=
  if 0 <? str_size buffer then
    resp ← RespDecoder.decode_c_str (buffer ++ String NUL EmptyString);
    if negb (Resp.success resp) then Some (Some (RespEncoder.error (Resp.error resp)), lsm)
    else r ← handle_op coins fs resp lsm; Some (Some (fst r), snd r)
  else Some (None, lsm).

End KqueueServer.

(** * Part II: specification vocabulary *)

(** ** The order on strings *)

Definition slt (a b : string) : Prop := String.compare a b = Lt.

(** ** The node store *)

(** Total field accessors; an address outside the store reads as a
    fresh node. *)
Definition node_at (m : store) (p : ptr) : Node :=
  default (new_Node NORMAL KeyValuePair_default) (m !! p).
Definition Key (m : store) (p : ptr) : string := getKey (n_data (node_at m p)).
Definition Val (m : store) (p : ptr) : string := getValue (n_data (node_at m p)).
Definition Typ (m : store) (p : ptr) : SentinelType := n_type (node_at m p).
Definition Nxt (m : store) (p : ptr) : option ptr := n_next (node_at m p).
Definition Prv (m : store) (p : ptr) : option ptr := n_prev (node_at m p).
Definition Up (m : store) (p : ptr) : option ptr := n_up (node_at m p).
Definition Dn (m : store) (p : ptr) : option ptr := n_down (node_at m p).

(** The type a node must have at position [i] of a level of length
    [len]. *)
Definition pos_type (len i : nat) : SentinelType :=
  match i with
  | O => NEGATIVE_INFINITY
  | S _ => if decide (S i = len) then POSITIVE_INFINITY else NORMAL
  end.

Global Arguments pos_type : simpl never.

(** One level: a doubly linked list from the negative to the positive
    sentinel, with strictly ascending keys in between. *)
Record level_ok (m : store) (L : list ptr) : Prop := {
  lo_len : (2 <= length L)%nat;
  lo_valid : forall i p, L !! i = Some p -> (p < length m)%nat;
  lo_next : forall i p, L !! i = Some p -> Nxt m p = L !! S i;
  lo_prev : forall i p, L !! i = Some p -> Prv m p = match i with O => None | S k => L !! k end;
  lo_type : forall i p, L !! i = Some p -> Typ m p = pos_type (length L) i;
  lo_head : forall p, L !! O = Some p -> Key m p = ""%string;
  lo_tail : forall i p, L !! i = Some p -> S i = length L -> Key m p = ""%string;
  lo_sorted : forall i j p q, (i < j)%nat -> (S j < length L)%nat ->
      L !! i = Some p -> L !! j = Some q -> slt (Key m p) (Key m q);
}.

(** The whole structure: [lv] lists the levels from the base up. *)
Record Inv (s : SkipList.t) (lv : list (list ptr)) : Prop := {
  inv_levels : forall j L, lv !! j = Some L -> level_ok (SkipList.nodes s) L;
  inv_nodup : NoDup (concat lv);
  inv_top : exists T, last lv = Some T /\ T !! O = Some (SkipList.head s)
                      /\ last T = Some (SkipList.tail s);
  inv_cur : SkipList.current_level s = Z.of_nat (length lv) - 1;
  inv_base : forall L p, lv !! O = Some L -> p ∈ L -> Dn (SkipList.nodes s) p = None;
  inv_up : forall j D, lv !! j = Some D ->
      omap (Up (SkipList.nodes s)) D = default [] (lv !! S j);
  inv_twin : forall j D q p, lv !! j = Some D -> q ∈ D -> Up (SkipList.nodes s) q = Some p ->
      Dn (SkipList.nodes s) p = Some q /\ Key (SkipList.nodes s) p = Key (SkipList.nodes s) q
      /\ Typ (SkipList.nodes s) p = Typ (SkipList.nodes s) q;
}.

(** The abstract content: the value held by the base sentinel and the
    entries of the base level. *)
Definition base_entries (m : store) (L : list ptr) : list KeyValuePair :=
  map (fun p => n_data (node_at m p)) (take (length L - 2) (drop 1 L)).

Definition Rep (s : SkipList.t) (sv : string) (es : list KeyValuePair) : Prop :=
  exists lv L h, Inv s lv /\ lv !! O = Some L /\ L !! O = Some h
    /\ Val (SkipList.nodes s) h = sv /\ base_entries (SkipList.nodes s) L = es.

(** The value stored under [key] in a list of entries. *)
Fixpoint kv_find (key : string) (es : list KeyValuePair) : option string :=
  match es with
  | [] => None
  | e :: es' => if str_eq (getKey e) key then Some (getValue e) else kv_find key es'
  end.

(** Entries in strictly ascending key order. *)
Definition ascending (es : list KeyValuePair) : Prop :=
  forall i j a b, (i < j)%nat -> es !! i = Some a -> es !! j = Some b -> slt (getKey a) (getKey b).

(** Overwriting or inserting an entry in an ascending list. *)
Fixpoint kv_upsert (key value : string) (es : list KeyValuePair) : list KeyValuePair :=
  match es with
  | [] => [mkKV key value]
  | e :: es' =>
      if str_lt key (getKey e) then mkKV key value :: e :: es'
      else if str_eq (getKey e) key then setValue value e :: es'
      else e :: kv_upsert key value es'
  end.

(** [ins i x l]: [l] with [x] inserted at position [i]. *)
Definition ins {A} (i : nat) (x : A) (l : list A) : list A := take i l ++ x :: drop i l.

(** ** Sequences of operations *)

(** A run of [SkipList::put] calls, each with the coins it draws. *)
Fixpoint put_all `{StdStringImpl} (ops : list (list bool * string * string)) (s : SkipList.t)
    : option SkipList.t :=
  match ops with
  | [] => Some s
  | (coins, key, value) :: rest => s' ← SkipList.put coins key value s; put_all rest s'
  end.

(** The three-valued answer of a layer for a stored value. *)
Definition classify (v : option string) : bool * string :=
  match v with
  | None => (false, ""%string)
  | Some v => if str_eq v TOMBSTONE then (false, v) else (true, v)
  end.

(** The calls a client can make on the engine. *)
Inductive op :=
  | Put (coins : list bool) (key value : string)
  | Remove (coins : list bool) (key : string).

Definition op_key (o : op) : string :=
  match o with Put _ k _ => k | Remove _ k => k end.

Definition run_op `{StdStringImpl} (o : op) (s : LSMTree.t) : option LSMTree.t :=
  match o with
  | Put coins k v => LSMTree.put coins k v s
  | Remove coins k => LSMTree.remove coins k s
  end.

Fixpoint run `{StdStringImpl} (ops : list op) (s : LSMTree.t) : option LSMTree.t :=
  match ops with
  | [] => Some s
  | o :: rest => s' ← run_op o s; run rest s'
  end.

(** The test of [LSMTree::put] after its insertion: whether the active
    memtable has reached [MAX_MEMTABLE_SIZE], so that the put seals it
    and hands it to the flush worker. *)
Definition put_rotates `{StdStringImpl} (coins : list bool) (key value : string)
    (s : LSMTree.t) : bool :=
  match MemTable.put coins key value (LSMTree.activeMemTable s) with
  | Some m => MemTable.getSize m >=? MAX_MEMTABLE_SIZE
  | None => false
  end.

(** [remove] has no such test. *)
Definition op_rotates `{StdStringImpl} (o : op) (s : LSMTree.t) : bool :=
  match o with
  | Put coins k v => put_rotates coins k v s
  | Remove _ _ => false
  end.

(** Whether some call of a run seals the memtable it writes to. *)
Fixpoint run_rotates `{StdStringImpl} (ops : list op) (s : LSMTree.t) : bool :=
  match ops with
  | [] => false
  | o :: rest =>
      op_rotates o s
      || match run_op o s with
         | Some s' => run_rotates rest s'
         | None => false
         end
  end.

(** Every memtable of the engine holds a well-formed skip list. *)
Definition MemTable_wf (mt : MemTable.t) : Prop :=
  exists sv es, Rep (MemTable.list_ mt) sv es.

Definition LSM_wf (s : LSMTree.t) : Prop :=
  MemTable_wf (LSMTree.activeMemTable s) /\ Forall MemTable_wf (LSMTree.memTables s).

(** The read path as the specification words it: the layers in the
    order they are consulted, and the first definitive report. *)
Definition layer_reports (fs : filesystem) (s : LSMTree.t) (key : string)
    : list (option (bool * string)) :=
  MemTable.get (LSMTree.activeMemTable s) key
  :: map (fun mt => MemTable.get mt key) (rev (LSMTree.memTables s))
  ++ map (fun tb => SS_Table.getValue fs tb key) (rev (LSMTree.sstables s)).

Definition definitive (r : bool * string) : bool :=
  fst r || str_eq (snd r) TOMBSTONE.

Fixpoint first_definitive (reports : list (option (bool * string))) : option (bool * string) :=
  match reports with
  | [] => Some (false, ""%string)
  | None :: _ => None
  | Some r :: rest =>
      if fst r then Some r
      else if str_eq (snd r) TOMBSTONE then Some (false, snd r)
      else first_definitive rest
  end.

(** The newest in-memory answer for [key] is [r]. *)
Definition Newest (s : LSMTree.t) (key : string) (r : bool * string) : Prop :=
  LSMTree.get_memTables (LSMTree.activeMemTable s :: rev (LSMTree.memTables s)) key
  = Some (Some r).

(** The engine started on an empty data directory. *)
Definition empty_engine : LSMTree.t := LSMTree.mk DATA_DIR MemTable.create [] [].

(** A value of 33554352 bytes: stored under a one-byte key it brings
    the size counter of a libstdc++ build to one byte below
    [MAX_MEMTABLE_SIZE]. *)
Definition big_value : string :=
  string_of_list_ascii (replicate (Z.to_nat 33554352) "x"%char).

(** The abstract effect of a run of puts on (sentinel value, entries). *)
Fixpoint model_puts (ops : list (list bool * string * string))
    (st : string * list KeyValuePair) : string * list KeyValuePair :=
  match ops with
  | [] => st
  | (_, key, value) :: rest =>
      model_puts rest
        (if str_eq key "" then (value, snd st) else (fst st, kv_upsert key value (snd st)))
  end.

(** The value of the last put on [key] in a run, if any. *)
Fixpoint last_put (key : string) (ops : list (list bool * string * string)) (acc : option string)
    : option string :=
  match ops with
  | [] => acc
  | (_, k, v) :: rest => last_put key rest (if str_eq k key then Some v else acc)
  end.

(** ** The on-disk format, as the specification words it *)

(** [record := u32_le key_size | key | u32_le value_size | value] *)
Definition encode_record (e : KeyValuePair) : file :=
  le_encode 4 (str_size (getKey e)) ++ list_ascii_of_string (getKey e)
  ++ le_encode 4 (str_size (getValue e)) ++ list_ascii_of_string (getValue e).

Definition encode_records (es : list KeyValuePair) : file :=
  concat (map encode_record es).

(** Reading a data file back record by record; [None] when the file is
    not a whole number of records. *)
Fixpoint parse_records (fuel : nat) (bs : file) : option (list KeyValuePair) :=
  match fuel with
  | O => None
  | S fuel' =>
      match bs with
      | [] => Some []
      | _ =>
          let key_size := Z.to_nat (le_decode (take 4 bs)) in
          let bs1 := drop 4 bs in
          let value_size := Z.to_nat (le_decode (take 4 (drop key_size bs1))) in
          let bs2 := drop 4 (drop key_size bs1) in
          if (length bs <? 4)%nat || (length bs1 <? key_size)%nat
             || (length (drop key_size bs1) <? 4)%nat || (length bs2 <? value_size)%nat
          then None
          else
            rest ← parse_records fuel' (drop value_size bs2);
            Some (mkKV (string_of_list_ascii (take key_size bs1))
                       (string_of_list_ascii (take value_size bs2)) :: rest)
      end
  end.

Definition parse_data_file (bs : file) : option (list KeyValuePair) :=
  parse_records (S (length bs)) bs.

(** Sizes that fit the 32-bit length fields. *)
Definition fits32 (e : KeyValuePair) : Prop :=
  str_size (getKey e) < 2 ^ 32 /\ str_size (getValue e) < 2 ^ 32.

(** The byte offset of record [j] of a data file. *)
Definition record_offset (es : list KeyValuePair) (j : nat) : Z :=
  Z.of_nat (length (encode_records (take j es))).

(** The sparse index: one entry for the records 0, 10, 20, ... *)
Definition sparse_index (es : list KeyValuePair) : list (string * Z) :=
  map (fun i => (getKey (default KeyValuePair_default (es !! (10 * i)%nat)),
                 record_offset es (10 * i)))
      (seq 0 (Z.to_nat ((Z.of_nat (length es) + 9) / 10))).

(** The stream [f] has read [pre] and is about to read [suf]. *)
Definition at_pos (f : ifstream) (pre suf : file) : Prop :=
  content f = pre ++ suf /\ gpos f = length pre /\ eofbit f = false /\ failbit f = false.


(** The index entries that [createFromMemTable] emits while it walks
    the entries from position [i] and offset [off]. *)
Fixpoint index_entries (i off : Z) (es : list KeyValuePair) : list (string * Z) :=
  match es with
  | [] => []
  | e :: rest =>
      (if i mod 10 =? 0 then [(getKey e, off)] else [])
      ++ index_entries (i + 1) (off + Z.of_nat (length (encode_record e))) rest
  end.

(** [entry := u32_le key_size | key | u64_le offset] *)
Definition encode_index_entry (x : string * Z) : file :=
  le_encode 4 (str_size (fst x)) ++ list_ascii_of_string (fst x) ++ le_encode 8 (snd x).

(** The number of multiples of 10 in [i, i + n). *)
Definition count10 (i n : Z) : Z := (i + n + 9) / 10 - (i + 9) / 10.

(** What a forward scan over the records [rest] answers for [key], and
    the number of records it looks at. *)
Fixpoint scan_model (key : string) (rest : list KeyValuePair) : bool * string :=
  match rest with
  | [] => (false, ""%string)
  | e :: rest' =>
      if str_lt key (getKey e) then (false, ""%string)
      else if str_eq (getKey e) key then classify (Some (getValue e))
      else scan_model key rest'
  end.

Fixpoint scan_steps (key : string) (rest : list KeyValuePair) : nat :=
  match rest with
  | [] => 1
  | e :: rest' =>
      if str_lt key (getKey e) then 1
      else if str_eq (getKey e) key then 1
      else S (scan_steps key rest')
  end.

(** ** Compaction *)

(** A data file as the engine writes them: whole records whose sizes
    fit their fields and whose keys are not empty. *)
Definition wf_data_file (c : file) : Prop :=
  exists recs, c = encode_records recs /\ Forall fits32 recs
    /\ Forall (fun e => getKey e <> ""%string) recs.

(** All records of a batch of tables, table after table. *)
Definition batch_records (fs : filesystem) (batch : list SS_Table.t) : list KeyValuePair :=
  flat_map (fun tb =>
    match fs_lookup (SS_Table.getDataFilename tb) fs with
    | Some c => default [] (parse_data_file c)
    | None => []
    end) batch.

(** An entry of [merged_data] as a key-value pair. *)
Definition kv_of (x : string * string) : KeyValuePair := mkKV (fst x) (snd x).

(** One step of the merge loop on the map. *)
Definition add_first (m : strmap) (e : KeyValuePair) : strmap :=
  match map_find (getKey e) m with
  | None => map_assign (getKey e) (getValue e) m
  | Some _ => m
  end.

(** The entries that survive a compaction. *)
Definition live (m : strmap) : list KeyValuePair :=
  map kv_of (List.filter (fun x => negb (str_eq (snd x) TOMBSTONE)) m).

(** Twelve puts, enough for a table with two index entries. *)
Definition sample_puts : list (list bool * string * string) :=
  [([true], "k05", "v05"); ([], "k01", "v01"); ([true; true], "k09", "v09");
   ([], "k03", "v03"); ([], "k11", "v11"); ([true], "k00", "v00");
   ([], "k07", "v07"); ([], "k02", "v02"); ([true], "k10", TOMBSTONE);
   ([], "k04", "v04"); ([], "k08", "v08"); ([], "k06", "v06")]%string.

(** The tables one compaction pass takes, in the order it reads them,
    and the name stem of the table it writes. *)
Definition compaction_batch (s : LSMTree.t) : list SS_Table.t :=
  LSMTree.sort_by_index_file (take (Z.to_nat MAX_SSTABLE_COUNT) (LSMTree.sstables s)).

Definition compaction_stem (s : LSMTree.t) (timestamp : Z) : string :=
  (LSMTree.SS_TABLE_PATH s ++ "sstable_" ++ to_string timestamp)%string.

(** Neither file of a table of the batch is [p]. *)
Definition not_in_batch (batch : list SS_Table.t) (p : string) : Prop :=
  forall tb, tb ∈ batch -> SS_Table.getIndexFile tb <> p /\ SS_Table.getDataFilename tb <> p.

(** ** A data directory with one hundred tables *)

(** The entry of the i-th table: the two oldest tables hold the same
    key, every other table a key of its own. *)
Definition sample_entry (i : nat) : string * string :=
  match i with
  | O => ("k", "old")
  | 1%nat => ("k", "new")
  | _ => ("x" ++ to_string (Z.of_nat i), "y")
  end%string.

(** Flushing a memtable that holds the i-th entry, at clock reading
    1000 + i. *)
Definition flush_entry (i : nat) (st : filesystem * LSMTree.t) : option (filesystem * LSMTree.t) :=
  memtable ← MemTable.put (H := libstdcxx) [] (fst (sample_entry i)) (snd (sample_entry i))
    MemTable.create;
  LSMTree.flush_memtable (true, true) (1000 + Z.of_nat i) memtable (fst st) (snd st).

Fixpoint flush_entries (l : list nat) (st : filesystem * LSMTree.t)
    : option (filesystem * LSMTree.t) :=
  match l with
  | [] => Some st
  | i :: rest => st' ← flush_entry i st; flush_entries rest st'
  end.

(** The directory after one hundred flushes. *)
Definition sample_dir : filesystem :=
  default [] (fst <$> flush_entries (seq 0 100) ([], empty_engine)).

(** Decidable forms of the conditions on a compaction batch. *)
Definition fits32b (e : KeyValuePair) : bool :=
  (str_size (getKey e) <? 2 ^ 32) && (str_size (getValue e) <? 2 ^ 32).

Definition wf_data_fileb (c : file) : bool :=
  match parse_data_file c with
  | Some recs =>
      str_eq (string_of_list_ascii (encode_records recs)) (string_of_list_ascii c)
      && forallb (fun e => fits32b e && negb (str_eq (getKey e) "")) recs
  | None => false
  end.

Definition batch_wfb (fs : filesystem) (batch : list SS_Table.t) : bool :=
  forallb (fun tb =>
    match fs_lookup (SS_Table.getDataFilename tb) fs with
    | Some c => wf_data_fileb c
    | None => true
    end) batch.

Definition not_in_batchb (batch : list SS_Table.t) (p : string) : bool :=
  forallb (fun tb => negb (str_eq (SS_Table.getIndexFile tb) p)
                     && negb (str_eq (SS_Table.getDataFilename tb) p)) batch.

(** ** Index files *)

Definition fits_index (x : string * Z) : Prop :=
  str_size (fst x) < 2 ^ 32 /\ 0 <= snd x < 2 ^ 64.

Definition encode_index (idx : list (string * Z)) : file :=
  le_encode 8 (Z.of_nat (length idx)) ++ concat (map encode_index_entry idx).

(** An index file as the engine writes them. *)
Definition wf_index_file (c : file) : Prop :=
  exists idx, c = encode_index idx /\ Z.of_nat (length idx) < 2 ^ 64 /\ Forall fits_index idx.

(** A directory that holds an index file and no data file. *)
Definition lone_index_dir : filesystem := [("data/sstable_1.index"%string, encode_index [])].

(** The engine started on the sample directory. *)
Definition sample_engine : LSMTree.t := default empty_engine (LSMTree.create sample_dir).

(** ** The table list at startup *)

(** Handles in non-descending order of their index-file names. *)
Definition sorted_by_index_file (l : list SS_Table.t) : Prop :=
  forall i j a b, (i < j)%nat -> l !! i = Some a -> l !! j = Some b ->
    ~ slt (SS_Table.getIndexFile b) (SS_Table.getIndexFile a).

(** The test [file.find(INDEX_EXTENSION) != npos]. *)
Definition has_index_extension (file : string) : bool :=
  match str_find INDEX_EXTENSION file with Some _ => true | None => false end.

(** A directory listed out of order, with a file that is no index. *)
Definition unsorted_dir : filesystem :=
  [("data/sstable_2.index", encode_index []);
   ("data/notes.txt", []);
   ("data/sstable_1.index", encode_index [("a", 0)])]%string.

(** ** Command lines *)

(** A token that needs no quoting: not empty, no whitespace, no double
    quote. *)
Definition bare_word `{Ctype} (w : string) : Prop :=
  w <> ""%string
  /\ Forall (fun c => c <> DQUOTE /\ isspace c = false) (list_ascii_of_string w).

(** A token that can be written between double quotes: not empty, no
    double quote. *)
Definition quotable (w : string) : Prop :=
  w <> ""%string /\ Forall (fun c => c <> DQUOTE) (list_ascii_of_string w).

(** An argument of a command line: a token, and whether it is written
    between double quotes. *)
Definition argument_ok `{Ctype} (a : string * bool) : Prop :=
  if snd a then quotable (fst a) else bare_word (fst a).

Definition write_argument (a : string * bool) : string :=
  if snd a then String DQUOTE (fst a ++ String DQUOTE EmptyString) else fst a.

(** The arguments separated by single blanks. *)
Definition command_line (args : list (string * bool)) : string :=
  String.concat " " (map write_argument args).

(** ** Requests on the wire *)

(** A request as a client writes it: the number of arguments, then each
    argument as a bulk string. *)
Definition request (args : list string) : string :=
  ("*" ++ to_string (Z.of_nat (length args)) ++ CRLF
   ++ String.concat "" (map (fun a => RespEncoder.bulkString a false) args))%string.

(** Digits are no whitespace in the locale. *)
Definition digits_are_not_spaces `{Ctype} : Prop :=
  forall c, is_digit c = true -> isspace c = false.

(** A string without zero bytes. *)
Definition no_NUL (s : string) : Prop := Forall (fun c => c <> NUL) (list_ascii_of_string s).

(** ** Frames of the node store *)

(** The horizontal fields of [p] are the same in [m'] as in [m]. *)
Definition same_h (m m' : store) (p : ptr) : Prop :=
  Nxt m' p = Nxt m p /\ Prv m' p = Prv m p /\ Typ m' p = Typ m p /\ Key m' p = Key m p.

(** The vertical fields of [p] are the same in [m'] as in [m]. *)
Definition same_v (m m' : store) (p : ptr) : Prop :=
  Up m' p = Up m p /\ Dn m' p = Dn m p.

(** * Part III: the order on strings *)

(** * Part III: proofs *)

(** ** The order on strings *)

Lemma ascii_compare_refl c : Ascii.compare c c = Eq.
Proof. unfold Ascii.compare. apply N.compare_refl. Qed.

Lemma ascii_compare_lt_trans a b c :
  Ascii.compare a b = Lt -> Ascii.compare b c = Lt -> Ascii.compare a c = Lt.
Proof. unfold Ascii.compare. rewrite !N.compare_lt_iff. lia. Qed.

Lemma str_compare_refl s : String.compare s s = Eq.
Proof. induction s as [|c s IH]; simpl; [done|]. by rewrite ascii_compare_refl. Qed.

Lemma str_compare_eq a b : String.compare a b = Eq <-> a = b.
Proof. split; [apply String.compare_eq_iff | intros ->; apply str_compare_refl]. Qed.

Lemma str_compare_gt_lt a b : String.compare a b = Gt <-> String.compare b a = Lt.
Proof.
  rewrite (String.compare_antisym b a). destruct (String.compare a b); simpl; split; congruence.
Qed.

Lemma slt_trans a b c : slt a b -> slt b c -> slt a c.
Proof.
  unfold slt. revert b c. induction a as [|x a IH]; intros [|y b] [|z c]; simpl; try done.
  destruct (Ascii.compare x y) eqn:Hxy; try done.
  - apply Ascii.compare_eq_iff in Hxy as ->.
    destruct (Ascii.compare y z); try done. apply IH.
  - intros _. destruct (Ascii.compare y z) eqn:Hyz; try done.
    + apply Ascii.compare_eq_iff in Hyz as <-. by rewrite Hxy.
    + by rewrite (ascii_compare_lt_trans _ _ _ Hxy Hyz).
Qed.

Lemma slt_irrefl a : ~ slt a a.
Proof. unfold slt. by rewrite str_compare_refl. Qed.

Lemma slt_asym a b : slt a b -> ~ slt b a.
Proof. intros H1 H2. exact (slt_irrefl _ (slt_trans _ _ _ H1 H2)). Qed.

Lemma slt_trichotomy a b : slt a b \/ a = b \/ slt b a.
Proof.
  unfold slt. destruct (String.compare a b) eqn:E; [right; left|by left|right; right].
  - by apply str_compare_eq.
  - by apply str_compare_gt_lt.
Qed.

Lemma slt_empty a : a <> ""%string -> slt "" a.
Proof. by destruct a. Qed.

Lemma not_slt_empty a : ~ slt a "".
Proof. by destruct a. Qed.

Lemma str_lt_spec a b : str_lt a b = true <-> slt a b.
Proof. unfold str_lt, String.ltb, slt. destruct (String.compare a b); split; congruence. Qed.

Lemma str_lt_false a b : str_lt a b = false <-> ~ slt a b.
Proof. rewrite <- str_lt_spec. destruct (str_lt a b); split; congruence. Qed.

Lemma str_le_spec a b : str_le a b = true <-> ~ slt b a.
Proof.
  unfold str_le, String.leb, slt. rewrite <- str_compare_gt_lt.
  destruct (String.compare a b); split; congruence.
Qed.

Lemma str_le_false a b : str_le a b = false <-> slt b a.
Proof.
  unfold str_le, String.leb, slt. rewrite <- str_compare_gt_lt.
  destruct (String.compare a b); split; congruence.
Qed.

Lemma str_eq_spec a b : str_eq a b = true <-> a = b.
Proof. apply String.eqb_eq. Qed.

Lemma str_eq_false a b : str_eq a b = false <-> a <> b.
Proof. apply String.eqb_neq. Qed.

Lemma str_eq_refl a : str_eq a a = true.
Proof. apply String.eqb_refl. Qed.

Lemma slt_le_trans a b c : slt a b -> ~ slt c b -> slt a c.
Proof.
  intros Hab Hcb. destruct (slt_trichotomy b c) as [H|[->|H]]; [|done..].
  by eapply slt_trans.
Qed.

Lemma le_slt_trans a b c : ~ slt b a -> slt b c -> slt a c.
Proof.
  intros Hab Hbc. destruct (slt_trichotomy a b) as [H|[->|H]]; [|done..].
  by eapply slt_trans.
Qed.

(** * Part IV: search, lookup and iteration in the skip list *)

(** ** The skip list *)

(** *** Reading and writing the store *)

Lemma node_at_lookup m p n : m !! p = Some n -> node_at m p = n.
Proof. unfold node_at. by intros ->. Qed.

Lemma lookup_node_at m p : (p < length m)%nat -> m !! p = Some (node_at m p).
Proof.
  intros H. destruct (lookup_lt_is_Some_2 m p H) as [n Hn].
  by rewrite (node_at_lookup _ _ _ Hn).
Qed.

Lemma assign_Some f p m :
  (p < length m)%nat -> assign f p m = Some (<[p := f (node_at m p)]> m).
Proof. intros H. unfold assign. by rewrite (lookup_node_at _ _ H). Qed.

Lemma node_at_insert m p q n :
  (p < length m)%nat -> node_at (<[p := n]> m) q = if decide (q = p) then n else node_at m q.
Proof.
  intros H. unfold node_at. destruct (decide (q = p)) as [->|Hne].
  - by rewrite list_lookup_insert_eq.
  - by rewrite list_lookup_insert_ne.
Qed.

Lemma node_at_app_l m n q : (q < length m)%nat -> node_at (m ++ [n]) q = node_at m q.
Proof. intros H. unfold node_at. by rewrite lookup_app_l. Qed.

Lemma node_at_app_r m n : node_at (m ++ [n]) (length m) = n.
Proof.
  unfold node_at. rewrite lookup_app_r by lia. by rewrite Nat.sub_diag.
Qed.

Lemma follow_Some f m p : (p < length m)%nat -> follow f m p = f (node_at m p).
Proof. intros H. unfold follow. by rewrite (lookup_node_at _ _ H). Qed.

(** *** Levels *)

Lemma level_lookup_last (L : list ptr) : (2 <= length L)%nat -> exists t, L !! (length L - 1)%nat = Some t.
Proof. intros H. apply lookup_lt_is_Some_2. lia. Qed.

Lemma pos_type_normal len i : (0 < i)%nat -> (S i < len)%nat -> pos_type len i = NORMAL.
Proof. intros. destruct i; [lia|]. unfold pos_type. case_decide; [lia|done]. Qed.

Lemma pos_type_pos len i : (0 < i)%nat -> S i = len -> pos_type len i = POSITIVE_INFINITY.
Proof. intros. destruct i; [lia|]. unfold pos_type. case_decide; [done|lia]. Qed.

Lemma pos_type_not_pos len i : (S i < len)%nat -> pos_type len i <> POSITIVE_INFINITY.
Proof. intros. destruct i; [done|]. unfold pos_type. case_decide; [lia|done]. Qed.

Lemma pos_type_is_pos len i : pos_type len i = POSITIVE_INFINITY -> S i = len.
Proof. destruct i; [done|]. unfold pos_type. by case_decide. Qed.

Lemma pos_type_is_neg len i : pos_type len i = NEGATIVE_INFINITY -> i = O.
Proof. destruct i; [done|]. unfold pos_type. by case_decide. Qed.

(** The inner loop of [search] stops on the last node of the level
    whose key does not exceed the target. *)
Lemma search_right_spec m L key : level_ok m L ->
  forall fuel i cur,
    L !! i = Some cur -> (S i < length L)%nat -> (length L - i <= fuel)%nat ->
    exists i' r, SkipList.search_right fuel m key cur = Some r
      /\ L !! i' = Some r /\ (i <= i')%nat /\ (S i' < length L)%nat
      /\ (forall j q, (i < j <= i')%nat -> L !! j = Some q -> ~ slt key (Key m q))
      /\ (forall j q, (i' < j)%nat -> (S j < length L)%nat -> L !! j = Some q -> slt key (Key m q)).
Proof.
  intros HL. induction fuel as [|fuel IH]; intros i cur Hcur Hi Hfuel; [lia|].
  simpl. rewrite (follow_Some _ _ _ (lo_valid _ _ HL _ _ Hcur)).
  fold (Nxt m cur). rewrite (lo_next _ _ HL _ _ Hcur).
  destruct (lookup_lt_is_Some_2 L (S i) Hi) as [nx Hnx]. rewrite Hnx. simpl.
  rewrite (lookup_node_at _ _ (lo_valid _ _ HL _ _ Hnx)). simpl.
  fold (Typ m nx). rewrite (lo_type _ _ HL _ _ Hnx).
  destruct (decide (S (S i) = length L)) as [Hlast|Hlast].
  - rewrite pos_type_pos by lia. simpl.
    exists i, cur. split_and!; [done|done|lia|lia|intros; lia|intros; lia].
  - rewrite pos_type_normal by lia. simpl. fold (Key m nx).
    destruct (str_le (Key m nx) key) eqn:Hle; simpl.
    + destruct (IH (S i) nx Hnx ltac:(lia) ltac:(lia)) as (i' & r & Hr & Hi' & Hle' & Hlt' & Hbelow & Hafter).
      exists i', r. split_and!; [done|done|lia|lia| |intros; apply (Hafter j); [lia..|done]].
      intros j q Hj Hq. destruct (decide (j = S i)) as [->|].
      * rewrite Hnx in Hq. injection Hq as <-. by apply str_le_spec.
      * apply (Hbelow j); [lia|done].
    + exists i, cur. split_and!; [done|done|lia|lia|intros; lia|].
      intros j q Hj Hj' Hq. apply str_le_false in Hle.
      destruct (decide (j = S i)) as [->|].
      * rewrite Hnx in Hq. by injection Hq as <-.
      * eapply slt_trans; [exact Hle|]. eapply (lo_sorted _ _ HL (S i) j); [lia|lia|done|done].
Qed.

Lemma search_right_le m L key fuel i cur :
  level_ok m L -> L !! i = Some cur -> (S i < length L)%nat -> (length L - i <= fuel)%nat ->
  ~ slt key (Key m cur) ->
  exists i' r, SkipList.search_right fuel m key cur = Some r
    /\ L !! i' = Some r /\ (S i' < length L)%nat /\ ~ slt key (Key m r)
    /\ (forall j q, (i' < j)%nat -> (S j < length L)%nat -> L !! j = Some q -> slt key (Key m q)).
Proof.
  intros HL Hcur Hi Hfuel Hk.
  destruct (search_right_spec m L key HL fuel i cur Hcur Hi Hfuel)
    as (i' & r & Hr & Hi' & Hle & Hlt & Hbelow & Hafter).
  exists i', r. split_and!; try done.
  destruct (decide (i' = i)) as [->|Hne].
  - rewrite Hcur in Hi'. by injection Hi' as <-.
  - apply (Hbelow i'); [lia|done].
Qed.

(** *** Consequences of the invariant *)

Lemma bounded_nodup_length (l : list nat) n :
  NoDup l -> (forall p, p ∈ l -> (p < n)%nat) -> (length l <= n)%nat.
Proof.
  intros Hnd Hb. rewrite <- (length_seq n 0%nat). apply submseteq_length.
  apply NoDup_submseteq; [done|]. intros p Hp. apply elem_of_seq. specialize (Hb p Hp). lia.
Qed.

Lemma elem_of_concat (lv : list (list nat)) p :
  p ∈ concat lv <-> exists L, p ∈ L /\ L ∈ lv.
Proof.
  rewrite list_elem_of_In, in_concat. split; intros (L & H1 & H2); exists L.
  - by rewrite !list_elem_of_In.
  - by rewrite <- !list_elem_of_In.
Qed.

Lemma elem_of_concat_lookup (lv : list (list nat)) j L p :
  lv !! j = Some L -> p ∈ L -> p ∈ concat lv.
Proof.
  intros HL Hp. apply elem_of_concat. exists L. split; [done|].
  by apply list_elem_of_lookup_2 in HL.
Qed.

Lemma concat_length_ge (lv : list (list nat)) :
  (forall L, L ∈ lv -> (1 <= length L)%nat) -> (length lv <= length (concat lv))%nat.
Proof.
  induction lv as [|L lv IH]; intros H; simpl; [lia|].
  rewrite length_app. pose proof (H L ltac:(left)).
  assert (length lv <= length (concat lv))%nat; [|lia].
  apply IH. intros L' HL'. apply H. by right.
Qed.

Lemma NoDup_concat_level (lv : list (list nat)) j L :
  NoDup (concat lv) -> lv !! j = Some L -> NoDup L.
Proof.
  revert j. induction lv as [|L' lv IH]; intros j Hnd HL; [done|].
  simpl in Hnd. apply NoDup_app in Hnd as (H1 & _ & H2).
  destruct j; simpl in HL; [by injection HL as <-|]. by eapply IH.
Qed.

Lemma NoDup_concat_disjoint (lv : list (list nat)) j1 j2 L1 L2 p :
  NoDup (concat lv) -> lv !! j1 = Some L1 -> lv !! j2 = Some L2 ->
  p ∈ L1 -> p ∈ L2 -> j1 = j2.
Proof.
  revert j1 j2. induction lv as [|L' lv IH]; intros j1 j2 Hnd H1 H2 Hp1 Hp2; [done|].
  simpl in Hnd. apply NoDup_app in Hnd as (Hn1 & Hn12 & Hn2).
  destruct j1, j2; simpl in *; simplify_eq; try done.
  - exfalso. apply (Hn12 p Hp1). by eapply elem_of_concat_lookup.
  - exfalso. apply (Hn12 p Hp2). by eapply elem_of_concat_lookup.
  - f_equal. by eapply IH.
Qed.

Section InvFacts.
Context (s : SkipList.t) (lv : list (list ptr)) (HI : Inv s lv).
Local Abbreviation m := (SkipList.nodes s).

Lemma inv_valid p : p ∈ concat lv -> (p < length m)%nat.
Proof.
  intros (L & Hp & HL)%elem_of_concat.
  apply list_elem_of_lookup in HL as [j HL]. apply list_elem_of_lookup in Hp as [i Hp].
  exact (lo_valid _ _ (inv_levels _ _ HI _ _ HL) _ _ Hp).
Qed.

Lemma inv_level_length j L : lv !! j = Some L -> (length L <= length m)%nat.
Proof.
  intros HL. apply bounded_nodup_length.
  - eapply NoDup_concat_level; [apply HI|done].
  - intros p Hp. apply inv_valid. by eapply elem_of_concat_lookup.
Qed.

Lemma inv_levels_length : (length lv <= length m)%nat.
Proof.
  etrans; [apply concat_length_ge|].
  - intros L [j HL]%list_elem_of_lookup. pose proof (lo_len _ _ (inv_levels _ _ HI _ _ HL)). lia.
  - apply bounded_nodup_length; [apply HI|apply inv_valid].
Qed.

Lemma inv_nonempty : (1 <= length lv)%nat.
Proof.
  destruct (inv_top _ _ HI) as (T & HT & _). destruct lv; [done|simpl; lia].
Qed.

Lemma level_pos_inj j L i1 i2 p : lv !! j = Some L -> L !! i1 = Some p -> L !! i2 = Some p -> i1 = i2.
Proof.
  intros HL H1 H2. eapply NoDup_lookup; [|done..].
  eapply NoDup_concat_level; [apply HI|done].
Qed.

(** Every node above the base has its twin right below. *)
Lemma inv_down j D U i p :
  lv !! j = Some D -> lv !! S j = Some U -> U !! i = Some p ->
  exists i0 q, D !! i0 = Some q /\ Up m q = Some p /\ Dn m p = Some q /\ Key m p = Key m q
    /\ (i = O -> i0 = O) /\ ((S i < length U)%nat -> (S i0 < length D)%nat).
Proof.
  intros HD HU Hp. pose proof (inv_up _ _ HI _ _ HD) as Hup. rewrite HU in Hup. simpl in Hup.
  assert (p ∈ omap (Up m) D) as (q & Hq & Hqp)%list_elem_of_omap.
  { rewrite Hup. by eapply list_elem_of_lookup_2. }
  destruct (inv_twin _ _ HI _ _ _ _ HD Hq Hqp) as (Hdn & Hkey & Htyp).
  apply list_elem_of_lookup in Hq as [i0 Hi0].
  rewrite (lo_type _ _ (inv_levels _ _ HI _ _ HU) _ _ Hp) in Htyp.
  rewrite (lo_type _ _ (inv_levels _ _ HI _ _ HD) _ _ Hi0) in Htyp.
  exists i0, q. split_and!; try done.
  - intros ->. change (pos_type (length U) 0) with NEGATIVE_INFINITY in Htyp.
    symmetry in Htyp. by apply pos_type_is_neg in Htyp.
  - intros Hlt. apply lookup_lt_Some in Hi0.
    destruct (decide (S i0 = length D)) as [Heq|]; [|lia].
    destruct i0 as [|i0].
    + pose proof (lo_len _ _ (inv_levels _ _ HI _ _ HD)). lia.
    + rewrite (pos_type_pos (length D) (S i0)) in Htyp by lia.
      apply pos_type_is_pos in Htyp. lia.
Qed.

(** [search] ends on the base level, on the last node whose key does
    not exceed the target. *)
Lemma search_down_spec key : forall j fuel L i cur,
  lv !! j = Some L -> L !! i = Some cur -> (S i < length L)%nat ->
  ~ slt key (Key m cur) -> (j < fuel)%nat ->
  exists L0 i0 r, lv !! O = Some L0 /\ SkipList.search_down fuel m key cur = Some r
    /\ L0 !! i0 = Some r /\ (S i0 < length L0)%nat /\ ~ slt key (Key m r)
    /\ (forall k q, (i0 < k)%nat -> (S k < length L0)%nat -> L0 !! k = Some q -> slt key (Key m q)).
Proof.
  induction j as [|j IH]; intros fuel L i cur HL Hcur Hi Hk Hfuel;
    (destruct fuel as [|fuel]; [lia|]); simpl;
    pose proof (inv_levels _ _ HI _ _ HL) as HLok;
    destruct (search_right_le m L key (length m) i cur HLok Hcur Hi
      ltac:(pose proof (inv_level_length _ _ HL); lia) Hk)
      as (i' & r & Hr & Hi' & Hlt & Hle & Hafter);
    rewrite Hr; simpl;
    rewrite (lookup_node_at _ _ (lo_valid _ _ HLok _ _ Hi')); simpl;
    fold (Dn m r).
  - rewrite (inv_base _ _ HI L r HL) by (by eapply list_elem_of_lookup_2).
    by exists L, i', r.
  - destruct (lookup_lt_is_Some_2 lv j) as [D HD]; [apply lookup_lt_Some in HL; lia|].
    destruct (inv_down _ _ _ _ _ HD HL Hi') as (i0 & q & Hq & _ & Hdn & Hkey & _ & Hlt0).
    rewrite Hdn. apply (IH fuel D i0 q HD Hq (Hlt0 Hlt)); [by rewrite <- Hkey|lia].
Qed.

Lemma inv_top_lookup : exists T, lv !! (length lv - 1)%nat = Some T
  /\ T !! O = Some (SkipList.head s) /\ T !! (length T - 1)%nat = Some (SkipList.tail s).
Proof.
  destruct (inv_top _ _ HI) as (T & HT & Hh & Ht). exists T.
  rewrite last_lookup in HT. rewrite last_lookup in Ht. replace (length lv - 1)%nat with (pred (length lv)) by lia.
  replace (length T - 1)%nat with (pred (length T)) by lia. done.
Qed.

Lemma search_spec key :
  exists L0 i0 r, lv !! O = Some L0 /\ SkipList.search s key = Some r
    /\ L0 !! i0 = Some r /\ (S i0 < length L0)%nat /\ ~ slt key (Key m r)
    /\ (forall k q, (i0 < k)%nat -> (S k < length L0)%nat -> L0 !! k = Some q -> slt key (Key m q)).
Proof.
  destruct inv_top_lookup as (T & HT & Hh & _).
  pose proof (inv_levels _ _ HI _ _ HT) as HTok.
  apply (search_down_spec key (length lv - 1) (length m) T O (SkipList.head s) HT Hh).
  - pose proof (lo_len _ _ HTok). lia.
  - rewrite (lo_head _ _ HTok _ Hh). apply not_slt_empty.
  - pose proof inv_levels_length. pose proof inv_nonempty. lia.
Qed.

End InvFacts.

(** *** Entries of the base level *)

Lemma base_entries_length m L : length (base_entries m L) = (length L - 2)%nat.
Proof. unfold base_entries. rewrite length_map, length_take, length_drop. lia. Qed.

Lemma base_entries_lookup m (L : list ptr) j p :
  L !! S j = Some p -> (S (S j) < length L)%nat ->
  base_entries m L !! j = Some (n_data (node_at m p)).
Proof.
  intros Hp Hlt. unfold base_entries. rewrite list_lookup_fmap.
  rewrite lookup_take_lt by lia. rewrite lookup_drop. simpl. by rewrite Hp.
Qed.

Lemma base_entries_lookup_inv m (L : list ptr) j e :
  base_entries m L !! j = Some e ->
  exists p, L !! S j = Some p /\ (S (S j) < length L)%nat /\ e = n_data (node_at m p).
Proof.
  intros H. pose proof (lookup_lt_Some _ _ _ H) as Hlt. rewrite base_entries_length in Hlt.
  destruct (lookup_lt_is_Some_2 L (S j)) as [p Hp]; [lia|].
  rewrite (base_entries_lookup m L j p Hp) in H by lia. injection H as <-.
  exists p. split_and!; [done|lia|done].
Qed.

Lemma base_entries_ascending m L : level_ok m L -> ascending (base_entries m L).
Proof.
  intros HL i j a b Hij Ha Hb.
  apply base_entries_lookup_inv in Ha as (p & Hp & Hpl & ->).
  apply base_entries_lookup_inv in Hb as (q & Hq & Hql & ->).
  apply (lo_sorted _ _ HL (S i) (S j) p q); [lia|lia|done|done].
Qed.

Lemma base_entries_nonempty_keys m L e :
  level_ok m L -> e ∈ base_entries m L -> getKey e <> ""%string.
Proof.
  intros HL [j Hj]%list_elem_of_lookup.
  apply base_entries_lookup_inv in Hj as (p & Hp & Hpl & ->).
  destruct (lookup_lt_is_Some_2 L O) as [h Hh]; [lia|].
  pose proof (lo_sorted _ _ HL O (S j) h p ltac:(lia) ltac:(lia) Hh Hp) as Hlt.
  rewrite (lo_head _ _ HL _ Hh) in Hlt. intros Heq. unfold Key in Hlt. rewrite Heq in Hlt.
  by apply slt_irrefl in Hlt.
Qed.

Lemma kv_find_None key es :
  (forall e, e ∈ es -> getKey e <> key) -> kv_find key es = None.
Proof.
  induction es as [|e es IH]; intros H; simpl; [done|].
  destruct (str_eq (getKey e) key) eqn:E.
  - apply str_eq_spec in E. exfalso. apply (H e); [left|done].
  - apply IH. intros e' He'. apply H. by right.
Qed.

Lemma kv_find_Some_elem key es v :
  kv_find key es = Some v -> exists e, e ∈ es /\ getKey e = key /\ getValue e = v.
Proof.
  induction es as [|e es IH]; simpl; [done|].
  destruct (str_eq (getKey e) key) eqn:E.
  - intros [= <-]. apply str_eq_spec in E. exists e. split_and!; [left|done|done].
  - intros (e' & H1 & H2)%IH. exists e'. split; [by right|done].
Qed.

Lemma ascending_tail e es : ascending (e :: es) -> ascending es.
Proof. intros H i j a b Hij Ha Hb. apply (H (S i) (S j)); [lia|done..]. Qed.

Lemma kv_find_ascending es j e :
  ascending es -> es !! j = Some e -> kv_find (getKey e) es = Some (getValue e).
Proof.
  revert j. induction es as [|e' es IH]; intros j Hasc Hj; [done|]. simpl.
  destruct j as [|j]; simpl in Hj.
  - injection Hj as ->. by rewrite str_eq_refl.
  - pose proof (Hasc O (S j) e' e ltac:(lia) eq_refl Hj) as Hlt.
    destruct (str_eq (getKey e') (getKey e)) eqn:E.
    + apply str_eq_spec in E. rewrite E in Hlt. by apply slt_irrefl in Hlt.
    + eapply IH; [by eapply ascending_tail|done].
Qed.

Lemma Rep_ascending s sv es : Rep s sv es -> ascending es.
Proof.
  intros (lv & L & h & HI & HL & Hh & Hsv & <-).
  apply base_entries_ascending. by eapply inv_levels.
Qed.

Lemma Rep_nonempty_keys s sv es e : Rep s sv es -> e ∈ es -> getKey e <> ""%string.
Proof.
  intros (lv & L & h & HI & HL & Hh & Hsv & <-).
  apply base_entries_nonempty_keys. by eapply inv_levels.
Qed.

(** [get] on a skip list: the empty key always hits the base sentinel. *)
Lemma get_spec s sv es key :
  Rep s sv es ->
  SkipList.get s key = Some (
    if str_eq key "" then (true, sv)
    else match kv_find key es with Some v => (true, v) | None => (false, ""%string) end).
Proof.
  intros (lv & L & h & HI & HL & Hh & Hsv & Hes).
  destruct (search_spec s lv HI key) as (L0 & i0 & r & HL0 & Hr & Hi0 & Hlt & Hle & Hafter).
  rewrite HL in HL0. injection HL0 as <-.
  pose proof (inv_levels _ _ HI _ _ HL) as HLok.
  unfold SkipList.get. rewrite Hr. simpl.
  rewrite (lookup_node_at _ _ (lo_valid _ _ HLok _ _ Hi0)). simpl.
  fold (Key (SkipList.nodes s) r). fold (Val (SkipList.nodes s) r).
  assert (Hnone : Key (SkipList.nodes s) r <> key -> key <> ""%string ->
                  kv_find key es = None).
  { intros Hne Hk. apply kv_find_None. intros e [j Hj]%list_elem_of_lookup Heq.
    rewrite <- Hes in Hj. apply base_entries_lookup_inv in Hj as (p & Hp & Hpl & ->).
    fold (Key (SkipList.nodes s) p) in Heq.
    destruct (Nat.lt_trichotomy (S j) i0) as [Hc|[Hc|Hc]].
    - pose proof (lo_sorted _ _ HLok (S j) i0 p r Hc Hlt Hp Hi0) as Hs.
      rewrite Heq in Hs. done.
    - subst i0. rewrite Hp in Hi0. injection Hi0 as ->. done.
    - pose proof (Hafter (S j) p Hc Hpl Hp) as Hs. rewrite Heq in Hs. by apply slt_irrefl in Hs. }
  destruct i0 as [|i0].
  - rewrite Hh in Hi0. injection Hi0 as <-.
    rewrite (lo_head _ _ HLok _ Hh) in *. rewrite Hsv.
    destruct (str_eq "" key) eqn:E.
    + apply str_eq_spec in E. subst key. done.
    + apply str_eq_false in E. rewrite (proj2 (str_eq_false key "")) by done. by rewrite Hnone.
  - assert (Hkr : Key (SkipList.nodes s) r <> ""%string).
    { intros Heq. pose proof (lo_sorted _ _ HLok O (S i0) h r ltac:(lia) Hlt Hh Hi0) as Hs.
      rewrite (lo_head _ _ HLok _ Hh), Heq in Hs. by apply slt_irrefl in Hs. }
    destruct (str_eq (Key (SkipList.nodes s) r) key) eqn:E.
    + apply str_eq_spec in E. rewrite (proj2 (str_eq_false key "")) by congruence.
      pose proof (base_entries_lookup (SkipList.nodes s) L i0 r Hi0 Hlt) as Hj.
      rewrite Hes in Hj. rewrite <- E.
      pose proof (kv_find_ascending es i0 _ ltac:(rewrite <- Hes; by apply base_entries_ascending) Hj) as Hf.
      unfold Key. rewrite Hf. done.
    + apply str_eq_false in E.
      assert (key <> ""%string).
      { intros ->. apply Hle. by apply slt_empty. }
      rewrite (proj2 (str_eq_false key "")) by done. by rewrite Hnone.
Qed.

(** *** Iteration *)

Lemma descend_spec s lv : Inv s lv -> forall j fuel L p,
  lv !! j = Some L -> L !! O = Some p -> (j < fuel)%nat ->
  exists L0 h, lv !! O = Some L0 /\ L0 !! O = Some h
    /\ SkipList.descend fuel (SkipList.nodes s) p = Some h.
Proof.
  intros HI. induction j as [|j IH]; intros fuel L p HL Hp Hfuel;
    (destruct fuel as [|fuel]; [lia|]); simpl;
    rewrite (lookup_node_at _ _ (lo_valid _ _ (inv_levels _ _ HI _ _ HL) _ _ Hp)); simpl;
    fold (Dn (SkipList.nodes s) p).
  - rewrite (inv_base _ _ HI L p HL) by (by eapply list_elem_of_lookup_2). by exists L, p.
  - destruct (lookup_lt_is_Some_2 lv j) as [D HD]; [apply lookup_lt_Some in HL; lia|].
    destruct (inv_down _ _ HI _ _ _ _ _ HD HL Hp) as (i0 & q & Hq & _ & Hdn & _ & H0 & _).
    rewrite (H0 eq_refl) in Hq. rewrite Hdn. apply (IH fuel D q HD Hq). lia.
Qed.

Lemma collect_spec m L : level_ok m L -> forall fuel i p,
  L !! i = Some p -> (0 < i)%nat -> (S i < length L)%nat -> (length L - i <= fuel)%nat ->
  SkipList.collect fuel m (Some p)
  = Some (map (fun p => n_data (node_at m p)) (take (length L - 1 - i) (drop i L))).
Proof.
  intros HL. induction fuel as [|fuel IH]; intros i p Hp Hi Hlt Hfuel; [lia|].
  simpl. rewrite (lookup_node_at _ _ (lo_valid _ _ HL _ _ Hp)). simpl.
  fold (Nxt m p). rewrite (lo_next _ _ HL _ _ Hp).
  destruct (lookup_lt_is_Some_2 L (S i) Hlt) as [nx Hnx]. rewrite Hnx.
  rewrite (lookup_node_at _ _ (lo_valid _ _ HL _ _ Hnx)). simpl.
  fold (Typ m nx). rewrite (lo_type _ _ HL _ _ Hnx).
  rewrite (drop_S _ _ _ Hp).
  replace (length L - 1 - i)%nat with (S (length L - 1 - S i)) by lia. simpl.
  destruct (decide (S (S i) = length L)) as [Hlast|Hlast].
  - rewrite pos_type_pos by lia. simpl.
    replace (length L - 1 - S i)%nat with O by lia. simpl.
    destruct fuel; [lia|]. done.
  - rewrite pos_type_normal by lia. simpl.
    rewrite (IH (S i) nx Hnx) by lia. done.
Qed.

Lemma to_vector_spec s sv es : Rep s sv es -> SkipList.to_vector s = Some es.
Proof.
  intros (lv & L & h & HI & HL & Hh & Hsv & Hes).
  destruct (inv_top_lookup s lv HI) as (T & HT & HTh & _).
  pose proof (inv_levels _ _ HI _ _ HL) as HLok.
  destruct (descend_spec s lv HI _ (length (SkipList.nodes s)) T _ HT HTh) as (L0 & h0 & HL0 & Hh0 & Hd).
  { pose proof (inv_levels_length s lv HI). pose proof (inv_nonempty s lv HI). lia. }
  rewrite HL in HL0. injection HL0 as <-. rewrite Hh in Hh0. injection Hh0 as <-.
  unfold SkipList.to_vector, SkipList.begin. rewrite Hd. simpl.
  rewrite (follow_Some _ _ _ (lo_valid _ _ HLok _ _ Hh)).
  fold (Nxt (SkipList.nodes s) h). rewrite (lo_next _ _ HLok _ _ Hh).
  pose proof (lo_len _ _ HLok) as Hlen.
  destruct (lookup_lt_is_Some_2 L 1) as [nx Hnx]; [lia|]. rewrite Hnx. simpl.
  rewrite (lookup_node_at _ _ (lo_valid _ _ HLok _ _ Hnx)). simpl.
  fold (Typ (SkipList.nodes s) nx). rewrite (lo_type _ _ HLok _ _ Hnx).
  rewrite <- Hes. unfold base_entries.
  destruct (decide (2 = length L))%nat as [Hlast|Hlast].
  - rewrite pos_type_pos by lia. simpl. rewrite <- Hlast. simpl.
    pose proof (lo_valid _ _ HLok _ _ Hh). destruct (length (SkipList.nodes s)); [lia|]. done.
  - rewrite pos_type_normal by lia. simpl.
    rewrite (collect_spec _ L HLok _ 1 nx Hnx) by
      (pose proof (inv_level_length s lv HI _ _ HL); lia).
    do 3 f_equal. lia.
Qed.

(** * Part V: insertion into the skip list *)

(** *** Inserting into a list *)

Lemma ins_length {A} i (x : A) l : (i <= length l)%nat -> length (ins i x l) = S (length l).
Proof.
  intros H. unfold ins. rewrite length_app, length_take. simpl. rewrite length_drop. lia.
Qed.

Lemma ins_lookup_lt {A} i (x : A) l j : (j < i)%nat -> (i <= length l)%nat -> ins i x l !! j = l !! j.
Proof.
  intros H1 H2. unfold ins. rewrite lookup_app_l by (rewrite length_take; lia).
  by rewrite lookup_take_lt.
Qed.

Lemma ins_lookup_eq {A} i (x : A) l : (i <= length l)%nat -> ins i x l !! i = Some x.
Proof.
  intros H. unfold ins. rewrite lookup_app_r by (rewrite length_take; lia).
  rewrite length_take. by replace (i - i `min` length l)%nat with O by lia.
Qed.

Lemma ins_lookup_gt {A} i (x : A) l j :
  (i < j)%nat -> (i <= length l)%nat -> ins i x l !! j = l !! (j - 1)%nat.
Proof.
  intros H1 H2. unfold ins. rewrite lookup_app_r by (rewrite length_take; lia).
  rewrite length_take. replace (j - i `min` length l)%nat with (S (j - 1 - i)) by lia.
  simpl. rewrite lookup_drop. f_equal. lia.
Qed.

Lemma ins_perm {A} i (x : A) l : ins i x l ≡ₚ x :: l.
Proof.
  unfold ins. rewrite <- Permutation_middle. by rewrite take_drop.
Qed.

Lemma elem_of_ins {A} i (x y : A) l : y ∈ ins i x l <-> y = x \/ y ∈ l.
Proof. rewrite ins_perm. apply elem_of_cons. Qed.

Lemma omap_ins {A B} (f : A -> option B) i x (l : list A) :
  omap f (ins i x l) = omap f (take i l) ++ omap f [x] ++ omap f (drop i l).
Proof. unfold ins. rewrite omap_app. f_equal. change (x :: drop i l) with ([x] ++ drop i l). by rewrite omap_app. Qed.

Lemma omap_ext_in {A B} (f g : A -> option B) (l : list A) :
  (forall x, x ∈ l -> f x = g x) -> omap f l = omap g l.
Proof.
  induction l as [|a l IH]; intros H; csimpl; [done|].
  rewrite (H a) by left. rewrite IH; [done|]. intros x Hx. apply H. by right.
Qed.

Lemma omap_nil_iff {A B} (f : A -> option B) (l : list A) :
  omap f l = [] <-> forall x, x ∈ l -> f x = None.
Proof.
  induction l as [|a l IH]; csimpl.
  - split; [intros _ x Hx; by apply elem_of_nil in Hx|done].
  - destruct (f a) eqn:E.
    + split; [done|]. intros H. specialize (H a ltac:(left)). congruence.
    + rewrite IH. split.
      * intros H x [->|Hx]%elem_of_cons; [done|by apply H].
      * intros H x Hx. apply H. by right.
Qed.

Lemma concat_insert_perm (lv : list (list nat)) j L L' n :
  lv !! j = Some L -> L' ≡ₚ n :: L -> concat (<[j := L']> lv) ≡ₚ n :: concat lv.
Proof.
  revert j. induction lv as [|L0 lv IH]; intros j HL HP; [done|].
  destruct j as [|j]; simpl in *.
  - injection HL as ->. by rewrite HP.
  - rewrite (IH j HL HP). by rewrite Permutation_middle.
Qed.

(** *** Framing: a level only depends on the horizontal fields of its
    own nodes *)

Lemma level_ok_frame m m' L :
  (length m <= length m')%nat -> (forall p, p ∈ L -> same_h m m' p) ->
  level_ok m L -> level_ok m' L.
Proof.
  intros Hlen Hs HL.
  assert (Hs' : forall i p, L !! i = Some p -> same_h m m' p).
  { intros i p Hp. apply Hs. by eapply list_elem_of_lookup_2. }
  split.
  - apply HL.
  - intros i p Hp. pose proof (lo_valid _ _ HL _ _ Hp). lia.
  - intros i p Hp. destruct (Hs' _ _ Hp) as (-> & _). by apply HL.
  - intros i p Hp. destruct (Hs' _ _ Hp) as (_ & -> & _). by apply (lo_prev _ _ HL).
  - intros i p Hp. destruct (Hs' _ _ Hp) as (_ & _ & -> & _). by apply HL.
  - intros p Hp. destruct (Hs' _ _ Hp) as (_ & _ & _ & ->). by apply HL.
  - intros i p Hp Hi. destruct (Hs' _ _ Hp) as (_ & _ & _ & ->). by eapply (lo_tail _ _ HL).
  - intros i j p q Hij Hj Hp Hq.
    destruct (Hs' _ _ Hp) as (_ & _ & _ & ->). destruct (Hs' _ _ Hq) as (_ & _ & _ & ->).
    by eapply (lo_sorted _ _ HL i j).
Qed.

(** Linking a new node [n] with key [key] after position [i] of a level. *)
Lemma level_ok_ins m m' L i c nx n key :
  level_ok m L -> NoDup L ->
  L !! i = Some c -> L !! S i = Some nx -> n ∉ L ->
  (length m <= length m')%nat -> (n < length m')%nat ->
  (forall p, p ∈ L -> p <> c -> p <> nx -> same_h m m' p) ->
  Nxt m' c = Some n -> Prv m' c = Prv m c -> Typ m' c = Typ m c -> Key m' c = Key m c ->
  Nxt m' nx = Nxt m nx -> Prv m' nx = Some n -> Typ m' nx = Typ m nx -> Key m' nx = Key m nx ->
  Nxt m' n = Some nx -> Prv m' n = Some c -> Typ m' n = NORMAL -> Key m' n = key ->
  slt (Key m c) key -> ((S (S i) < length L)%nat -> slt key (Key m nx)) ->
  level_ok m' (ins (S i) n L).
Proof.
  intros HL Hnd Hc Hnx Hn Hlen Hnv Hsame Hc1 Hc2 Hc3 Hc4 Hx1 Hx2 Hx3 Hx4 Hn1 Hn2 Hn3 Hn4 Hlo Hhi.
  pose proof (lookup_lt_Some _ _ _ Hnx) as Hi.
  assert (Hlk : forall j p, ins (S i) n L !! j = Some p ->
    ((j <= i)%nat /\ L !! j = Some p) \/ (j = S i /\ p = n) \/ ((S i < j)%nat /\ L !! (j - 1)%nat = Some p)).
  { intros j p Hj. destruct (Nat.lt_trichotomy j (S i)) as [H|[->|H]].
    - rewrite ins_lookup_lt in Hj by lia. left. split; [lia|done].
    - rewrite ins_lookup_eq in Hj by lia. right; left. split; congruence.
    - rewrite ins_lookup_gt in Hj by lia. right; right. done. }
  assert (Hkey : forall j p, L !! j = Some p -> Key m' p = Key m p).
  { intros j p Hp. destruct (decide (p = c)) as [->|]; [done|].
    destruct (decide (p = nx)) as [->|]; [done|].
    apply Hsame; [by eapply list_elem_of_lookup_2|done..]. }
  assert (Hne : forall j p, L !! j = Some p -> j <> i -> j <> S i -> p <> c /\ p <> nx).
  { intros j p Hp H1 H2. split; intros ->.
    - apply H1. by eapply NoDup_lookup. 
    - apply H2. by eapply NoDup_lookup. }
  assert (Hold : forall j p, L !! j = Some p -> j <> i -> j <> S i -> same_h m m' p).
  { intros j p Hp H1 H2. destruct (Hne j p Hp H1 H2). apply Hsame; [by eapply list_elem_of_lookup_2|done..]. }
  split.
  - rewrite ins_length by lia. lia.
  - intros j p Hj. destruct (Hlk j p Hj) as [[_ Hp]|[[_ ->]|[_ Hp]]]; [|done|];
      pose proof (lo_valid _ _ HL _ _ Hp); lia.
  - intros j p Hj. destruct (Hlk j p Hj) as [[Hji Hp]|[[-> ->]|[Hji Hp]]].
    + destruct (decide (j = i)) as [->|].
      * rewrite Hc in Hp. injection Hp as <-. rewrite Hc1. by rewrite ins_lookup_eq by lia.
      * destruct (Hold j p Hp) as (-> & _); [lia..|]. rewrite (lo_next _ _ HL _ _ Hp).
        by rewrite ins_lookup_lt by lia.
    + rewrite Hn1. rewrite ins_lookup_gt by lia. replace (S (S i) - 1)%nat with (S i) by lia. done.
    + destruct (decide (j = S (S i))) as [->|].
      * replace (S (S i) - 1)%nat with (S i) in Hp by lia. rewrite Hnx in Hp. injection Hp as <-. rewrite Hx1.
        rewrite (lo_next _ _ HL _ _ Hnx). rewrite ins_lookup_gt by lia. done.
      * destruct (Hold (j - 1)%nat p Hp) as (-> & _); [lia..|]. rewrite (lo_next _ _ HL _ _ Hp).
        rewrite ins_lookup_gt by lia. f_equal. lia.
  - intros j p Hj. destruct (Hlk j p Hj) as [[Hji Hp]|[[-> ->]|[Hji Hp]]].
    + destruct (decide (j = i)) as [->|].
      * rewrite Hc in Hp. injection Hp as <-. rewrite Hc2. rewrite (lo_prev _ _ HL _ _ Hc).
        destruct i; [done|]. by rewrite ins_lookup_lt by lia.
      * destruct (Hold j p Hp) as (_ & -> & _); [lia..|]. rewrite (lo_prev _ _ HL _ _ Hp).
        destruct j; [done|]. by rewrite ins_lookup_lt by lia.
    + rewrite Hn2. by rewrite ins_lookup_lt by lia.
    + destruct j as [|j]; [lia|]. replace (S j - 1)%nat with j in Hp by lia.
      destruct (decide (j = S i)) as [->|].
      * rewrite Hnx in Hp. injection Hp as <-. rewrite Hx2. by rewrite ins_lookup_eq by lia.
      * destruct (Hold j p Hp) as (_ & -> & _); [lia..|]. rewrite (lo_prev _ _ HL _ _ Hp).
        destruct j as [|j]; [lia|]. rewrite ins_lookup_gt by lia. f_equal. lia.
  - rewrite ins_length by lia.
    intros j p Hj. destruct (Hlk j p Hj) as [[Hji Hp]|[[-> ->]|[Hji Hp]]].
    + assert (Typ m' p = Typ m p) as ->.
      { destruct (decide (j = i)) as [->|]; [congruence|]. by destruct (Hold j p Hp) as (_ & _ & -> & _); [lia..|]. }
      rewrite (lo_type _ _ HL _ _ Hp). unfold pos_type. destruct j; [done|].
      rewrite !decide_False by lia. done.
    + rewrite Hn3. symmetry. apply pos_type_normal; lia.
    + assert (Typ m' p = Typ m p) as ->.
      { destruct (decide (j - 1 = S i)%nat) as [Heq|]; [rewrite Heq in Hp; congruence|].
        by destruct (Hold _ p Hp) as (_ & _ & -> & _); [lia..|]. }
      rewrite (lo_type _ _ HL _ _ Hp). unfold pos_type.
      destruct j as [|j]; [lia|]. replace (S j - 1)%nat with j in * by lia. destruct j as [|j]; [lia|].
      destruct (decide (S (S j) = length L)); [rewrite decide_True by lia|rewrite decide_False by lia]; done.
  - intros p Hj. rewrite ins_lookup_lt in Hj by lia. rewrite (Hkey _ _ Hj). by apply HL.
  - rewrite ins_length by lia. intros j p Hj Hlast.
    rewrite ins_lookup_gt in Hj by lia. rewrite (Hkey _ _ Hj). apply (lo_tail _ _ HL _ _ Hj). lia.
  - rewrite ins_length by lia. intros a b p q Hab Hb Hp Hq.
    destruct (Hlk a p Hp) as [[Ha Hp']|[[-> ->]|[Ha Hp']]];
      destruct (Hlk b q Hq) as [[Hb' Hq']|[[-> ->]|[Hb' Hq']]]; try lia.
    + rewrite (Hkey _ _ Hp'), (Hkey _ _ Hq'). apply (lo_sorted _ _ HL a b); [lia|lia|done|done].
    + rewrite (Hkey _ _ Hp'), Hn4. destruct (decide (a = i)) as [->|].
      * rewrite Hc in Hp'. by injection Hp' as <-.
      * eapply slt_trans; [|exact Hlo]. apply (lo_sorted _ _ HL a i); [lia|lia|done|done].
    + rewrite (Hkey _ _ Hp'), (Hkey _ _ Hq'). apply (lo_sorted _ _ HL a (b - 1)); [lia|lia|done|done].
    + rewrite Hn4, (Hkey _ _ Hq'). destruct (decide (b - 1 = S i)%nat) as [Heq|].
      * rewrite Heq in Hq'. rewrite Hnx in Hq'. injection Hq' as <-. apply Hhi. lia.
      * eapply slt_trans; [apply Hhi; lia|]. apply (lo_sorted _ _ HL (S i) (b - 1)); [lia|lia|done|done].
    + rewrite (Hkey _ _ Hp'), (Hkey _ _ Hq'). apply (lo_sorted _ _ HL (a - 1) (b - 1)); [lia|lia|done|done].
Qed.

(** *** The effect of the store updates *)

Ltac len := rewrite ?length_insert, ?length_app; simpl; lia.

Ltac dec :=
  repeat match goal with
  | |- context [decide (?a = ?b)] =>
      first [ rewrite (decide_True (P := a = b)) by (done || lia)
            | rewrite (decide_False (P := a = b)) by (done || congruence || lia) ]
  end.

Lemma link_after_spec m c n nx :
  (c < length m)%nat -> (n < length m)%nat -> (nx < length m)%nat ->
  Nxt m c = Some nx -> n <> c -> n <> nx -> c <> nx ->
  exists m', SkipList.link_after c n m = Some m' /\ length m' = length m
    /\ node_at m' c = with_next (Some n) (node_at m c)
    /\ node_at m' nx = with_prev (Some n) (node_at m nx)
    /\ node_at m' n = with_next (Some nx) (with_prev (Some c) (node_at m n))
    /\ (forall p, p <> c -> p <> nx -> p <> n -> node_at m' p = node_at m p).
Proof.
  intros Hc Hn Hnx Hnext H1 H2 H3. unfold SkipList.link_after, Nxt in *.
  rewrite assign_Some by done. simpl.
  rewrite follow_Some by len. rewrite node_at_insert by done. dec.
  rewrite Hnext. simpl.
  rewrite assign_Some by len. simpl.
  rewrite follow_Some by len. rewrite !node_at_insert by len. dec.
  rewrite Hnext. simpl.
  rewrite assign_Some by len. simpl. rewrite !node_at_insert by len. dec.
  rewrite assign_Some by len. rewrite !node_at_insert by len. dec.
  eexists. split; [done|]. split; [len|].
  split_and!.
  - rewrite !node_at_insert by len. by dec.
  - rewrite !node_at_insert by len. by dec.
  - rewrite !node_at_insert by len. by dec.
  - intros p Hp1 Hp2 Hp3. rewrite !node_at_insert by len. by dec.
Qed.

(** *** Framing the whole structure *)

Lemma inv_up_elem s lv j D q p :
  Inv s lv -> lv !! j = Some D -> q ∈ D -> Up (SkipList.nodes s) q = Some p ->
  exists U, lv !! S j = Some U /\ p ∈ U.
Proof.
  intros HI HD Hq Hup. pose proof (inv_up _ _ HI _ _ HD) as H.
  assert (p ∈ omap (Up (SkipList.nodes s)) D) as Hp.
  { apply list_elem_of_omap. by exists q. }
  rewrite H in Hp. destruct (lv !! S j) as [U|]; [by exists U|]. by apply elem_of_nil in Hp.
Qed.

Lemma Inv_frame s s' lv :
  SkipList.head s' = SkipList.head s -> SkipList.tail s' = SkipList.tail s ->
  SkipList.current_level s' = SkipList.current_level s ->
  (length (SkipList.nodes s) <= length (SkipList.nodes s'))%nat ->
  (forall p, p ∈ concat lv ->
     same_h (SkipList.nodes s) (SkipList.nodes s') p /\ same_v (SkipList.nodes s) (SkipList.nodes s') p) ->
  Inv s lv -> Inv s' lv.
Proof.
  intros Hh Ht Hc Hlen Hsame HI.
  assert (Hs : forall j L p, lv !! j = Some L -> p ∈ L ->
     same_h (SkipList.nodes s) (SkipList.nodes s') p /\ same_v (SkipList.nodes s) (SkipList.nodes s') p).
  { intros j L p HL Hp. apply Hsame. by eapply elem_of_concat_lookup. }
  split.
  - intros j L HL. eapply level_ok_frame; [done| |by eapply inv_levels].
    intros p Hp. by apply (Hs j L).
  - apply HI.
  - rewrite Hh, Ht. apply HI.
  - rewrite Hc. apply HI.
  - intros L p HL Hp. destruct (Hs _ _ _ HL Hp) as (_ & _ & ->). by eapply inv_base.
  - intros j D HD. rewrite <- (inv_up _ _ HI _ _ HD). apply omap_ext_in.
    intros q Hq. by destruct (Hs _ _ _ HD Hq) as (_ & -> & _).
  - intros j D q p HD Hq Hup.
    destruct (Hs _ _ _ HD Hq) as ((_ & _ & Hty & Hk) & Hu & _). rewrite Hu in Hup.
    destruct (inv_up_elem _ _ _ _ _ _ HI HD Hq Hup) as (U & HU & Hp).
    destruct (Hs _ _ _ HU Hp) as ((_ & _ & Hty' & Hk') & _ & Hd).
    rewrite Hd, Hk, Hk', Hty, Hty'. exact (inv_twin _ _ HI _ _ _ _ HD Hq Hup).
Qed.

(** *** [put] on a key that the search finds *)

Lemma kv_upsert_overwrite key value es j e :
  ascending es -> es !! j = Some e -> getKey e = key ->
  kv_upsert key value es = <[j := setValue value e]> es.
Proof.
  revert j. induction es as [|e' es IH]; intros j Hasc Hj Hk; [done|]. simpl.
  destruct j as [|j]; simpl in Hj.
  - injection Hj as ->. rewrite <- Hk.
    rewrite (proj2 (str_lt_false _ _) (slt_irrefl _)). by rewrite str_eq_refl.
  - pose proof (Hasc O (S j) e' e ltac:(lia) eq_refl Hj) as Hlt. rewrite Hk in Hlt.
    rewrite (proj2 (str_lt_false _ _) (slt_asym _ _ Hlt)).
    rewrite (proj2 (str_eq_false (getKey e') key)).
    + simpl. f_equal. apply IH; [by eapply ascending_tail|done..].
    + intros Heq. rewrite Heq in Hlt. by apply slt_irrefl in Hlt.
Qed.

Lemma kv_upsert_insert key value es i :
  (forall j e, (j < i)%nat -> es !! j = Some e -> slt (getKey e) key) ->
  (forall j e, (i <= j)%nat -> es !! j = Some e -> slt key (getKey e)) ->
  (i <= length es)%nat ->
  kv_upsert key value es = ins i (mkKV key value) es.
Proof.
  revert i. induction es as [|e es IH]; intros i Hlo Hhi Hi; simpl in *.
  - by replace i with O by lia.
  - destruct i as [|i].
    + rewrite (proj2 (str_lt_spec _ _) (Hhi O e ltac:(lia) eq_refl)). done.
    + pose proof (Hlo O e ltac:(lia) eq_refl) as Hlt.
      rewrite (proj2 (str_lt_false _ _) (slt_asym _ _ Hlt)).
      rewrite (proj2 (str_eq_false (getKey e) key)).
      * unfold ins. simpl. f_equal. apply IH; [|intros j e' Hj; apply (Hhi (S j)); lia|lia].
        intros j e' Hj. apply (Hlo (S j)). lia.
      * intros Heq. rewrite Heq in Hlt. by apply slt_irrefl in Hlt.
Qed.

Lemma Rep_overwrite s sv es key value r :
  Rep s sv es -> SkipList.search s key = Some r -> Key (SkipList.nodes s) r = key ->
  exists m', assign (with_data (setValue value (n_data (node_at (SkipList.nodes s) r)))) r
               (SkipList.nodes s) = Some m'
    /\ Rep (SkipList.mk m' (SkipList.head s) (SkipList.tail s) (SkipList.current_level s)
              (SkipList.totalSize s))
         (if str_eq key "" then value else sv)
         (if str_eq key "" then es else kv_upsert key value es).
Proof.
  intros (lv & L & h & HI & HL & Hh & Hsv & Hes) Hr Hk.
  destruct (search_spec s lv HI key) as (L0 & i0 & r' & HL0 & Hr' & Hi0 & Hlt & Hle & Hafter).
  rewrite Hr in Hr'. injection Hr' as <-. rewrite HL in HL0. injection HL0 as <-.
  pose proof (inv_levels _ _ HI _ _ HL) as HLok.
  pose proof (lo_valid _ _ HLok _ _ Hi0) as Hrv.
  rewrite assign_Some by done. eexists. split; [done|].
  set (m' := <[r := _]> (SkipList.nodes s)).
  assert (Hnode : forall p, node_at m' p = if decide (p = r)
             then with_data (setValue value (n_data (node_at (SkipList.nodes s) r))) (node_at (SkipList.nodes s) r)
             else node_at (SkipList.nodes s) p).
  { intros p. unfold m'. by rewrite node_at_insert. }
  assert (Hsame : forall p, same_h (SkipList.nodes s) m' p /\ same_v (SkipList.nodes s) m' p).
  { intros p. unfold same_h, same_v, Nxt, Prv, Typ, Key, Up, Dn. rewrite Hnode.
    destruct (decide (p = r)) as [->|]; done. }
  assert (HI' : Inv (SkipList.mk m' (SkipList.head s) (SkipList.tail s) (SkipList.current_level s)
              (SkipList.totalSize s)) lv).
  { eapply (Inv_frame s _ lv); [done|done|done| |intros p _; apply Hsame|done]. simpl. unfold m'. len. }
  exists lv, L, h. split_and!; [done|done|done| |].
  - simpl. unfold Val. rewrite Hnode. destruct i0 as [|i0].
    + rewrite Hh in Hi0. injection Hi0 as <-. rewrite decide_True by done.
      rewrite (lo_head _ _ HLok _ Hh) in Hk. subst key. done.
    + assert (key <> ""%string).
      { intros ->. pose proof (lo_sorted _ _ HLok O (S i0) h r ltac:(lia) Hlt Hh Hi0) as Hs.
        rewrite Hk in Hs. by apply not_slt_empty in Hs. }
      rewrite (proj2 (str_eq_false key "")) by done.
      rewrite decide_False; [done|]. intros ->. 
      pose proof (level_pos_inj s lv HI _ _ _ _ _ HL Hh Hi0). done.
  - simpl. destruct i0 as [|i0].
    + rewrite Hh in Hi0. injection Hi0 as <-.
      rewrite (lo_head _ _ HLok _ Hh) in Hk. subst key. simpl. rewrite <- Hes.
      unfold base_entries. apply map_ext_in. intros p Hp%list_elem_of_In.
      rewrite Hnode. rewrite decide_False; [done|]. intros ->.
      apply list_elem_of_lookup in Hp as [j Hj]. apply lookup_take_Some in Hj as [Hj Hjl].
      rewrite lookup_drop in Hj. pose proof (level_pos_inj s lv HI _ _ _ _ _ HL Hh Hj). done.
    + assert (key <> ""%string).
      { intros ->. pose proof (lo_sorted _ _ HLok O (S i0) h r ltac:(lia) Hlt Hh Hi0) as Hs.
        rewrite Hk in Hs. by apply not_slt_empty in Hs. }
      rewrite (proj2 (str_eq_false key "")) by done.
      pose proof (base_entries_lookup (SkipList.nodes s) L i0 r Hi0 Hlt) as Hj. rewrite Hes in Hj.
      rewrite (kv_upsert_overwrite key value es i0 _ ltac:(rewrite <- Hes; by apply base_entries_ascending) Hj Hk).
      apply list_eq. intros j. destruct (decide (j = i0)) as [->|Hne].
      * rewrite list_lookup_insert_eq by (by eapply lookup_lt_Some).
        rewrite (base_entries_lookup m' L i0 r Hi0 Hlt). rewrite Hnode. by rewrite decide_True.
      * rewrite list_lookup_insert_ne by done. rewrite <- Hes.
        destruct (decide (S (S j) < length L)%nat) as [Hjl|Hjl].
        -- destruct (lookup_lt_is_Some_2 L (S j)) as [p Hp]; [lia|].
           rewrite !(base_entries_lookup _ L j p Hp Hjl). rewrite Hnode.
           rewrite decide_False; [done|]. intros ->.
           pose proof (level_pos_inj s lv HI _ _ _ _ _ HL Hi0 Hp). lia.
        -- rewrite !lookup_ge_None_2; [done|rewrite base_entries_length; lia..].
Qed.

(** *** Inserting a node into the base level *)

Lemma last_insert_levels (lv : list (list ptr)) j L' T :
  (j < length lv)%nat -> last (<[j := L']> lv) = Some T ->
  (j = (length lv - 1)%nat /\ T = L') \/ (j <> (length lv - 1)%nat /\ last lv = Some T).
Proof.
  intros Hj. rewrite !last_lookup, length_insert.
  destruct (decide (j = pred (length lv))) as [->|Hne].
  - rewrite list_lookup_insert_eq by lia. intros [= <-]. left. split; [lia|done].
  - rewrite list_lookup_insert_ne by lia. intros H. right. split; [lia|done].
Qed.

Lemma Inv_insert_base s lv L i c nx kv m' total :
  Inv s lv -> lv !! O = Some L -> L !! i = Some c -> L !! S i = Some nx ->
  length m' = S (length (SkipList.nodes s)) ->
  node_at m' c = with_next (Some (length (SkipList.nodes s))) (node_at (SkipList.nodes s) c) ->
  node_at m' nx = with_prev (Some (length (SkipList.nodes s))) (node_at (SkipList.nodes s) nx) ->
  node_at m' (length (SkipList.nodes s)) = mkNode NORMAL kv (Some c) (Some nx) None None ->
  (forall p, p <> c -> p <> nx -> p <> length (SkipList.nodes s) ->
     node_at m' p = node_at (SkipList.nodes s) p) ->
  slt (Key (SkipList.nodes s) c) (getKey kv) ->
  ((S (S i) < length L)%nat -> slt (getKey kv) (Key (SkipList.nodes s) nx)) ->
  Inv (SkipList.mk m' (SkipList.head s) (SkipList.tail s) (SkipList.current_level s) total)
      (<[O := ins (S i) (length (SkipList.nodes s)) L]> lv).
Proof.
  intros HI HL Hc Hnx Hlen Hmc Hmx Hmn Hmo Hlo Hhi.
  set (m := SkipList.nodes s) in *. set (n := length m) in *.
  pose proof (inv_levels _ _ HI _ _ HL) as HLok.
  pose proof (lookup_lt_Some _ _ _ Hnx) as Hi.
  assert (HndL : NoDup L) by (eapply NoDup_concat_level; [apply HI|done]).
  assert (Hcx : c <> nx).
  { intros ->. pose proof (NoDup_lookup _ _ _ _ HndL Hc Hnx). lia. }
  assert (Hfresh : forall p, p ∈ concat lv -> p <> n).
  { intros p Hp. pose proof (inv_valid s lv HI p Hp). unfold n, m. lia. }
  assert (HnL : n ∉ L).
  { intros Hn. apply (Hfresh n); [by eapply elem_of_concat_lookup|done]. }
  assert (Hv : forall p, p <> n -> same_v m m' p /\ Typ m' p = Typ m p /\ Key m' p = Key m p).
  { intros p Hp. unfold same_v, Up, Dn, Typ, Key.
    destruct (decide (p = c)) as [->|]; [by rewrite Hmc|].
    destruct (decide (p = nx)) as [->|]; [by rewrite Hmx|].
    by rewrite Hmo. }
  assert (Hh : forall p, p <> c -> p <> nx -> p <> n -> same_h m m' p).
  { intros p H1 H2 H3. unfold same_h, Nxt, Prv, Typ, Key. by rewrite Hmo. }
  assert (Hother : forall j Lj p, (0 < j)%nat -> lv !! j = Some Lj -> p ∈ Lj -> p <> c /\ p <> nx /\ p <> n).
  { intros j Lj p Hj HLj Hp. split_and!.
    - intros ->. pose proof (NoDup_concat_disjoint lv j O Lj L c (inv_nodup _ _ HI) HLj HL Hp
        ltac:(by eapply list_elem_of_lookup_2)). lia.
    - intros ->. pose proof (NoDup_concat_disjoint lv j O Lj L nx (inv_nodup _ _ HI) HLj HL Hp
        ltac:(by eapply list_elem_of_lookup_2)). lia.
    - apply Hfresh. by eapply elem_of_concat_lookup. }
  assert (HL' : level_ok m' (ins (S i) n L)).
  { eapply (level_ok_ins m m' L i c nx n (getKey kv)); try done.
    - lia.
    - lia.
    - intros p Hp H1 H2. apply Hh; [done..|]. intros ->. done.
    - unfold Nxt. by rewrite Hmc.
    - unfold Prv. by rewrite Hmc.
    - unfold Typ. by rewrite Hmc.
    - unfold Key. by rewrite Hmc.
    - unfold Nxt. by rewrite Hmx.
    - unfold Prv. by rewrite Hmx.
    - unfold Typ. by rewrite Hmx.
    - unfold Key. by rewrite Hmx.
    - unfold Nxt. by rewrite Hmn.
    - unfold Prv. by rewrite Hmn.
    - unfold Typ. by rewrite Hmn.
    - unfold Key. by rewrite Hmn. }
  assert (Hlv0 : (0 < length lv)%nat) by (by eapply lookup_lt_Some).
  split; simpl.
  - intros j Lj HLj. destruct j as [|j].
    + rewrite list_lookup_insert_eq in HLj by done. by injection HLj as <-.
    + rewrite list_lookup_insert_ne in HLj by done.
      eapply (level_ok_frame m m'); [lia| |by eapply inv_levels].
      intros p Hp. destruct (Hother (S j) Lj p ltac:(lia) HLj Hp) as (? & ? & ?). by apply Hh.
  - rewrite (concat_insert_perm lv O L _ n HL (ins_perm _ _ _)).
    apply NoDup_cons. split; [|apply HI]. intros Hn. by apply (Hfresh n).
  - destruct (inv_top _ _ HI) as (T & HT & HTh & HTt).
    destruct (decide (length lv = 1%nat)) as [Hone|Hmany].
    + exists (ins (S i) n L). rewrite last_lookup, length_insert, Hone. simpl.
      rewrite last_lookup, Hone in HT. simpl in HT. rewrite HL in HT. injection HT as <-.
      rewrite list_lookup_insert_eq by lia. split; [done|]. split.
      * by rewrite ins_lookup_lt by lia.
      * rewrite last_lookup in HTt. rewrite last_lookup, ins_length by lia. simpl.
        rewrite ins_lookup_gt by lia. rewrite <- HTt. f_equal. lia.
    + exists T. rewrite last_lookup, length_insert.
      rewrite last_lookup in HT. rewrite list_lookup_insert_ne by lia. done.
  - rewrite length_insert. apply HI.
  - intros L0 p HL0 Hp. rewrite list_lookup_insert_eq in HL0 by done. injection HL0 as <-.
    apply elem_of_ins in Hp as [->|Hp].
    + unfold Dn. by rewrite Hmn.
    + destruct (Hv p) as ((_ & ->) & _); [apply Hfresh; by eapply elem_of_concat_lookup|].
      by eapply inv_base.
  - intros j D HD. 
    assert (Hup : forall Lj, lv !! j = Some Lj -> omap (Up m') Lj = omap (Up m) Lj).
    { intros Lj HLj. apply omap_ext_in. intros q Hq.
      destruct (Hv q) as ((-> & _) & _); [apply Hfresh; by eapply elem_of_concat_lookup|done]. }
    rewrite list_lookup_insert_ne by done.
    destruct j as [|j].
    + rewrite list_lookup_insert_eq in HD by done. injection HD as <-.
      rewrite omap_ins.
      assert (omap (Up m') [n] = []) as ->. { csimpl. unfold Up. by rewrite Hmn. }
      simpl. rewrite <- omap_app, take_drop. rewrite (Hup L HL). apply (inv_up _ _ HI _ _ HL).
    + rewrite list_lookup_insert_ne in HD by done. rewrite (Hup D HD). by apply HI.
  - intros j D q p HD Hq Hup.
    assert (q <> n /\ exists D0, lv !! j = Some D0 /\ q ∈ D0) as (Hqn & D0 & HD0 & Hq0).
    { destruct j as [|j].
      - rewrite list_lookup_insert_eq in HD by done. injection HD as <-.
        apply elem_of_ins in Hq as [->|Hq].
        + unfold Up in Hup. by rewrite Hmn in Hup.
        + split; [apply Hfresh; by eapply elem_of_concat_lookup|by exists L].
      - rewrite list_lookup_insert_ne in HD by done.
        split; [apply Hfresh; by eapply elem_of_concat_lookup|by exists D]. }
    destruct (Hv q Hqn) as ((Hu & _) & Hty & Hk). rewrite Hu in Hup.
    destruct (inv_up_elem _ _ _ _ _ _ HI HD0 Hq0 Hup) as (U & HU & Hp).
    destruct (Hv p) as ((_ & Hd) & Hty' & Hk'); [apply Hfresh; by eapply elem_of_concat_lookup|].
    rewrite Hd, Hk, Hk', Hty, Hty'. exact (inv_twin _ _ HI _ _ _ _ HD0 Hq0 Hup).
Qed.

(** *** A new top level *)

Lemma add_level_spec s :
  (SkipList.head s < length (SkipList.nodes s))%nat ->
  (SkipList.tail s < length (SkipList.nodes s))%nat ->
  SkipList.head s <> SkipList.tail s ->
  exists m', SkipList.add_level s
      = Some (SkipList.mk m' (length (SkipList.nodes s)) (S (length (SkipList.nodes s)))
                (SkipList.current_level s + 1) (SkipList.totalSize s))
    /\ length m' = S (S (length (SkipList.nodes s)))
    /\ node_at m' (length (SkipList.nodes s))
       = mkNode NEGATIVE_INFINITY KeyValuePair_default None (Some (S (length (SkipList.nodes s))))
           None (Some (SkipList.head s))
    /\ node_at m' (S (length (SkipList.nodes s)))
       = mkNode POSITIVE_INFINITY KeyValuePair_default (Some (length (SkipList.nodes s))) None
           None (Some (SkipList.tail s))
    /\ node_at m' (SkipList.head s)
       = with_up (Some (length (SkipList.nodes s))) (node_at (SkipList.nodes s) (SkipList.head s))
    /\ node_at m' (SkipList.tail s)
       = with_up (Some (S (length (SkipList.nodes s)))) (node_at (SkipList.nodes s) (SkipList.tail s))
    /\ (forall p, (p < length (SkipList.nodes s))%nat -> p <> SkipList.head s -> p <> SkipList.tail s ->
          node_at m' p = node_at (SkipList.nodes s) p).
Proof.
  intros Hh Ht Hne. unfold SkipList.add_level, alloc.
  set (m := SkipList.nodes s) in *. set (h := SkipList.head s) in *. set (t := SkipList.tail s) in *.
  rewrite length_app. simpl. replace (length m + 1)%nat with (S (length m)) by lia.
  repeat (rewrite assign_Some by len; simpl).
  eexists. split; [done|]. split; [len|].
  assert (Hn1 : node_at ((m ++ [new_Node NEGATIVE_INFINITY KeyValuePair_default])
                           ++ [new_Node POSITIVE_INFINITY KeyValuePair_default]) (length m)
                = new_Node NEGATIVE_INFINITY KeyValuePair_default).
  { rewrite node_at_app_l by len. by rewrite node_at_app_r. }
  assert (Hn2 : node_at ((m ++ [new_Node NEGATIVE_INFINITY KeyValuePair_default])
                           ++ [new_Node POSITIVE_INFINITY KeyValuePair_default]) (S (length m))
                = new_Node POSITIVE_INFINITY KeyValuePair_default).
  { replace (S (length m)) with (length (m ++ [new_Node NEGATIVE_INFINITY KeyValuePair_default])) by len.
    by rewrite node_at_app_r. }
  assert (Hold : forall p, (p < length m)%nat ->
     node_at ((m ++ [new_Node NEGATIVE_INFINITY KeyValuePair_default])
                           ++ [new_Node POSITIVE_INFINITY KeyValuePair_default]) p = node_at m p).
  { intros p Hp. rewrite !node_at_app_l by len. done. }
  split_and!.
  - rewrite !node_at_insert by len. dec. rewrite Hn1. done.
  - rewrite !node_at_insert by len. dec. rewrite Hn2. done.
  - rewrite !node_at_insert by len. dec. by rewrite (Hold h).
  - rewrite !node_at_insert by len. dec. by rewrite (Hold t).
  - intros p Hp H1 H2. rewrite !node_at_insert by len. dec. by apply Hold.
Qed.

Lemma inv_head_tail s lv : Inv s lv ->
  (SkipList.head s < length (SkipList.nodes s))%nat /\
  (SkipList.tail s < length (SkipList.nodes s))%nat /\ SkipList.head s <> SkipList.tail s.
Proof.
  intros HI. destruct (inv_top_lookup s lv HI) as (T & HT & Hh & Ht).
  pose proof (inv_levels _ _ HI _ _ HT) as HTok. split_and!.
  - by eapply (lo_valid _ _ HTok).
  - by eapply (lo_valid _ _ HTok).
  - intros Heq. rewrite <- Heq in Ht. pose proof (level_pos_inj s lv HI _ _ _ _ _ HT Hh Ht).
    pose proof (lo_len _ _ HTok). lia.
Qed.

Lemma level_decompose (T : list ptr) h t :
  (2 <= length T)%nat -> T !! O = Some h -> T !! (length T - 1)%nat = Some t ->
  exists mid, T = h :: mid ++ [t].
Proof.
  intros Hlen Hh Ht. destruct T as [|h' T]; [done|]. simpl in Hh. injection Hh as ->.
  destruct (decide (T = [])) as [->|Hne]; [simpl in Hlen; lia|].
  destruct (exists_last Hne) as (mid & t' & ->). exists mid. do 2 f_equal.
  simpl in Ht. rewrite length_app in Ht. simpl in Ht.
  replace (length mid + 1 - 0)%nat with (S (length mid)) in Ht by lia. simpl in Ht.
  rewrite lookup_app_r in Ht by lia. rewrite Nat.sub_diag in Ht. simpl in Ht. congruence.
Qed.

Lemma Inv_add_level s lv :
  Inv s lv ->
  exists s1, SkipList.add_level s = Some s1
    /\ Inv s1 (lv ++ [[length (SkipList.nodes s); S (length (SkipList.nodes s))]])
    /\ length (SkipList.nodes s1) = S (S (length (SkipList.nodes s)))
    /\ SkipList.totalSize s1 = SkipList.totalSize s
    /\ (forall p, (p < length (SkipList.nodes s))%nat ->
          n_data (node_at (SkipList.nodes s1) p) = n_data (node_at (SkipList.nodes s) p)
          /\ same_h (SkipList.nodes s) (SkipList.nodes s1) p
          /\ Dn (SkipList.nodes s1) p = Dn (SkipList.nodes s) p
          /\ (p <> SkipList.head s -> p <> SkipList.tail s ->
              Up (SkipList.nodes s1) p = Up (SkipList.nodes s) p)).
Proof.
  intros HI. destruct (inv_head_tail s lv HI) as (Hhv & Htv & Hht).
  destruct (add_level_spec s Hhv Htv Hht) as (m' & Hadd & Hlen & Hnh & Hnt & Hmh & Hmt & Hmo).
  set (m := SkipList.nodes s) in *. set (h := SkipList.head s) in *. set (t := SkipList.tail s) in *.
  set (nh := length m) in *. set (nt := S nh) in *.
  destruct (inv_top_lookup s lv HI) as (T & HT & HTh & HTt). fold h in HTh. fold t in HTt.
  assert (HTok : level_ok m T) by exact (inv_levels _ _ HI _ _ HT).
  pose proof (inv_nonempty s lv HI) as Hlv.
  assert (Hold : forall p, (p < length m)%nat ->
     n_data (node_at m' p) = n_data (node_at m p) /\ same_h m m' p /\ Dn m' p = Dn m p
     /\ Typ m' p = Typ m p /\ Key m' p = Key m p
     /\ (p <> h -> p <> t -> Up m' p = Up m p)).
  { intros p Hp. unfold same_h, Nxt, Prv, Typ, Key, Up, Dn.
    destruct (decide (p = h)) as [->|]; [by rewrite Hmh|].
    destruct (decide (p = t)) as [->|]; [by rewrite Hmt|].
    by rewrite Hmo. }
  assert (Hfresh : forall p, p ∈ concat lv -> (p < length m)%nat).
  { intros p Hp. apply (inv_valid s lv HI p Hp). }
  assert (Hnontop : forall j D p, lv !! j = Some D -> j <> (length lv - 1)%nat -> p ∈ D -> p <> h /\ p <> t).
  { intros j D p HD Hj Hp. split; intros ->.
    - apply Hj. eapply (NoDup_concat_disjoint lv j _ D T h (inv_nodup _ _ HI)); try done.
      by eapply list_elem_of_lookup_2.
    - apply Hj. eapply (NoDup_concat_disjoint lv j _ D T t (inv_nodup _ _ HI)); try done.
      by eapply list_elem_of_lookup_2. }
  eexists. split; [exact Hadd|]. split; [|split_and!; simpl; [done|done|]].
  2:{ intros p Hp. destruct (Hold p Hp) as (? & ? & ? & ? & ? & ?). done. }
  split; simpl.
  - intros j L HL. destruct (decide (j < length lv)%nat) as [Hj|Hj].
    + rewrite lookup_app_l in HL by done.
      eapply (level_ok_frame m m'); [lia| |by eapply inv_levels].
      intros p Hp. apply Hold. apply Hfresh. by eapply elem_of_concat_lookup.
    + rewrite lookup_app_r in HL by lia.
      destruct (j - length lv)%nat eqn:E; [|by destruct n]. simpl in HL. injection HL as <-.
      split; simpl.
      * lia.
      * intros [|[|i]] p [=]; subst; lia.
      * intros [|[|i]] p [=]; subst; unfold Nxt; [by rewrite Hnh|by rewrite Hnt].
      * intros [|[|i]] p [=]; subst; unfold Prv; [by rewrite Hnh|by rewrite Hnt].
      * intros [|[|i]] p [=]; subst; unfold Typ; [by rewrite Hnh|by rewrite Hnt].
      * intros p [= <-]. unfold Key. by rewrite Hnh.
      * intros [|[|i]] p [=] Hi; subst; [done|]. unfold Key. by rewrite Hnt.
      * intros i j' p q Hij Hj'. lia.
  - rewrite concat_app. simpl. apply NoDup_app. split_and!.
    + apply HI.
    + intros p Hp%Hfresh. rewrite !elem_of_cons, elem_of_nil. unfold nt, nh. lia.
    + apply NoDup_cons. split; [rewrite list_elem_of_singleton; unfold nt; lia|].
      apply NoDup_singleton.
  - eexists. rewrite last_snoc. done.
  - rewrite length_app. simpl. rewrite (inv_cur _ _ HI). lia.
  - intros L p HL Hp. rewrite lookup_app_l in HL by lia.
    destruct (Hold p) as (_ & _ & -> & _); [apply Hfresh; by eapply elem_of_concat_lookup|].
    by eapply inv_base.
  - intros j D HD. destruct (decide (j < length lv)%nat) as [Hj|Hj].
    + rewrite lookup_app_l in HD by done.
      destruct (decide (j = length lv - 1)%nat) as [->|Hjt].
      * rewrite HT in HD. injection HD as <-.
        rewrite lookup_app_r by lia. replace (S (length lv - 1) - length lv)%nat with O by lia. simpl.
        destruct (level_decompose T h t (lo_len _ _ HTok) HTh HTt) as (mid & HTeq).
        pose proof (inv_up _ _ HI _ _ HT) as Hup.
        rewrite lookup_ge_None_2 in Hup by lia. simpl in Hup.
        assert (HndT : NoDup T) by (eapply NoDup_concat_level; [apply HI|done]).
        rewrite HTeq. rewrite HTeq in HndT. csimpl. unfold Up at 1. rewrite Hmh. simpl.
        rewrite omap_app. csimpl. unfold Up at 2. rewrite Hmt. simpl.
        assert (omap (Up m') mid = []) as ->; [|done].
        apply omap_nil_iff. intros q Hq.
        assert (q ∈ T) as HqT by (rewrite HTeq; apply elem_of_cons; right; apply elem_of_app; by left).
        destruct (Hold q) as (_ & _ & _ & _ & _ & Hu);
          [apply Hfresh; by eapply elem_of_concat_lookup|].
        rewrite Hu.
        -- by apply (proj1 (omap_nil_iff _ _) Hup).
        -- intros ->. apply NoDup_cons in HndT as [Hn _]. apply Hn. apply elem_of_app; by left.
        -- intros ->. apply NoDup_cons in HndT as [_ Hn]. apply NoDup_app in Hn as (_ & Hn & _).
           apply (Hn t Hq). by apply list_elem_of_singleton.
      * rewrite lookup_app_l by lia. rewrite <- (inv_up _ _ HI _ _ HD). apply omap_ext_in.
        intros q Hq. destruct (Hnontop j D q HD Hjt Hq).
        destruct (Hold q) as (_ & _ & _ & _ & _ & Hu);
          [apply Hfresh; by eapply elem_of_concat_lookup|].
        by rewrite Hu.
    + rewrite lookup_app_r in HD by lia.
      destruct (j - length lv)%nat eqn:E; [|by destruct n]. simpl in HD. injection HD as <-.
      rewrite lookup_ge_None_2 by (rewrite length_app; simpl; lia). csimpl.
      unfold Up. by rewrite Hnh, Hnt.
  - intros j D q p HD Hq Hup. destruct (decide (j < length lv)%nat) as [Hj|Hj].
    + rewrite lookup_app_l in HD by done.
      pose proof (Hfresh q ltac:(by eapply elem_of_concat_lookup)) as Hqv.
      destruct (Hold q Hqv) as (_ & _ & _ & Hty & Hk & Hu). rewrite Hty, Hk.
      destruct (decide (q = h)) as [->|Hqh].
      { unfold Up in Hup. rewrite Hmh in Hup. simpl in Hup. injection Hup as <-.
        unfold Dn, Key, Typ at 1. rewrite Hnh. simpl.
        rewrite (lo_type _ _ HTok _ _ HTh). fold (Key m h). rewrite (lo_head _ _ HTok _ HTh). done. }
      destruct (decide (q = t)) as [->|Hqt].
      { unfold Up in Hup. rewrite Hmt in Hup. simpl in Hup. injection Hup as <-.
        unfold Dn, Key, Typ at 1. rewrite Hnt. simpl.
        rewrite (lo_type _ _ HTok _ _ HTt). fold (Key m t).
        pose proof (lo_len _ _ HTok).
        rewrite (lo_tail _ _ HTok _ _ HTt) by lia. rewrite pos_type_pos by lia. done. }
      rewrite (Hu Hqh Hqt) in Hup.
      destruct (inv_up_elem _ _ _ _ _ _ HI HD Hq Hup) as (U & HU & Hp).
      destruct (Hold p) as (_ & _ & -> & -> & -> & _); [apply Hfresh; by eapply elem_of_concat_lookup|].
      exact (inv_twin _ _ HI _ _ _ _ HD Hq Hup).
    + rewrite lookup_app_r in HD by lia.
      destruct (j - length lv)%nat eqn:E; [|by destruct n]. simpl in HD. injection HD as <-.
      apply elem_of_cons in Hq as [->|Hq]; [unfold Up in Hup; by rewrite Hnh in Hup|].
      apply list_elem_of_singleton in Hq as ->. unfold Up in Hup; by rewrite Hnt in Hup.
Qed.

(** *** Promotion *)

Lemma climb_spec s lv j D U : Inv s lv -> lv !! j = Some D -> lv !! S j = Some U ->
  forall fuel i cur, D !! i = Some cur -> (i < fuel)%nat ->
  exists ic c cu, SkipList.climb fuel (SkipList.nodes s) cur = Some c
    /\ D !! ic = Some c /\ (ic <= i)%nat /\ Up (SkipList.nodes s) c = Some cu
    /\ (forall k q, (ic < k <= i)%nat -> D !! k = Some q -> Up (SkipList.nodes s) q = None).
Proof.
  intros HI HD HU. pose proof (inv_levels _ _ HI _ _ HD) as HDok.
  induction fuel as [|fuel IH]; intros i cur Hcur Hfuel; [lia|]. simpl.
  rewrite (lookup_node_at _ _ (lo_valid _ _ HDok _ _ Hcur)). simpl.
  fold (Up (SkipList.nodes s) cur). destruct (Up (SkipList.nodes s) cur) as [cu|] eqn:Hup.
  - exists i, cur, cu. split_and!; [done|done|lia|done|intros; lia].
  - fold (Prv (SkipList.nodes s) cur). rewrite (lo_prev _ _ HDok _ _ Hcur).
    destruct i as [|i].
    + exfalso. pose proof (inv_levels _ _ HI _ _ HU) as HUok.
      destruct (lookup_lt_is_Some_2 U O) as [u0 Hu0]; [pose proof (lo_len _ _ HUok); lia|].
      destruct (inv_down _ _ HI _ _ _ _ _ HD HU Hu0) as (i0 & q & Hq & Hqu & _ & _ & H0 & _).
      rewrite (H0 eq_refl) in Hq. rewrite Hcur in Hq. injection Hq as <-. congruence.
    + destruct (lookup_lt_is_Some_2 D i) as [pv Hpv]; [apply lookup_lt_Some in Hcur; lia|].
      rewrite Hpv. simpl.
      destruct (IH i pv Hpv ltac:(lia)) as (ic & c & cu & Hc & Hic & Hle & Hcu & Hnone).
      exists ic, c, cu. split_and!; [done|done|lia|done|].
      intros k q Hk Hq. destruct (decide (k = S i)) as [->|].
      * rewrite Hcur in Hq. by injection Hq as <-.
      * apply (Hnone k); [lia|done].
Qed.

Lemma ins_app_cons {A} (xa xb : list A) c x :
  ins (S (length xa)) x (xa ++ c :: xb) = xa ++ c :: x :: xb.
Proof.
  unfold ins. rewrite take_app_ge by lia. rewrite drop_app_ge by lia.
  replace (S (length xa) - length xa)%nat with 1%nat by lia. simpl.
  rewrite take_0, drop_0. by rewrite <- app_assoc.
Qed.

Lemma promote_store_spec m cu nxu nn key :
  (cu < length m)%nat -> (nxu < length m)%nat -> (nn < length m)%nat ->
  Nxt m cu = Some nxu -> cu <> nxu -> nn <> cu -> nn <> nxu ->
  exists m1 m2 m',
    SkipList.link_after cu (length m) (m ++ [new_Node NORMAL (mkKV key "")]) = Some m1
    /\ assign (with_up (Some (length m))) nn m1 = Some m2
    /\ assign (with_down (Some nn)) (length m) m2 = Some m'
    /\ length m' = S (length m)
    /\ node_at m' cu = with_next (Some (length m)) (node_at m cu)
    /\ node_at m' nxu = with_prev (Some (length m)) (node_at m nxu)
    /\ node_at m' nn = with_up (Some (length m)) (node_at m nn)
    /\ node_at m' (length m) = mkNode NORMAL (mkKV key "") (Some cu) (Some nxu) None (Some nn)
    /\ (forall p, p <> cu -> p <> nxu -> p <> nn -> p <> length m -> node_at m' p = node_at m p).
Proof.
  intros Hcu Hnxu Hnn Hnext H1 H2 H3.
  destruct (link_after_spec (m ++ [new_Node NORMAL (mkKV key "")]) cu (length m) nxu)
    as (m1 & Hl & Hlen1 & Hc1 & Hx1 & Hn1 & Ho1); [len|len|len| |lia|lia|done|].
  { unfold Nxt. by rewrite node_at_app_l. }
  rewrite length_app in Hlen1. simpl in Hlen1.
  eexists m1, _, _. split; [exact Hl|].
  split; [by rewrite assign_Some by lia|]. split; [by rewrite assign_Some by len|].
  split; [len|].
  rewrite node_at_app_l in Hc1, Hx1 by done. rewrite node_at_app_r in Hn1.
  split_and!.
  - rewrite !node_at_insert by len. dec. done.
  - rewrite !node_at_insert by len. dec. done.
  - rewrite !node_at_insert by len. dec. rewrite Ho1 by lia. by rewrite node_at_app_l.
  - rewrite !node_at_insert by len. dec. rewrite Hn1. done.
  - intros p Hp1 Hp2 Hp3 Hp4. rewrite !node_at_insert by len. dec. rewrite Ho1 by lia.
    destruct (decide (p < length m)%nat).
    + by rewrite node_at_app_l.
    + unfold node_at. rewrite !lookup_ge_None_2 by len. done.
Qed.

Lemma list_split_two {A} (D : list A) icc ic c nn :
  D !! icc = Some c -> D !! S ic = Some nn -> (icc <= ic)%nat ->
  D = take icc D ++ c :: take (ic - icc) (drop (S icc) D) ++ nn :: drop (S (S ic)) D.
Proof.
  intros Hc Hn Hle.
  assert (drop (S icc) D !! (ic - icc)%nat = Some nn) as Hn'.
  { rewrite lookup_drop. rewrite <- Hn. f_equal. lia. }
  rewrite <- (take_drop_middle _ _ _ Hc) at 1. do 2 f_equal.
  rewrite <- (take_drop_middle _ _ _ Hn') at 1. do 2 f_equal.
  rewrite drop_drop. f_equal. lia.
Qed.

Section PromoteStep.
Context (s : SkipList.t) (lv : list (list ptr)) (HI : Inv s lv).
Context (j : nat) (D U : list ptr) (HD : lv !! j = Some D) (HU : lv !! S j = Some U).
Context (icc ic : nat) (c cu nn : ptr) (key : string).
Context (Hc : D !! icc = Some c) (Hle : (icc <= ic)%nat)
        (Hcu : Up (SkipList.nodes s) c = Some cu)
        (Hnone : forall k q, (icc < k <= ic)%nat -> D !! k = Some q -> Up (SkipList.nodes s) q = None)
        (Hnn : D !! S ic = Some nn) (Hnl : (S (S ic) < length D)%nat)
        (Hnu : Up (SkipList.nodes s) nn = None) (Hnk : Key (SkipList.nodes s) nn = key).
Local Abbreviation m := (SkipList.nodes s).
Local Abbreviation XA := (omap (Up m) (take icc D)).
Local Abbreviation XB := (omap (Up m) (drop (S (S ic)) D)).

Lemma promote_U : U = XA ++ cu :: XB.
Proof using All.
  pose proof (inv_up _ _ HI _ _ HD) as Hup. rewrite HU in Hup. simpl in Hup.
  rewrite <- Hup. rewrite (list_split_two D icc ic c nn Hc Hnn Hle) at 1.
  rewrite omap_app. csimpl. rewrite Hcu. f_equal. f_equal.
  rewrite omap_app. csimpl. rewrite Hnu.
  assert (omap (Up m) (take (ic - icc) (drop (S icc) D)) = []) as ->; [|done].
  apply omap_nil_iff. intros q [k Hk]%list_elem_of_lookup.
  apply lookup_take_Some in Hk as [Hk Hkl]. rewrite lookup_drop in Hk.
  apply (Hnone (S icc + k)%nat); [lia|done].
Qed.

Lemma promote_cu : U !! length XA = Some cu.
Proof using All.
  rewrite promote_U at 1. rewrite lookup_app_r by lia. by rewrite Nat.sub_diag.
Qed.

Lemma promote_cu_not_last : (S (length XA) < length U)%nat.
Proof using All.
  pose proof (inv_levels _ _ HI _ _ HU) as HUok. pose proof (inv_levels _ _ HI _ _ HD) as HDok.
  pose proof promote_cu as Hp. pose proof (lookup_lt_Some _ _ _ Hp).
  destruct (inv_twin _ _ HI _ _ _ _ HD (list_elem_of_lookup_2 _ _ _ Hc) Hcu) as (_ & _ & Hty).
  rewrite (lo_type _ _ HUok _ _ Hp), (lo_type _ _ HDok _ _ Hc) in Hty.
  destruct (decide (S (length XA) = length U)) as [Heq|]; [|lia].
  destruct (length XA) as [|n] eqn:E.
  - pose proof (lo_len _ _ HUok). lia.
  - rewrite (pos_type_pos _ (S n)) in Hty by lia. symmetry in Hty.
    apply pos_type_is_pos in Hty. lia.
Qed.

Lemma promote_key_lo : slt (Key m cu) key.
Proof using All.
  pose proof (inv_levels _ _ HI _ _ HD) as HDok.
  destruct (inv_twin _ _ HI _ _ _ _ HD (list_elem_of_lookup_2 _ _ _ Hc) Hcu) as (_ & -> & _).
  rewrite <- Hnk. apply (lo_sorted _ _ HDok icc (S ic)); [lia|done..].
Qed.

Lemma promote_key_hi nxu :
  U !! S (length XA) = Some nxu -> (S (S (length XA)) < length U)%nat -> slt key (Key m nxu).
Proof using All.
  intros Hx Hl.
  pose proof (inv_levels _ _ HI _ _ HU) as HUok. pose proof (inv_levels _ _ HI _ _ HD) as HDok.
  assert (nxu ∈ XB) as (b & Hb & Hbu)%list_elem_of_omap.
  { rewrite promote_U in Hx at 1. rewrite lookup_app_r in Hx by lia.
    replace (S (length XA) - length XA)%nat with 1%nat in Hx by lia. simpl in Hx.
    by eapply list_elem_of_lookup_2. }
  apply list_elem_of_lookup in Hb as [k Hk]. rewrite lookup_drop in Hk.
  destruct (inv_twin _ _ HI _ _ _ _ HD (list_elem_of_lookup_2 _ _ _ Hk) Hbu) as (_ & Hkey & Hty).
  rewrite (lo_type _ _ HUok _ _ Hx), (lo_type _ _ HDok _ _ Hk) in Hty.
  rewrite pos_type_normal in Hty by lia.
  rewrite Hkey, <- Hnk. apply (lo_sorted _ _ HDok (S ic) (S (S ic) + k)); [lia| |done..].
  pose proof (lookup_lt_Some _ _ _ Hk).
  destruct (decide (S (S (S ic) + k) = length D)) as [Heq|]; [|lia].
  rewrite pos_type_pos in Hty by lia. done.
Qed.

Lemma Inv_promote_step m' nxu total :
  U !! S (length XA) = Some nxu ->
  length m' = S (length m) ->
  node_at m' cu = with_next (Some (length m)) (node_at m cu) ->
  node_at m' nxu = with_prev (Some (length m)) (node_at m nxu) ->
  node_at m' nn = with_up (Some (length m)) (node_at m nn) ->
  node_at m' (length m) = mkNode NORMAL (mkKV key "") (Some cu) (Some nxu) None (Some nn) ->
  (forall p, p <> cu -> p <> nxu -> p <> nn -> p <> length m -> node_at m' p = node_at m p) ->
  Inv (SkipList.mk m' (SkipList.head s) (SkipList.tail s) (SkipList.current_level s) total)
      (<[S j := ins (S (length XA)) (length m) U]> lv).
Proof using All.
  intros Hnx Hlen Hmc Hmx Hmn Hmu Hmo.
  set (n := length m) in *. set (iu := length XA) in *.
  pose proof promote_U as HUeq. pose proof promote_cu as Hcup. fold iu in Hcup.
  pose proof promote_cu_not_last as Hcul. fold iu in Hcul.
  pose proof (inv_levels _ _ HI _ _ HU) as HUok. pose proof (inv_levels _ _ HI _ _ HD) as HDok.
  assert (HndU : NoDup U) by (eapply NoDup_concat_level; [apply HI|done]).
  assert (HndD : NoDup D) by (eapply NoDup_concat_level; [apply HI|done]).
  assert (Hcx : cu <> nxu).
  { intros ->. pose proof (NoDup_lookup _ _ _ _ HndU Hcup Hnx). lia. }
  assert (Hfresh : forall p, p ∈ concat lv -> p <> n).
  { intros p Hp. pose proof (inv_valid s lv HI p Hp). unfold n. lia. }
  assert (HnnD : nn ∈ D) by (by eapply list_elem_of_lookup_2).
  assert (HinU : forall k L p, lv !! k = Some L -> p ∈ L -> p ∈ U -> k = S j).
  { intros k L p HL Hp HpU. by eapply (NoDup_concat_disjoint lv k (S j) L U p (inv_nodup _ _ HI)). }
  assert (HinD : forall k L p, lv !! k = Some L -> p ∈ L -> p ∈ D -> k = j).
  { intros k L p HL Hp HpD. by eapply (NoDup_concat_disjoint lv k j L D p (inv_nodup _ _ HI)). }
  assert (HcuU : cu ∈ U) by (by eapply list_elem_of_lookup_2).
  assert (HnxU : nxu ∈ U) by (by eapply list_elem_of_lookup_2).
  assert (Hnn_cu : nn <> cu).
  { intros ->. pose proof (HinD (S j) U cu HU HcuU HnnD). lia. }
  assert (Hnn_nx : nn <> nxu).
  { intros ->. pose proof (HinD (S j) U nxu HU HnxU HnnD). lia. }
  assert (Hnn_n : nn <> n) by (apply Hfresh; by eapply (elem_of_concat_lookup lv j D)).
  assert (HnU : n ∉ U).
  { intros Hn. apply (Hfresh n); [by eapply (elem_of_concat_lookup lv (S j) U)|done]. }
  (* fields of the old nodes *)
  assert (Hv : forall p, p <> n -> Dn m' p = Dn m p /\ Typ m' p = Typ m p /\ Key m' p = Key m p
                 /\ (p <> nn -> Up m' p = Up m p)).
  { intros p Hp. unfold Up, Dn, Typ, Key.
    destruct (decide (p = cu)) as [->|]; [by rewrite Hmc|].
    destruct (decide (p = nxu)) as [->|]; [by rewrite Hmx|].
    destruct (decide (p = nn)) as [->|]; [by rewrite Hmn|].
    by rewrite Hmo. }
  assert (Hh : forall p, p <> cu -> p <> nxu -> p <> n -> same_h m m' p).
  { intros p H1 H2 H3. unfold same_h, Nxt, Prv, Typ, Key.
    destruct (decide (p = nn)) as [->|]; [by rewrite Hmn|]. by rewrite Hmo. }
  assert (HU' : level_ok m' (ins (S iu) n U)).
  { eapply (level_ok_ins m m' U iu cu nxu n key); try done.
    - lia.
    - lia.
    - intros p Hp H1 H2. apply Hh; [done..|]. intros ->. done.
    - unfold Nxt. by rewrite Hmc.
    - unfold Prv. by rewrite Hmc.
    - unfold Typ. by rewrite Hmc.
    - unfold Key. by rewrite Hmc.
    - unfold Nxt. by rewrite Hmx.
    - unfold Prv. by rewrite Hmx.
    - unfold Typ. by rewrite Hmx.
    - unfold Key. by rewrite Hmx.
    - unfold Nxt. by rewrite Hmu.
    - unfold Prv. by rewrite Hmu.
    - unfold Typ. by rewrite Hmu.
    - unfold Key. by rewrite Hmu.
    - apply promote_key_lo.
    - apply promote_key_hi. exact Hnx. }
  assert (HSj : (S j < length lv)%nat) by (by eapply lookup_lt_Some).
  assert (Hupsame : forall k L, lv !! k = Some L -> k <> j -> omap (Up m') L = omap (Up m) L).
  { intros k L HL Hk. apply omap_ext_in. intros q Hq.
    destruct (Hv q) as (_ & _ & _ & Hu); [apply Hfresh; by eapply elem_of_concat_lookup|].
    apply Hu. intros ->. apply Hk. by eapply HinD. }
  split; simpl.
  - intros k L HL. destruct (decide (k = S j)) as [->|Hk].
    + rewrite list_lookup_insert_eq in HL by done. by injection HL as <-.
    + rewrite list_lookup_insert_ne in HL by done.
      eapply (level_ok_frame m m'); [lia| |by eapply inv_levels].
      intros p Hp. apply Hh.
      * intros ->. apply Hk. by eapply HinU.
      * intros ->. apply Hk. by eapply HinU.
      * apply Hfresh. by eapply elem_of_concat_lookup.
  - rewrite (concat_insert_perm lv (S j) U _ n HU (ins_perm _ _ _)).
    apply NoDup_cons. split; [|apply HI]. intros Hn. by apply (Hfresh n).
  - destruct (inv_top _ _ HI) as (T & HT & HTh & HTt).
    destruct (decide (S j = length lv - 1)%nat) as [Htop|Hntop].
    + exists (ins (S iu) n U). rewrite last_lookup, length_insert.
      replace (pred (length lv)) with (S j) by lia.
      rewrite list_lookup_insert_eq by lia. split; [done|].
      rewrite last_lookup in HT. replace (pred (length lv)) with (S j) in HT by lia.
      rewrite HU in HT. injection HT as <-. split.
      * by rewrite ins_lookup_lt by lia.
      * rewrite last_lookup in HTt. rewrite last_lookup, ins_length by lia. simpl.
        rewrite ins_lookup_gt by lia. rewrite <- HTt. f_equal. lia.
    + exists T. rewrite last_lookup, length_insert.
      rewrite last_lookup in HT. rewrite list_lookup_insert_ne by lia. done.
  - rewrite length_insert. apply HI.
  - intros L0 p HL0 Hp. rewrite list_lookup_insert_ne in HL0 by done.
    destruct (Hv p) as (-> & _); [apply Hfresh; by eapply elem_of_concat_lookup|].
    by eapply inv_base.
  - intros k L HL. destruct (decide (k = S j)) as [->|Hk].
    + rewrite list_lookup_insert_eq in HL by done. injection HL as <-.
      rewrite list_lookup_insert_ne by lia.
      rewrite omap_ins.
      assert (omap (Up m') [n] = []) as ->. { csimpl. unfold Up. by rewrite Hmu. }
      simpl. rewrite <- omap_app, take_drop. rewrite (Hupsame (S j) U HU) by lia.
      apply (inv_up _ _ HI _ _ HU).
    + rewrite list_lookup_insert_ne in HL by done.
      destruct (decide (k = j)) as [->|Hkj].
      * rewrite HD in HL. injection HL as <-. rewrite list_lookup_insert_eq by done. simpl.
        rewrite HUeq. fold iu. unfold iu. rewrite ins_app_cons.
        rewrite (list_split_two D icc ic c nn Hc Hnn Hle) at 1.
        assert (Hsub : forall q k', D !! k' = Some q -> k' <> S ic -> Up m' q = Up m q).
        { intros q k' Hq Hk'. destruct (Hv q) as (_ & _ & _ & Hu).
          - apply Hfresh. eapply elem_of_concat_lookup; [exact HD|]. by eapply list_elem_of_lookup_2.
          - apply Hu. intros ->. apply Hk'. by eapply NoDup_lookup. }
        rewrite omap_app. f_equal.
        { apply omap_ext_in. intros q [k' Hk']%list_elem_of_lookup.
          apply lookup_take_Some in Hk' as [Hk' Hl']. apply (Hsub q k' Hk'). lia. }
        csimpl. rewrite (Hsub c icc Hc) by lia. rewrite Hcu. f_equal.
        rewrite omap_app.
        assert (omap (Up m') (take (ic - icc) (drop (S icc) D)) = []) as ->.
        { apply omap_nil_iff. intros q [k' Hk']%list_elem_of_lookup.
          apply lookup_take_Some in Hk' as [Hk' Hl']. rewrite lookup_drop in Hk'.
          rewrite (Hsub q _ Hk') by lia. apply (Hnone (S icc + k')%nat); [lia|done]. }
        csimpl. unfold Up at 1. rewrite Hmn. simpl. f_equal.
        apply omap_ext_in. intros q [k' Hk']%list_elem_of_lookup.
        rewrite lookup_drop in Hk'. apply (Hsub q _ Hk'). lia.
      * rewrite list_lookup_insert_ne by lia. rewrite (Hupsame k L HL Hkj).
        apply (inv_up _ _ HI _ _ HL).
  - intros k L q p HL Hq Hup.
    destruct (decide (q = nn)) as [->|Hqnn].
    { unfold Up in Hup. rewrite Hmn in Hup. simpl in Hup. injection Hup as <-.
      unfold Dn, Key, Typ. rewrite Hmu, Hmn. simpl. fold (Key m nn). fold (Typ m nn).
      rewrite Hnk. rewrite (lo_type _ _ HDok _ _ Hnn). rewrite pos_type_normal by lia. done. }
    assert (q <> n /\ exists L0, lv !! k = Some L0 /\ q ∈ L0) as (Hqn & L0 & HL0 & Hq0).
    { destruct (decide (k = S j)) as [->|Hk].
      - rewrite list_lookup_insert_eq in HL by done. injection HL as <-.
        apply elem_of_ins in Hq as [->|Hq].
        + unfold Up in Hup. by rewrite Hmu in Hup.
        + split; [apply Hfresh; by eapply elem_of_concat_lookup|by exists U].
      - rewrite list_lookup_insert_ne in HL by done.
        split; [apply Hfresh; by eapply elem_of_concat_lookup|by exists L]. }
    destruct (Hv q Hqn) as (_ & Hty & Hk & Hu). rewrite (Hu Hqnn) in Hup.
    destruct (inv_up_elem _ _ _ _ _ _ HI HL0 Hq0 Hup) as (U0 & HU0 & Hp).
    destruct (Hv p) as (Hd & Hty' & Hk' & _); [apply Hfresh; by eapply elem_of_concat_lookup|].
    rewrite Hd, Hk, Hk', Hty, Hty'. exact (inv_twin _ _ HI _ _ _ _ HL0 Hq0 Hup).
Qed.

End PromoteStep.

Lemma base_entries_ext m m' L :
  (forall p, p ∈ L -> n_data (node_at m' p) = n_data (node_at m p)) ->
  base_entries m' L = base_entries m L.
Proof.
  intros H. unfold base_entries. apply map_ext_in. intros p Hp%list_elem_of_In. apply H.
  apply list_elem_of_lookup in Hp as [k Hk]. apply lookup_take_Some in Hk as [Hk _].
  rewrite lookup_drop in Hk. by eapply list_elem_of_lookup_2.
Qed.

(** The promotion loop keeps the structure well formed and never
    touches the entries of the base level. *)
Lemma promote_spec key sv es : forall fuel coins j s lv D ic current newNode L0 h,
  Inv s lv -> lv !! j = Some D -> D !! ic = Some current -> D !! S ic = Some newNode ->
  (S (S ic) < length D)%nat ->
  Up (SkipList.nodes s) newNode = None -> Key (SkipList.nodes s) newNode = key ->
  lv !! O = Some L0 -> L0 !! O = Some h -> Val (SkipList.nodes s) h = sv ->
  base_entries (SkipList.nodes s) L0 = es ->
  (Z.to_nat SkipList.MAX_LEVEL - j < fuel)%nat ->
  exists s', SkipList.promote fuel coins (Z.of_nat j) key current newNode s = Some s'
    /\ Rep s' sv es /\ SkipList.totalSize s' = SkipList.totalSize s.
Proof.
  induction fuel as [|fuel IH];
    intros coins j s lv D ic current newNode L0 h HI HD Hcur Hnew Hnl Hnu Hnk HL0 Hh Hsv Hes Hfuel;
    [lia|].
  simpl. destruct (Z.of_nat j <? SkipList.MAX_LEVEL) eqn:Hmax; simpl.
  2:{ exists s. split_and!; [done| |done]. by exists lv, L0, h. }
  destruct coins as [|[|] coins].
  1,3: exists s; split_and!; [done| |done]; by exists lv, L0, h.
  apply Z.ltb_lt in Hmax.
  pose proof (lookup_lt_Some _ _ _ HD) as Hj.
  pose proof (inv_levels _ _ HI _ _ HD) as HDok.
  assert (HndD : NoDup D) by (eapply NoDup_concat_level; [apply HI|done]).
  (* the optional new level *)
  assert (exists s1 lv1 U, (if Z.of_nat j >=? SkipList.current_level s
                             then SkipList.add_level s else Some s) = Some s1
     /\ Inv s1 lv1 /\ lv1 !! j = Some D /\ lv1 !! S j = Some U /\ lv1 !! O = Some L0
     /\ Up (SkipList.nodes s1) newNode = None /\ Key (SkipList.nodes s1) newNode = key
     /\ Val (SkipList.nodes s1) h = sv /\ base_entries (SkipList.nodes s1) L0 = es
     /\ SkipList.totalSize s1 = SkipList.totalSize s)
    as (s1 & lv1 & U & -> & HI1 & HD1 & HU1 & HL01 & Hnu1 & Hnk1 & Hsv1 & Hes1 & Hts1).
  { rewrite (inv_cur _ _ HI).
    destruct (Z.of_nat j >=? Z.of_nat (length lv) - 1) eqn:Hge.
    - assert (j = (length lv - 1)%nat) as Hjtop. { apply Z.geb_le in Hge. lia. }
      destruct (Inv_add_level s lv HI) as (s1 & Hadd & HI1 & Hlen1 & Hts1 & Hold).
      destruct (inv_top_lookup s lv HI) as (T & HT & HTh & HTt).
      rewrite <- Hjtop in HT. rewrite HD in HT. injection HT as <-.
      assert (Hvalid : forall p, p ∈ concat lv -> (p < length (SkipList.nodes s))%nat)
        by (apply (inv_valid s lv HI)).
      assert (Hnv : (newNode < length (SkipList.nodes s))%nat)
        by (by eapply (lo_valid _ _ HDok)).
      exists s1, (lv ++ [[length (SkipList.nodes s); S (length (SkipList.nodes s))]]),
        [length (SkipList.nodes s); S (length (SkipList.nodes s))].
      split; [exact Hadd|]. split; [exact HI1|]. split_and!.
      + by rewrite lookup_app_l by lia.
      + rewrite lookup_app_r by lia. by replace (S j - length lv)%nat with O by lia.
      + by rewrite lookup_app_l by lia.
      + destruct (Hold newNode Hnv) as (_ & _ & _ & Hu). rewrite Hu; [done| |].
        * intros Heq. rewrite <- Heq in HTh. pose proof (NoDup_lookup _ _ _ _ HndD Hnew HTh). lia.
        * intros Heq. rewrite <- Heq in HTt. pose proof (NoDup_lookup _ _ _ _ HndD Hnew HTt). lia.
      + destruct (Hold newNode Hnv) as (_ & (_ & _ & _ & ->) & _). done.
      + unfold Val. destruct (Hold h) as (-> & _); [|done].
        apply Hvalid. eapply (elem_of_concat_lookup lv O L0); [done|]. by eapply list_elem_of_lookup_2.
      + rewrite <- Hes. apply base_entries_ext. intros p Hp.
        destruct (Hold p) as (-> & _); [|done].
        apply Hvalid. by eapply (elem_of_concat_lookup lv O L0).
      + done.
    - assert (S j < length lv)%nat as HSj.
      { destruct (Z.geb_spec (Z.of_nat j) (Z.of_nat (length lv) - 1)); [done|lia]. }
      destruct (lookup_lt_is_Some_2 lv (S j) HSj) as [U HU].
      exists s, lv, U. done. }
  clear HI HD HL0 Hnu Hnk Hsv Hes Hj HDok. simpl.
  pose proof (inv_levels _ _ HI1 _ _ HD1) as HDok.
  pose proof (inv_levels _ _ HI1 _ _ HU1) as HUok.
  destruct (climb_spec s1 lv1 j D U HI1 HD1 HU1 (length (SkipList.nodes s1)) ic current Hcur)
    as (icc & c & cu & Hclimb & Hc & Hle & Hcu & Hnone).
  { pose proof (lo_valid _ _ HDok _ _ Hcur). pose proof (inv_level_length s1 lv1 HI1 _ _ HD1).
    apply lookup_lt_Some in Hcur. lia. }
  rewrite Hclimb. simpl.
  rewrite (follow_Some _ _ _ (lo_valid _ _ HDok _ _ Hc)). fold (Up (SkipList.nodes s1) c).
  rewrite Hcu. simpl. unfold alloc.
  pose proof (promote_cu s1 lv1 HI1 j D U HD1 HU1 icc ic c cu newNode key Hc Hle Hcu Hnone Hnew Hnl Hnu1 Hnk1) as Hcup.
  pose proof (promote_cu_not_last s1 lv1 HI1 j D U HD1 HU1 icc ic c cu newNode key Hc Hle Hcu Hnone Hnew Hnl Hnu1 Hnk1) as Hcul.
  set (iu := length (omap (Up (SkipList.nodes s1)) (take icc D))) in *.
  destruct (lookup_lt_is_Some_2 U (S iu) Hcul) as [nxu Hnx].
  assert (HndU : NoDup U) by (eapply NoDup_concat_level; [apply HI1|done]).
  assert (Hnn_not_U : newNode ∉ U).
  { intros HnU. pose proof (NoDup_concat_disjoint lv1 j (S j) D U newNode (inv_nodup _ _ HI1) HD1 HU1
      ltac:(by eapply list_elem_of_lookup_2) HnU). lia. }
  destruct (promote_store_spec (SkipList.nodes s1) cu nxu newNode key)
    as (m1 & m2 & m' & Hm1 & Hm2 & Hm' & Hlen' & Hmc & Hmx & Hmn & Hmu & Hmo).
  { by eapply (lo_valid _ _ HUok). }
  { by eapply (lo_valid _ _ HUok). }
  { by eapply (lo_valid _ _ HDok). }
  { by rewrite (lo_next _ _ HUok _ _ Hcup). }
  { intros ->. pose proof (NoDup_lookup _ _ _ _ HndU Hcup Hnx). lia. }
  { intros ->. apply Hnn_not_U. by eapply list_elem_of_lookup_2. }
  { intros ->. apply Hnn_not_U. by eapply list_elem_of_lookup_2. }
  simpl in Hm1. rewrite Hm1. simpl. rewrite Hm2. simpl. rewrite Hm'. simpl.
  pose proof (Inv_promote_step s1 lv1 HI1 j D U HD1 HU1 icc ic c cu newNode key Hc Hle Hcu Hnone
    Hnew Hnl Hnu1 Hnk1 m' nxu (SkipList.totalSize s1) Hnx Hlen' Hmc Hmx Hmn Hmu Hmo) as HI'.
  fold iu in HI'.
  assert (Hvalid : forall p, p ∈ concat lv1 -> (p < length (SkipList.nodes s1))%nat)
    by (apply (inv_valid s1 lv1 HI1)).
  assert (Hdata : forall p, (p < length (SkipList.nodes s1))%nat ->
            n_data (node_at m' p) = n_data (node_at (SkipList.nodes s1) p)).
  { intros p Hp. destruct (decide (p = cu)) as [->|]; [by rewrite Hmc|].
    destruct (decide (p = nxu)) as [->|]; [by rewrite Hmx|].
    destruct (decide (p = newNode)) as [->|]; [by rewrite Hmn|].
    rewrite Hmo; [done..|lia]. }
  replace (Z.of_nat j + 1) with (Z.of_nat (S j)) by lia.
  rewrite <- Hts1.
  eapply (IH coins (S j) _ _ (ins (S iu) (length (SkipList.nodes s1)) U) iu cu
            (length (SkipList.nodes s1)) L0 h HI'); simpl.
  - rewrite list_lookup_insert_eq; [done|]. by eapply lookup_lt_Some.
  - by rewrite ins_lookup_lt by lia.
  - by rewrite ins_lookup_eq by lia.
  - rewrite ins_length by lia. lia.
  - unfold Up. by rewrite Hmu.
  - unfold Key. by rewrite Hmu.
  - by rewrite list_lookup_insert_ne by lia.
  - done.
  - unfold Val. rewrite Hdata; [done|]. apply Hvalid.
    eapply (elem_of_concat_lookup lv1 O L0); [done|]. by eapply list_elem_of_lookup_2.
  - rewrite <- Hes1. apply base_entries_ext. intros p Hp. apply Hdata. apply Hvalid.
    by eapply (elem_of_concat_lookup lv1 O L0).
  - unfold SkipList.MAX_LEVEL in *. lia.
Qed.

Lemma base_entries_ins m m' (L : list ptr) i n kv :
  (forall p, p ∈ L -> n_data (node_at m' p) = n_data (node_at m p)) ->
  n_data (node_at m' n) = kv -> (S i < length L)%nat ->
  base_entries m' (ins (S i) n L) = ins i kv (base_entries m L).
Proof.
  intros Hd Hn Hi. apply list_eq. intros j.
  assert (Hlen : length (base_entries m' (ins (S i) n L)) = S (length (base_entries m L))).
  { rewrite !base_entries_length, ins_length by lia. lia. }
  assert (Hlen2 : length (ins i kv (base_entries m L)) = S (length (base_entries m L))).
  { rewrite ins_length; [done|]. rewrite base_entries_length. lia. }
  pose proof (base_entries_length m L) as Hbl.
  destruct (decide (j < S (length (base_entries m L)))%nat) as [Hj|Hj].
  2:{ rewrite !lookup_ge_None_2; [done|lia..]. }
  destruct (lookup_lt_is_Some_2 (ins (S i) n L) (S j)) as [p Hp]; [rewrite ins_length; lia|].
  rewrite (base_entries_lookup m' _ j p Hp) by (rewrite ins_length; lia).
  destruct (Nat.lt_trichotomy j i) as [Hc|[->|Hc]].
  - rewrite ins_lookup_lt in Hp by lia. rewrite ins_lookup_lt by (rewrite ?base_entries_length; lia).
    rewrite (base_entries_lookup m L j p Hp) by lia. rewrite Hd; [done|].
    by eapply list_elem_of_lookup_2.
  - rewrite ins_lookup_eq in Hp by lia. injection Hp as <-.
    rewrite ins_lookup_eq by (rewrite base_entries_length; lia). by rewrite Hn.
  - rewrite ins_lookup_gt in Hp by lia. rewrite ins_lookup_gt by (rewrite ?base_entries_length; lia).
    replace (S j - 1)%nat with (S (j - 1)) in Hp by lia.
    rewrite (base_entries_lookup m L (j - 1) p Hp) by lia. rewrite Hd; [done|].
    by eapply list_elem_of_lookup_2.
Qed.

Section PutSpec.
Context `{StdStringImpl}.

(** [put] on a well-formed skip list: it always succeeds; the empty key
    lands in the base sentinel, any other key is overwritten or inserted
    in order; the size counter grows only on insertion. *)
Lemma put_spec coins key value s sv es :
  Rep s sv es ->
  exists s', SkipList.put coins key value s = Some s'
    /\ Rep s' (if str_eq key "" then value else sv)
              (if str_eq key "" then es else kv_upsert key value es)
    /\ SkipList.totalSize s'
       = if str_eq key "" then SkipList.totalSize s
         else match kv_find key es with
              | Some _ => SkipList.totalSize s
              | None => wrap64 (SkipList.totalSize s + kv_size (mkKV key value))
              end.
Proof.
  intros HR. pose proof (get_spec s sv es key HR) as Hget.
  destruct HR as (lv & L & h & HI & HL & Hh & Hsv & Hes).
  destruct (search_spec s lv HI key) as (L0 & i0 & r & HL0 & Hr & Hi0 & Hlt & Hle & Hafter).
  rewrite HL in HL0. injection HL0 as <-.
  pose proof (inv_levels _ _ HI _ _ HL) as HLok.
  pose proof (lo_valid _ _ HLok _ _ Hi0) as Hrv.
  unfold SkipList.put. unfold SkipList.get in Hget. rewrite Hr in *. simpl in *.
  rewrite (lookup_node_at _ _ Hrv) in *. simpl in *.
  fold (Key (SkipList.nodes s) r) in *.
  destruct (str_eq (Key (SkipList.nodes s) r) key) eqn:E.
  - apply str_eq_spec in E.
    destruct (Rep_overwrite s sv es key value r) as (m' & Hm' & HR'); [by exists lv, L, h|done|done|].
    rewrite Hm'. simpl. eexists. split; [done|]. split; [exact HR'|]. simpl.
    destruct (str_eq key ""); [done|]. by destruct (kv_find key es).
  - apply str_eq_false in E.
    assert (Hk : key <> ""%string).
    { intros ->. destruct i0 as [|i0].
      - rewrite Hh in Hi0. injection Hi0 as <-. by rewrite (lo_head _ _ HLok _ Hh) in E.
      - pose proof (lo_sorted _ _ HLok O (S i0) h r ltac:(lia) Hlt Hh Hi0) as Hs.
        rewrite (lo_head _ _ HLok _ Hh) in Hs. apply Hle. done. }
    rewrite (proj2 (str_eq_false key "")) in * by done.
    assert (Hfind : kv_find key es = None) by (destruct (kv_find key es); [done|done]).
    rewrite Hfind.
    assert (Hrk : slt (Key (SkipList.nodes s) r) key).
    { destruct (slt_trichotomy (Key (SkipList.nodes s) r) key) as [?|[?|?]]; done. }
    destruct (lookup_lt_is_Some_2 L (S i0) Hlt) as [nx Hnx].
    assert (HndL : NoDup L) by (eapply NoDup_concat_level; [apply HI|done]).
    unfold alloc.
    set (m := SkipList.nodes s) in *. set (n := length m) in *.
    set (kv := mkKV key value).
    destruct (link_after_spec (m ++ [new_Node NORMAL kv]) r n nx)
      as (m2 & Hlink & Hlen2 & Hmc & Hmx & Hmn & Hmo).
    { len. } { len. } { pose proof (lo_valid _ _ HLok _ _ Hnx). len. }
    { unfold Nxt. rewrite node_at_app_l by done. fold (Nxt m r). by rewrite (lo_next _ _ HLok _ _ Hi0). }
    { unfold n. lia. } { pose proof (lo_valid _ _ HLok _ _ Hnx). unfold n. lia. }
    { intros ->. pose proof (NoDup_lookup _ _ _ _ HndL Hi0 Hnx). lia. }
    rewrite Hlink. simpl.
    rewrite length_app in Hlen2. simpl in Hlen2.
    rewrite node_at_app_l in Hmc by done.
    rewrite node_at_app_l in Hmx by (by eapply (lo_valid _ _ HLok)).
    unfold n in Hmn. rewrite node_at_app_r in Hmn. fold n in Hmn.
    assert (Hmo' : forall p, p <> r -> p <> nx -> p <> n -> node_at m2 p = node_at m p).
    { intros p H1 H2 H3. rewrite Hmo by done. destruct (decide (p < length m)%nat).
      - by rewrite node_at_app_l.
      - unfold node_at. rewrite !lookup_ge_None_2; [done|fold n; lia|len]. }
    set (total := wrap64 (SkipList.totalSize s + kv_size kv)).
    pose proof (Inv_insert_base s lv L i0 r nx kv m2 total HI HL Hi0 Hnx ltac:(fold m; lia)
                  Hmc Hmx Hmn Hmo' Hrk (fun Hl => Hafter (S i0) nx ltac:(lia) Hl Hnx)) as HI2.
    fold m in HI2. fold n in HI2.
    assert (Hdata : forall p, (p < length m)%nat -> n_data (node_at m2 p) = n_data (node_at m p)).
    { intros p Hp. destruct (decide (p = r)) as [->|]; [by rewrite Hmc|].
      destruct (decide (p = nx)) as [->|]; [by rewrite Hmx|].
      rewrite Hmo'; [done..|fold n in Hp; lia]. }
    assert (HvL : forall p, p ∈ L -> (p < length m)%nat).
    { intros p [k Hk']%list_elem_of_lookup. by eapply (lo_valid _ _ HLok). }
    edestruct (promote_spec key sv (kv_upsert key value es) (Z.to_nat SkipList.MAX_LEVEL + 1) coins O
                 _ _ (ins (S i0) n L) i0 r n (ins (S i0) n L) h HI2) as (s' & Hs' & HR' & Hts').
    + simpl. rewrite list_lookup_insert_eq; [done|]. by eapply lookup_lt_Some.
    + by rewrite ins_lookup_lt by lia.
    + by rewrite ins_lookup_eq by lia.
    + rewrite ins_length by lia. lia.
    + simpl. unfold Up. by rewrite Hmn.
    + simpl. unfold Key. by rewrite Hmn.
    + rewrite list_lookup_insert_eq; [done|]. by eapply lookup_lt_Some.
    + by rewrite ins_lookup_lt by lia.
    + simpl. unfold Val. rewrite Hdata; [done|]. apply HvL. by eapply list_elem_of_lookup_2.
    + simpl. rewrite (base_entries_ins m m2 L i0 n kv); [| |by rewrite Hmn|done].
      2:{ intros p Hp. apply Hdata. by apply HvL. }
      fold m in Hes. rewrite Hes. symmetry. apply kv_upsert_insert.
      * intros j e Hj He. rewrite <- Hes in He.
        apply base_entries_lookup_inv in He as (p & Hp & Hpl & ->). fold (Key m p).
        destruct (decide (S j = i0)) as [Heq|Hne].
        -- rewrite Heq in Hp. rewrite Hi0 in Hp. by injection Hp as <-.
        -- eapply slt_trans; [|exact Hrk]. apply (lo_sorted _ _ HLok (S j) i0); [lia|done..].
      * intros j e Hj He. rewrite <- Hes in He.
        apply base_entries_lookup_inv in He as (p & Hp & Hpl & ->). fold (Key m p).
        apply (Hafter (S j)); [lia|done..].
      * rewrite <- Hes, base_entries_length. lia.
    + lia.
    + simpl in Hs'. exists s'. split; [exact Hs'|]. split; [exact HR'|]. by rewrite Hts'.
Qed.

End PutSpec.

Lemma create_Rep : Rep SkipList.create "" [].
Proof.
  exists [[0; 1]%nat], [0; 1]%nat, O. split_and!; try done.
  split; simpl.
  - intros [|j] L [=]. subst. split; simpl.
    + lia.
    + intros [|[|i]] p [=]; subst; lia.
    + intros [|[|i]] p [=]; subst; done.
    + intros [|[|i]] p [=]; subst; done.
    + intros [|[|i]] p [=]; subst; done.
    + intros p [= <-]. done.
    + intros [|[|i]] p [=] Hi; subst; done.
    + intros i j p q Hij Hj. lia.
  - apply NoDup_cons. split; [rewrite list_elem_of_singleton; lia|]. apply NoDup_singleton.
  - by exists [0; 1]%nat.
  - done.
  - intros L p [= <-] Hp. apply elem_of_cons in Hp as [->|Hp]; [done|].
    apply list_elem_of_singleton in Hp as ->. done.
  - intros [|j] D [=]. subst. done.
  - intros [|j] D q p [=] Hq Hup. subst. apply elem_of_cons in Hq as [->|Hq]; [done|].
    apply list_elem_of_singleton in Hq as ->. done.
Qed.

(** * Part VI: memtables and the coordinator in memory *)

(** ** Memtables *)

Lemma kv_find_upsert_eq key value es : kv_find key (kv_upsert key value es) = Some value.
Proof.
  induction es as [|e es IH]; simpl.
  - by rewrite str_eq_refl.
  - destruct (str_lt key (getKey e)) eqn:Hlt; simpl.
    + by rewrite str_eq_refl.
    + destruct (str_eq (getKey e) key) eqn:E; simpl.
      * unfold getKey in *. simpl. by rewrite E.
      * by rewrite E.
Qed.

Lemma kv_find_upsert_ne key key' value es :
  key <> key' -> kv_find key (kv_upsert key' value es) = kv_find key es.
Proof.
  intros Hne. induction es as [|e es IH]; simpl.
  - by rewrite (proj2 (str_eq_false key' key)) by done.
  - destruct (str_lt key' (getKey e)) eqn:Hlt; simpl.
    + by rewrite (proj2 (str_eq_false key' key)) by done.
    + destruct (str_eq (getKey e) key') eqn:E; simpl.
      * apply str_eq_spec in E. unfold getKey in *. simpl. rewrite E.
        by rewrite (proj2 (str_eq_false key' key)) by done.
      * by rewrite IH.
Qed.

Lemma MemTable_get_spec mt sv es key :
  Rep (MemTable.list_ mt) sv es ->
  MemTable.get mt key = Some (classify (if str_eq key "" then Some sv else kv_find key es)).
Proof.
  intros HR. unfold MemTable.get. rewrite (get_spec _ sv es key HR). simpl.
  destruct (str_eq key ""); simpl.
  - by destruct (str_eq sv TOMBSTONE).
  - destruct (kv_find key es) as [v|]; simpl; [|done]. by destruct (str_eq v TOMBSTONE).
Qed.

Lemma MemTable_create_wf : MemTable_wf MemTable.create.
Proof. exists ""%string, []. apply create_Rep. Qed.

Lemma MemTable_get_create key :
  key <> ""%string -> MemTable.get MemTable.create key = Some (false, ""%string).
Proof.
  intros Hk. rewrite (MemTable_get_spec MemTable.create _ _ key create_Rep).
  by rewrite (proj2 (str_eq_false key "")) by done.
Qed.

Lemma classify_value v : v <> TOMBSTONE -> classify (Some v) = (true, v).
Proof. intros Hv. unfold classify. by rewrite (proj2 (str_eq_false v TOMBSTONE)) by done. Qed.

Lemma classify_tombstone : classify (Some TOMBSTONE) = (false, TOMBSTONE).
Proof. done. Qed.

Section MemTablePut.
Context `{StdStringImpl}.

Lemma MemTable_put_wf coins key value mt :
  MemTable_wf mt -> exists mt', MemTable.put coins key value mt = Some mt' /\ MemTable_wf mt'.
Proof.
  intros (sv & es & HR). destruct (put_spec coins key value _ sv es HR) as (s' & Hs' & HR' & _).
  unfold MemTable.put. rewrite Hs'. simpl. eexists. split; [done|]. by eexists _, _.
Qed.

(** A memtable answers with the value just put... *)
Lemma MemTable_get_put_eq coins key value mt mt' :
  MemTable_wf mt -> MemTable.put coins key value mt = Some mt' ->
  MemTable.get mt' key = Some (classify (Some value)).
Proof.
  intros (sv & es & HR) Hput. destruct (put_spec coins key value _ sv es HR) as (s' & Hs' & HR' & _).
  unfold MemTable.put in Hput. rewrite Hs' in Hput. simpl in Hput. injection Hput as <-.
  rewrite (MemTable_get_spec (MemTable.mk s') _ _ key HR'). simpl.
  destruct (str_eq key ""); [done|]. by rewrite kv_find_upsert_eq.
Qed.

(** ... and is unchanged on every other key. *)
Lemma MemTable_get_put_ne coins key key' value mt mt' :
  MemTable_wf mt -> MemTable.put coins key' value mt = Some mt' -> key <> key' ->
  MemTable.get mt' key = MemTable.get mt key.
Proof.
  intros (sv & es & HR) Hput Hne.
  destruct (put_spec coins key' value _ sv es HR) as (s' & Hs' & HR' & _).
  unfold MemTable.put in Hput. rewrite Hs' in Hput. simpl in Hput. injection Hput as <-.
  rewrite (MemTable_get_spec (MemTable.mk s') _ _ key HR'), (MemTable_get_spec _ _ _ key HR). simpl.
  destruct (str_eq key' "") eqn:E'.
  - apply str_eq_spec in E'. subst key'. by rewrite (proj2 (str_eq_false key "")) by done.
  - destruct (str_eq key "") eqn:E; [done|]. by rewrite kv_find_upsert_ne.
Qed.

(** ** The coordinator: in-memory layers *)

Lemma rotate_wf s : LSM_wf s -> LSM_wf (LSMTree.rotate_memtable s).
Proof.
  intros [Ha Hm]. split; simpl; [apply MemTable_create_wf|].
  apply Forall_app. split; [done|]. by apply Forall_singleton.
Qed.

Lemma LSM_put_wf coins key value s :
  LSM_wf s -> exists s', LSMTree.put coins key value s = Some s' /\ LSM_wf s'.
Proof.
  intros [Ha Hm]. destruct (MemTable_put_wf coins key value _ Ha) as (mt' & Hput & Hwf).
  unfold LSMTree.put. rewrite Hput. simpl.
  destruct (MemTable.getSize mt' >=? MAX_MEMTABLE_SIZE).
  - eexists. split; [done|]. by apply rotate_wf.
  - eexists. split; [done|]. by split.
Qed.

Lemma LSM_remove_wf coins key s :
  LSM_wf s -> exists s', LSMTree.remove coins key s = Some s' /\ LSM_wf s'.
Proof.
  intros [Ha Hm]. destruct (MemTable_put_wf coins key TOMBSTONE _ Ha) as (mt' & Hput & Hwf).
  unfold LSMTree.remove. rewrite Hput. simpl. eexists. split; [done|]. by split.
Qed.

Lemma run_op_wf o s : LSM_wf s -> exists s', run_op o s = Some s' /\ LSM_wf s'.
Proof. destruct o; [apply LSM_put_wf|apply LSM_remove_wf]. Qed.

End MemTablePut.

(** The memtable part of [get]: the active table is consulted like the
    sealed ones, ahead of them. *)
Lemma get_unfold fs s key :
  LSMTree.get fs s key =
  r ← LSMTree.get_memTables (LSMTree.activeMemTable s :: rev (LSMTree.memTables s)) key;
  match r with
  | Some result => Some result
  | None =>
      r ← LSMTree.get_sstables fs (rev (LSMTree.sstables s)) key;
      match r with
      | Some result => Some result
      | None => Some (false, ""%string)
      end
  end.
Proof.
  unfold LSMTree.get. simpl.
  destruct (MemTable.get (LSMTree.activeMemTable s) key) as [[b v]|]; simpl; [|done].
  destruct b; simpl; [done|]. destruct (str_eq v TOMBSTONE); done.
Qed.

Lemma Newest_get fs s key r : Newest s key r -> LSMTree.get fs s key = Some r.
Proof. intros Hn. rewrite get_unfold. unfold Newest in Hn. by rewrite Hn. Qed.

Lemma get_memTables_head mt rest key r :
  MemTable.get mt key = Some r -> definitive r = true ->
  LSMTree.get_memTables (mt :: rest) key = Some (Some (if fst r then r else (false, snd r))).
Proof.
  intros Hget Hdef. simpl. rewrite Hget. simpl. unfold definitive in Hdef.
  destruct r as [[|] v]; simpl in *; [done|]. by rewrite Hdef.
Qed.

Lemma get_memTables_skip mt rest key :
  MemTable.get mt key = Some (false, ""%string) ->
  LSMTree.get_memTables (mt :: rest) key = LSMTree.get_memTables rest key.
Proof. intros Hget. simpl. rewrite Hget. done. Qed.

Lemma classify_definitive v : definitive (classify (Some v)) = true.
Proof. unfold classify, definitive. destruct (str_eq v TOMBSTONE) eqn:E; simpl; [done|done]. Qed.

Lemma classify_norm v :
  (if fst (classify (Some v)) then classify (Some v) else (false, snd (classify (Some v))))
  = classify (Some v).
Proof. unfold classify. by destruct (str_eq v TOMBSTONE). Qed.

Section LSMOps.
Context `{StdStringImpl}.

Lemma remove_Newest coins key s s' :
  LSM_wf s -> LSMTree.remove coins key s = Some s' -> Newest s' key (false, TOMBSTONE).
Proof.
  intros [Ha Hm] Hrm. unfold LSMTree.remove in Hrm.
  destruct (MemTable.put coins key TOMBSTONE (LSMTree.activeMemTable s)) as [mt'|] eqn:Hmt; [|done].
  simpl in Hrm. injection Hrm as <-.
  pose proof (MemTable_get_put_eq coins key TOMBSTONE _ _ Ha Hmt) as Hget.
  unfold Newest. simpl. rewrite Hget. done.
Qed.

(** ** Writes that do not seal the active memtable *)

(** A put that does not seal the active memtable leaves the engine with
    the memtable it wrote to, and nothing else changed. *)
Lemma put_stays coins key value s :
  LSM_wf s -> put_rotates coins key value s = false ->
  exists m, MemTable.put coins key value (LSMTree.activeMemTable s) = Some m
    /\ LSMTree.put coins key value s
       = Some (LSMTree.mk (LSMTree.SS_TABLE_PATH s) m (LSMTree.memTables s) (LSMTree.sstables s)).
Proof.
  intros [Ha _] Hrot. destruct (MemTable_put_wf coins key value _ Ha) as (m & Hput & _).
  exists m. split; [done|]. unfold put_rotates in Hrot. rewrite Hput in Hrot.
  unfold LSMTree.put. rewrite Hput. cbn [mbind option_bind LSMTree.activeMemTable].
  by rewrite Hrot.
Qed.

(** The active memtable's definitive answer is the engine's. *)
Lemma active_get fs s key v :
  MemTable.get (LSMTree.activeMemTable s) key = Some (classify (Some v)) ->
  LSMTree.get fs s key = Some (classify (Some v)).
Proof.
  intros Hget. rewrite get_unfold.
  rewrite (get_memTables_head _ _ key _ Hget (classify_definitive v)), classify_norm. done.
Qed.

Lemma put_active coins key value s s' :
  LSM_wf s -> put_rotates coins key value s = false ->
  LSMTree.put coins key value s = Some s' ->
  MemTable.get (LSMTree.activeMemTable s') key = Some (classify (Some value)).
Proof.
  intros Hwf Hrot Hput. destruct (put_stays coins key value s Hwf Hrot) as (m & Hm & Hs).
  rewrite Hs in Hput. injection Hput as <-. cbn [LSMTree.activeMemTable].
  destruct Hwf as [Ha _]. exact (MemTable_get_put_eq coins key value _ _ Ha Hm).
Qed.

(** A call on another key that does not seal the active memtable
    leaves the active memtable's answer as it is. *)
Lemma run_op_active o s s' key :
  LSM_wf s -> op_key o <> key -> op_rotates o s = false -> run_op o s = Some s' ->
  MemTable.get (LSMTree.activeMemTable s') key = MemTable.get (LSMTree.activeMemTable s) key.
Proof.
  intros Hwf Hne Hrot Hrun. pose proof Hwf as [Ha _].
  destruct o as [coins k v|coins k]; cbn [run_op op_key op_rotates] in *.
  - destruct (put_stays coins k v s Hwf Hrot) as (m & Hm & Hs).
    rewrite Hs in Hrun. injection Hrun as <-. cbn [LSMTree.activeMemTable].
    apply (MemTable_get_put_ne coins key k v _ _ Ha Hm). congruence.
  - unfold LSMTree.remove in Hrun.
    destruct (MemTable.put coins k TOMBSTONE (LSMTree.activeMemTable s)) as [m|] eqn:Hm; [|done].
    cbn [mbind option_bind] in Hrun. injection Hrun as <-. cbn [LSMTree.activeMemTable].
    apply (MemTable_get_put_ne coins key k TOMBSTONE _ _ Ha Hm). congruence.
Qed.

Lemma run_active ops : forall s key,
  LSM_wf s -> Forall (fun o => op_key o <> key) ops -> run_rotates ops s = false ->
  exists s', run ops s = Some s' /\ LSM_wf s'
    /\ MemTable.get (LSMTree.activeMemTable s') key = MemTable.get (LSMTree.activeMemTable s) key.
Proof.
  induction ops as [|o ops IH]; intros s key Hwf Hops Hrot; cbn [run run_rotates] in *.
  - by exists s.
  - apply Forall_cons in Hops as [Ho Hops].
    destruct (run_op_wf o s Hwf) as (s1 & Hs1 & Hwf1). rewrite Hs1 in *.
    apply orb_false_iff in Hrot as [Hrot1 Hrot].
    destruct (IH s1 key Hwf1 Hops Hrot) as (s' & Hs' & Hwf' & Hget).
    exists s'. cbn [mbind option_bind]. split; [done|]. split; [done|].
    rewrite Hget. exact (run_op_active o s s1 key Hwf Ho Hrot1 Hs1).
Qed.

End LSMOps.

(** ** The read path *)

Lemma MemTable_get_shape mt key r :
  MemTable.get mt key = Some r -> definitive r = false -> r = (false, ""%string).
Proof.
  unfold MemTable.get. destruct (SkipList.get (MemTable.list_ mt) key) as [[b v]|]; simpl; [|done].
  destruct b; simpl.
  - destruct (str_eq v TOMBSTONE) eqn:E; intros [= <-]; unfold definitive; simpl; [by rewrite E|done].
  - by intros [= <-].
Qed.

Lemma scan_shape key : forall fuel f r,
  SS_Table.scan fuel key f = Some r -> definitive r = false -> r = (false, ""%string).
Proof.
  induction fuel as [|fuel IH]; intros f r; simpl; [done|].
  destruct (eofbit f); [by intros [= <-]|].
  destruct (read_uint 4 f) as [ks f1]. destruct (eofbit f1); [by intros [= <-]|].
  destruct ks as [ks|]; simpl; [|done].
  destruct (read_string ks f1) as [sk f2].
  destruct (str_lt key sk); [by intros [= <-]|].
  destruct (read_uint 4 f2) as [vs f3]. destruct vs as [vs|]; simpl; [|done].
  destruct (read_string vs f3) as [v f4].
  destruct (str_eq sk key).
  - destruct (str_eq v TOMBSTONE) eqn:E; intros [= <-]; unfold definitive; simpl; [by rewrite E|done].
  - apply IH.
Qed.

Lemma getValue_shape fs tb key r :
  SS_Table.getValue fs tb key = Some r -> definitive r = false -> r = (false, ""%string).
Proof.
  unfold SS_Table.getValue. destruct (negb (SS_Table.indexLoaded tb)); [by intros [= <-]|].
  destruct (SS_Table.findStartOffset (SS_Table.index tb) key) as [[off|]|]; simpl;
    [|by intros [= <-]|done].
  destruct (open_in fs (SS_Table.data_filename tb)) as [f|]; [|by intros [= <-]].
  apply scan_shape.
Qed.

Lemma first_definitive_app_memTables mts rest key :
  first_definitive (map (fun mt => MemTable.get mt key) mts ++ rest)
  = r ← LSMTree.get_memTables mts key;
    match r with Some result => Some result | None => first_definitive rest end.
Proof.
  induction mts as [|mt mts IH]; simpl; [done|].
  destruct (MemTable.get mt key) as [[b v]|]; simpl; [|done].
  destruct b; simpl; [done|]. destruct (str_eq v TOMBSTONE); simpl; [done|]. apply IH.
Qed.

Lemma first_definitive_sstables fs tbs key :
  first_definitive (map (fun tb => SS_Table.getValue fs tb key) tbs)
  = r ← LSMTree.get_sstables fs tbs key;
    match r with Some result => Some result | None => Some (false, ""%string) end.
Proof.
  induction tbs as [|tb tbs IH]; simpl; [done|].
  destruct (SS_Table.getValue fs tb key) as [[b v]|]; simpl; [|done].
  destruct b; simpl; [done|]. destruct (str_eq v TOMBSTONE); simpl; [done|]. apply IH.
Qed.

Lemma first_definitive_absent reports :
  first_definitive reports = Some (false, ""%string) ->
  Forall (fun r => exists x, r = Some x /\ definitive x = false) reports.
Proof.
  induction reports as [|[[b v]|] reports IH]; simpl; intros Hf; [constructor| |done].
  destruct b; simpl in *; [done|]. destruct (str_eq v TOMBSTONE) eqn:E.
  - injection Hf as ->. done.
  - constructor; [|by apply IH]. exists (false, v). split; [done|]. unfold definitive. simpl. done.
Qed.

(** C2. [get] consults the active memtable, then the sealed memtables
    newest first, then the SSTables newest first, and answers with the
    first definitive report (a value, or the tombstone); it answers
    (false, "") only when every layer reported the key absent. *)
Theorem C2_get_resolution_order (fs : filesystem) (s : LSMTree.t) (key : string) :
  LSMTree.get fs s key = first_definitive (layer_reports fs s key)
  /\ (LSMTree.get fs s key = Some (false, ""%string) ->
      Forall (fun r => r = Some (false, ""%string)) (layer_reports fs s key)).
Proof.
  assert (Heq : LSMTree.get fs s key = first_definitive (layer_reports fs s key)).
  { rewrite get_unfold. unfold layer_reports.
    change (MemTable.get (LSMTree.activeMemTable s) key
            :: map (fun mt => MemTable.get mt key) (rev (LSMTree.memTables s)) ++
               map (fun tb => SS_Table.getValue fs tb key) (rev (LSMTree.sstables s)))
      with (map (fun mt => MemTable.get mt key)
              (LSMTree.activeMemTable s :: rev (LSMTree.memTables s)) ++
            map (fun tb => SS_Table.getValue fs tb key) (rev (LSMTree.sstables s))).
    rewrite first_definitive_app_memTables.
    destruct (LSMTree.get_memTables _ key) as [[r|]|]; simpl; [done| |done].
    by rewrite first_definitive_sstables. }
  split; [exact Heq|]. rewrite Heq. intros Hf%first_definitive_absent.
  unfold layer_reports in *. apply Forall_cons in Hf as [(x & Hx & Hd) Hf].
  apply Forall_app in Hf as [Hm Ht]. apply Forall_cons. split; [|apply Forall_app; split].
  - rewrite Hx. f_equal. by eapply MemTable_get_shape.
  - apply Forall_forall. intros r Hr. pose proof (proj1 (Forall_forall _ _) Hm r Hr) as (y & -> & Hy).
    apply list_elem_of_fmap in Hr as (mt & Hr & _). f_equal. symmetry in Hr. by eapply MemTable_get_shape.
  - apply Forall_forall. intros r Hr. pose proof (proj1 (Forall_forall _ _) Ht r Hr) as (y & -> & Hy).
    apply list_elem_of_fmap in Hr as (tb & Hr & _). f_equal. symmetry in Hr. by eapply getValue_shape.
Qed.

(** C2 on an engine that holds one entry and one deleted key, asked
    for a third key. *)
Lemma C2_get_resolution_order_witness :
  exists s, run (H := libstdcxx) [Put [] "a" "1"; Remove [true] "b"] empty_engine = Some s
    /\ LSMTree.get [] s "c" = Some (false, ""%string)
    /\ Forall (fun r => r = Some (false, ""%string)) (layer_reports [] s "c").
Proof.
  eexists. split; [vm_compute; reflexivity|].
  split; [vm_compute; reflexivity|].
  apply (proj2 (C2_get_resolution_order [] _ "c")). vm_compute. reflexivity.
Defined.

(** ** Read-after-write *)

Lemma empty_engine_wf : LSM_wf empty_engine.
Proof. split; [apply MemTable_create_wf|constructor]. Qed.

Lemma TOMBSTONE_nonempty : TOMBSTONE <> ""%string.
Proof. done. Qed.

(** C3, as stated, fails for the tombstone sentinel: the engine stores
    it like any value and reads it back as a deletion. *)
Lemma C3_counterexample :
  exists s, LSMTree.put (H := libstdcxx) [] "k" TOMBSTONE empty_engine = Some s
    /\ LSMTree.get [] s "k" = Some (false, TOMBSTONE)
    /\ LSMTree.get [] s "k" <> Some (true, TOMBSTONE).
Proof.
  eexists. split; [vm_compute; reflexivity|]. split; [vm_compute; reflexivity|].
  vm_compute. discriminate.
Qed.

(** C3 (amended). For every non-empty key, [get key] after
    [put key value] returns Found(value), or Deleted when the value is
    the tombstone sentinel, whatever puts and removes on other keys come
    in between, provided that neither the put nor a put in between
    brings the active memtable to [MAX_MEMTABLE_SIZE].  The answer is
    the one of the active memtable.  The case of a put that seals the
    memtable and hands it to the flush worker is left out. *)
Theorem C3_read_after_write `{StdStringImpl} (s : LSMTree.t) (coins : list bool)
    (key value : string) (ops : list op) :
  LSM_wf s -> key <> ""%string ->
  Forall (fun o => op_key o <> key) ops ->
  run_rotates (Put coins key value :: ops) s = false ->
  exists s1 s2, LSMTree.put coins key value s = Some s1 /\ run ops s1 = Some s2
    /\ MemTable.get (LSMTree.activeMemTable s2) key
       = Some (if str_eq value TOMBSTONE then (false, value) else (true, value))
    /\ forall fs, LSMTree.get fs s2 key
                  = Some (if str_eq value TOMBSTONE then (false, value) else (true, value)).
Proof.
  intros Hwf Hk Hops Hrot.
  destruct (LSM_put_wf coins key value s Hwf) as (s1 & Hs1 & Hwf1).
  cbn [run_rotates run_op op_rotates] in Hrot. rewrite Hs1 in Hrot.
  apply orb_false_iff in Hrot as [Hrot1 Hrot].
  pose proof (put_active coins key value s s1 Hwf Hrot1 Hs1) as Hget1.
  destruct (run_active ops s1 key Hwf1 Hops Hrot) as (s2 & Hs2 & _ & Hget2).
  rewrite Hget1 in Hget2.
  exists s1, s2. split; [done|]. split; [done|]. split; [exact Hget2|].
  intros fs. exact (active_get fs s2 key value Hget2).
Qed.

Lemma C3_read_after_write_witness :
  exists s1 s2, LSMTree.put (H := libstdcxx) [true; false] "foo" "bar" empty_engine = Some s1
    /\ run (H := libstdcxx) [Put [] "x" "1"; Remove [true] "y"] s1 = Some s2
    /\ MemTable.get (LSMTree.activeMemTable s2) "foo" = Some (true, "bar"%string)
    /\ forall fs, LSMTree.get fs s2 "foo" = Some (true, "bar"%string).
Proof.
  apply (C3_read_after_write (H := libstdcxx) empty_engine [true; false] "foo" "bar"
           [Put [] "x" "1"; Remove [true] "y"]).
  - apply empty_engine_wf.
  - discriminate.
  - repeat constructor; simpl; discriminate.
  - vm_compute. reflexivity.
Defined.

(** ** remove versus put of the tombstone *)

Lemma string_of_list_ascii_length l :
  String.length (string_of_list_ascii l) = length l.
Proof. induction l as [|c l IH]; simpl; [done|]. by rewrite IH. Qed.

Lemma big_value_size : str_size big_value = 33554352.
Proof.
  unfold str_size, big_value. rewrite string_of_list_ascii_length, length_replicate.
  rewrite Z2Nat.id; lia.
Qed.

Global Opaque big_value.

Lemma big_entry_size : kv_size (H := libstdcxx) (mkKV "a" big_value) = 33554431.
Proof.
  unfold kv_size. cbn [capacity sizeof_string libstdcxx kv_key kv_value].
  rewrite big_value_size. reflexivity.
Qed.

(** C10, as stated, fails once the insertion takes the active memtable
    to its size threshold: [put] then rotates, [remove] does not. *)
Lemma C10_counterexample :
  exists s r p,
    run (H := libstdcxx) [Put [] "a" big_value] empty_engine = Some s
    /\ LSMTree.remove (H := libstdcxx) [] "b" s = Some r
    /\ LSMTree.put (H := libstdcxx) [] "b" TOMBSTONE s = Some p
    /\ LSMTree.memTables r = [] /\ length (LSMTree.memTables p) = 1%nat /\ r <> p.
Proof.
  destruct (put_spec (H := libstdcxx) [] "a" big_value SkipList.create "" [] create_Rep)
    as (ms1 & Hput1 & HR1 & Hsz1).
  cbn [str_eq String.eqb Ascii.eqb Bool.eqb kv_find kv_upsert SkipList.create
       SkipList.totalSize] in HR1, Hsz1.
  change (SkipList.totalSize SkipList.create) with 0 in Hsz1.
  rewrite big_entry_size in Hsz1. change (wrap64 (0 + 33554431)) with 33554431 in Hsz1.
  destruct (put_spec (H := libstdcxx) [] "b" TOMBSTONE ms1 _ _ HR1) as (ms2 & Hput2 & HR2 & Hsz2).
  assert (Hf : kv_find "b" [mkKV "a" big_value] = None) by reflexivity.
  change (str_eq "b" "") with false in Hsz2. cbv iota in Hsz2. rewrite Hf, Hsz1 in Hsz2.
  change (wrap64 (33554431 + kv_size (H := libstdcxx) (mkKV "b" TOMBSTONE))) with 33554525 in Hsz2.
  exists (LSMTree.mk DATA_DIR (MemTable.mk ms1) [] []),
         (LSMTree.mk DATA_DIR (MemTable.mk ms2) [] []),
         (LSMTree.rotate_memtable (LSMTree.mk DATA_DIR (MemTable.mk ms2) [] [])).
  split_and!.
  - unfold run, run_op, LSMTree.put, MemTable.put, empty_engine.
    cbn [LSMTree.activeMemTable MemTable.list_ MemTable.create].
    rewrite Hput1. cbn [mbind option_bind LSMTree.activeMemTable MemTable.getSize
      MemTable.list_ SkipList.getSize LSMTree.SS_TABLE_PATH LSMTree.memTables LSMTree.sstables].
    change (MemTable.getSize {| MemTable.list_ := ms1 |}) with (SkipList.totalSize ms1).
    rewrite Hsz1. reflexivity.
  - unfold LSMTree.remove, MemTable.put. cbn [LSMTree.activeMemTable MemTable.list_].
    rewrite Hput2. reflexivity.
  - unfold LSMTree.put, MemTable.put. cbn [LSMTree.activeMemTable MemTable.list_].
    rewrite Hput2. cbn [mbind option_bind LSMTree.activeMemTable MemTable.getSize
      MemTable.list_ SkipList.getSize LSMTree.SS_TABLE_PATH LSMTree.memTables LSMTree.sstables].
    change (MemTable.getSize {| MemTable.list_ := ms2 |}) with (SkipList.totalSize ms2).
    rewrite Hsz2. reflexivity.
  - reflexivity.
  - reflexivity.
  - intros Heq. apply (f_equal LSMTree.memTables) in Heq. discriminate Heq.
Qed.

(** C10 (amended). [remove key] performs exactly the memtable insertion
    of [put key TOMBSTONE]; the two leave the same engine state unless
    that insertion takes the active memtable to [MAX_MEMTABLE_SIZE], in
    which case [put] additionally rotates the memtable and [remove] does
    not.  After the [remove], and after the [put] when it does not
    rotate, a non-empty key reads as deleted; what is read after a [put]
    that rotates, which hands the memtable to the flush worker, is left
    out. *)
Theorem C10_remove_vs_put_tombstone `{StdStringImpl} (s : LSMTree.t) (coins : list bool)
    (key : string) :
  LSM_wf s ->
  exists r p,
    LSMTree.remove coins key s = Some r
    /\ LSMTree.put coins key TOMBSTONE s = Some p
    /\ p = (if MemTable.getSize (LSMTree.activeMemTable r) >=? MAX_MEMTABLE_SIZE
            then LSMTree.rotate_memtable r else r)
    /\ (key <> ""%string ->
        forall fs, LSMTree.get fs r key = Some (false, TOMBSTONE)
                   /\ (put_rotates coins key TOMBSTONE s = false ->
                       LSMTree.get fs p key = Some (false, TOMBSTONE))).
Proof.
  intros Hwf.
  destruct (LSM_remove_wf coins key s Hwf) as (r & Hr & Hwfr).
  destruct (LSM_put_wf coins key TOMBSTONE s Hwf) as (p & Hp & Hwfp).
  exists r, p. split_and!; [done|done| |].
  - unfold LSMTree.remove in Hr. unfold LSMTree.put in Hp.
    destruct (MemTable.put coins key TOMBSTONE (LSMTree.activeMemTable s)) as [m|]; [|done].
    simpl in *. injection Hr as <-. simpl.
    destruct (MemTable.getSize m >=? MAX_MEMTABLE_SIZE); by injection Hp as <-.
  - intros Hk fs. split.
    + apply Newest_get. exact (remove_Newest coins key s r Hwf Hr).
    + intros Hrot.
      exact (active_get fs p key TOMBSTONE (put_active coins key TOMBSTONE s p Hwf Hrot Hp)).
Qed.

Lemma C10_remove_vs_put_tombstone_witness :
  exists r p,
    LSMTree.remove (H := libstdcxx) [true] "foo" empty_engine = Some r
    /\ LSMTree.put (H := libstdcxx) [true] "foo" TOMBSTONE empty_engine = Some p
    /\ p = r
    /\ forall fs, LSMTree.get fs r "foo" = Some (false, TOMBSTONE)
                  /\ LSMTree.get fs p "foo" = Some (false, TOMBSTONE).
Proof.
  destruct (C10_remove_vs_put_tombstone (H := libstdcxx) empty_engine [true] "foo"
              empty_engine_wf) as (r & p & Hr & Hp & Heq & Hget).
  assert (Hrot : put_rotates (H := libstdcxx) [true] "foo" TOMBSTONE empty_engine = false)
    by (vm_compute; reflexivity).
  assert (Hsize : (MemTable.getSize (LSMTree.activeMemTable r) >=? MAX_MEMTABLE_SIZE) = false).
  { unfold LSMTree.remove in Hr. unfold put_rotates in Hrot.
    destruct (MemTable.put (H := libstdcxx) [true] "foo" TOMBSTONE
                (LSMTree.activeMemTable empty_engine)) as [m|]; [|discriminate Hr].
    cbn [mbind option_bind] in Hr. injection Hr as <-. exact Hrot. }
  rewrite Hsize in Heq.
  exists r, p. split; [exact Hr|]. split; [exact Hp|]. split; [exact Heq|].
  intros fs. destruct (Hget ltac:(discriminate) fs) as [Hgr Hgp].
  split; [exact Hgr|exact (Hgp Hrot)].
Defined.

(** ** Runs of puts on a skip list *)

Section PutAll.
Context `{StdStringImpl}.

Lemma put_all_Rep ops : forall s sv es,
  Rep s sv es ->
  exists s', put_all ops s = Some s'
    /\ Rep s' (fst (model_puts ops (sv, es))) (snd (model_puts ops (sv, es))).
Proof.
  induction ops as [|[[coins key] value] ops IH]; intros s sv es HR; simpl.
  - by exists s.
  - destruct (put_spec coins key value s sv es HR) as (s1 & Hs1 & HR1 & _).
    rewrite Hs1. simpl. destruct (str_eq key ""); by apply IH.
Qed.

Lemma model_puts_find key ops : forall sv es,
  key <> ""%string ->
  kv_find key (snd (model_puts ops (sv, es))) = last_put key ops (kv_find key es).
Proof.
  induction ops as [|[[coins k] v] ops IH]; intros sv es Hk; simpl; [done|].
  destruct (str_eq k "") eqn:E.
  - rewrite IH by done. cbn [snd fst]. destruct (str_eq k key) eqn:E'; [|done].
    apply str_eq_spec in E. apply str_eq_spec in E'. congruence.
  - rewrite IH by done. cbn [snd fst]. destruct (str_eq k key) eqn:E'.
    + apply str_eq_spec in E'. subst k. by rewrite kv_find_upsert_eq.
    + apply str_eq_false in E'. by rewrite kv_find_upsert_ne by done.
Qed.

(** For every non-empty key, lookup after any run of puts reports the
    last value put under the key, and not-found if there was none. *)
Lemma skiplist_lookup_nonempty ops key :
  key <> ""%string ->
  exists s, put_all ops SkipList.create = Some s
    /\ SkipList.get s key
       = Some (match last_put key ops None with
               | Some v => (true, v)
               | None => (false, ""%string)
               end).
Proof.
  intros Hk. destruct (put_all_Rep ops _ _ _ create_Rep) as (s & Hs & HR).
  exists s. split; [done|]. rewrite (get_spec _ _ _ key HR).
  rewrite (proj2 (str_eq_false key "")) by done. by rewrite model_puts_find.
Qed.

(** The size counter after one put on a well-formed list. *)
Lemma size_counter_step coins key value s sv es :
  Rep s sv es ->
  exists s', SkipList.put coins key value s = Some s'
    /\ SkipList.getSize s'
       = if str_eq key "" then SkipList.getSize s
         else match kv_find key es with
              | Some _ => SkipList.getSize s
              | None => wrap64 (SkipList.getSize s + kv_size (mkKV key value))
              end.
Proof.
  intros HR. destruct (put_spec coins key value s sv es HR) as (s' & Hs' & _ & Hsz).
  by exists s'.
Qed.

End PutAll.

(** C6, evaluated at the failing input.  Looking up the empty key in a
    list that never received it reports it as found: [get] compares the
    key of the negative-infinity sentinel, which is the empty string,
    without looking at the node type.  [find] does check the type and
    reports the key as missing. *)
Theorem C6_empty_key_lookup :
  SkipList.get SkipList.create "" = Some (true, ""%string)
  /\ SkipList.find SkipList.create "" = Some SkipList.end_
  /\ SkipList.to_vector SkipList.create = Some [].
Proof. repeat split. Qed.

(** C9, evaluated at the failing input.  The first put of the empty
    key does not add the size of its entry to the counter: [put] takes
    the sentinel for an existing node holding the key and overwrites its
    value. *)
Theorem C9_empty_key_size :
  SkipList.to_vector SkipList.create = Some []
  /\ (SkipList.getSize <$> SkipList.put (H := libstdcxx) [] "" "v" SkipList.create) = Some 0
  /\ kv_size (H := libstdcxx) (mkKV "" "v") = 94.
Proof. repeat split. Qed.

(** * Part VII: tables on disk *)

(** ** Integers and strings on disk *)


Lemma le_encode_length n z : length (le_encode n z) = n.
Proof. revert z. induction n as [|n IH]; intros z; simpl; [done|]. by rewrite IH. Qed.

Lemma le_decode_encode n z : le_decode (le_encode n z) = z mod 256 ^ Z.of_nat n.
Proof.
  revert z. induction n as [|n IH]; intros z.
  - cbn [le_encode le_decode]. simpl. by rewrite Z.mod_1_r.
  - cbn [le_encode le_decode]. rewrite IH.
    rewrite N_ascii_embedding.
    2:{ apply N2Z.inj_lt. rewrite Z2N.id by (apply Z.mod_pos_bound; lia).
        change (Z.of_N 256) with 256. apply Z.mod_pos_bound. lia. }
    rewrite Z2N.id by (apply Z.mod_pos_bound; lia).
    replace (256 ^ Z.of_nat (S n)) with (256 * 256 ^ Z.of_nat n)
      by (rewrite Nat2Z.inj_succ, Z.pow_succ_r; lia).
    rewrite (Z.rem_mul_r z 256 (256 ^ Z.of_nat n)) by lia. lia.
Qed.

Local Arguments le_encode : simpl never.
Local Arguments le_decode : simpl never.

Lemma le_decode_encode_4 z : 0 <= z < 2 ^ 32 -> le_decode (le_encode 4 z) = z.
Proof. intros Hz. rewrite le_decode_encode. apply Z.mod_small. simpl. lia. Qed.

Lemma le_decode_encode_8 z : 0 <= z < 2 ^ 64 -> le_decode (le_encode 8 z) = z.
Proof. intros Hz. rewrite le_decode_encode. apply Z.mod_small. simpl. lia. Qed.

Lemma list_ascii_length s : length (list_ascii_of_string s) = String.length s.
Proof. induction s as [|c s IH]; simpl; [done|]. by rewrite IH. Qed.

Lemma str_size_nonneg s : 0 <= str_size s.
Proof. unfold str_size. lia. Qed.

Lemma chars_full s : chars s (str_size s) = list_ascii_of_string s.
Proof.
  unfold chars, str_size. rewrite Nat2Z.id. apply take_ge. by rewrite list_ascii_length.
Qed.

Lemma wrap32_small z : 0 <= z < 2 ^ 32 -> wrap32 z = z.
Proof. intros. unfold wrap32. by apply Z.mod_small. Qed.

Lemma wrap64_small z : 0 <= z < 2 ^ 64 -> wrap64 z = z.
Proof. intros. unfold wrap64. by apply Z.mod_small. Qed.

(** ** Streams *)

Lemma read_at f pre bs suf :
  at_pos f pre (bs ++ suf) ->
  exists f', read (length bs) f = (bs, f') /\ at_pos f' (pre ++ bs) suf.
Proof.
  intros (Hc & Hp & He & Hf). unfold read. rewrite He, Hf. simpl.
  rewrite Hc, Hp. rewrite drop_app_length. rewrite take_app_length.
  rewrite Nat.ltb_irrefl. eexists. split; [done|].
  split_and!; simpl; [by rewrite <- app_assoc|by rewrite length_app|done|done].
Qed.

Lemma read_uint_at n f pre z suf :
  at_pos f pre (le_encode n z ++ suf) -> 0 <= z < 256 ^ Z.of_nat n ->
  exists f', read_uint n f = (Some z, f') /\ at_pos f' (pre ++ le_encode n z) suf.
Proof.
  intros Hat Hz. destruct (read_at f pre _ suf Hat) as (f' & Hr & Hat').
  rewrite le_encode_length in Hr. unfold read_uint. rewrite Hr.
  rewrite le_encode_length, Nat.eqb_refl, le_decode_encode, Z.mod_small by done.
  by exists f'.
Qed.

Lemma read_string_at f pre s suf :
  at_pos f pre (list_ascii_of_string s ++ suf) ->
  exists f', read_string (str_size s) f = (s, f')
    /\ at_pos f' (pre ++ list_ascii_of_string s) suf.
Proof.
  intros Hat. destruct (read_at f pre _ suf Hat) as (f' & Hr & Hat').
  unfold read_string, str_size. rewrite Nat2Z.id. rewrite <- list_ascii_length, Hr.
  rewrite Nat.sub_diag. simpl. rewrite app_nil_r, string_of_list_ascii_of_string.
  by exists f'.
Qed.

Lemma read_uint_eof n f pre :
  at_pos f pre [] -> (0 < n)%nat -> eofbit (snd (read_uint n f)) = true.
Proof.
  intros (Hc & Hp & He & Hf) Hn. unfold read_uint, read. rewrite He, Hf. simpl.
  rewrite Hc, Hp, app_nil_r, drop_all. simpl.
  destruct n; [lia|]. done.
Qed.

Lemma open_in_at fs path c :
  fs_lookup path fs = Some c -> exists f, open_in fs path = Some f /\ at_pos f [] c.
Proof. intros H. unfold open_in. rewrite H. simpl. eexists. split; [done|]. by split_and!. Qed.

Lemma seekg_at f pre suf :
  content f = pre ++ suf -> failbit f = false ->
  at_pos (seekg (Z.of_nat (length pre)) f) pre suf.
Proof.
  intros Hc Hf. unfold seekg. rewrite Hf. split_and!; simpl; [done|by rewrite Nat2Z.id|done|done].
Qed.

(** ** Records *)

Lemma encode_records_cons e es : encode_records (e :: es) = encode_record e ++ encode_records es.
Proof. done. Qed.

Lemma encode_records_app es1 es2 :
  encode_records (es1 ++ es2) = encode_records es1 ++ encode_records es2.
Proof. unfold encode_records. by rewrite map_app, concat_app. Qed.

Lemma encode_record_length e :
  Z.of_nat (length (encode_record e)) = 4 + str_size (getKey e) + 4 + str_size (getValue e).
Proof.
  unfold encode_record. rewrite !length_app, !le_encode_length, !list_ascii_length.
  unfold str_size. lia.
Qed.

(** One record read by the engine's loops. *)
Lemma read_record_at f pre e suf :
  at_pos f pre (encode_record e ++ suf) -> fits32 e ->
  exists f1 f2 f3 f4,
    read_uint 4 f = (Some (str_size (getKey e)), f1) /\ eofbit f1 = false
    /\ read_string (str_size (getKey e)) f1 = (getKey e, f2)
    /\ read_uint 4 f2 = (Some (str_size (getValue e)), f3)
    /\ read_string (str_size (getValue e)) f3 = (getValue e, f4)
    /\ at_pos f4 (pre ++ encode_record e) suf.
Proof.
  intros Hat [Hk Hv]. unfold encode_record in Hat. rewrite <- !app_assoc in Hat.
  destruct (read_uint_at 4 f pre _ _ Hat) as (f1 & Hr1 & Hat1).
  { pose proof (str_size_nonneg (getKey e)). simpl. lia. }
  destruct (read_string_at f1 _ _ _ Hat1) as (f2 & Hr2 & Hat2).
  destruct (read_uint_at 4 f2 _ _ _ Hat2) as (f3 & Hr3 & Hat3).
  { pose proof (str_size_nonneg (getValue e)). simpl. lia. }
  destruct (read_string_at f3 _ _ _ Hat3) as (f4 & Hr4 & Hat4).
  exists f1, f2, f3, f4. split_and!; try done.
  - apply Hat1.
  - unfold encode_record. by rewrite <- !app_assoc in *.
Qed.

(** ** What [createFromMemTable] writes *)

Lemma write_entries_spec es : forall i idx dat off,
  Forall fits32 es -> 0 <= i -> 0 <= off ->
  i + Z.of_nat (length es) < 2 ^ 64 ->
  off + Z.of_nat (length (encode_records es)) < 2 ^ 64 ->
  SS_Table.write_entries i es idx dat off
  = (idx ++ concat (map encode_index_entry (index_entries i off es)), dat ++ encode_records es).
Proof.
  induction es as [|e es IH]; intros i idx dat off Hfit Hi Hoff Hil Hol.
  - simpl. by rewrite !app_nil_r.
  - apply Forall_cons in Hfit as [[Hk Hv] Hfit].
    cbn [SS_Table.write_entries index_entries].
    rewrite encode_records_cons in *. rewrite length_app in Hol. simpl length in Hil.
    pose proof (encode_record_length e) as Hlen.
    pose proof (str_size_nonneg (getKey e)). pose proof (str_size_nonneg (getValue e)).
    rewrite !wrap32_small by lia. rewrite !chars_full.
    rewrite (wrap64_small (i + 1)) by lia.
    rewrite (wrap64_small (off + 4 + _ + 4 + _)) by lia.
    replace (off + 4 + str_size (getKey e) + 4 + str_size (getValue e))
      with (off + Z.of_nat (length (encode_record e))) by lia.
    rewrite IH by (try done; lia).
    unfold SS_Table.KEYS_PER_INDEX_ENTRY. f_equal.
    + destruct (i mod 10 =? 0).
      * rewrite map_app, concat_app.
        change (concat (map encode_index_entry [(getKey e, off)]))
          with ((le_encode 4 (str_size (getKey e)) ++ list_ascii_of_string (getKey e)
                 ++ le_encode 8 off) ++ []).
        rewrite app_nil_r. by rewrite <- !app_assoc.
      * by rewrite app_nil_l.
    + unfold encode_record at 1. by rewrite <- !app_assoc.
Qed.

Lemma index_entries_length es : forall i off,
  0 <= i -> Z.of_nat (length (index_entries i off es)) = count10 i (Z.of_nat (length es)).
Proof.
  induction es as [|e es IH]; intros i off Hi; cbn [index_entries].
  - unfold count10. simpl length. Z.div_mod_to_equations. lia.
  - rewrite length_app, Nat2Z.inj_add, IH by lia. simpl length.
    unfold count10. destruct (Z.eqb_spec (i mod 10) 0) as [Hm|Hm]; simpl length;
      Z.div_mod_to_equations; lia.
Qed.

Lemma index_entries_lookup es : forall i off j e,
  0 <= i -> es !! j = Some e -> (i + Z.of_nat j) mod 10 = 0 ->
  index_entries i off es !! Z.to_nat (count10 i (Z.of_nat j))
  = Some (getKey e, off + Z.of_nat (length (encode_records (take j es)))).
Proof.
  induction es as [|e0 es IH]; intros i off j e Hi Hj Hm; [done|].
  cbn [index_entries]. destruct j as [|j].
  - simpl in Hj. injection Hj as ->. replace (i + Z.of_nat 0) with i in Hm by lia.
    rewrite (proj2 (Z.eqb_eq _ _) Hm). unfold count10.
    replace (i + Z.of_nat 0 + 9) with (i + 9) by lia. rewrite Z.sub_diag. simpl.
    f_equal. f_equal. lia.
  - simpl in Hj. specialize (IH (i + 1) (off + Z.of_nat (length (encode_record e0))) j e
      ltac:(lia) Hj ltac:(by replace (i + 1 + Z.of_nat j) with (i + Z.of_nat (S j)) by lia)).
    assert (Hoff : off + Z.of_nat (length (encode_records (take (S j) (e0 :: es))))
                 = off + Z.of_nat (length (encode_record e0))
                   + Z.of_nat (length (encode_records (take j es)))).
    { simpl take. rewrite encode_records_cons, length_app. lia. }
    rewrite Hoff. rewrite <- IH.
    destruct (Z.eqb_spec (i mod 10) 0) as [Hm0|Hm0].
    + assert (Z.to_nat (count10 i (Z.of_nat (S j))) = S (Z.to_nat (count10 (i + 1) (Z.of_nat j)))) as ->.
      { unfold count10. Z.div_mod_to_equations. lia. }
      done.
    + assert (Z.to_nat (count10 i (Z.of_nat (S j))) = Z.to_nat (count10 (i + 1) (Z.of_nat j))) as ->.
      { unfold count10. Z.div_mod_to_equations. lia. }
      done.
Qed.

Lemma sparse_index_length es :
  Z.of_nat (length (sparse_index es)) = (Z.of_nat (length es) + 9) / 10.
Proof.
  unfold sparse_index. rewrite length_map, length_seq. rewrite Z2Nat.id; [done|].
  apply Z.div_pos; lia.
Qed.

Lemma sparse_index_lookup es i e :
  es !! (10 * i)%nat = Some e ->
  sparse_index es !! i = Some (getKey e, record_offset es (10 * i)).
Proof.
  intros He. unfold sparse_index. rewrite list_lookup_fmap.
  rewrite lookup_seq_lt.
  - change (0 + i)%nat with i. cbn [fmap option_fmap option_map]. by rewrite He.
  - apply lookup_lt_Some in He. apply Nat2Z.inj_lt. rewrite Z2Nat.id by (apply Z.div_pos; lia).
    Z.div_mod_to_equations. lia.
Qed.

Lemma index_entries_sparse es : index_entries 0 0 es = sparse_index es.
Proof.
  apply list_eq_same_length with (length (sparse_index es)); [done| |].
  { apply Nat2Z.inj. rewrite index_entries_length, sparse_index_length by lia.
    unfold count10. Z.div_mod_to_equations. lia. }
  intros i x y Hi Hx Hy.
  assert (10 * i < length es)%nat as Hlt.
  { apply Nat2Z.inj_lt. apply Nat2Z.inj_lt in Hi. rewrite sparse_index_length in Hi.
    Z.div_mod_to_equations. lia. }
  destruct (lookup_lt_is_Some_2 es (10 * i) Hlt) as [e He].
  rewrite (sparse_index_lookup es i e He) in Hy.
  pose proof (index_entries_lookup es 0 0 (10 * i) e ltac:(lia) He) as Hl.
  replace (Z.to_nat (count10 0 (Z.of_nat (10 * i)))) with i in Hl.
  2:{ unfold count10. Z.div_mod_to_equations. lia. }
  rewrite Hl in Hx by (Z.div_mod_to_equations; lia).
  unfold record_offset in Hy. rewrite Z.add_0_l in Hx. congruence.
Qed.

(** ** Loading the index *)

Lemma load_entries_spec idx : forall f pre suf acc,
  at_pos f pre (concat (map encode_index_entry idx) ++ suf) ->
  Forall (fun x => str_size (fst x) < 2 ^ 32 /\ 0 <= snd x < 2 ^ 64) idx ->
  SS_Table.load_entries (length idx) f acc = Some (acc ++ idx).
Proof.
  induction idx as [|[k o] idx IH]; intros f pre suf acc Hat Hfit.
  - simpl. by rewrite app_nil_r.
  - apply Forall_cons in Hfit as [[Hk Ho] Hfit]. simpl in Hk, Ho.
    cbn [map concat] in Hat. unfold encode_index_entry at 1 in Hat. cbn [fst snd] in Hat.
    rewrite <- !app_assoc in Hat.
    destruct (read_uint_at 4 f pre _ _ Hat) as (f1 & Hr1 & Hat1).
    { pose proof (str_size_nonneg k). simpl. lia. }
    destruct (read_string_at f1 _ _ _ Hat1) as (f2 & Hr2 & Hat2).
    destruct (read_uint_at 8 f2 _ _ _ Hat2) as (f3 & Hr3 & Hat3).
    { simpl. lia. }
    cbn [length SS_Table.load_entries]. rewrite Hr1. cbv beta iota zeta. cbn [mbind option_bind].
    rewrite Hr2. cbv beta iota zeta. rewrite Hr3. cbv beta iota zeta. cbn [mbind option_bind].
    rewrite (IH f3 _ suf _ Hat3 Hfit). by rewrite <- app_assoc.
Qed.

Lemma loadIndex_spec fs tb idx :
  fs_lookup (SS_Table.index_filename tb) fs
    = Some (le_encode 8 (Z.of_nat (length idx)) ++ concat (map encode_index_entry idx)) ->
  Z.of_nat (length idx) < 2 ^ 64 ->
  Forall (fun x => str_size (fst x) < 2 ^ 32 /\ 0 <= snd x < 2 ^ 64) idx ->
  SS_Table.loadIndex fs tb
  = Some (true, SS_Table.mk (SS_Table.index_filename tb) (SS_Table.data_filename tb) idx
                  (SS_Table.indexLoaded tb)).
Proof.
  intros Hfs Hlen Hfit. unfold SS_Table.loadIndex.
  destruct (open_in_at fs _ _ Hfs) as (f & -> & Hat).
  destruct (read_uint_at 8 f [] _ _ Hat) as (f1 & Hr1 & Hat1). { simpl. lia. }
  rewrite Hr1. cbv beta iota zeta. cbn [mbind option_bind]. rewrite Nat2Z.id.
  rewrite <- (app_nil_r (concat _)) in Hat1.
  by rewrite (load_entries_spec idx f1 _ [] [] Hat1 Hfit).
Qed.

(** ** The binary search of [findStartOffset] *)

Section Bsearch.
Context (index : list (string * Z)) (key : string).
Context (Hlen : Z.of_nat (length index) < 2 ^ 63).
Context (Hsorted : forall i j a b, (i < j)%nat -> index !! i = Some a -> index !! j = Some b ->
                     slt (fst a) (fst b)).

Lemma bsearch_spec : forall fuel left right e,
  (left <= right)%nat -> (right < length index)%nat ->
  index !! left = Some e -> ~ slt key (fst e) ->
  (forall j x, (right < j)%nat -> index !! j = Some x -> slt key (fst x)) ->
  (right - left < fuel)%nat ->
  exists l x, SS_Table.bsearch fuel index key (Z.of_nat left) (Z.of_nat right) = Some (Z.of_nat l)
    /\ (left <= l <= right)%nat /\ index !! l = Some x /\ ~ slt key (fst x)
    /\ (forall j y, (l < j)%nat -> index !! j = Some y -> slt key (fst y)).
Proof using Hlen Hsorted.
  induction fuel as [|fuel IH]; intros left right e Hlr Hr He Hle Hgt Hfuel; [lia|].
  cbn [SS_Table.bsearch]. destruct (Z.ltb_spec (Z.of_nat left) (Z.of_nat right)) as [Hlt|Hge].
  - assert (Hmid : wrap64 (Z.of_nat left + wrap64 (wrap64 (wrap64 (Z.of_nat right - Z.of_nat left) + 1) / 2))
                   = Z.of_nat (left + (right - left + 1) / 2)).
    { rewrite (wrap64_small (Z.of_nat right - Z.of_nat left)) by lia.
      rewrite (wrap64_small (_ + 1)) by lia.
      rewrite Nat2Z.inj_add, Nat2Z.inj_div, Nat2Z.inj_add, Nat2Z.inj_sub by lia.
      change (Z.of_nat 1) with 1. change (Z.of_nat 2) with 2.
      rewrite (wrap64_small (_ / 2)) by (Z.div_mod_to_equations; lia).
      rewrite wrap64_small by (Z.div_mod_to_equations; lia). done. }
    rewrite Hmid. set (mid := (left + (right - left + 1) / 2)%nat).
    assert (left < mid <= right)%nat as Hmr.
    { unfold mid. pose proof (Nat.div_mod_eq (right - left + 1) 2).
      pose proof (Nat.mod_upper_bound (right - left + 1) 2). lia. }
    rewrite Nat2Z.id. destruct (lookup_lt_is_Some_2 index mid ltac:(lia)) as [em Hem].
    rewrite Hem. cbn [mbind option_bind].
    destruct (str_le (fst em) key) eqn:E.
    + apply str_le_spec in E.
      destruct (IH mid right em) as (l & x & Hb & Hl & Hx & Hxl & Hxg); try done; try lia.
      exists l, x. split_and!; try done; lia.
    + apply str_le_false in E.
      replace (wrap64 (Z.of_nat mid - 1)) with (Z.of_nat (mid - 1)).
      2:{ rewrite wrap64_small by lia. lia. }
      destruct (IH left (mid - 1)%nat e) as (l & x & Hb & Hl & Hx & Hxl & Hxg); try done; try lia.
      { intros j x Hj Hx. destruct (decide (j = mid)) as [->|Hne].
        - rewrite Hem in Hx. by injection Hx as <-.
        - destruct (decide (j <= right)%nat).
          + eapply slt_trans; [exact E|]. apply (Hsorted mid j); [lia|done..].
          + apply (Hgt j); [lia|done]. }
      exists l, x. split_and!; try done; lia.
  - assert (left = right) as -> by lia.
    exists right, e. split_and!; try done; lia.
Qed.

End Bsearch.

(** ** The scan of [getValue] *)

Lemma scan_spec key : forall rest fuel f pre,
  at_pos f pre (encode_records rest) -> Forall fits32 rest ->
  (scan_steps key rest <= fuel)%nat ->
  SS_Table.scan fuel key f = Some (scan_model key rest).
Proof.
  induction rest as [|e rest IH]; intros fuel f pre Hat Hfit Hfuel.
  - destruct fuel as [|fuel]; [simpl in Hfuel; lia|]. cbn [SS_Table.scan scan_model].
    destruct Hat as (Hc & Hp & He & Hf). rewrite He.
    pose proof (read_uint_eof 4 f pre ltac:(by split_and!) ltac:(lia)) as Heof.
    destruct (read_uint 4 f) as [ks f1]. simpl in Heof. cbv beta iota zeta. by rewrite Heof.
  - apply Forall_cons in Hfit as [He Hfit].
    rewrite encode_records_cons in Hat.
    destruct (read_record_at f pre e _ Hat He) as (f1 & f2 & f3 & f4 & H1 & Hn1 & H2 & H3 & H4 & Hat4).
    destruct fuel as [|fuel]; [simpl in Hfuel; destruct (str_lt key (getKey e)), (str_eq (getKey e) key); lia|].
    cbn [SS_Table.scan scan_model scan_steps] in *.
    destruct Hat as (_ & _ & Hne & _). rewrite Hne, H1. cbv beta iota zeta. rewrite Hn1.
    cbn [mbind option_bind]. rewrite H2. cbv beta iota zeta.
    destruct (str_lt key (getKey e)); [done|].
    rewrite H3. cbv beta iota zeta. cbn [mbind option_bind]. rewrite H4. cbv beta iota zeta.
    destruct (str_eq (getKey e) key).
    { unfold classify. by destruct (str_eq (getValue e) TOMBSTONE). }
    apply (IH fuel f4 _ Hat4 Hfit). lia.
Qed.

(** ** The file system *)

Lemma fs_lookup_remove_eq p fs : fs_lookup p (fs_remove p fs) = None.
Proof.
  induction fs as [|[q c] fs IH]; simpl; [done|].
  destruct (str_eq q p) eqn:E; [done|]. simpl. by rewrite E.
Qed.

Lemma fs_lookup_remove_ne p q fs : p <> q -> fs_lookup q (fs_remove p fs) = fs_lookup q fs.
Proof.
  intros Hne. induction fs as [|[r c] fs IH]; simpl; [done|].
  destruct (str_eq r p) eqn:E; simpl.
  - apply str_eq_spec in E. subst r. by rewrite (proj2 (str_eq_false p q)) by done.
  - by rewrite IH.
Qed.

Lemma fs_lookup_write_eq p c fs : fs_lookup p (fs_write p c fs) = Some c.
Proof. unfold fs_write. simpl. by rewrite str_eq_refl. Qed.

Lemma fs_lookup_write_ne p q c fs : p <> q -> fs_lookup q (fs_write p c fs) = fs_lookup q fs.
Proof.
  intros Hne. unfold fs_write. simpl. rewrite (proj2 (str_eq_false p q)) by done.
  by apply fs_lookup_remove_ne.
Qed.

Lemma append_inj_l (a b c : string) : (a ++ b)%string = (a ++ c)%string -> b = c.
Proof. induction a as [|x a IH]; simpl; [done|]. intros [= H]. by apply IH. Qed.

Lemma index_data_distinct stem : (stem ++ INDEX_EXTENSION)%string <> (stem ++ DATA_EXTENSION)%string.
Proof. intros H%append_inj_l. discriminate H. Qed.

(** ** Reading a data file back *)

Lemma parse_records_encode es : forall fuel,
  Forall fits32 es -> (length es < fuel)%nat ->
  parse_records fuel (encode_records es) = Some es.
Proof.
  induction es as [|e es IH]; intros fuel Hfit Hfuel.
  - destruct fuel; [lia|done].
  - apply Forall_cons in Hfit as [[Hk Hv] Hfit].
    destruct fuel as [|fuel]; [lia|]. simpl length in Hfuel.
    rewrite encode_records_cons. unfold encode_record. rewrite <- !app_assoc.
    set (ks := le_encode 4 (str_size (getKey e))).
    set (vs := le_encode 4 (str_size (getValue e))).
    set (k := list_ascii_of_string (getKey e)).
    set (v := list_ascii_of_string (getValue e)).
    set (rest := encode_records es).
    assert (Hks : length ks = 4%nat) by apply le_encode_length.
    assert (Hvs : length vs = 4%nat) by apply le_encode_length.
    assert (Hkl : length k = Z.to_nat (str_size (getKey e))).
    { unfold k, str_size. by rewrite list_ascii_length, Nat2Z.id. }
    assert (Hvl : length v = Z.to_nat (str_size (getValue e))).
    { unfold v, str_size. by rewrite list_ascii_length, Nat2Z.id. }
    cbn [parse_records].
    destruct (ks ++ k ++ vs ++ v ++ rest) eqn:Heq.
    { apply (f_equal length) in Heq. rewrite length_app in Heq. simpl in Heq. lia. }
    rewrite <- Heq. clear Heq.
    assert (H1 : take 4 (ks ++ k ++ vs ++ v ++ rest) = ks).
    { rewrite <- Hks. apply take_app_length. }
    assert (H2 : drop 4 (ks ++ k ++ vs ++ v ++ rest) = k ++ vs ++ v ++ rest).
    { rewrite <- Hks. apply drop_app_length. }
    assert (Hdk : Z.to_nat (le_decode ks) = length k).
    { unfold ks. rewrite le_decode_encode_4 by (pose proof (str_size_nonneg (getKey e)); lia). done. }
    assert (Hdv : Z.to_nat (le_decode vs) = length v).
    { unfold vs. rewrite le_decode_encode_4 by (pose proof (str_size_nonneg (getValue e)); lia). done. }
    assert (H3 : take 4 (vs ++ v ++ rest) = vs) by (rewrite <- Hvs; apply take_app_length).
    assert (H4 : drop 4 (vs ++ v ++ rest) = v ++ rest) by (rewrite <- Hvs; apply drop_app_length).
    rewrite !H1, !H2, !Hdk, !drop_app_length, !take_app_length, !H3, !H4, !Hdv,
      !drop_app_length, !take_app_length.
    rewrite !length_app.
    replace ((length ks + (length k + (length vs + (length v + length rest))) <? 4)%nat) with false
      by (symmetry; apply Nat.ltb_ge; lia).
    replace ((length k + (length vs + (length v + length rest)) <? length k)%nat) with false
      by (symmetry; apply Nat.ltb_ge; lia).
    replace ((length vs + (length v + length rest) <? 4)%nat) with false
      by (symmetry; apply Nat.ltb_ge; lia).
    replace ((length v + length rest <? length v)%nat) with false
      by (symmetry; apply Nat.ltb_ge; lia).
    cbn [orb]. unfold rest. rewrite IH by (try done; lia). cbn [mbind option_bind].
    unfold k, v. rewrite !string_of_list_ascii_of_string. by destruct e.
Qed.

Lemma encode_records_length_ge es : (length es <= length (encode_records es))%nat.
Proof.
  induction es as [|e es IH]; [done|]. rewrite encode_records_cons, length_app.
  change (length (e :: es)) with (S (length es)).
  pose proof (encode_record_length e). pose proof (str_size_nonneg (getKey e)).
  pose proof (str_size_nonneg (getValue e)). lia.
Qed.

Lemma parse_data_file_encode es :
  Forall fits32 es -> parse_data_file (encode_records es) = Some es.
Proof.
  intros Hfit. unfold parse_data_file. apply parse_records_encode; [done|].
  pose proof (encode_records_length_ge es). lia.
Qed.

(** ** A table written from a memtable *)

Lemma record_offset_le es j :
  record_offset es j <= Z.of_nat (length (encode_records es)).
Proof.
  unfold record_offset. rewrite <- (take_drop j es) at 2.
  rewrite encode_records_app, length_app. lia.
Qed.

Lemma sparse_index_lookup_inv es i x :
  sparse_index es !! i = Some x ->
  exists e, es !! (10 * i)%nat = Some e /\ x = (getKey e, record_offset es (10 * i)).
Proof.
  intros Hx. pose proof (lookup_lt_Some _ _ _ Hx) as Hi.
  apply Nat2Z.inj_lt in Hi. rewrite sparse_index_length in Hi.
  destruct (lookup_lt_is_Some_2 es (10 * i)) as [e He].
  { apply Nat2Z.inj_lt. Z.div_mod_to_equations. lia. }
  exists e. split; [done|]. rewrite (sparse_index_lookup es i e He) in Hx. congruence.
Qed.

Lemma scan_model_hit key : forall rest d e,
  rest !! d = Some e -> getKey e = key ->
  (forall j e', (j < d)%nat -> rest !! j = Some e' -> slt (getKey e') key) ->
  scan_model key rest = classify (Some (getValue e)) /\ scan_steps key rest = S d.
Proof.
  induction rest as [|e0 rest IH]; intros d e Hd Hk Hlt; [done|].
  cbn [scan_model scan_steps]. destruct d as [|d].
  - simpl in Hd. injection Hd as ->. rewrite Hk.
    rewrite (proj2 (str_lt_false _ _) (slt_irrefl key)). by rewrite str_eq_refl.
  - simpl in Hd. pose proof (Hlt O e0 ltac:(lia) eq_refl) as H0.
    rewrite (proj2 (str_lt_false _ _) (slt_asym _ _ H0)).
    rewrite (proj2 (str_eq_false (getKey e0) key)).
    2:{ intros Heq. rewrite Heq in H0. by apply slt_irrefl in H0. }
    destruct (IH d e Hd Hk) as [-> ->]; [|done].
    intros j e' Hj He'. apply (Hlt (S j)); [lia|done].
Qed.

Section TableSpec.
Context (es : list KeyValuePair).
Context (Hasc : ascending es) (Hfit : Forall fits32 es).
Context (Hsize : Z.of_nat (length (encode_records es)) < 2 ^ 63).

Lemma entries_count_small : Z.of_nat (length es) < 2 ^ 63.
Proof using Hsize. pose proof (encode_records_length_ge es). lia. Qed.

Lemma sparse_index_fits :
  Forall (fun x => str_size (fst x) < 2 ^ 32 /\ 0 <= snd x < 2 ^ 64) (sparse_index es).
Proof using Hfit Hsize.
  apply Forall_forall. intros x [i Hx]%list_elem_of_lookup.
  apply sparse_index_lookup_inv in Hx as (e & He & ->). cbn [fst snd].
  pose proof (proj1 (Forall_forall _ _) Hfit e (list_elem_of_lookup_2 _ _ _ He)) as [Hk _].
  pose proof (record_offset_le es (10 * i)%nat). unfold record_offset in *. split; [done|lia].
Qed.

Lemma sparse_index_sorted i j a b :
  (i < j)%nat -> sparse_index es !! i = Some a -> sparse_index es !! j = Some b ->
  slt (fst a) (fst b).
Proof using Hasc.
  intros Hij (ea & Hea & ->)%sparse_index_lookup_inv (eb & Heb & ->)%sparse_index_lookup_inv.
  cbn [fst snd]. apply (Hasc (10 * i)%nat (10 * j)%nat); [lia|done..].
Qed.

(** The files that [createFromMemTable] leaves behind. *)
Lemma createFromMemTable_spec stem mt sv fs :
  Rep (MemTable.list_ mt) sv es ->
  exists fs1,
    SS_Table.createFromMemTable (true, true) stem mt fs = Some (true, fs1)
    /\ fs_lookup (stem ++ DATA_EXTENSION) fs1 = Some (encode_records es)
    /\ fs_lookup (stem ++ INDEX_EXTENSION) fs1
       = Some (le_encode 8 (Z.of_nat (length (sparse_index es)))
               ++ concat (map encode_index_entry (sparse_index es)))
    /\ (forall p, p <> (stem ++ DATA_EXTENSION)%string -> p <> (stem ++ INDEX_EXTENSION)%string ->
          fs_lookup p fs1 = fs_lookup p fs).
Proof using Hfit Hsize.
  intros HR. unfold SS_Table.createFromMemTable. cbn [fst snd negb orb].
  rewrite (to_vector_spec _ sv es HR). cbn [mbind option_bind].
  pose proof entries_count_small as Hcnt.
  rewrite write_entries_spec by (try done; lia).
  rewrite index_entries_sparse. rewrite !app_nil_l.
  assert (Hc : wrap64 (wrap64 (wrap64 (Z.of_nat (length es)) + SS_Table.KEYS_PER_INDEX_ENTRY) - 1)
                / SS_Table.KEYS_PER_INDEX_ENTRY = Z.of_nat (length (sparse_index es))).
  { unfold SS_Table.KEYS_PER_INDEX_ENTRY. rewrite sparse_index_length.
    rewrite (wrap64_small (Z.of_nat (length es))) by lia.
    rewrite (wrap64_small (_ + 10)) by lia. rewrite wrap64_small by lia.
    f_equal. lia. }
  rewrite Hc. eexists. split; [done|]. split_and!.
  - apply fs_lookup_write_eq.
  - rewrite fs_lookup_write_ne by (apply not_eq_sym, index_data_distinct).
    apply fs_lookup_write_eq.
  - intros p Hp1 Hp2. rewrite !fs_lookup_write_ne by done. done.
Qed.

(** Opening the table loads exactly the sparse index. *)
Lemma open_spec stem fs1 :
  fs_lookup (stem ++ INDEX_EXTENSION) fs1
    = Some (le_encode 8 (Z.of_nat (length (sparse_index es)))
            ++ concat (map encode_index_entry (sparse_index es))) ->
  SS_Table.open fs1 stem
  = Some (SS_Table.mk (stem ++ INDEX_EXTENSION) (stem ++ DATA_EXTENSION) (sparse_index es) true).
Proof using Hfit Hsize.
  intros Hfs. unfold SS_Table.open, SS_Table.open_files.
  rewrite (loadIndex_spec fs1 _ (sparse_index es)); [done|exact Hfs| |apply sparse_index_fits].
  rewrite sparse_index_length. pose proof entries_count_small. Z.div_mod_to_equations. lia.
Qed.

(** For a stored key the binary search selects the index entry of its
    block of ten records. *)
Lemma findStartOffset_spec p e :
  es !! p = Some e ->
  SS_Table.findStartOffset (sparse_index es) (getKey e)
  = Some (Some (record_offset es (10 * (p / 10)))).
Proof using Hasc Hsize.
  intros He. pose proof (lookup_lt_Some _ _ _ He) as Hp.
  destruct (lookup_lt_is_Some_2 es O ltac:(lia)) as [e0 He0].
  pose proof (sparse_index_lookup es O e0 He0) as H0. change (10 * 0)%nat with O in H0.
  unfold SS_Table.findStartOffset.
  destruct (sparse_index es) as [|x0 idx] eqn:Hidx; [done|]. rewrite <- Hidx.
  simpl in H0. injection H0 as ->. cbn [fst snd].
  assert (Hle0 : ~ slt (getKey e) (getKey e0)).
  { destruct p as [|p]; [rewrite He0 in He; injection He as ->; apply slt_irrefl|].
    apply slt_asym. apply (Hasc O (S p)); [lia|done..]. }
  rewrite (proj2 (str_lt_false _ _) Hle0).
  assert (Hn : (0 < length (sparse_index es))%nat) by (rewrite Hidx; simpl; lia).
  assert (Hnz : Z.of_nat (length (sparse_index es)) < 2 ^ 63).
  { rewrite sparse_index_length. pose proof entries_count_small. Z.div_mod_to_equations. lia. }
  replace (wrap64 (Z.of_nat (length (sparse_index es)) - 1))
    with (Z.of_nat (length (sparse_index es) - 1)) by (rewrite wrap64_small; lia).
  destruct (bsearch_spec (sparse_index es) (getKey e) Hnz sparse_index_sorted
              (length (sparse_index es)) O (length (sparse_index es) - 1) (getKey e0, record_offset es 0))
    as (l & x & Hb & Hl & Hx & Hxle & Hxgt); try lia.
  { by rewrite Hidx. }
  { done. }
  { intros j y Hj Hy. apply lookup_lt_Some in Hy. lia. }
  change (Z.of_nat 0) with 0 in Hb. rewrite Hb. cbn [mbind option_bind]. rewrite Nat2Z.id, Hx.
  cbn [mbind option_bind]. do 2 f_equal.
  apply sparse_index_lookup_inv in Hx as (el & Hel & ->). cbn [fst snd] in *.
  assert (l = p / 10)%nat as ->; [|done].
  pose proof (Nat.div_mod_eq p 10) as Hdm. pose proof (Nat.mod_upper_bound p 10 ltac:(lia)) as Hmb.
  destruct (Nat.lt_trichotomy l (p / 10)) as [Hc|[Hc|Hc]]; [|done|].
  - exfalso. destruct (lookup_lt_is_Some_2 es (10 * (p / 10))%nat) as [eb Heb]; [lia|].
    pose proof (Hxgt (p / 10)%nat _ Hc (sparse_index_lookup es _ eb Heb)) as Hs. simpl in Hs.
    destruct (decide (10 * (p / 10) = p)%nat) as [Heq|Hne].
    + rewrite Heq in Heb. rewrite He in Heb. injection Heb as <-. by apply slt_irrefl in Hs.
    + apply (slt_asym _ _ Hs). apply (Hasc (10 * (p / 10))%nat p); [lia|done..].
  - exfalso. apply Hxle. apply (Hasc p (10 * l)%nat); [lia|done..].
Qed.

(** From that entry the scan meets the key within ten records. *)
Lemma scan_block_spec p e f :
  es !! p = Some e -> content f = encode_records es -> failbit f = false ->
  forall fuel, (10 <= fuel)%nat ->
  SS_Table.scan fuel (getKey e) (seekg (record_offset es (10 * (p / 10))) f)
  = Some (classify (Some (getValue e))).
Proof using Hasc Hfit.
  intros He Hc Hf fuel Hfuel.
  pose proof (Nat.div_mod_eq p 10) as Hdm. pose proof (Nat.mod_upper_bound p 10 ltac:(lia)) as Hmb.
  set (j0 := (10 * (p / 10))%nat) in *.
  assert (Hat : at_pos (seekg (record_offset es j0) f) (encode_records (take j0 es))
                  (encode_records (drop j0 es))).
  { unfold record_offset. apply seekg_at; [|done].
    by rewrite Hc, <- encode_records_app, take_drop. }
  destruct (scan_model_hit (getKey e) (drop j0 es) (p - j0)%nat e) as [Hm Hs].
  { rewrite lookup_drop. rewrite <- He. f_equal. lia. }
  { done. }
  { intros j e' Hj He'. rewrite lookup_drop in He'. apply (Hasc (j0 + j)%nat p); [lia|done..]. }
  rewrite <- Hm. apply (scan_spec (getKey e) (drop j0 es) fuel _ _ Hat).
  - apply Forall_drop. done.
  - rewrite Hs. lia.
Qed.

Lemma getValue_stored_spec stem fs1 p e :
  es !! p = Some e ->
  fs_lookup (stem ++ DATA_EXTENSION) fs1 = Some (encode_records es) ->
  SS_Table.getValue fs1
    (SS_Table.mk (stem ++ INDEX_EXTENSION) (stem ++ DATA_EXTENSION) (sparse_index es) true)
    (getKey e)
  = Some (classify (Some (getValue e))).
Proof using Hasc Hfit Hsize.
  intros He Hfs. unfold SS_Table.getValue. cbn [SS_Table.indexLoaded SS_Table.index
    SS_Table.data_filename negb].
  rewrite (findStartOffset_spec p e He). cbn [mbind option_bind].
  unfold open_in. rewrite Hfs. cbn [mbind option_bind content].
  apply scan_block_spec; [done|done|done|].
  pose proof (lookup_lt_Some _ _ _ He). pose proof (encode_records_length_ge es).
  pose proof (encode_record_length e).
  assert (8 <= length (encode_records es))%nat; [|lia].
  rewrite <- (take_drop_middle es p e He), encode_records_app, encode_records_cons, !length_app.
  pose proof (str_size_nonneg (getKey e)). pose proof (str_size_nonneg (getValue e)). lia.
Qed.

End TableSpec.

(** The data file alone only needs the sizes to fit their fields. *)
Lemma write_entries_data es : forall i idx dat off,
  Forall fits32 es ->
  snd (SS_Table.write_entries i es idx dat off) = dat ++ encode_records es.
Proof.
  induction es as [|e es IH]; intros i idx dat off Hfit.
  - simpl. by rewrite app_nil_r.
  - apply Forall_cons in Hfit as [[Hk Hv] Hfit].
    cbn [SS_Table.write_entries].
    pose proof (str_size_nonneg (getKey e)). pose proof (str_size_nonneg (getValue e)).
    rewrite !wrap32_small by lia. rewrite !chars_full. rewrite IH by done.
    rewrite encode_records_cons. unfold encode_record. by rewrite <- !app_assoc.
Qed.

Lemma createFromMemTable_data stem mt sv es fs :
  Rep (MemTable.list_ mt) sv es -> Forall fits32 es ->
  exists fs1,
    SS_Table.createFromMemTable (true, true) stem mt fs = Some (true, fs1)
    /\ fs_lookup (stem ++ DATA_EXTENSION) fs1 = Some (encode_records es).
Proof.
  intros HR Hfit. unfold SS_Table.createFromMemTable. cbn [fst snd negb orb].
  rewrite (to_vector_spec _ sv es HR). cbn [mbind option_bind].
  pose proof (write_entries_data es 0
    (le_encode 8
       (wrap64 (wrap64 (wrap64 (Z.of_nat (length es)) + SS_Table.KEYS_PER_INDEX_ENTRY) - 1)
        / SS_Table.KEYS_PER_INDEX_ENTRY)) [] 0 Hfit) as Hd.
  destruct (SS_Table.write_entries _ _ _ _ _) as [indexFile dataFile]. simpl in Hd. subst dataFile.
  eexists. split; [done|]. apply fs_lookup_write_eq.
Qed.

Lemma kv_upsert_fits key value es :
  fits32 (mkKV key value) -> Forall fits32 es -> Forall fits32 (kv_upsert key value es).
Proof.
  intros Hkv. induction es as [|e es IH]; intros Hes; simpl.
  - by apply Forall_singleton.
  - apply Forall_cons in Hes as [He Hes].
    destruct (str_lt key (getKey e)).
    { apply Forall_cons. split; [done|]. apply Forall_cons. by split. }
    destruct (str_eq (getKey e) key).
    + apply Forall_cons. split; [|done]. destruct Hkv as [_ Hv], He as [Hk _]. by split.
    + apply Forall_cons. split; [done|by apply IH].
Qed.

Lemma model_puts_fits ops : forall sv es,
  Forall (fun o => fits32 (mkKV (snd (fst o)) (snd o))) ops -> Forall fits32 es ->
  Forall fits32 (snd (model_puts ops (sv, es))).
Proof.
  induction ops as [|[[coins k] v] ops IH]; intros sv es Hops Hes; simpl; [done|].
  apply Forall_cons in Hops as [Ho Hops]. simpl in Ho.
  destruct (str_eq k ""); apply IH; try done. by apply kv_upsert_fits.
Qed.

(** ** Order of the entries, in memory and on disk *)

(** C7. After any run of puts the iteration over the base level yields
    strictly ascending keys, and the data file that [createFromMemTable]
    writes holds exactly these entries as its records: strictly
    ascending keys, hence at most one record per key. *)
Theorem C7_strictly_ascending `{StdStringImpl} (ops : list (list bool * string * string))
    (stem : string) (fs : filesystem) :
  Forall (fun o => fits32 (mkKV (snd (fst o)) (snd o))) ops ->
  exists s es fs1 data,
    put_all ops SkipList.create = Some s
    /\ SkipList.to_vector s = Some es /\ ascending es
    /\ SS_Table.createFromMemTable (true, true) stem (MemTable.mk s) fs = Some (true, fs1)
    /\ fs_lookup (stem ++ DATA_EXTENSION) fs1 = Some data
    /\ parse_data_file data = Some es.
Proof.
  intros Hops. destruct (put_all_Rep ops _ _ _ create_Rep) as (s & Hs & HR).
  set (es := snd (model_puts ops (""%string, []))) in *.
  assert (Hfit : Forall fits32 es) by (apply model_puts_fits; [done|constructor]).
  destruct (createFromMemTable_data stem (MemTable.mk s) _ es fs HR Hfit) as (fs1 & Hc & Hd).
  exists s, es, fs1, (encode_records es). split_and!; try done.
  - by eapply to_vector_spec.
  - by eapply Rep_ascending.
  - by apply parse_data_file_encode.
Qed.

Lemma C7_strictly_ascending_witness :
  exists s es fs1 data,
    put_all (H := libstdcxx)
      [([true], "b", "2"); ([], "a", "1"); ([true; true], "c", "3"); ([], "b", "4")]%string
      SkipList.create = Some s
    /\ SkipList.to_vector s = Some es /\ ascending es
    /\ SS_Table.createFromMemTable (true, true) "data/sstable_1" (MemTable.mk s) [] = Some (true, fs1)
    /\ fs_lookup ("data/sstable_1" ++ DATA_EXTENSION) fs1 = Some data
    /\ parse_data_file data = Some es.
Proof.
  apply (C7_strictly_ascending (H := libstdcxx)).
  repeat constructor; simpl; unfold str_size; simpl; lia.
Defined.

(** ** The sparse index *)

(** C5. A table written from a memtable with R records has an index
    of ceil(R/10) entries, one for each of the records 0, 10, 20, ...,
    holding that record's key and byte offset.  For every stored key the
    index entries whose key does not exceed it are exactly those up to
    the entry of its block of ten; [findStartOffset] returns the offset
    of that entry; from there a scan of at most ten records meets the key
    and answers with its value, or with Deleted when the value is the
    tombstone; and so does [getValue]. *)
Theorem C5_sparse_index_coverage (mt : MemTable.t) (sv : string) (es : list KeyValuePair)
    (stem : string) (fs : filesystem) :
  Rep (MemTable.list_ mt) sv es -> Forall fits32 es ->
  Z.of_nat (length (encode_records es)) < 2 ^ 63 ->
  exists fs1 tb data,
    SS_Table.createFromMemTable (true, true) stem mt fs = Some (true, fs1)
    /\ SS_Table.open fs1 stem = Some tb /\ SS_Table.indexLoaded tb = true
    /\ fs_lookup (SS_Table.data_filename tb) fs1 = Some data
    /\ parse_data_file data = Some es
    /\ Z.of_nat (length (SS_Table.index tb)) = (Z.of_nat (length es) + 9) / 10
    /\ (forall i e, es !! (10 * i)%nat = Some e ->
          SS_Table.index tb !! i = Some (getKey e, record_offset es (10 * i)))
    /\ (forall p e, es !! p = Some e ->
          (forall i x, SS_Table.index tb !! i = Some x ->
             (~ slt (getKey e) (fst x) <-> (i <= p / 10)%nat))
          /\ SS_Table.findStartOffset (SS_Table.index tb) (getKey e)
             = Some (Some (record_offset es (10 * (p / 10))))
          /\ (forall f, open_in fs1 (SS_Table.data_filename tb) = Some f ->
                SS_Table.scan 10 (getKey e) (seekg (record_offset es (10 * (p / 10))) f)
                = Some (classify (Some (getValue e))))
          /\ SS_Table.getValue fs1 tb (getKey e) = Some (classify (Some (getValue e)))).
Proof.
  intros HR Hfit Hsize. pose proof (Rep_ascending _ _ _ HR) as Hasc.
  destruct (createFromMemTable_spec es Hfit Hsize stem mt sv fs HR) as (fs1 & Hc & Hd & Hi & _).
  exists fs1, (SS_Table.mk (stem ++ INDEX_EXTENSION) (stem ++ DATA_EXTENSION) (sparse_index es) true),
    (encode_records es).
  split_and!; try done.
  - by apply open_spec.
  - by apply parse_data_file_encode.
  - apply sparse_index_length.
  - intros i e He. by apply sparse_index_lookup.
  - intros p e He. cbn [SS_Table.index SS_Table.data_filename]. split_and!.
    + intros i x (ei & Hei & ->)%sparse_index_lookup_inv. cbn [fst].
      pose proof (Nat.div_mod_eq p 10) as Hdm.
      pose proof (Nat.mod_upper_bound p 10 ltac:(lia)) as Hmb. split.
      * intros Hle. destruct (decide (i <= p / 10)%nat) as [|Hgt]; [done|].
        exfalso. apply Hle. apply (Hasc p (10 * i)%nat); [lia|done..].
      * intros Hi' Hlt. destruct (decide (10 * i = p)%nat) as [Heq|Hne].
        -- rewrite Heq in Hei. rewrite He in Hei. injection Hei as <-. by apply slt_irrefl in Hlt.
        -- apply (slt_asym _ _ Hlt). apply (Hasc (10 * i)%nat p); [lia|done..].
    + by apply findStartOffset_spec.
    + intros f Hf. unfold open_in in Hf. rewrite Hd in Hf. simpl in Hf. injection Hf as <-.
      by apply scan_block_spec.
    + by eapply getValue_stored_spec.
Qed.


Lemma C5_sparse_index_coverage_witness :
  exists s fs1 tb,
    put_all (H := libstdcxx) sample_puts SkipList.create = Some s
    /\ SS_Table.createFromMemTable (true, true) "data/sstable_1" (MemTable.mk s) [] = Some (true, fs1)
    /\ SS_Table.open fs1 "data/sstable_1" = Some tb
    /\ Z.of_nat (length (SS_Table.index tb)) = 2
    /\ SS_Table.findStartOffset (SS_Table.index tb) "k11" = Some (Some 140)
    /\ SS_Table.getValue fs1 tb "k11" = Some (true, "v11"%string)
    /\ SS_Table.getValue fs1 tb "k10" = Some (false, TOMBSTONE).
Proof.
  destruct (put_all_Rep (H := libstdcxx) sample_puts _ _ _ create_Rep) as (s & Hs & HR).
  destruct (C5_sparse_index_coverage (MemTable.mk s) _ _ "data/sstable_1" [] HR)
    as (fs1 & tb & data & Hc & Ho & _ & _ & _ & Hlen & _ & Hget).
  - repeat constructor; vm_compute; reflexivity.
  - vm_compute. reflexivity.
  - exists s, fs1, tb.
    assert (H11 : snd (model_puts sample_puts (""%string, [])) !! 11%nat = Some (mkKV "k11" "v11"))
      by (vm_compute; reflexivity).
    assert (H10 : snd (model_puts sample_puts (""%string, [])) !! 10%nat = Some (mkKV "k10" TOMBSTONE))
      by (vm_compute; reflexivity).
    destruct (Hget _ _ H11) as (_ & Hf & _ & Hg11).
    destruct (Hget _ _ H10) as (_ & _ & _ & Hg10).
    split; [exact Hs|]. split; [exact Hc|]. split; [exact Ho|].
    split; [rewrite Hlen; vm_compute; reflexivity|].
    split; [etrans; [apply Hf|vm_compute; reflexivity]|].
    split; (etrans; [eassumption|vm_compute; reflexivity]).
Defined.

(** * Part VIII: compaction and startup *)

(** ** Ascending lists, by head and tail *)

Lemma ascending_nil : ascending [].
Proof. intros i j a b _ H. done. Qed.

Lemma ascending_cons e es :
  ascending (e :: es) <-> Forall (fun e' => slt (getKey e) (getKey e')) es /\ ascending es.
Proof.
  split.
  - intros Hasc. split.
    + apply Forall_forall. intros e' [j Hj]%list_elem_of_lookup.
      apply (Hasc O (S j)); [lia|done..].
    + intros i j a b Hij Ha Hb. apply (Hasc (S i) (S j)); [lia|done..].
  - intros [Hhd Htl] i j a b Hij Ha Hb. destruct j as [|j]; [lia|]. simpl in Hb.
    destruct i as [|i]; simpl in Ha.
    + injection Ha as <-. apply (proj1 (Forall_forall _ _) Hhd).
      by eapply list_elem_of_lookup_2.
    + apply (Htl i j); [lia|done..].
Qed.

Lemma ascending_snoc es e :
  ascending es -> Forall (fun e' => slt (getKey e') (getKey e)) es -> ascending (es ++ [e]).
Proof.
  induction es as [|a es IH]; intros Hasc Hlt.
  - apply ascending_cons. split; [constructor|apply ascending_nil].
  - apply ascending_cons in Hasc as [Hhd Htl]. apply Forall_cons in Hlt as [Ha Hlt].
    change ((a :: es) ++ [e]) with (a :: (es ++ [e])). apply ascending_cons. split.
    + apply Forall_app. split; [done|]. by apply Forall_singleton.
    + by apply IH.
Qed.

Lemma kv_upsert_keys key value es e :
  e ∈ kv_upsert key value es -> getKey e = key \/ exists e', e' ∈ es /\ getKey e = getKey e'.
Proof.
  induction es as [|a es IH]; simpl.
  - intros ->%list_elem_of_singleton. by left.
  - destruct (str_lt key (getKey a)).
    { intros [Heq|He]%elem_of_cons; [left; by subst e|]. right. by exists e. }
    destruct (str_eq (getKey a) key) eqn:E.
    + intros [Heq|He]%elem_of_cons.
      * right. exists a. split; [left|]. subst e. by destruct a.
      * right. exists e. split; [by right|done].
    + intros [Heq|He]%elem_of_cons.
      * right. exists e. split; [subst e; left|done].
      * destruct (IH He) as [?|(e' & He' & Hk)]; [by left|].
        right. exists e'. split; [by right|done].
Qed.

Lemma kv_upsert_ascending key value es : ascending es -> ascending (kv_upsert key value es).
Proof.
  induction es as [|a es IH]; intros Hasc; simpl.
  - apply ascending_cons. split; [constructor|apply ascending_nil].
  - pose proof Hasc as [Hhd Htl]%ascending_cons.
    destruct (str_lt key (getKey a)) eqn:E.
    { apply str_lt_spec in E. apply ascending_cons. split; [|done].
      apply Forall_cons. split; [done|].
      eapply Forall_impl; [exact Hhd|]. intros x Hx. simpl. by eapply slt_trans. }
    destruct (str_eq (getKey a) key) eqn:E'.
    + apply ascending_cons. split; [|done]. by destruct a.
    + apply ascending_cons. split; [|by apply IH].
      apply Forall_forall. intros e [Hk|(e' & He' & Hk)]%kv_upsert_keys.
      * rewrite Hk. apply str_lt_false in E. apply str_eq_false in E'.
        destruct (slt_trichotomy (getKey a) key) as [?|[?|?]]; done.
      * rewrite Hk. by apply (proj1 (Forall_forall _ _) Hhd).
Qed.

(** ** The merge map as a list of entries *)

Lemma map_find_kv key m : map_find key m = kv_find key (map kv_of m).
Proof.
  induction m as [|[k v] m IH]; simpl; [done|]. by destruct (str_eq k key).
Qed.

Lemma map_assign_kv key value m :
  map kv_of (map_assign key value m) = kv_upsert key value (map kv_of m).
Proof.
  induction m as [|[k v] m IH]; simpl; [done|].
  destruct (str_lt key k); [done|]. destruct (str_eq k key); [done|]. simpl. by rewrite IH.
Qed.

Lemma kv_find_app key es1 es2 :
  kv_find key (es1 ++ es2)
  = match kv_find key es1 with Some v => Some v | None => kv_find key es2 end.
Proof.
  induction es1 as [|e es1 IH]; simpl; [done|]. by destruct (str_eq (getKey e) key).
Qed.

Lemma encode_records_upsert_new key value es :
  kv_find key es = None ->
  length (encode_records (kv_upsert key value es))
  = (length (encode_records es) + length (encode_record (mkKV key value)))%nat.
Proof.
  induction es as [|e es IH]; cbn [kv_upsert kv_find]; intros Hf.
  - rewrite encode_records_cons, length_app. change (encode_records []) with (@nil ascii).
    cbn [length]. lia.
  - destruct (str_eq (getKey e) key) eqn:E; [done|].
    destruct (str_lt key (getKey e)).
    + rewrite !encode_records_cons, !length_app. lia.
    + rewrite !encode_records_cons, !length_app, IH by done. lia.
Qed.

(** ** What the merge loop computes *)

(** After the records [recs] have gone through the loop, the map is in
    key order, holds for each key the value of its first record, and is
    no larger than the records read. *)
Lemma merged_spec recs :
  Forall fits32 recs -> Forall (fun e => getKey e <> ""%string) recs ->
  ascending (map kv_of (fold_left add_first recs []))
  /\ (forall k, kv_find k (map kv_of (fold_left add_first recs [])) = kv_find k recs)
  /\ Forall fits32 (map kv_of (fold_left add_first recs []))
  /\ Forall (fun e => getKey e <> ""%string) (map kv_of (fold_left add_first recs []))
  /\ (length (encode_records (map kv_of (fold_left add_first recs [])))
      <= length (encode_records recs))%nat.
Proof.
  induction recs as [|e recs IH] using rev_ind; intros Hfit Hne.
  - cbn [fold_left map]. split_and!; done.
  - apply Forall_app in Hfit as [Hfit He]. apply Forall_inv in He.
    apply Forall_app in Hne as [Hne Hk]. apply Forall_inv in Hk.
    destruct (IH Hfit Hne) as (Hasc & Hfind & HfitM & HneM & Hsz).
    rewrite fold_left_app. cbn [fold_left]. set (m := fold_left add_first recs []) in *.
    unfold add_first. rewrite map_find_kv, (Hfind (getKey e)).
    destruct (kv_find (getKey e) recs) eqn:Ef.
    + split_and!; try done.
      * intros k. rewrite kv_find_app, Hfind. destruct (kv_find k recs) eqn:E; [done|].
        cbn [kv_find]. destruct (str_eq (getKey e) k) eqn:E2; [|done].
        apply str_eq_spec in E2. congruence.
      * rewrite encode_records_app, length_app. lia.
    + rewrite map_assign_kv. split_and!.
      * by apply kv_upsert_ascending.
      * intros k. rewrite kv_find_app. cbn [kv_find].
        destruct (str_eq (getKey e) k) eqn:E2.
        -- apply str_eq_spec in E2. subst k. by rewrite kv_find_upsert_eq, Ef.
        -- apply str_eq_false in E2. rewrite kv_find_upsert_ne by done.
           rewrite Hfind. by destruct (kv_find k recs).
      * apply kv_upsert_fits; [destruct e; exact He|done].
      * apply Forall_forall. intros x [Hx|(e' & He' & Hx)]%kv_upsert_keys; rewrite Hx; [done|].
        by apply (proj1 (Forall_forall _ _) HneM).
      * rewrite encode_records_upsert_new by (by rewrite Hfind).
        rewrite encode_records_app, length_app, encode_records_cons, length_app.
        change (encode_records []) with (@nil ascii). cbn [length]. destruct e as [k0 v0].
        cbn [getKey getValue kv_key kv_value]. lia.
Qed.

(** The records that pass the tombstone filter. *)
Lemma live_cons x m :
  live (x :: m) = if str_eq (snd x) TOMBSTONE then live m else kv_of x :: live m.
Proof. unfold live. cbn [List.filter]. by destruct (str_eq (snd x) TOMBSTONE). Qed.

Lemma live_elem e m : e ∈ live m -> e ∈ map kv_of m /\ getValue e <> TOMBSTONE.
Proof.
  induction m as [|x m IH]; [by intros ?%elem_of_nil|]. rewrite live_cons.
  destruct (str_eq (snd x) TOMBSTONE) eqn:E.
  - intros [H1 H2]%IH. split; [by right|done].
  - intros [->|[H1 H2]%IH]%elem_of_cons.
    + split; [left|]. by apply str_eq_false in E.
    + split; [by right|done].
Qed.

Lemma live_Forall (P : KeyValuePair -> Prop) m : Forall P (map kv_of m) -> Forall P (live m).
Proof.
  intros H. apply Forall_forall. intros e [He _]%live_elem.
  by apply (proj1 (Forall_forall _ _) H).
Qed.

Lemma live_ascending m : ascending (map kv_of m) -> ascending (live m).
Proof.
  induction m as [|x m IH]; intros Hasc; [apply ascending_nil|].
  change (map kv_of (x :: m)) with (kv_of x :: map kv_of m) in Hasc.
  apply ascending_cons in Hasc as [Hhd Htl]. rewrite live_cons.
  destruct (str_eq (snd x) TOMBSTONE); [by apply IH|].
  apply ascending_cons. split; [by apply live_Forall|by apply IH].
Qed.

Lemma live_find k m :
  ascending (map kv_of m) ->
  kv_find k (live m)
  = match kv_find k (map kv_of m) with
    | Some v => if str_eq v TOMBSTONE then None else Some v
    | None => None
    end.
Proof.
  induction m as [|x m IH]; intros Hasc; [done|].
  change (map kv_of (x :: m)) with (kv_of x :: map kv_of m) in *.
  apply ascending_cons in Hasc as [Hhd Htl]. rewrite live_cons. cbn [kv_find].
  destruct (str_eq (getKey (kv_of x)) k) eqn:Ek.
  - apply str_eq_spec in Ek. change (getValue (kv_of x)) with (snd x).
    destruct (str_eq (snd x) TOMBSTONE) eqn:E.
    + apply kv_find_None. intros e [He _]%live_elem Hk.
      pose proof (proj1 (Forall_forall _ _) Hhd e He) as Hlt. rewrite Ek, Hk in Hlt.
      by apply slt_irrefl in Hlt.
    + cbn [kv_find]. by rewrite (proj2 (str_eq_spec _ _) Ek).
  - destruct (str_eq (snd x) TOMBSTONE); [by apply IH|].
    cbn [kv_find]. rewrite Ek. by apply IH.
Qed.

Lemma live_length m :
  (length (encode_records (live m)) <= length (encode_records (map kv_of m)))%nat.
Proof.
  induction m as [|x m IH]; [done|]. rewrite live_cons.
  change (map kv_of (x :: m)) with (kv_of x :: map kv_of m).
  destruct (str_eq (snd x) TOMBSTONE); rewrite !encode_records_cons, !length_app; lia.
Qed.

(** ** The loops of [perform_compaction] *)

Lemma merge_records_spec recs : forall fuel f pre m,
  at_pos f pre (encode_records recs) -> Forall fits32 recs -> (length recs < fuel)%nat ->
  LSMTree.merge_records fuel f m = Some (fold_left add_first recs m).
Proof.
  induction recs as [|e recs IH]; intros fuel f pre m Hat Hfit Hfuel.
  - destruct fuel as [|fuel]; [simpl in Hfuel; lia|]. cbn [LSMTree.merge_records fold_left].
    pose proof Hat as (_ & _ & He & _). rewrite He.
    pose proof (read_uint_eof 4 f pre Hat ltac:(lia)) as Heof.
    destruct (read_uint 4 f) as [key_size f1]. cbn [snd] in Heof. by rewrite Heof.
  - apply Forall_cons in Hfit as [He Hfit].
    destruct fuel as [|fuel]; [simpl in Hfuel; lia|]. cbn [length] in Hfuel.
    rewrite encode_records_cons in Hat.
    destruct (read_record_at f pre e _ Hat He) as (f1 & f2 & f3 & f4 & H1 & He1 & H2 & H3 & H4 & Hat4).
    cbn [LSMTree.merge_records fold_left].
    pose proof Hat as (_ & _ & Hef & _). rewrite Hef, H1, He1. cbn [mbind option_bind].
    rewrite H2, H3. cbn [mbind option_bind]. rewrite H4.
    apply (IH fuel f4 (pre ++ encode_record e)); [done|done|lia].
Qed.

Lemma merge_tables_spec fs batch : forall m,
  (forall tb c, tb ∈ batch -> fs_lookup (SS_Table.getDataFilename tb) fs = Some c -> wf_data_file c) ->
  LSMTree.merge_tables fs batch m = Some (fold_left add_first (batch_records fs batch) m).
Proof.
  induction batch as [|tb batch IH]; intros m Hwf; [done|].
  cbn [LSMTree.merge_tables batch_records flat_map]. rewrite fold_left_app.
  assert (Hrest : forall tb' c, tb' ∈ batch ->
    fs_lookup (SS_Table.getDataFilename tb') fs = Some c -> wf_data_file c).
  { intros tb' c Hin. apply Hwf. by right. }
  unfold open_in. destruct (fs_lookup (SS_Table.getDataFilename tb) fs) as [c|] eqn:Hc.
  - destruct (Hwf tb c ltac:(left) Hc) as (recs & -> & Hfit & _).
    cbn [mbind option_bind content]. rewrite parse_data_file_encode by done. cbn [default].
    rewrite (merge_records_spec recs _ _ [] m).
    + cbn [mbind option_bind]. by apply IH.
    + by split_and!.
    + done.
    + pose proof (encode_records_length_ge recs). lia.
  - cbn [mbind option_bind fold_left]. by apply IH.
Qed.

Section PutMerged.
Context `{StdStringImpl}.

Lemma put_merged_spec merged : forall coins mm sv es,
  Rep (MemTable.list_ mm) sv es ->
  ascending (map kv_of merged) ->
  Forall (fun e => getKey e <> ""%string) (map kv_of merged) ->
  (forall e x, e ∈ es -> x ∈ map kv_of merged -> slt (getKey e) (getKey x)) ->
  exists mm', LSMTree.put_merged coins merged mm = Some mm'
    /\ Rep (MemTable.list_ mm') sv (es ++ live merged).
Proof.
  induction merged as [|x merged IH]; intros coins mm sv es HR Hasc Hne Hlt.
  - exists mm. split; [done|]. unfold live. cbn [List.filter map]. by rewrite app_nil_r.
  - change (map kv_of (x :: merged)) with (kv_of x :: map kv_of merged) in *.
    apply ascending_cons in Hasc as [Hhd Htl]. apply Forall_cons in Hne as [Hk Hne].
    cbn [LSMTree.put_merged]. rewrite live_cons.
    destruct (str_eq (snd x) TOMBSTONE); cbn [negb].
    + apply IH; try done. intros e y He Hy. apply Hlt; [done|by right].
    + destruct (put_spec (hd [] coins) (fst x) (snd x) _ sv es HR) as (l & Hl & HR' & _).
      unfold MemTable.put. rewrite Hl. cbn [mbind option_bind].
      rewrite (proj2 (str_eq_false (fst x) "")) in HR' by exact Hk.
      rewrite (kv_upsert_insert _ _ es (length es)) in HR'.
      * unfold ins in HR'. rewrite take_ge, drop_ge in HR' by lia.
        destruct (IH (tl coins) (MemTable.mk l) sv (es ++ [kv_of x])) as (mm' & Hmm & HR''); try done.
        { intros e y [He|He]%elem_of_app Hy.
          - apply Hlt; [done|by right].
          - apply list_elem_of_singleton in He. subst e.
            by apply (proj1 (Forall_forall _ _) Hhd). }
        exists mm'. split; [done|]. by rewrite <- app_assoc in HR''.
      * intros j e _ He. apply (Hlt e (kv_of x)); [by eapply list_elem_of_lookup_2|left].
      * intros j e Hj He. apply lookup_lt_Some in He. lia.
      * done.
Qed.

End PutMerged.

Lemma fs_lookup_remove_tables p batch : forall fs,
  (forall tb, tb ∈ batch -> SS_Table.getIndexFile tb <> p /\ SS_Table.getDataFilename tb <> p) ->
  fs_lookup p (LSMTree.remove_tables batch fs) = fs_lookup p fs.
Proof.
  induction batch as [|tb batch IH]; intros fs Hp; [done|].
  cbn [LSMTree.remove_tables]. rewrite IH by (intros tb' Hin; apply Hp; by right).
  destruct (Hp tb ltac:(left)) as [Hi Hd]. by rewrite !fs_lookup_remove_ne.
Qed.

Lemma batch_records_wf fs batch :
  (forall tb c, tb ∈ batch -> fs_lookup (SS_Table.getDataFilename tb) fs = Some c -> wf_data_file c) ->
  Forall fits32 (batch_records fs batch)
  /\ Forall (fun e => getKey e <> ""%string) (batch_records fs batch).
Proof.
  induction batch as [|tb batch IH]; intros Hwf; [by split|].
  cbn [batch_records flat_map].
  destruct IH as [IH1 IH2]; [intros tb' c Hin; apply Hwf; by right|].
  destruct (fs_lookup (SS_Table.getDataFilename tb) fs) as [c|] eqn:Hc; [|by split].
  destruct (Hwf tb c ltac:(left) Hc) as (recs & -> & Hfit & Hne).
  rewrite parse_data_file_encode by done. cbn [default].
  split; apply Forall_app; by split.
Qed.

(** ** One compaction pass *)

Section Compaction.
Context `{StdStringImpl}.
Context (coins : list (list bool)) (timestamp : Z) (fs : filesystem) (s : LSMTree.t).
Context (Hcount : MAX_SSTABLE_COUNT <= Z.of_nat (length (LSMTree.sstables s))).
Context (Hwf : forall tb c, tb ∈ compaction_batch s ->
  fs_lookup (SS_Table.getDataFilename tb) fs = Some c -> wf_data_file c).
Context (Hsize : Z.of_nat (length (encode_records (batch_records fs (compaction_batch s)))) < 2 ^ 63).
Context (Hfresh_data : not_in_batch (compaction_batch s) (compaction_stem s timestamp ++ DATA_EXTENSION)).
Context (Hfresh_index : not_in_batch (compaction_batch s) (compaction_stem s timestamp ++ INDEX_EXTENSION)).

Lemma perform_compaction_spec :
  exists fs',
    LSMTree.merge_tables fs (compaction_batch s) []
      = Some (fold_left add_first (batch_records fs (compaction_batch s)) [])
    /\ LSMTree.perform_compaction coins (true, true) timestamp fs s
       = Some (fs', LSMTree.mk (LSMTree.SS_TABLE_PATH s) (LSMTree.activeMemTable s)
                 (LSMTree.memTables s)
                 (drop (Z.to_nat MAX_SSTABLE_COUNT) (LSMTree.sstables s)
                  ++ [SS_Table.mk (compaction_stem s timestamp ++ INDEX_EXTENSION)
                        (compaction_stem s timestamp ++ DATA_EXTENSION)
                        (sparse_index (live (fold_left add_first
                           (batch_records fs (compaction_batch s)) []))) true]))
    /\ fs_lookup (compaction_stem s timestamp ++ DATA_EXTENSION) fs'
       = Some (encode_records (live (fold_left add_first (batch_records fs (compaction_batch s)) [])))
    /\ (forall p, p <> (compaction_stem s timestamp ++ DATA_EXTENSION)%string ->
          p <> (compaction_stem s timestamp ++ INDEX_EXTENSION)%string ->
          not_in_batch (compaction_batch s) p -> fs_lookup p fs' = fs_lookup p fs).
Proof using All.
  set (batch := compaction_batch s) in *. set (recs := batch_records fs batch) in *.
  set (stem := compaction_stem s timestamp) in *.
  set (merged := fold_left add_first recs []).
  destruct (batch_records_wf fs batch Hwf) as [Hfit Hne]. fold recs in Hfit, Hne.
  destruct (merged_spec recs Hfit Hne) as (Hasc & Hfind & HfitM & HneM & Hsz).
  fold merged in Hasc, Hfind, HfitM, HneM, Hsz.
  pose proof (merge_tables_spec fs batch [] Hwf) as Hmerge. fold recs merged in Hmerge.
  destruct (put_merged_spec merged coins MemTable.create ""%string [] create_Rep Hasc HneM)
    as (mm & Hmm & HR); [by intros e x ?%elem_of_nil|]. rewrite app_nil_l in HR.
  pose proof (live_ascending merged Hasc) as HascL.
  pose proof (live_Forall fits32 merged HfitM) as HfitL.
  assert (HsizeL : Z.of_nat (length (encode_records (live merged))) < 2 ^ 63).
  { pose proof (live_length merged). lia. }
  destruct (createFromMemTable_spec (live merged) HfitL HsizeL stem mm _ fs HR)
    as (fs1 & Hc & Hd & Hi & Hother).
  exists (LSMTree.remove_tables batch fs1). split; [exact Hmerge|]. split_and!.
  - unfold LSMTree.perform_compaction.
    rewrite (proj2 (Z.ltb_ge _ _)) by exact Hcount.
    cbv zeta. cbn [LSMTree.SS_TABLE_PATH LSMTree.activeMemTable LSMTree.memTables LSMTree.sstables].
    destruct (take (Z.to_nat MAX_SSTABLE_COUNT) (LSMTree.sstables s)) as [|t0 l0] eqn:Etake.
    { apply (f_equal length) in Etake. rewrite length_take in Etake. cbn [length] in Etake.
      unfold MAX_SSTABLE_COUNT in Etake, Hcount. lia. }
    rewrite <- Etake. fold (compaction_batch s). fold batch.
    rewrite Hmerge. cbn [mbind option_bind]. rewrite Hmm. cbn [mbind option_bind].
    fold (compaction_stem s timestamp). fold stem. rewrite Hc. cbn [mbind option_bind fst snd].
    rewrite (open_spec (live merged) HfitL HsizeL stem); [done|].
    rewrite fs_lookup_remove_tables by exact Hfresh_index. exact Hi.
  - rewrite fs_lookup_remove_tables by exact Hfresh_data. exact Hd.
  - intros p Hp1 Hp2 Hp3. rewrite fs_lookup_remove_tables by exact Hp3. by apply Hother.
Qed.

End Compaction.

(** ** Checking a batch by evaluation *)

Lemma forallb_Forall {A} (P : A -> Prop) (f : A -> bool) l :
  (forall x, f x = true -> P x) -> forallb f l = true -> Forall P l.
Proof.
  intros Hf. induction l as [|x l IH]; cbn [forallb]; [constructor|].
  intros [Hx Hl]%andb_prop. constructor; [by apply Hf|by apply IH].
Qed.

Lemma string_of_list_ascii_inj a b :
  string_of_list_ascii a = string_of_list_ascii b -> a = b.
Proof.
  intros Heq. rewrite <- (list_ascii_of_string_of_list_ascii a), Heq.
  apply list_ascii_of_string_of_list_ascii.
Qed.

Lemma wf_data_fileb_spec c : wf_data_fileb c = true -> wf_data_file c.
Proof.
  unfold wf_data_fileb. destruct (parse_data_file c) as [recs|]; [|done].
  intros [Heq Hall]%andb_prop. apply str_eq_spec, string_of_list_ascii_inj in Heq.
  exists recs. split; [done|]. split.
  - eapply forallb_Forall; [|exact Hall]. intros e [[Hk Hv]%andb_prop _]%andb_prop.
    split; by apply Z.ltb_lt.
  - eapply forallb_Forall; [|exact Hall]. intros e [_ Hne]%andb_prop.
    apply str_eq_false. by destruct (str_eq (getKey e) "").
Qed.

Lemma batch_wfb_spec fs batch :
  batch_wfb fs batch = true ->
  forall tb c, tb ∈ batch -> fs_lookup (SS_Table.getDataFilename tb) fs = Some c -> wf_data_file c.
Proof.
  intros Hb tb c Hin Hc.
  assert (HF : Forall (fun tb => forall c,
    fs_lookup (SS_Table.getDataFilename tb) fs = Some c -> wf_data_file c) batch).
  { eapply forallb_Forall; [|exact Hb]. intros tb' Htb c' Hc'. cbv beta in Htb.
    rewrite Hc' in Htb. by apply wf_data_fileb_spec. }
  by apply (proj1 (Forall_forall _ _) HF tb Hin).
Qed.

Lemma not_in_batchb_spec batch p : not_in_batchb batch p = true -> not_in_batch batch p.
Proof.
  intros Hb tb Hin.
  assert (HF : Forall (fun tb =>
    SS_Table.getIndexFile tb <> p /\ SS_Table.getDataFilename tb <> p) batch).
  { eapply forallb_Forall; [|exact Hb]. intros tb' [H1 H2]%andb_prop. split; apply str_eq_false.
    - by destruct (str_eq (SS_Table.getIndexFile tb') p).
    - by destruct (str_eq (SS_Table.getDataFilename tb') p). }
  by apply (proj1 (Forall_forall _ _) HF tb Hin).
Qed.

(** ** Loading the tables at startup *)

Lemma sort_insert_elem tb x l : tb ∈ LSMTree.sort_insert x l <-> tb = x \/ tb ∈ l.
Proof.
  induction l as [|y l IH]; cbn [LSMTree.sort_insert].
  - rewrite list_elem_of_singleton, elem_of_nil. tauto.
  - destruct (str_lt _ _); rewrite !elem_of_cons; [rewrite IH|]; tauto.
Qed.

Lemma sort_by_index_file_elem tb l : tb ∈ LSMTree.sort_by_index_file l <-> tb ∈ l.
Proof.
  induction l as [|x l IH]; [done|]. unfold LSMTree.sort_by_index_file in *. cbn [foldr].
  rewrite sort_insert_elem, elem_of_cons, IH. tauto.
Qed.

Lemma fs_lookup_listed p fs : p ∈ map fst fs -> exists c, fs_lookup p fs = Some c.
Proof.
  induction fs as [|[q c] fs IH]; [by intros ?%elem_of_nil|]. cbn [map fst fs_lookup].
  intros [->|Hin]%elem_of_cons.
  - rewrite str_eq_refl. by exists c.
  - destruct (str_eq q p); [by exists c|by apply IH].
Qed.

Lemma open_files_wf fs file data_file c :
  fs_lookup file fs = Some c -> wf_index_file c ->
  exists idx,
    SS_Table.open_files fs file data_file = Some (SS_Table.mk file data_file idx true)
    /\ SS_Table.loadIndex fs (SS_Table.mk file data_file idx true)
       = Some (true, SS_Table.mk file data_file idx true).
Proof.
  intros Hc (idx & -> & Hlen & Hfit). exists idx. unfold SS_Table.open_files.
  rewrite (loadIndex_spec fs (SS_Table.mk file data_file [] false) idx Hc Hlen Hfit).
  cbn [mbind option_bind fst snd]. split; [done|].
  by rewrite (loadIndex_spec fs (SS_Table.mk file data_file idx true) idx Hc Hlen Hfit).
Qed.

Lemma load_files_spec fs files : forall acc,
  (forall file, file ∈ files -> str_find INDEX_EXTENSION file <> None ->
     exists c, fs_lookup file fs = Some c /\ wf_index_file c) ->
  exists res, LSMTree.load_files fs files acc = Some res
    /\ (forall tb, tb ∈ acc -> tb ∈ res)
    /\ (forall file pos, file ∈ files -> str_find INDEX_EXTENSION file = Some pos ->
          exists tb, tb ∈ res /\ SS_Table.getIndexFile tb = file
            /\ SS_Table.getDataFilename tb = (String.substring 0 pos file ++ DATA_EXTENSION)%string
            /\ SS_Table.indexLoaded tb = true)
    /\ (forall tb, tb ∈ res -> tb ∈ acc
          \/ (SS_Table.getIndexFile tb ∈ files
              /\ str_find INDEX_EXTENSION (SS_Table.getIndexFile tb) <> None)).
Proof.
  induction files as [|file rest IH]; intros acc Hwf.
  - exists acc. split; [done|]. split; [done|]. split.
    + by intros file pos ?%elem_of_nil.
    + intros tb Htb. by left.
  - assert (Hrest : forall f, f ∈ rest -> str_find INDEX_EXTENSION f <> None ->
      exists c, fs_lookup f fs = Some c /\ wf_index_file c).
    { intros f Hf. apply Hwf. by right. }
    cbn [LSMTree.load_files]. destruct (str_find INDEX_EXTENSION file) as [pos|] eqn:Efind.
    + destruct (Hwf file ltac:(left) ltac:(by rewrite Efind)) as (c & Hc & Hwfc).
      destruct (open_files_wf fs file (String.substring 0 pos file ++ DATA_EXTENSION) c Hc Hwfc)
        as (idx & Hopen & Hload).
      rewrite Hopen. cbn [mbind option_bind]. rewrite Hload. cbn [mbind option_bind fst snd].
      destruct (IH (acc ++ [SS_Table.mk file (String.substring 0 pos file ++ DATA_EXTENSION) idx true])
        Hrest) as (res & Hres & Ha & Hb & Hc').
      exists res. split; [done|]. split_and!.
      * intros tb Htb. apply Ha. apply elem_of_app. by left.
      * intros f p [->|Hf]%elem_of_cons Hp.
        -- rewrite Efind in Hp. injection Hp as <-.
           exists (SS_Table.mk file (String.substring 0 pos file ++ DATA_EXTENSION) idx true).
           split; [|done]. apply Ha. apply elem_of_app. right. by apply list_elem_of_singleton.
        -- by apply Hb.
      * intros tb [[Htb|Htb]%elem_of_app|[Htb Hext]]%Hc'.
        -- by left.
        -- apply list_elem_of_singleton in Htb. subst tb. right.
           cbn [SS_Table.getIndexFile SS_Table.index_filename]. split; [left|by rewrite Efind].
        -- right. split; [by right|done].
    + destruct (IH acc Hrest) as (res & Hres & Ha & Hb & Hc').
      exists res. split; [done|]. split_and!; [done| |].
      * intros f p [->|Hf]%elem_of_cons Hp; [congruence|by apply Hb].
      * intros tb [Htb|[Htb Hext]]%Hc'; [by left|]. right. split; [by right|done].
Qed.

(** The engine after startup: one handle for every listed file whose
    name contains the index extension, and no other handle. *)
Lemma create_spec fs :
  (forall file c, fs_lookup file fs = Some c -> str_find INDEX_EXTENSION file <> None ->
     wf_index_file c) ->
  exists s, LSMTree.create fs = Some s
    /\ (forall file pos, file ∈ directory_iterator DATA_DIR fs ->
          str_find INDEX_EXTENSION file = Some pos ->
          exists tb, tb ∈ LSMTree.sstables s /\ SS_Table.getIndexFile tb = file
            /\ SS_Table.getDataFilename tb = (String.substring 0 pos file ++ DATA_EXTENSION)%string
            /\ SS_Table.indexLoaded tb = true)
    /\ (forall tb, tb ∈ LSMTree.sstables s ->
          SS_Table.getIndexFile tb ∈ directory_iterator DATA_DIR fs
          /\ str_find INDEX_EXTENSION (SS_Table.getIndexFile tb) <> None).
Proof.
  intros Hwf. unfold LSMTree.create, LSMTree.load_existing_sstables.
  cbn [LSMTree.SS_TABLE_PATH LSMTree.sstables LSMTree.activeMemTable LSMTree.memTables].
  destruct (load_files_spec fs (directory_iterator DATA_DIR fs) []) as (res & Hres & _ & Hb & Hc).
  { intros file [_ Hin]%list_elem_of_filter Hext.
    destruct (fs_lookup_listed file fs Hin) as (c & Hc). exists c. split; [done|].
    by apply (Hwf file c). }
  rewrite Hres. cbn [mbind option_bind]. eexists. split; [done|].
  cbn [LSMTree.sstables]. split.
  - intros file pos Hin Hext. destruct (Hb file pos Hin Hext) as (tb & Htb & Hrest).
    exists tb. split; [by apply sort_by_index_file_elem|done].
  - intros tb Htb. apply (proj1 (sort_by_index_file_elem _ _)) in Htb. destruct (Hc tb Htb) as [?%elem_of_nil|?]; done.
Qed.

(** ** Compaction *)

(** C4. One compaction pass over the oldest hundred tables, read in
    ascending order of their index-file names: the merged map holds, for
    every key of the batch, the value of the first record with that key
    in reading order, and nothing else; its entries are in ascending key
    order; the new table's data file holds exactly the entries of the
    map whose value is not the tombstone, in ascending key order.  The
    data files of the batch are assumed to be whole records with
    non-empty keys, and the new table's name to be unused in the batch. *)
Theorem C4_compaction_first_write_wins `{StdStringImpl} (coins : list (list bool))
    (timestamp : Z) (fs : filesystem) (s : LSMTree.t) :
  MAX_SSTABLE_COUNT <= Z.of_nat (length (LSMTree.sstables s)) ->
  (forall tb c, tb ∈ compaction_batch s ->
     fs_lookup (SS_Table.getDataFilename tb) fs = Some c -> wf_data_file c) ->
  Z.of_nat (length (encode_records (batch_records fs (compaction_batch s)))) < 2 ^ 63 ->
  not_in_batch (compaction_batch s) (compaction_stem s timestamp ++ DATA_EXTENSION) ->
  not_in_batch (compaction_batch s) (compaction_stem s timestamp ++ INDEX_EXTENSION) ->
  exists merged fs' s' data out,
    LSMTree.merge_tables fs (compaction_batch s) [] = Some merged
    /\ ascending (map kv_of merged)
    /\ (forall k, map_find k merged = kv_find k (batch_records fs (compaction_batch s)))
    /\ LSMTree.perform_compaction coins (true, true) timestamp fs s = Some (fs', s')
    /\ fs_lookup (compaction_stem s timestamp ++ DATA_EXTENSION) fs' = Some data
    /\ parse_data_file data = Some out
    /\ ascending out
    /\ (forall k, kv_find k out
                  = match map_find k merged with
                    | Some v => if str_eq v TOMBSTONE then None else Some v
                    | None => None
                    end).
Proof.
  intros Hcount Hwf Hsize Hfd Hfi.
  destruct (perform_compaction_spec coins timestamp fs s Hcount Hwf Hsize Hfd Hfi)
    as (fs' & Hmerge & Hpc & Hdata & _).
  destruct (batch_records_wf fs _ Hwf) as [Hfit Hne].
  destruct (merged_spec _ Hfit Hne) as (Hasc & Hfind & HfitM & _ & _).
  set (merged := fold_left add_first (batch_records fs (compaction_batch s)) []) in *.
  exists merged. eexists fs', _, (encode_records (live merged)), (live merged).
  split; [exact Hmerge|]. split; [exact Hasc|]. split.
  { intros k. rewrite map_find_kv. apply Hfind. }
  split; [exact Hpc|]. split; [exact Hdata|]. split.
  { apply parse_data_file_encode. by apply live_Forall. }
  split; [by apply live_ascending|].
  intros k. rewrite map_find_kv. by apply live_find.
Qed.

Lemma C4_compaction_first_write_wins_witness :
  exists fs' s' data out,
    LSMTree.perform_compaction (H := libstdcxx) [] (true, true) 2000 sample_dir sample_engine
      = Some (fs', s')
    /\ fs_lookup (compaction_stem sample_engine 2000 ++ DATA_EXTENSION) fs' = Some data
    /\ parse_data_file data = Some out
    /\ ascending out
    /\ kv_find "k" out = Some "old"%string.
Proof.
  destruct (C4_compaction_first_write_wins (H := libstdcxx) [] 2000 sample_dir sample_engine)
    as (merged & fs' & s' & data & out & _ & _ & Hfind & Hpc & Hdata & Hparse & Hasc & Hout).
  - vm_compute. discriminate.
  - apply batch_wfb_spec. vm_compute. reflexivity.
  - vm_compute. reflexivity.
  - apply not_in_batchb_spec. vm_compute. reflexivity.
  - apply not_in_batchb_spec. vm_compute. reflexivity.
  - exists fs', s', data, out. split; [exact Hpc|]. split; [exact Hdata|].
    split; [exact Hparse|]. split; [exact Hasc|].
    rewrite Hout, Hfind. vm_compute. reflexivity.
Defined.

(** C1, evaluated at a failing input.  On a data directory of one
    hundred flushed tables, of which the oldest holds ["k"] with value
    ["old"] and the next one ["k"] with the later value ["new"], the
    engine answers ["new"] before a compaction pass and ["old"] after
    it: the pass reads the batch oldest-first, keeps the first value it
    meets for a key, and appends the merged table as the newest one. *)
Theorem C1_compaction_changes_get :
  exists s0 s fs' s',
    flush_entries (seq 0 100) ([], empty_engine) = Some (sample_dir, s0)
    /\ LSMTree.create sample_dir = Some s
    /\ LSMTree.sstables s = LSMTree.sstables s0
    /\ LSMTree.get sample_dir s "k" = Some (true, "new"%string)
    /\ LSMTree.perform_compaction (H := libstdcxx) [] (true, true) 2000 sample_dir s
       = Some (fs', s')
    /\ LSMTree.get fs' s' "k" = Some (true, "old"%string).
Proof.
  eexists _, _, _, _. split; [vm_compute; reflexivity|]. split; [vm_compute; reflexivity|].
  split; [vm_compute; reflexivity|]. split; [vm_compute; reflexivity|].
  split; [vm_compute; reflexivity|]. vm_compute. reflexivity.
Qed.

(** ** Startup *)

(** C8, as stated, fails: the loader never looks at the data file.  A
    directory with an index file alone yields a handle for it. *)
Lemma C8_counterexample :
  exists s tb,
    directory_iterator DATA_DIR lone_index_dir = ["data/sstable_1.index"%string]
    /\ fs_lookup "data/sstable_1.data" lone_index_dir = None
    /\ LSMTree.create lone_index_dir = Some s
    /\ LSMTree.sstables s = [tb]
    /\ SS_Table.getIndexFile tb = "data/sstable_1.index"%string
    /\ SS_Table.getDataFilename tb = "data/sstable_1.data"%string.
Proof.
  eexists _, _. split; [vm_compute; reflexivity|]. split; [vm_compute; reflexivity|].
  split; [vm_compute; reflexivity|]. split; [reflexivity|]. split; reflexivity.
Qed.

(** C8 (amended). At startup every file of the data directory whose
    name contains the index extension gets a handle in the SSTable list,
    whether or not a data file with the same stem exists: the handle
    carries the file's name, the data-file name derived from it, and a
    loaded index.  No other handle is created.  The index files are
    assumed to be as the engine writes them. *)
Theorem C8_loader_ignores_data_file (fs : filesystem) :
  (forall file c, fs_lookup file fs = Some c -> str_find INDEX_EXTENSION file <> None ->
     wf_index_file c) ->
  exists s, LSMTree.create fs = Some s
    /\ (forall file pos, file ∈ directory_iterator DATA_DIR fs ->
          str_find INDEX_EXTENSION file = Some pos ->
          exists tb, tb ∈ LSMTree.sstables s /\ SS_Table.getIndexFile tb = file
            /\ SS_Table.getDataFilename tb = (String.substring 0 pos file ++ DATA_EXTENSION)%string
            /\ SS_Table.indexLoaded tb = true)
    /\ (forall tb, tb ∈ LSMTree.sstables s ->
          SS_Table.getIndexFile tb ∈ directory_iterator DATA_DIR fs
          /\ str_find INDEX_EXTENSION (SS_Table.getIndexFile tb) <> None).
Proof. apply create_spec. Qed.

Lemma C8_loader_ignores_data_file_witness :
  exists s tb,
    LSMTree.create lone_index_dir = Some s
    /\ tb ∈ LSMTree.sstables s
    /\ SS_Table.getIndexFile tb = "data/sstable_1.index"%string
    /\ fs_lookup (SS_Table.getDataFilename tb) lone_index_dir = None.
Proof.
  destruct (C8_loader_ignores_data_file lone_index_dir) as (s & Hs & Hall & _).
  - intros file c Hl _. unfold lone_index_dir in Hl. cbn [fs_lookup] in Hl.
    destruct (str_eq "data/sstable_1.index" file); [|discriminate Hl].
    injection Hl as <-. exists []. split; [reflexivity|]. split; [vm_compute; reflexivity|].
    constructor.
  - destruct (Hall "data/sstable_1.index"%string 14%nat) as (tb & Htb & Hi & Hd & _).
    + vm_compute. constructor.
    + reflexivity.
    + exists s, tb. split; [exact Hs|]. split; [exact Htb|]. split; [exact Hi|].
      rewrite Hd. vm_compute. reflexivity.
Defined.

(** * Part IX: further properties of the skip list *)

(** ** The skip list as a map: lookup, search by iterator, iteration *)

Lemma last_put_acc key ops : forall acc,
  last_put key ops acc = match last_put key ops None with Some x => Some x | None => acc end.
Proof.
  induction ops as [|[[c k] v] ops IH]; intros acc; [done|]. cbn [last_put].
  destruct (str_eq k key); [|apply IH]. rewrite (IH (Some v)).
  by destruct (last_put key ops None).
Qed.

Lemma model_puts_sentinel ops : forall sv es,
  fst (model_puts ops (sv, es)) = default sv (last_put "" ops None).
Proof.
  induction ops as [|[[c k] v] ops IH]; intros sv es; [done|]. cbn [model_puts last_put fst snd].
  destruct (str_eq k "") eqn:E.
  - rewrite IH, (last_put_acc "" ops (Some v)). by destruct (last_put "" ops None).
  - apply IH.
Qed.

Lemma find_spec s sv es key :
  Rep s sv es ->
  exists it, SkipList.find s key = Some it
    /\ match kv_find key es with
       | Some v => SkipList.star (SkipList.nodes s) it = Some (mkKV key v)
       | None => it = SkipList.end_
       end.
Proof.
  intros HR. pose proof (fun e => Rep_nonempty_keys _ _ _ e HR) as Hne.
  destruct HR as (lv & L & h & HI & HL & Hh & Hsv & Hes).
  destruct (search_spec s lv HI key) as (L0 & i0 & r & HL0 & Hr & Hi0 & Hlt & Hle & Hafter).
  rewrite HL in HL0. injection HL0 as <-.
  pose proof (inv_levels _ _ HI _ _ HL) as HLok.
  unfold SkipList.find. rewrite Hr. cbn [mbind option_bind].
  rewrite (lookup_node_at _ _ (lo_valid _ _ HLok _ _ Hi0)). cbn [mbind option_bind].
  fold (Key (SkipList.nodes s) r). fold (Typ (SkipList.nodes s) r).
  rewrite (lo_type _ _ HLok _ _ Hi0).
  assert (Hnone : Key (SkipList.nodes s) r <> key \/ i0 = O -> kv_find key es = None).
  { intros Hcase. apply kv_find_None. intros e He Heq. pose proof (Hne e He) as Hk.
    apply list_elem_of_lookup in He as [j Hj].
    rewrite <- Hes in Hj. apply base_entries_lookup_inv in Hj as (p & Hp & Hpl & ->).
    fold (Key (SkipList.nodes s) p) in Heq, Hk.
    destruct (Nat.lt_trichotomy (S j) i0) as [Hc|[Hc|Hc]].
    - pose proof (lo_sorted _ _ HLok (S j) i0 p r Hc Hlt Hp Hi0) as Hs.
      rewrite Heq in Hs. done.
    - subst i0. rewrite Hp in Hi0. injection Hi0 as ->. destruct Hcase; done.
    - pose proof (Hafter (S j) p Hc Hpl Hp) as Hs. rewrite Heq in Hs. by apply slt_irrefl in Hs. }
  destruct i0 as [|i0].
  - change (pos_type (length L) 0) with NEGATIVE_INFINITY. rewrite andb_false_r.
    exists SkipList.end_. split; [done|]. by rewrite Hnone by (by right).
  - rewrite pos_type_normal by lia. rewrite andb_true_r.
    destruct (str_eq (Key (SkipList.nodes s) r) key) eqn:E.
    + apply str_eq_spec in E. exists (Some r). split; [done|].
      pose proof (base_entries_lookup (SkipList.nodes s) L i0 r Hi0 Hlt) as Hj.
      rewrite Hes in Hj.
      pose proof (kv_find_ascending es i0 _
        ltac:(rewrite <- Hes; by apply base_entries_ascending) Hj) as Hf.
      fold (Key (SkipList.nodes s) r) in Hf. rewrite E in Hf. rewrite Hf.
      unfold SkipList.star. cbn [mbind option_bind].
      rewrite (lookup_node_at _ _ (lo_valid _ _ HLok _ _ Hi0)). cbn [mbind option_bind].
      f_equal. rewrite <- E. unfold Key. by destruct (n_data (node_at (SkipList.nodes s) r)).
    + apply str_eq_false in E. exists SkipList.end_. split; [done|].
      by rewrite Hnone by (by left).
Qed.

(** ** The height of the list *)

Lemma add_level_level s s1 :
  SkipList.add_level s = Some s1 -> SkipList.current_level s1 = SkipList.current_level s + 1.
Proof.
  unfold SkipList.add_level, alloc.
  repeat (match goal with
          | |- context [assign ?f ?p ?m] => destruct (assign f p m); cbn [mbind option_bind]
          end; [|done]).
  by intros [= <-].
Qed.

Lemma promote_level : forall fuel coins i key cur nn s s',
  SkipList.promote fuel coins i key cur nn s = Some s' ->
  SkipList.current_level s <= SkipList.MAX_LEVEL ->
  SkipList.current_level s' <= SkipList.MAX_LEVEL.
Proof.
  induction fuel as [|fuel IH]; intros coins i key cur nn s s' Hp Hs; [done|].
  cbn [SkipList.promote] in Hp. destruct (Z.ltb_spec i SkipList.MAX_LEVEL) as [Hi|Hi]; cbn [negb] in Hp.
  2:{ by injection Hp as <-. }
  destruct coins as [|[] coins]; [by injection Hp as <-| |by injection Hp as <-].
  destruct (if i >=? SkipList.current_level s then SkipList.add_level s else Some s)
    as [s1|] eqn:E1; cbn [mbind option_bind] in Hp; [|done].
  assert (Hs1 : SkipList.current_level s1 <= SkipList.MAX_LEVEL).
  { destruct (Z.geb_spec i (SkipList.current_level s)) as [Hge|Hlt].
    - apply add_level_level in E1. lia.
    - by injection E1 as <-. }
  destruct (SkipList.climb _ _ cur) as [c1|]; cbn [mbind option_bind] in Hp; [|done].
  destruct (follow n_up _ c1) as [c2|]; cbn [mbind option_bind] in Hp; [|done].
  unfold alloc in Hp.
  destruct (SkipList.link_after _ _ _) as [m1|]; cbn [mbind option_bind] in Hp; [|done].
  destruct (assign _ nn m1) as [m2|]; cbn [mbind option_bind] in Hp; [|done].
  destruct (assign _ _ m2) as [m3|]; cbn [mbind option_bind] in Hp; [|done].
  by apply IH in Hp.
Qed.

Section Height.
Context `{StdStringImpl}.

Lemma put_level coins key value s s' :
  SkipList.put coins key value s = Some s' ->
  SkipList.current_level s <= SkipList.MAX_LEVEL ->
  SkipList.current_level s' <= SkipList.MAX_LEVEL.
Proof.
  unfold SkipList.put. intros Hp Hs.
  destruct (SkipList.search s key) as [cur|]; cbn [mbind option_bind] in Hp; [|done].
  destruct (SkipList.nodes s !! cur) as [c|]; cbn [mbind option_bind] in Hp; [|done].
  destruct (str_eq (getKey (n_data c)) key).
  - destruct (assign _ cur _) as [m|]; cbn [mbind option_bind] in Hp; [|done].
    by injection Hp as <-.
  - unfold alloc in Hp.
    destruct (SkipList.link_after _ _ _) as [m1|]; cbn [mbind option_bind] in Hp; [|done].
    by apply promote_level in Hp.
Qed.

Lemma put_all_level ops : forall s s',
  put_all ops s = Some s' ->
  SkipList.current_level s <= SkipList.MAX_LEVEL ->
  SkipList.current_level s' <= SkipList.MAX_LEVEL.
Proof.
  induction ops as [|[[coins key] value] ops IH]; intros s s' Hp Hs; cbn [put_all] in Hp.
  - by injection Hp as <-.
  - destruct (SkipList.put coins key value s) as [s1|] eqn:E; cbn [mbind option_bind] in Hp; [|done].
    apply (IH s1 s' Hp). by eapply put_level.
Qed.

End Height.

Section SkipListMap.
Context `{StdStringImpl}.

(** X1. After any run of puts on a fresh list, whatever the coin
    flips, [get] succeeds and reports for a non-empty key the value of
    the last put on it, or not-found if there was none; for the empty
    key it always reports found, with the last value put under it or
    the empty string. *)
Theorem X1_get_after_puts (ops : list (list bool * string * string)) (key : string) :
  exists s, put_all ops SkipList.create = Some s
    /\ SkipList.get s key
       = Some (if str_eq key "" then (true, default ""%string (last_put "" ops None))
               else match last_put key ops None with
                    | Some v => (true, v)
                    | None => (false, ""%string)
                    end).
Proof.
  destruct (put_all_Rep ops _ _ _ create_Rep) as (s & Hs & HR).
  exists s. split; [done|]. rewrite (get_spec _ _ _ key HR), model_puts_sentinel.
  destruct (str_eq key "") eqn:E; [done|]. apply str_eq_false in E.
  by rewrite model_puts_find.
Qed.

(** X2. [find] agrees with the iteration for every key, the empty one
    included: it returns an iterator that dereferences to the entry the
    iteration yields for the key, and [end()] exactly when the iteration
    yields none. *)
Theorem X2_find_agrees_with_iteration (ops : list (list bool * string * string)) (key : string) :
  exists s es it,
    put_all ops SkipList.create = Some s
    /\ SkipList.to_vector s = Some es
    /\ SkipList.find s key = Some it
    /\ match kv_find key es with
       | Some v => SkipList.star (SkipList.nodes s) it = Some (mkKV key v)
       | None => it = SkipList.end_
       end.
Proof.
  destruct (put_all_Rep ops _ _ _ create_Rep) as (s & Hs & HR).
  destruct (find_spec s _ _ key HR) as (it & Hit & Hm).
  exists s, (snd (model_puts ops (""%string, []))), it.
  split; [done|]. split; [by eapply to_vector_spec|]. by split.
Qed.

(** X3. The iteration from [begin()] to [end()] after any run of puts
    yields strictly ascending keys, never the empty key, and for every
    non-empty key that was put exactly the value of the last put on
    it. *)
Theorem X3_iteration_content (ops : list (list bool * string * string)) :
  exists s es,
    put_all ops SkipList.create = Some s
    /\ SkipList.to_vector s = Some es
    /\ ascending es
    /\ Forall (fun e => getKey e <> ""%string) es
    /\ (forall key, key <> ""%string -> kv_find key es = last_put key ops None).
Proof.
  destruct (put_all_Rep ops _ _ _ create_Rep) as (s & Hs & HR).
  exists s, (snd (model_puts ops (""%string, []))).
  split; [done|]. split; [by eapply to_vector_spec|]. split; [by eapply Rep_ascending|].
  split.
  - apply Forall_forall. intros e He. by eapply Rep_nonempty_keys.
  - intros key Hk. by rewrite model_puts_find.
Qed.

(** X4. A put changes the size counter exactly when [get] did not
    report the key as found before it: then the size of the new entry is
    added, in [size_t] arithmetic; otherwise the counter stays as it
    is. *)
Theorem X4_size_counter (ops : list (list bool * string * string)) (coins : list bool)
    (key value : string) :
  exists s s',
    put_all ops SkipList.create = Some s
    /\ SkipList.put coins key value s = Some s'
    /\ SkipList.getSize s'
       = match SkipList.get s key with
         | Some (true, _) => SkipList.getSize s
         | _ => wrap64 (SkipList.getSize s + kv_size (mkKV key value))
         end.
Proof.
  destruct (put_all_Rep ops _ _ _ create_Rep) as (s & Hs & HR).
  destruct (put_spec coins key value s _ _ HR) as (s' & Hs' & _ & Hsz).
  exists s, s'. split; [done|]. split; [done|].
  rewrite (get_spec _ _ _ key HR). unfold SkipList.getSize. rewrite Hsz.
  destruct (str_eq key ""); [done|]. by destruct (kv_find key _).
Qed.

(** X5. Every list built by puts is well formed, whatever the coin
    flips: its levels are sorted doubly linked lists between the two
    sentinels, the nodes reached by [up] from a level form the level
    above, and a node and the one above it hold the same key.  There are
    never more than [MAX_LEVEL] levels above the base. *)
Theorem X5_shape_and_height (ops : list (list bool * string * string)) :
  exists s lv,
    put_all ops SkipList.create = Some s
    /\ Inv s lv
    /\ 0 <= SkipList.current_level s <= SkipList.MAX_LEVEL
    /\ Z.of_nat (length lv) = SkipList.current_level s + 1.
Proof.
  destruct (put_all_Rep ops _ _ _ create_Rep) as (s & Hs & (lv & L & h & HI & HL & _)).
  exists s, lv. split; [done|]. split; [done|].
  pose proof (inv_cur _ _ HI) as Hc. pose proof (lookup_lt_Some _ _ _ HL) as Hl.
  pose proof (put_all_level ops _ _ Hs ltac:(done)). lia.
Qed.

End SkipListMap.

(** * Part X: further properties of tables and of the coordinator *)

(** ** Point lookups in a table, for stored and for absent keys *)

Lemma ascending_drop j es : ascending es -> ascending (drop j es).
Proof.
  intros Hasc a b x y Hab Hx Hy. rewrite lookup_drop in Hx, Hy.
  apply (Hasc (j + a)%nat (j + b)%nat); [lia|done..].
Qed.

Lemma scan_model_ascending key rest :
  ascending rest -> scan_model key rest = classify (kv_find key rest).
Proof.
  induction rest as [|e rest IH]; intros Hasc; [done|]. cbn [scan_model kv_find].
  pose proof Hasc as [Hhd Htl]%ascending_cons.
  destruct (str_lt key (getKey e)) eqn:Elt.
  - apply str_lt_spec in Elt.
    destruct (str_eq (getKey e) key) eqn:E.
    { apply str_eq_spec in E. rewrite E in Elt. by apply slt_irrefl in Elt. }
    rewrite kv_find_None; [done|]. intros e' He' Hk.
    pose proof (proj1 (Forall_forall _ _) Hhd e' He') as Hlt. cbv beta in Hlt. rewrite Hk in Hlt.
    exact (slt_asym _ _ Elt Hlt).
  - destruct (str_eq (getKey e) key); [done|]. by apply IH.
Qed.

Lemma scan_steps_le key rest : (scan_steps key rest <= S (length rest))%nat.
Proof.
  induction rest as [|e rest IH]; cbn [scan_steps length]; [lia|].
  destruct (str_lt key (getKey e)); [lia|]. destruct (str_eq (getKey e) key); lia.
Qed.

Lemma kv_find_drop key j0 es :
  (forall j e, (j < j0)%nat -> es !! j = Some e -> slt (getKey e) key) ->
  kv_find key (drop j0 es) = kv_find key es.
Proof.
  revert j0. induction es as [|e es IH]; intros j0 Hlt; [by rewrite drop_nil|].
  destruct j0 as [|j0]; [done|]. cbn [drop kv_find].
  pose proof (Hlt O e ltac:(lia) eq_refl) as He.
  destruct (str_eq (getKey e) key) eqn:E.
  { apply str_eq_spec in E. rewrite E in He. by apply slt_irrefl in He. }
  apply IH. intros j e' Hj He'. apply (Hlt (S j)); [lia|done].
Qed.

Section TableLookup.
Context (es : list KeyValuePair).
Context (Hasc : ascending es) (Hfit : Forall fits32 es).
Context (Hsize : Z.of_nat (length (encode_records es)) < 2 ^ 63).

(** The offset that [findStartOffset] returns is the start of a record
    before which every key is smaller than the one looked for. *)
Lemma findStartOffset_any key :
  es <> [] ->
  exists j0, SS_Table.findStartOffset (sparse_index es) key = Some (Some (record_offset es j0))
    /\ (j0 <= length es)%nat
    /\ (forall j e, (j < j0)%nat -> es !! j = Some e -> slt (getKey e) key).
Proof using All.
  intros Hne. destruct es as [|e0 es'] eqn:Hes; [done|]. rewrite <- Hes in *.
  assert (He0 : es !! O = Some e0) by (by rewrite Hes).
  pose proof (sparse_index_lookup es O e0 He0) as H0. change (10 * 0)%nat with O in H0.
  unfold SS_Table.findStartOffset.
  destruct (sparse_index es) as [|x0 idx] eqn:Hidx; [done|]. rewrite <- Hidx.
  simpl in H0. injection H0 as ->. cbn [fst snd].
  destruct (str_lt key (getKey e0)) eqn:Elt.
  { exists O. split; [done|]. split; [lia|]. intros j e Hj. lia. }
  apply str_lt_false in Elt.
  assert (Hn : (0 < length (sparse_index es))%nat) by (rewrite Hidx; simpl; lia).
  assert (Hnz : Z.of_nat (length (sparse_index es)) < 2 ^ 63).
  { rewrite sparse_index_length. pose proof (entries_count_small es Hsize).
    Z.div_mod_to_equations. lia. }
  replace (wrap64 (Z.of_nat (length (sparse_index es)) - 1))
    with (Z.of_nat (length (sparse_index es) - 1)) by (rewrite wrap64_small; lia).
  destruct (bsearch_spec (sparse_index es) key Hnz (sparse_index_sorted es Hasc)
              (length (sparse_index es)) O (length (sparse_index es) - 1) (getKey e0, record_offset es 0))
    as (l & x & Hb & Hl & Hx & Hxle & Hxgt); try lia.
  { by rewrite Hidx. }
  { done. }
  { intros j y Hj Hy. apply lookup_lt_Some in Hy. lia. }
  change (Z.of_nat 0) with 0 in Hb. rewrite Hb. cbn [mbind option_bind]. rewrite Nat2Z.id, Hx.
  cbn [mbind option_bind].
  apply sparse_index_lookup_inv in Hx as (el & Hel & ->). cbn [fst snd] in *.
  exists (10 * l)%nat. split; [done|]. split; [apply lookup_lt_Some in Hel; lia|].
  intros j e Hj He. apply (slt_le_trans _ (getKey el)); [|done].
  apply (Hasc j (10 * l)%nat); done.
Qed.

(** [getValue] on a table written from the entries [es] answers for
    every key what the entries say. *)
Lemma getValue_any stem fs1 key :
  fs_lookup (stem ++ DATA_EXTENSION) fs1 = Some (encode_records es) ->
  SS_Table.getValue fs1
    (SS_Table.mk (stem ++ INDEX_EXTENSION) (stem ++ DATA_EXTENSION) (sparse_index es) true) key
  = Some (classify (kv_find key es)).
Proof using All.
  intros Hfs. unfold SS_Table.getValue. cbn [SS_Table.indexLoaded SS_Table.index
    SS_Table.data_filename negb].
  destruct (decide (es = [])) as [->|Hne]; [done|].
  destruct (findStartOffset_any key Hne) as (j0 & -> & Hj0 & Hbefore).
  cbn [mbind option_bind]. unfold open_in. rewrite Hfs. cbn [mbind option_bind content].
  rewrite <- (kv_find_drop key j0 es Hbefore).
  rewrite <- (scan_model_ascending key (drop j0 es)) by (by apply ascending_drop).
  apply (scan_spec key (drop j0 es) _ _ (encode_records (take j0 es))).
  - unfold record_offset. apply seekg_at; [|done].
    cbn [content]. by rewrite <- encode_records_app, take_drop.
  - by apply Forall_drop.
  - pose proof (scan_steps_le key (drop j0 es)). pose proof (encode_records_length_ge es).
    rewrite length_drop in *. lia.
Qed.

End TableLookup.

(** X6. A table written from a memtable and opened again answers every
    non-empty key exactly as the memtable did: found with the stored
    value, deleted for a tombstone, not found for an absent key.  For the
    empty key, which no table stores, it answers not found. *)
Theorem X6_table_answers_like_memtable (mt : MemTable.t) (es : list KeyValuePair)
    (stem : string) (fs : filesystem) :
  MemTable_wf mt -> SkipList.to_vector (MemTable.list_ mt) = Some es ->
  Forall fits32 es -> Z.of_nat (length (encode_records es)) < 2 ^ 63 ->
  exists fs1 tb,
    SS_Table.createFromMemTable (true, true) stem mt fs = Some (true, fs1)
    /\ SS_Table.open fs1 stem = Some tb
    /\ (forall key, key <> ""%string -> SS_Table.getValue fs1 tb key = MemTable.get mt key)
    /\ SS_Table.getValue fs1 tb "" = Some (false, ""%string).
Proof.
  intros (sv & es' & HR) Hvec Hfit Hsize.
  rewrite (to_vector_spec _ _ _ HR) in Hvec. injection Hvec as ->.
  pose proof (Rep_ascending _ _ _ HR) as Hasc.
  destruct (createFromMemTable_spec es Hfit Hsize stem mt sv fs HR) as (fs1 & Hc & Hd & Hi & _).
  exists fs1, (SS_Table.mk (stem ++ INDEX_EXTENSION) (stem ++ DATA_EXTENSION) (sparse_index es) true).
  split; [done|]. split; [by apply open_spec|]. split.
  - intros key Hk. rewrite (getValue_any es Hasc Hfit Hsize stem fs1 key Hd).
    rewrite (MemTable_get_spec mt sv es key HR).
    by rewrite (proj2 (str_eq_false key "")).
  - rewrite (getValue_any es Hasc Hfit Hsize stem fs1 "" Hd).
    rewrite kv_find_None; [done|]. intros e He. by eapply Rep_nonempty_keys.
Qed.

Lemma X6_table_answers_like_memtable_witness :
  exists s fs1 tb,
    put_all (H := libstdcxx) sample_puts SkipList.create = Some s
    /\ SS_Table.createFromMemTable (true, true) "data/sstable_1" (MemTable.mk s) [] = Some (true, fs1)
    /\ SS_Table.open fs1 "data/sstable_1" = Some tb
    /\ SS_Table.getValue fs1 tb "k055" = MemTable.get (MemTable.mk s) "k055"
    /\ SS_Table.getValue fs1 tb "" = Some (false, ""%string).
Proof.
  destruct (put_all_Rep (H := libstdcxx) sample_puts _ _ _ create_Rep) as (s & Hs & HR).
  destruct (X6_table_answers_like_memtable (MemTable.mk s) _ "data/sstable_1" []
              (ex_intro _ _ (ex_intro _ _ HR)) (to_vector_spec _ _ _ HR))
    as (fs1 & tb & Hc & Ho & Hget & Hempty).
  - repeat constructor; vm_compute; reflexivity.
  - vm_compute. reflexivity.
  - exists s, fs1, tb. split; [exact Hs|]. split; [exact Hc|]. split; [exact Ho|].
    split; [|exact Hempty]. apply Hget. discriminate.
Defined.

(** ** Flushing a sealed memtable *)

Lemma get_first_definitive fs s key :
  LSMTree.get fs s key = first_definitive (layer_reports fs s key).
Proof.
  rewrite get_unfold. unfold layer_reports.
  change (MemTable.get (LSMTree.activeMemTable s) key
          :: map (fun mt => MemTable.get mt key) (rev (LSMTree.memTables s)) ++
             map (fun tb => SS_Table.getValue fs tb key) (rev (LSMTree.sstables s)))
    with (map (fun mt => MemTable.get mt key)
            (LSMTree.activeMemTable s :: rev (LSMTree.memTables s)) ++
          map (fun tb => SS_Table.getValue fs tb key) (rev (LSMTree.sstables s))).
  rewrite first_definitive_app_memTables.
  destruct (LSMTree.get_memTables _ key) as [[r|]|]; simpl; [done| |done].
  by rewrite first_definitive_sstables.
Qed.

(** The empty key is always answered by the active memtable. *)
Lemma get_empty_key fs s sv es :
  Rep (MemTable.list_ (LSMTree.activeMemTable s)) sv es ->
  LSMTree.get fs s "" = Some (classify (Some sv)).
Proof.
  intros HR. unfold LSMTree.get. rewrite (MemTable_get_spec _ sv es "" HR).
  cbn [str_eq String.eqb mbind option_bind]. unfold classify.
  destruct (str_eq sv TOMBSTONE) eqn:E; cbn [fst snd negb andb]; [by rewrite E|done].
Qed.

(** A lookup in a table depends on the file system only through the
    table's data file. *)
Lemma getValue_ext fs fs' tb key :
  fs_lookup (SS_Table.getDataFilename tb) fs' = fs_lookup (SS_Table.getDataFilename tb) fs ->
  SS_Table.getValue fs' tb key = SS_Table.getValue fs tb key.
Proof.
  intros Heq. unfold SS_Table.getValue, open_in.
  unfold SS_Table.getDataFilename in Heq. by rewrite Heq.
Qed.

(** X7. One pass of the flush worker moves the oldest sealed memtable
    into a new table at the end of the table list and leaves the answer
    of [get] unchanged for every key.  The new table's two file names
    must not be the data file of a table already listed, and the sizes
    must fit the fields of the file format. *)
Theorem X7_flush_preserves_reads (timestamp : Z) (fs : filesystem) (s : LSMTree.t)
    (mt : MemTable.t) (rest : list MemTable.t) (es : list KeyValuePair) :
  LSM_wf s -> LSMTree.memTables s = mt :: rest ->
  SkipList.to_vector (MemTable.list_ mt) = Some es ->
  Forall fits32 es -> Z.of_nat (length (encode_records es)) < 2 ^ 63 ->
  (forall tb, tb ∈ LSMTree.sstables s ->
     SS_Table.getDataFilename tb <> (compaction_stem s timestamp ++ DATA_EXTENSION)%string
     /\ SS_Table.getDataFilename tb <> (compaction_stem s timestamp ++ INDEX_EXTENSION)%string) ->
  exists fs' s' tb,
    LSMTree.flush_worker (true, true) timestamp fs s = Some (fs', s')
    /\ LSMTree.activeMemTable s' = LSMTree.activeMemTable s
    /\ LSMTree.memTables s' = rest
    /\ LSMTree.sstables s' = LSMTree.sstables s ++ [tb]
    /\ (forall key, LSMTree.get fs' s' key = LSMTree.get fs s key).
Proof.
  intros [Ha Hm] Hq Hvec Hfit Hsize Hfresh.
  rewrite Hq in Hm. apply Forall_cons in Hm as [(sv & es' & HR) Hrest].
  rewrite (to_vector_spec _ _ _ HR) in Hvec. injection Hvec as ->.
  pose proof (Rep_ascending _ _ _ HR) as Hasc.
  set (stem := compaction_stem s timestamp) in *.
  destruct (createFromMemTable_spec es Hfit Hsize stem mt sv fs HR) as (fs1 & Hc & Hd & Hi & Hother).
  set (tb := SS_Table.mk (stem ++ INDEX_EXTENSION) (stem ++ DATA_EXTENSION) (sparse_index es) true).
  exists fs1, (LSMTree.mk (LSMTree.SS_TABLE_PATH s) (LSMTree.activeMemTable s) rest
                 (LSMTree.sstables s ++ [tb])), tb.
  split.
  { unfold LSMTree.flush_worker. rewrite Hq. unfold LSMTree.flush_memtable.
    cbn [LSMTree.SS_TABLE_PATH LSMTree.activeMemTable LSMTree.memTables LSMTree.sstables].
    fold (compaction_stem s timestamp). fold stem. rewrite Hc. cbn [mbind option_bind fst snd].
    by rewrite (open_spec es Hfit Hsize stem fs1 Hi). }
  split; [done|]. split; [done|]. split; [done|].
  intros key. destruct (str_eq key "") eqn:Ek.
  { apply str_eq_spec in Ek. subst key. destruct Ha as (sva & esa & HRa). by rewrite !(get_empty_key _ _ sva esa). }
  rewrite !get_first_definitive. f_equal. unfold layer_reports.
  cbn [LSMTree.activeMemTable LSMTree.memTables LSMTree.sstables]. f_equal.
  rewrite Hq, rev_app_distr. cbn [rev app]. rewrite map_app, <- app_assoc. f_equal.
  cbn [map app]. f_equal.
  - unfold tb. rewrite (getValue_any es Hasc Hfit Hsize stem fs1 key Hd).
    rewrite (MemTable_get_spec mt sv es key HR). by rewrite Ek.
  - apply map_ext_in. intros tb' Hin. apply (proj2 (in_rev _ _)) in Hin.
    apply list_elem_of_In in Hin. destruct (Hfresh tb' Hin) as [H1 H2].
    apply getValue_ext. by apply Hother.
Qed.

Lemma X7_flush_preserves_reads_witness :
  exists sl fs' s',
    put_all (H := libstdcxx) sample_puts SkipList.create = Some sl
    /\ LSMTree.flush_worker (true, true) 1000 []
         (LSMTree.mk DATA_DIR MemTable.create [MemTable.mk sl] []) = Some (fs', s')
    /\ LSMTree.memTables s' = []
    /\ (forall key, LSMTree.get fs' s' key
                    = LSMTree.get [] (LSMTree.mk DATA_DIR MemTable.create [MemTable.mk sl] []) key).
Proof.
  destruct (put_all_Rep (H := libstdcxx) sample_puts _ _ _ create_Rep) as (sl & Hs & HR).
  assert (Hwf : LSM_wf (LSMTree.mk DATA_DIR MemTable.create [MemTable.mk sl] [])).
  { split; [apply MemTable_create_wf|]. apply Forall_cons_2; [|apply Forall_nil_2].
    eexists _, _. exact HR. }
  destruct (X7_flush_preserves_reads 1000 []
              (LSMTree.mk DATA_DIR MemTable.create [MemTable.mk sl] []) (MemTable.mk sl) [] _
              Hwf eq_refl (to_vector_spec _ _ _ HR))
    as (fs' & s' & tb & Hf & _ & Hm & _ & Hget).
  - repeat constructor; vm_compute; reflexivity.
  - vm_compute; reflexivity.
  - intros tb Htb. apply elem_of_nil in Htb. destruct Htb.
  - exists sl, fs', s'. split. exact Hs. split. exact Hf. split. exact Hm. exact Hget.
Defined.

(** ** The table list after startup *)

Lemma sorted_by_index_file_cons x l :
  sorted_by_index_file (x :: l)
  <-> Forall (fun y => ~ slt (SS_Table.getIndexFile y) (SS_Table.getIndexFile x)) l
      /\ sorted_by_index_file l.
Proof.
  split.
  - intros Hs. split.
    + apply Forall_forall. intros y [j Hj]%list_elem_of_lookup.
      apply (Hs O (S j)); [lia|done..].
    + intros i j a b Hij Ha Hb. apply (Hs (S i) (S j)); [lia|done..].
  - intros [Hhd Htl] i j a b Hij Ha Hb. destruct j as [|j]; [lia|]. simpl in Hb.
    destruct i as [|i]; simpl in Ha.
    + injection Ha as <-. apply (proj1 (Forall_forall _ _) Hhd).
      by eapply list_elem_of_lookup_2.
    + apply (Htl i j); [lia|done..].
Qed.

Lemma sort_insert_sorted x l :
  sorted_by_index_file l -> sorted_by_index_file (LSMTree.sort_insert x l).
Proof.
  induction l as [|y l IH]; intros Hs; cbn [LSMTree.sort_insert].
  - apply sorted_by_index_file_cons. split; [constructor|]. intros i j a b _ Ha. done.
  - pose proof Hs as [Hhd Htl]%sorted_by_index_file_cons.
    destruct (str_lt (SS_Table.getIndexFile y) (SS_Table.getIndexFile x)) eqn:E.
    + apply str_lt_spec in E. apply sorted_by_index_file_cons. split; [|by apply IH].
      apply Forall_forall. intros z [->|Hz]%sort_insert_elem.
      * by apply slt_asym.
      * by apply (proj1 (Forall_forall _ _) Hhd).
    + apply str_lt_false in E. apply sorted_by_index_file_cons. split; [|done].
      apply Forall_cons. split; [done|].
      apply Forall_forall. intros z Hz Hlt.
      pose proof (proj1 (Forall_forall _ _) Hhd z Hz) as Hzy. cbv beta in Hzy.
      destruct (slt_trichotomy (SS_Table.getIndexFile y) (SS_Table.getIndexFile x))
        as [?|[Heq|Hxy]]; [done| |].
      * rewrite Heq in Hzy. done.
      * apply Hzy. by eapply slt_trans.
Qed.

Lemma sort_by_index_file_sorted l : sorted_by_index_file (LSMTree.sort_by_index_file l).
Proof.
  induction l as [|x l IH]; [by intros i j a b _ Ha|].
  unfold LSMTree.sort_by_index_file in *. cbn [foldr]. by apply sort_insert_sorted.
Qed.

Lemma sort_insert_perm x l : LSMTree.sort_insert x l ≡ₚ x :: l.
Proof.
  induction l as [|y l IH]; cbn [LSMTree.sort_insert]; [done|].
  destruct (str_lt _ _); [|done]. rewrite IH. apply Permutation_swap.
Qed.

Lemma sort_by_index_file_perm l : LSMTree.sort_by_index_file l ≡ₚ l.
Proof.
  induction l as [|x l IH]; [done|]. unfold LSMTree.sort_by_index_file in *. cbn [foldr].
  by rewrite sort_insert_perm, IH.
Qed.

Lemma load_files_names fs files : forall acc,
  (forall file, file ∈ files -> str_find INDEX_EXTENSION file <> None ->
     exists c, fs_lookup file fs = Some c /\ wf_index_file c) ->
  exists res, LSMTree.load_files fs files acc = Some res
    /\ map SS_Table.getIndexFile res
       = map SS_Table.getIndexFile acc ++ List.filter has_index_extension files.
Proof.
  induction files as [|file rest IH]; intros acc Hwf.
  - exists acc. split; [done|]. cbn [List.filter]. by rewrite app_nil_r.
  - assert (Hrest : forall f, f ∈ rest -> str_find INDEX_EXTENSION f <> None ->
      exists c, fs_lookup f fs = Some c /\ wf_index_file c).
    { intros f Hf. apply Hwf. by right. }
    cbn [LSMTree.load_files List.filter]. unfold has_index_extension at 1.
    destruct (str_find INDEX_EXTENSION file) as [pos|] eqn:Efind; [|by apply IH].
    destruct (Hwf file ltac:(left) ltac:(by rewrite Efind)) as (c & Hc & Hwfc).
    destruct (open_files_wf fs file (String.substring 0 pos file ++ DATA_EXTENSION) c Hc Hwfc)
      as (idx & Hopen & Hload).
    rewrite Hopen. cbn [mbind option_bind]. rewrite Hload. cbn [mbind option_bind fst snd].
    destruct (IH (acc ++ [SS_Table.mk file (String.substring 0 pos file ++ DATA_EXTENSION) idx true])
      Hrest) as (res & Hres & Hnames).
    exists res. split; [done|]. rewrite Hnames, map_app. cbn [map]. by rewrite <- app_assoc.
Qed.

(** X8. At startup the table list holds one handle for each listed
    file whose name contains the index extension, each file once, and
    the handles are in non-descending order of their index-file names,
    whatever the order of the directory listing.  The index files are
    assumed to be as the engine writes them. *)
Theorem X8_startup_order (fs : filesystem) :
  (forall file c, fs_lookup file fs = Some c -> str_find INDEX_EXTENSION file <> None ->
     wf_index_file c) ->
  exists s, LSMTree.create fs = Some s
    /\ sorted_by_index_file (LSMTree.sstables s)
    /\ map SS_Table.getIndexFile (LSMTree.sstables s)
       ≡ₚ List.filter has_index_extension (directory_iterator DATA_DIR fs).
Proof.
  intros Hwf. unfold LSMTree.create, LSMTree.load_existing_sstables.
  cbn [LSMTree.SS_TABLE_PATH LSMTree.sstables LSMTree.activeMemTable LSMTree.memTables].
  destruct (load_files_names fs (directory_iterator DATA_DIR fs) []) as (res & Hres & Hnames).
  { intros file [_ Hin]%list_elem_of_filter Hext.
    destruct (fs_lookup_listed file fs Hin) as (c & Hc). exists c. split; [done|].
    by apply (Hwf file c). }
  rewrite Hres. cbn [mbind option_bind]. eexists. split; [done|].
  cbn [LSMTree.sstables]. split; [apply sort_by_index_file_sorted|].
  cbn [map app] in Hnames. rewrite <- Hnames. apply Permutation_map. apply sort_by_index_file_perm.
Qed.

Lemma X8_startup_order_witness :
  exists s, LSMTree.create unsorted_dir = Some s
    /\ sorted_by_index_file (LSMTree.sstables s)
    /\ map SS_Table.getIndexFile (LSMTree.sstables s)
       ≡ₚ List.filter has_index_extension (directory_iterator DATA_DIR unsorted_dir).
Proof.
  apply (X8_startup_order unsorted_dir).
  intros file c Hl Hext. unfold unsorted_dir in Hl. cbn [fs_lookup] in Hl.
  destruct (str_eq "data/sstable_2.index" file).
  { injection Hl as <-. exists []. split; [reflexivity|]. split; [vm_compute; reflexivity|].
    constructor. }
  destruct (str_eq "data/notes.txt" file) eqn:E.
  { apply str_eq_spec in E. subst file. exfalso. apply Hext. reflexivity. }
  destruct (str_eq "data/sstable_1.index" file); [|discriminate Hl].
  injection Hl as <-. exists [("a"%string, 0)]. split; [reflexivity|].
  split; [vm_compute; reflexivity|]. constructor; [|constructor].
  split; [reflexivity|split; [discriminate|reflexivity]].
Defined.

(** ** A compaction pass that cannot write its table *)

(** X9. When the output files of a compaction pass cannot both be
    opened, the pass deletes no file and changes no file other than the
    two it tried to open, yet the hundred handles it took are gone from
    the table list: the engine no longer consults those tables. *)
Theorem X9_failed_compaction_drops_handles `{StdStringImpl} (coins : list (list bool))
    (opens : bool * bool) (timestamp : Z) (fs : filesystem) (s : LSMTree.t) :
  MAX_SSTABLE_COUNT <= Z.of_nat (length (LSMTree.sstables s)) ->
  (forall tb c, tb ∈ compaction_batch s ->
     fs_lookup (SS_Table.getDataFilename tb) fs = Some c -> wf_data_file c) ->
  fst opens && snd opens = false ->
  exists fs',
    LSMTree.perform_compaction coins opens timestamp fs s
    = Some (fs', LSMTree.mk (LSMTree.SS_TABLE_PATH s) (LSMTree.activeMemTable s)
                   (LSMTree.memTables s)
                   (drop (Z.to_nat MAX_SSTABLE_COUNT) (LSMTree.sstables s)))
    /\ (forall p, p <> (compaction_stem s timestamp ++ DATA_EXTENSION)%string ->
          p <> (compaction_stem s timestamp ++ INDEX_EXTENSION)%string ->
          fs_lookup p fs' = fs_lookup p fs).
Proof.
  intros Hcount Hwf Hopens.
  set (batch := compaction_batch s) in *. set (stem := compaction_stem s timestamp).
  destruct (batch_records_wf fs batch Hwf) as [Hfit Hne].
  destruct (merged_spec _ Hfit Hne) as (Hasc & _ & _ & HneM & _).
  pose proof (merge_tables_spec fs batch [] Hwf) as Hmerge.
  destruct (put_merged_spec _ coins MemTable.create ""%string [] create_Rep Hasc HneM)
    as (mm & Hmm & HR); [by intros e x ?%elem_of_nil|].
  exists (if snd opens then fs_write (stem ++ DATA_EXTENSION) []
            (if fst opens then fs_write (stem ++ INDEX_EXTENSION) [] fs else fs)
          else if fst opens then fs_write (stem ++ INDEX_EXTENSION) [] fs else fs).
  split.
  - unfold LSMTree.perform_compaction.
    rewrite (proj2 (Z.ltb_ge _ _)) by exact Hcount.
    cbv zeta. cbn [LSMTree.SS_TABLE_PATH LSMTree.activeMemTable LSMTree.memTables LSMTree.sstables].
    destruct (take (Z.to_nat MAX_SSTABLE_COUNT) (LSMTree.sstables s)) as [|t0 l0] eqn:Etake.
    { apply (f_equal length) in Etake. rewrite length_take in Etake. cbn [length] in Etake.
      unfold MAX_SSTABLE_COUNT in Etake, Hcount. lia. }
    rewrite <- Etake. fold (compaction_batch s). fold batch.
    rewrite Hmerge. cbn [mbind option_bind]. rewrite Hmm. cbn [mbind option_bind].
    fold (compaction_stem s timestamp). fold stem. unfold SS_Table.createFromMemTable.
    destruct opens as [[] []]; try discriminate Hopens; reflexivity.
  - intros p Hd Hi. destruct opens as [[] []]; cbn [fst snd];
      rewrite ?fs_lookup_write_ne by (by apply not_eq_sym); done.
Qed.

Lemma X9_failed_compaction_drops_handles_witness :
  exists fs',
    LSMTree.perform_compaction (H := libstdcxx) [] (true, false) 2000 sample_dir sample_engine
    = Some (fs', LSMTree.mk (LSMTree.SS_TABLE_PATH sample_engine)
                   (LSMTree.activeMemTable sample_engine) (LSMTree.memTables sample_engine)
                   (drop (Z.to_nat MAX_SSTABLE_COUNT) (LSMTree.sstables sample_engine)))
    /\ (forall p, p <> (compaction_stem sample_engine 2000 ++ DATA_EXTENSION)%string ->
          p <> (compaction_stem sample_engine 2000 ++ INDEX_EXTENSION)%string ->
          fs_lookup p fs' = fs_lookup p sample_dir).
Proof.
  apply (X9_failed_compaction_drops_handles (H := libstdcxx) [] (true, false) 2000
           sample_dir sample_engine).
  - vm_compute. discriminate.
  - apply batch_wfb_spec. vm_compute. reflexivity.
  - reflexivity.
Defined.

(** ** A table without its data file *)

Lemma bsearch_total index key : forall fuel left right,
  Z.of_nat (length index) < 2 ^ 63 ->
  (left <= right)%nat -> (right < length index)%nat -> (right - left < fuel)%nat ->
  exists l, SS_Table.bsearch fuel index key (Z.of_nat left) (Z.of_nat right) = Some (Z.of_nat l)
    /\ (left <= l <= right)%nat.
Proof.
  induction fuel as [|fuel IH]; intros left right Hlen Hlr Hr Hfuel; [lia|].
  cbn [SS_Table.bsearch]. destruct (Z.ltb_spec (Z.of_nat left) (Z.of_nat right)) as [Hlt|Hge].
  - assert (Hmid : wrap64 (Z.of_nat left + wrap64 (wrap64 (wrap64 (Z.of_nat right - Z.of_nat left) + 1) / 2))
                   = Z.of_nat (left + (right - left + 1) / 2)).
    { rewrite (wrap64_small (Z.of_nat right - Z.of_nat left)) by lia.
      rewrite (wrap64_small (_ + 1)) by lia.
      rewrite Nat2Z.inj_add, Nat2Z.inj_div, Nat2Z.inj_add, Nat2Z.inj_sub by lia.
      change (Z.of_nat 1) with 1. change (Z.of_nat 2) with 2.
      rewrite (wrap64_small (_ / 2)) by (Z.div_mod_to_equations; lia).
      rewrite wrap64_small by (Z.div_mod_to_equations; lia). done. }
    rewrite Hmid. set (mid := (left + (right - left + 1) / 2)%nat).
    assert (left < mid <= right)%nat as Hmr.
    { unfold mid. pose proof (Nat.div_mod_eq (right - left + 1) 2).
      pose proof (Nat.mod_upper_bound (right - left + 1) 2). lia. }
    rewrite Nat2Z.id. destruct (lookup_lt_is_Some_2 index mid ltac:(lia)) as [em Hem].
    rewrite Hem. cbn [mbind option_bind]. destruct (str_le (fst em) key).
    + destruct (IH mid right) as (l & Hb & Hl); try done; try lia. exists l. split; [done|lia].
    + replace (wrap64 (Z.of_nat mid - 1)) with (Z.of_nat (mid - 1)).
      2:{ rewrite wrap64_small by lia. lia. }
      destruct (IH left (mid - 1)%nat) as (l & Hb & Hl); try done; try lia.
      exists l. split; [done|lia].
  - exists left. split; [done|lia].
Qed.

Lemma findStartOffset_total index key :
  Z.of_nat (length index) < 2 ^ 63 ->
  exists r, SS_Table.findStartOffset index key = Some r.
Proof.
  intros Hlen. unfold SS_Table.findStartOffset. destruct index as [|e0 index'] eqn:Hi; [by eexists|].
  rewrite <- Hi in *. destruct (str_lt key (fst e0)); [by eexists|].
  assert (0 < length index)%nat by (rewrite Hi; simpl; lia).
  replace (wrap64 (Z.of_nat (length index) - 1)) with (Z.of_nat (length index - 1))
    by (rewrite wrap64_small; lia).
  destruct (bsearch_total index key (length index) O (length index - 1)) as (l & Hb & Hl);
    try done; try lia.
  change (Z.of_nat 0) with 0 in Hb. rewrite Hb. cbn [mbind option_bind]. rewrite Nat2Z.id.
  destruct (lookup_lt_is_Some_2 index l ltac:(lia)) as [e He]. rewrite He. by eexists.
Qed.

(** X10. A table whose data file cannot be opened answers not found
    for every key, whatever its index holds; the binary search over the
    index stays within the index even when the index is not sorted. *)
Theorem X10_missing_data_file (fs : filesystem) (tb : SS_Table.t) (key : string) :
  Z.of_nat (length (SS_Table.index tb)) < 2 ^ 63 ->
  fs_lookup (SS_Table.getDataFilename tb) fs = None ->
  SS_Table.getValue fs tb key = Some (false, ""%string).
Proof.
  intros Hlen Hfs. unfold SS_Table.getValue. destruct (negb (SS_Table.indexLoaded tb)); [done|].
  destruct (findStartOffset_total (SS_Table.index tb) key Hlen) as ([off|] & ->);
    cbn [mbind option_bind]; [|done].
  unfold open_in. unfold SS_Table.getDataFilename in Hfs. by rewrite Hfs.
Qed.

Lemma X10_missing_data_file_witness :
  SS_Table.getValue []
    (SS_Table.mk "data/sstable_1.index" "data/sstable_1.data" [("m", 0); ("a", 9)]%string true) "k"
  = Some (false, ""%string).
Proof.
  apply X10_missing_data_file; [vm_compute; reflexivity|reflexivity].
Defined.

(** ** Restart after a flush *)

Lemma substring_app_l s t : String.substring 0 (String.length s) (s ++ t) = s.
Proof. induction s as [|c s IH]; simpl; [by destruct t|by rewrite IH]. Qed.

Lemma prefix_app d s t : String.prefix d s = true -> String.prefix d (s ++ t) = true.
Proof.
  revert s. induction d as [|c d IH]; intros s; [by destruct s, t|].
  destruct s as [|c' s]; simpl; [done|]. destruct (ascii_dec c c'); [apply IH|done].
Qed.

(** The two files a flush into an empty directory leaves behind. *)
Lemma createFromMemTable_fresh es stem mt sv :
  Forall fits32 es -> Z.of_nat (length (encode_records es)) < 2 ^ 63 ->
  Rep (MemTable.list_ mt) sv es ->
  SS_Table.createFromMemTable (true, true) stem mt []
  = Some (true, [((stem ++ DATA_EXTENSION)%string, encode_records es);
                 ((stem ++ INDEX_EXTENSION)%string, encode_index (sparse_index es))]).
Proof.
  intros Hfit Hsize HR. unfold SS_Table.createFromMemTable. cbn [fst snd negb orb].
  rewrite (to_vector_spec _ sv es HR). cbn [mbind option_bind].
  pose proof (entries_count_small es Hsize) as Hcnt.
  rewrite write_entries_spec by (try done; lia).
  rewrite index_entries_sparse. rewrite !app_nil_l.
  assert (Hc : wrap64 (wrap64 (wrap64 (Z.of_nat (length es)) + SS_Table.KEYS_PER_INDEX_ENTRY) - 1)
                / SS_Table.KEYS_PER_INDEX_ENTRY = Z.of_nat (length (sparse_index es))).
  { unfold SS_Table.KEYS_PER_INDEX_ENTRY. rewrite sparse_index_length.
    rewrite (wrap64_small (Z.of_nat (length es))) by lia.
    rewrite (wrap64_small (_ + 10)) by lia. rewrite wrap64_small by lia.
    f_equal. lia. }
  rewrite Hc. unfold fs_write.
  pose proof (proj2 (str_eq_false _ _) (index_data_distinct stem)) as Hid.
  pose proof (proj2 (str_eq_false _ _) (not_eq_sym (index_data_distinct stem))) as Hdi.
  cbn [fs_remove]. rewrite ?Hid, ?Hdi. cbn [fs_remove]. rewrite ?Hid, ?Hdi, ?str_eq_refl.
  cbn [fs_remove]. rewrite ?Hid, ?Hdi, ?str_eq_refl. cbn [fs_remove].
  rewrite ?Hid, ?Hdi, ?str_eq_refl. reflexivity.
Qed.

(** X11. A memtable flushed into an empty data directory is recovered
    by a restart: the engine started on the two files lists exactly the
    table that opening the stem gives, and answers every non-empty key as
    the memtable did.  The stem lies in the data directory, and the index
    extension occurs in the two file names only as the suffix of the
    index file's. *)
Theorem X11_restart_recovers_table (mt : MemTable.t) (es : list KeyValuePair) (stem : string) :
  MemTable_wf mt -> SkipList.to_vector (MemTable.list_ mt) = Some es ->
  Forall fits32 es -> Z.of_nat (length (encode_records es)) < 2 ^ 63 ->
  String.prefix DATA_DIR stem = true ->
  str_find INDEX_EXTENSION (stem ++ INDEX_EXTENSION) = Some (String.length stem) ->
  str_find INDEX_EXTENSION (stem ++ DATA_EXTENSION) = None ->
  exists fs1 s tb,
    SS_Table.createFromMemTable (true, true) stem mt [] = Some (true, fs1)
    /\ LSMTree.create fs1 = Some s
    /\ SS_Table.open fs1 stem = Some tb
    /\ LSMTree.sstables s = [tb]
    /\ (forall key, key <> ""%string -> LSMTree.get fs1 s key = MemTable.get mt key).
Proof.
  intros (sv & es' & HR) Hvec Hfit Hsize Hpre Hfi Hfd.
  rewrite (to_vector_spec _ _ _ HR) in Hvec. injection Hvec as ->.
  pose proof (Rep_ascending _ _ _ HR) as Hasc.
  set (fs1 := [((stem ++ DATA_EXTENSION)%string, encode_records es);
               ((stem ++ INDEX_EXTENSION)%string, encode_index (sparse_index es))]).
  set (tb := SS_Table.mk (stem ++ INDEX_EXTENSION) (stem ++ DATA_EXTENSION) (sparse_index es) true).
  assert (Hi : fs_lookup (stem ++ INDEX_EXTENSION) fs1 = Some (encode_index (sparse_index es))).
  { unfold fs1. cbn [fs_lookup].
    rewrite (proj2 (str_eq_false _ _) (not_eq_sym (index_data_distinct stem))).
    by rewrite str_eq_refl. }
  assert (Hd : fs_lookup (stem ++ DATA_EXTENSION) fs1 = Some (encode_records es)).
  { unfold fs1. cbn [fs_lookup]. by rewrite str_eq_refl. }
  pose proof (open_spec es Hfit Hsize stem fs1 Hi) as Hopen. fold tb in Hopen.
  assert (Hload : SS_Table.loadIndex fs1 tb = Some (true, tb)).
  { apply (loadIndex_spec fs1 tb (sparse_index es) Hi); [|by apply sparse_index_fits].
    rewrite sparse_index_length. pose proof (entries_count_small es Hsize).
    Z.div_mod_to_equations. lia. }
  exists fs1, (LSMTree.mk DATA_DIR MemTable.create [] [tb]), tb.
  split; [by apply (createFromMemTable_fresh es stem mt sv)|]. split.
  { assert (Hdir : directory_iterator DATA_DIR fs1
                    = [(stem ++ DATA_EXTENSION)%string; (stem ++ INDEX_EXTENSION)%string]).
    { unfold directory_iterator, fs1. cbn [map fst].
      rewrite filter_cons_True by (by apply prefix_app).
      rewrite filter_cons_True by (by apply prefix_app). done. }
    unfold LSMTree.create, LSMTree.load_existing_sstables.
    cbn [LSMTree.SS_TABLE_PATH LSMTree.sstables LSMTree.activeMemTable LSMTree.memTables].
    rewrite Hdir. cbn [LSMTree.load_files]. rewrite Hfd, Hfi, substring_app_l.
    unfold SS_Table.open in Hopen. rewrite Hopen. cbn [mbind option_bind].
    rewrite Hload. reflexivity. }
  split; [exact Hopen|]. split; [reflexivity|].
  intros key Hk. unfold LSMTree.get.
  cbn [LSMTree.activeMemTable LSMTree.memTables LSMTree.sstables rev app].
  rewrite MemTable_get_create by done.
  cbn [fst snd negb andb mbind option_bind LSMTree.get_memTables LSMTree.get_sstables].
  replace (str_eq "" TOMBSTONE) with false by reflexivity.
  unfold tb. rewrite (getValue_any es Hasc Hfit Hsize stem fs1 key Hd).
  rewrite (MemTable_get_spec mt sv es key HR), (proj2 (str_eq_false key "")) by done.
  cbn [mbind option_bind]. unfold classify. destruct (kv_find key es) as [v|]; [|done].
  destruct (str_eq v TOMBSTONE) eqn:E; cbn [fst snd negb andb]; [by rewrite E|done].
Qed.

Lemma X11_restart_recovers_table_witness :
  exists sl fs1 s,
    put_all (H := libstdcxx) sample_puts SkipList.create = Some sl
    /\ SS_Table.createFromMemTable (true, true) "data/sstable_1000" (MemTable.mk sl) []
       = Some (true, fs1)
    /\ LSMTree.create fs1 = Some s
    /\ LSMTree.get fs1 s "k05" = MemTable.get (MemTable.mk sl) "k05".
Proof.
  destruct (put_all_Rep (H := libstdcxx) sample_puts _ _ _ create_Rep) as (sl & Hs & HR).
  destruct (X11_restart_recovers_table (MemTable.mk sl) _ "data/sstable_1000"
              (ex_intro _ _ (ex_intro _ _ HR)) (to_vector_spec _ _ _ HR))
    as (fs1 & s & tb & Hc & Hcr & _ & _ & Hget).
  - repeat constructor; vm_compute; reflexivity.
  - vm_compute. reflexivity.
  - reflexivity.
  - reflexivity.
  - reflexivity.
  - exists sl, fs1, s. split; [exact Hs|]. split; [exact Hc|]. split; [exact Hcr|].
    apply Hget. discriminate.
Defined.

(** ** Writes and the other keys *)

Section Frame.
Context `{StdStringImpl}.

Lemma get_memTables_put_ne coins k v s mt' key :
  LSM_wf s -> key <> k -> MemTable.put coins k v (LSMTree.activeMemTable s) = Some mt' ->
  LSMTree.get_memTables (mt' :: rev (LSMTree.memTables s)) key
  = LSMTree.get_memTables (LSMTree.activeMemTable s :: rev (LSMTree.memTables s)) key.
Proof.
  intros [Ha _] Hne Hput. cbn [LSMTree.get_memTables].
  by rewrite (MemTable_get_put_ne coins key k v _ _ Ha Hput Hne).
Qed.

(** X21. A put that does not bring the active memtable to
    [MAX_MEMTABLE_SIZE], and a remove, leave the answer of [get] as it
    is for every other key that is not empty, whatever the sealed
    memtables and the tables on disk hold.  The case of a put that seals
    the memtable, which hands it to the flush worker, is left out. *)
Theorem X21_write_leaves_other_keys (coins : list bool) (fs : filesystem) (s : LSMTree.t)
    (k v key : string) :
  LSM_wf s -> key <> ""%string -> key <> k ->
  (exists s', LSMTree.put coins k v s = Some s'
     /\ (put_rotates coins k v s = false -> LSMTree.get fs s' key = LSMTree.get fs s key))
  /\ (exists s', LSMTree.remove coins k s = Some s'
        /\ LSMTree.get fs s' key = LSMTree.get fs s key).
Proof.
  intros Hwf Hk Hne. pose proof Hwf as [Ha Hm]. split.
  - destruct (LSM_put_wf coins k v s Hwf) as (s' & Hs' & _).
    exists s'. split; [done|]. intros Hrot.
    destruct (put_stays coins k v s Hwf Hrot) as (mt' & Hput & Hs).
    rewrite Hs in Hs'. injection Hs' as <-.
    pose proof (get_memTables_put_ne coins k v s mt' key Hwf Hne Hput) as Hmem.
    rewrite !get_unfold.
    cbn [LSMTree.activeMemTable LSMTree.memTables LSMTree.sstables]. by rewrite Hmem.
  - destruct (MemTable_put_wf coins k TOMBSTONE _ Ha) as (mt' & Hput & _).
    pose proof (get_memTables_put_ne coins k TOMBSTONE s mt' key Hwf Hne Hput) as Hmem.
    unfold LSMTree.remove. rewrite Hput. cbn [mbind option_bind].
    eexists. split; [done|]. rewrite !get_unfold.
    cbn [LSMTree.activeMemTable LSMTree.memTables LSMTree.sstables]. by rewrite Hmem.
Qed.

End Frame.

Lemma X21_write_leaves_other_keys_witness :
  (exists s', LSMTree.put (H := libstdcxx) [true; false] "a" "1" empty_engine = Some s'
     /\ LSMTree.get [] s' "b" = LSMTree.get [] empty_engine "b")
  /\ (exists s', LSMTree.remove (H := libstdcxx) [true; false] "a" empty_engine = Some s'
        /\ LSMTree.get [] s' "b" = LSMTree.get [] empty_engine "b").
Proof.
  destruct (X21_write_leaves_other_keys (H := libstdcxx) [true; false] [] empty_engine
              "a" "1" "b" empty_engine_wf) as [(s1 & Hput & Hget) Hrem].
  - discriminate.
  - discriminate.
  - split; [|exact Hrem]. exists s1. split; [exact Hput|]. apply Hget.
    vm_compute. reflexivity.
Defined.

(** ** The files of a compacted batch *)

Lemma fs_lookup_remove_None p q fs : fs_lookup p fs = None -> fs_lookup p (fs_remove q fs) = None.
Proof.
  intros Hp. destruct (str_eq q p) eqn:E.
  - apply str_eq_spec in E. subst q. apply fs_lookup_remove_eq.
  - apply str_eq_false in E. by rewrite fs_lookup_remove_ne.
Qed.

Lemma remove_tables_None p batch : forall fs,
  fs_lookup p fs = None -> fs_lookup p (LSMTree.remove_tables batch fs) = None.
Proof.
  induction batch as [|tb batch IH]; intros fs Hp; [done|].
  cbn [LSMTree.remove_tables]. apply IH. by do 2 apply fs_lookup_remove_None.
Qed.

Lemma remove_tables_removed t batch : forall fs,
  t ∈ batch ->
  fs_lookup (SS_Table.getIndexFile t) (LSMTree.remove_tables batch fs) = None
  /\ fs_lookup (SS_Table.getDataFilename t) (LSMTree.remove_tables batch fs) = None.
Proof.
  induction batch as [|tb batch IH]; intros fs Hin; [by apply elem_of_nil in Hin|].
  apply elem_of_cons in Hin as [->|Hin]; [|by apply IH].
  cbn [LSMTree.remove_tables]. split; apply remove_tables_None.
  - apply fs_lookup_remove_None, fs_lookup_remove_eq.
  - apply fs_lookup_remove_eq.
Qed.

(** What a pass that opened both output files and returned has done. *)
Lemma perform_compaction_outcome `{StdStringImpl} coins timestamp fs s fs' s' :
  MAX_SSTABLE_COUNT <= Z.of_nat (length (LSMTree.sstables s)) ->
  LSMTree.perform_compaction coins (true, true) timestamp fs s = Some (fs', s') ->
  exists fs1 tb,
    fs' = LSMTree.remove_tables (compaction_batch s) fs1
    /\ s' = LSMTree.mk (LSMTree.SS_TABLE_PATH s) (LSMTree.activeMemTable s) (LSMTree.memTables s)
              (drop (Z.to_nat MAX_SSTABLE_COUNT) (LSMTree.sstables s) ++ [tb]).
Proof.
  intros Hcount Hpc. unfold LSMTree.perform_compaction in Hpc.
  rewrite (proj2 (Z.ltb_ge _ _)) in Hpc by exact Hcount.
  cbv zeta in Hpc.
  cbn [LSMTree.SS_TABLE_PATH LSMTree.activeMemTable LSMTree.memTables LSMTree.sstables] in Hpc.
  destruct (take (Z.to_nat MAX_SSTABLE_COUNT) (LSMTree.sstables s)) as [|t0 l0] eqn:Etake.
  { apply (f_equal length) in Etake. rewrite length_take in Etake. cbn [length] in Etake.
    unfold MAX_SSTABLE_COUNT in Etake, Hcount. lia. }
  rewrite <- Etake in Hpc. fold (compaction_batch s) in Hpc.
  destruct (LSMTree.merge_tables fs (compaction_batch s) []) as [merged|]; [|done].
  cbn [mbind option_bind] in Hpc.
  destruct (LSMTree.put_merged coins merged MemTable.create) as [mm|]; [|done].
  cbn [mbind option_bind] in Hpc.
  unfold SS_Table.createFromMemTable in Hpc at 1. cbn [fst snd negb orb] in Hpc.
  destruct (SkipList.to_vector (MemTable.list_ mm)) as [entries|]; [|done].
  cbn [mbind option_bind] in Hpc.
  destruct (SS_Table.write_entries _ _ _ _ _) as [indexFile dataFile].
  cbn [mbind option_bind fst snd] in Hpc.
  destruct (SS_Table.open _ _) as [tb|] eqn:Hopen; [|done].
  cbn [mbind option_bind] in Hpc. injection Hpc as <- <-. by eexists _, tb.
Qed.

(** X22. A compaction pass that succeeds deletes the index file and
    the data file of each of the hundred tables it took, and the table
    list becomes the tables it did not take followed by one new table;
    the memtables are as before.  The data files of the batch are
    assumed to be whole records with non-empty keys, and the new table's
    name to be unused in the batch. *)
Theorem X22_compaction_reclaims_files `{StdStringImpl} (coins : list (list bool))
    (timestamp : Z) (fs : filesystem) (s : LSMTree.t) :
  MAX_SSTABLE_COUNT <= Z.of_nat (length (LSMTree.sstables s)) ->
  (forall tb c, tb ∈ compaction_batch s ->
     fs_lookup (SS_Table.getDataFilename tb) fs = Some c -> wf_data_file c) ->
  Z.of_nat (length (encode_records (batch_records fs (compaction_batch s)))) < 2 ^ 63 ->
  not_in_batch (compaction_batch s) (compaction_stem s timestamp ++ DATA_EXTENSION) ->
  not_in_batch (compaction_batch s) (compaction_stem s timestamp ++ INDEX_EXTENSION) ->
  exists fs' s' tb,
    LSMTree.perform_compaction coins (true, true) timestamp fs s = Some (fs', s')
    /\ LSMTree.sstables s'
       = drop (Z.to_nat MAX_SSTABLE_COUNT) (LSMTree.sstables s) ++ [tb]
    /\ SS_Table.getIndexFile tb = (compaction_stem s timestamp ++ INDEX_EXTENSION)%string
    /\ LSMTree.activeMemTable s' = LSMTree.activeMemTable s
    /\ LSMTree.memTables s' = LSMTree.memTables s
    /\ (forall t, t ∈ take (Z.to_nat MAX_SSTABLE_COUNT) (LSMTree.sstables s) ->
          fs_lookup (SS_Table.getIndexFile t) fs' = None
          /\ fs_lookup (SS_Table.getDataFilename t) fs' = None).
Proof.
  intros Hcount Hwf Hsize Hfd Hfi.
  destruct (perform_compaction_spec coins timestamp fs s Hcount Hwf Hsize Hfd Hfi)
    as (fs' & _ & Hpc & _).
  destruct (perform_compaction_outcome coins timestamp fs s _ _ Hcount Hpc)
    as (fs1 & tb & Hfs & Hs).
  eexists fs', _, _. split; [exact Hpc|]. cbn [LSMTree.sstables LSMTree.activeMemTable
    LSMTree.memTables SS_Table.getIndexFile SS_Table.index_filename].
  split; [done|]. split; [done|]. split; [done|]. split; [done|].
  intros t Ht. rewrite Hfs. apply remove_tables_removed.
  by apply sort_by_index_file_elem.
Qed.

Lemma X22_compaction_reclaims_files_witness :
  exists fs' s',
    LSMTree.perform_compaction (H := libstdcxx) [] (true, true) 2000 sample_dir sample_engine
      = Some (fs', s')
    /\ (forall t, t ∈ take (Z.to_nat MAX_SSTABLE_COUNT) (LSMTree.sstables sample_engine) ->
          fs_lookup (SS_Table.getIndexFile t) fs' = None
          /\ fs_lookup (SS_Table.getDataFilename t) fs' = None).
Proof.
  destruct (X22_compaction_reclaims_files (H := libstdcxx) [] 2000 sample_dir sample_engine)
    as (fs' & s' & tb & Hpc & _ & _ & _ & _ & Hgone).
  - vm_compute. discriminate.
  - apply batch_wfb_spec. vm_compute. reflexivity.
  - vm_compute. reflexivity.
  - apply not_in_batchb_spec. vm_compute. reflexivity.
  - apply not_in_batchb_spec. vm_compute. reflexivity.
  - exists fs', s'. split; [exact Hpc|exact Hgone].
Defined.

(** * Part XI: the command line *)

(** ** The tokenizer of the command line *)

Lemma str_size_zero s : (str_size s =? 0) = true <-> s = ""%string.
Proof.
  unfold str_size. destruct s; simpl; [done|]. split; done.
Qed.

Lemma str_size_nonzero s : (str_size s =? 0) = false <-> s <> ""%string.
Proof.
  rewrite <- str_size_zero. destruct (str_size s =? 0); split; congruence.
Qed.

Lemma append_nil_r (s : string) : (s ++ "")%string = s.
Proof. induction s as [|c s IH]; simpl; [done|by rewrite IH]. Qed.

Lemma append_assoc (a b c : string) : ((a ++ b) ++ c)%string = (a ++ b ++ c)%string.
Proof. induction a as [|x a IH]; simpl; [done|by rewrite IH]. Qed.

Lemma append_nonempty_r (a : string) c b : (a ++ String c b)%string <> ""%string.
Proof. by destruct a. Qed.

Lemma list_ascii_app (a b : string) :
  list_ascii_of_string (a ++ b) = list_ascii_of_string a ++ list_ascii_of_string b.
Proof. induction a as [|x a IH]; simpl; [done|by rewrite IH]. Qed.

Section Split.
Context `{Ctype}.

(** Every token is non-empty and free of double quotes. *)
Lemma split_loop_tokens str : forall tokens token inQuotes,
  Forall quotable tokens ->
  Forall (fun c => c <> DQUOTE) (list_ascii_of_string token) ->
  Forall quotable (CommandParser.split_loop str tokens token inQuotes).
Proof.
  induction str as [|c str IH]; intros tokens token inQuotes Htoks Htok;
    cbn [CommandParser.split_loop].
  - destruct (str_size token =? 0) eqn:E; cbn [negb]; [done|].
    apply str_size_nonzero in E. apply Forall_app. split; [done|].
    apply Forall_singleton. by split.
  - destruct (Ascii.eqb c DQUOTE) eqn:Ec; [by apply IH|].
    apply Ascii.eqb_neq in Ec.
    destruct (isspace c && negb inQuotes).
    + destruct (str_size token =? 0) eqn:E; cbn [negb]; [by apply IH|].
      apply str_size_nonzero in E. apply IH; [|constructor].
      apply Forall_app. split; [done|]. apply Forall_singleton. by split.
    + apply IH; [done|]. rewrite list_ascii_app. apply Forall_app. split; [done|].
      by apply Forall_singleton.
Qed.

Lemma split_loop_bare w : forall rest tokens token,
  Forall (fun c => c <> DQUOTE /\ isspace c = false) (list_ascii_of_string w) ->
  CommandParser.split_loop (w ++ rest) tokens token false
  = CommandParser.split_loop rest tokens (token ++ w) false.
Proof.
  induction w as [|c w IH]; intros rest tokens token Hw.
  - by rewrite append_nil_r.
  - apply Forall_cons in Hw as [[Hq Hs] Hw]. cbn [append CommandParser.split_loop].
    rewrite (proj2 (Ascii.eqb_neq _ _) Hq), Hs. cbn [andb].
    rewrite IH by done. by rewrite append_assoc.
Qed.

Lemma split_loop_inside w : forall rest tokens token,
  Forall (fun c => c <> DQUOTE) (list_ascii_of_string w) ->
  CommandParser.split_loop (w ++ String DQUOTE rest) tokens token true
  = CommandParser.split_loop rest tokens (token ++ w) false.
Proof.
  induction w as [|c w IH]; intros rest tokens token Hw.
  - cbn [append CommandParser.split_loop]. rewrite Ascii.eqb_refl. by rewrite append_nil_r.
  - apply Forall_cons in Hw as [Hq Hw]. cbn [append CommandParser.split_loop].
    rewrite (proj2 (Ascii.eqb_neq _ _) Hq). rewrite andb_false_r.
    rewrite IH by done. by rewrite append_assoc.
Qed.

Lemma split_loop_argument a rest tokens :
  argument_ok a ->
  CommandParser.split_loop (write_argument a ++ rest) tokens "" false
  = CommandParser.split_loop rest tokens (fst a) false.
Proof.
  destruct a as [w []]; unfold argument_ok, write_argument; cbn [fst snd].
  - intros [_ Hw]. cbn [append CommandParser.split_loop]. rewrite Ascii.eqb_refl. cbn [negb].
    rewrite append_assoc. cbn [append]. by rewrite split_loop_inside.
  - intros [_ Hw]. by rewrite split_loop_bare.
Qed.

Lemma split_loop_command_line args : forall tokens,
  isspace " " = true -> Forall argument_ok args ->
  CommandParser.split_loop (command_line args) tokens "" false = tokens ++ map fst args.
Proof.
  unfold command_line. induction args as [|a args IH]; intros tokens Hsp Hargs.
  - cbn [map String.concat CommandParser.split_loop]. cbn. by rewrite app_nil_r.
  - apply Forall_cons in Hargs as [Ha Hargs].
    assert (Hne : fst a <> ""%string).
    { destruct a as [w []]; unfold argument_ok in Ha; cbn [fst snd] in *; apply Ha. }
    destruct args as [|b args].
    + cbn [map String.concat]. rewrite <- (append_nil_r (write_argument a)).
      rewrite split_loop_argument by done. cbn [CommandParser.split_loop].
      by rewrite (proj2 (str_size_nonzero _) Hne).
    + change (String.concat " " (map write_argument (a :: b :: args)))
        with (write_argument a ++ String " " (String.concat " " (map write_argument (b :: args))))%string.
      rewrite split_loop_argument by done. cbn [CommandParser.split_loop].
      replace (Ascii.eqb " " DQUOTE) with false by reflexivity. rewrite Hsp. cbn [andb negb].
      rewrite (proj2 (str_size_nonzero _) Hne). cbn [negb].
      rewrite IH by done. by rewrite <- app_assoc.
Qed.

End Split.

Lemma split_command_line `{Ctype} (args : list (string * bool)) :
  isspace " " = true -> Forall argument_ok args ->
  CommandParser.split (command_line args) = map fst args.
Proof. intros Hsp Hargs. unfold CommandParser.split. by rewrite split_loop_command_line. Qed.

(** X12. [split] never yields an empty token, nor one that contains a
    double quote, whatever the line and the locale. *)
Theorem X12_split_tokens `{Ctype} (line : string) :
  Forall quotable (CommandParser.split line).
Proof. apply split_loop_tokens; constructor. Qed.

(** X13. On the tokens of a line the three validators never report an
    invalid key: they fail only for a wrong number of arguments, and the
    key they accept is not empty. *)
Theorem X13_validated_key_is_not_empty `{Ctype} (line : string)
    (result : CommandParser.ValidationResult) :
  let tokens := CommandParser.split line in
  (if fst (CommandParser.validate_set tokens result)
   then CommandParser.key (snd (CommandParser.validate_set tokens result)) <> ""%string
   else CommandParser.errmsg (snd (CommandParser.validate_set tokens result))
        = "wrong number of arguments for 'set' command"%string)
  /\ (if fst (CommandParser.validate_get tokens result)
      then CommandParser.key (snd (CommandParser.validate_get tokens result)) <> ""%string
      else CommandParser.errmsg (snd (CommandParser.validate_get tokens result))
           = "wrong number of arguments for 'get' command"%string)
  /\ (if fst (CommandParser.validate_del tokens result)
      then CommandParser.key (snd (CommandParser.validate_del tokens result)) <> ""%string
      else CommandParser.errmsg (snd (CommandParser.validate_del tokens result))
           = "wrong number of arguments for 'del' command"%string).
Proof.
  intros tokens. pose proof (split_loop_tokens line [] "" false ltac:(constructor) ltac:(constructor))
    as Htok.
  fold (CommandParser.split line) in Htok. fold tokens in Htok.
  assert (Hkey : (2 <= length tokens)%nat -> (str_size (CommandParser.token_at tokens 1) =? 0) = false).
  { intros Hlen. apply str_size_nonzero. unfold CommandParser.token_at.
    destruct tokens as [|t0 [|t1 rest]]; simpl in Hlen; try lia. cbn [nth].
    apply Forall_cons in Htok as [_ Htok]. apply Forall_cons in Htok as [[Hne _] _]. done. }
  unfold CommandParser.validate_set, CommandParser.validate_get, CommandParser.validate_del.
  split; [|split].
  - destruct (Nat.eqb_spec (length tokens) 3) as [Hl|Hl]; cbn [negb fst snd CommandParser.errmsg];
      [|done].
    rewrite Hkey by lia. cbn [fst snd CommandParser.key]. apply str_size_nonzero. apply Hkey. lia.
  - destruct (Nat.eqb_spec (length tokens) 2) as [Hl|Hl]; cbn [negb fst snd CommandParser.errmsg];
      [|done].
    rewrite Hkey by lia. cbn [fst snd CommandParser.key]. apply str_size_nonzero. apply Hkey. lia.
  - destruct (Nat.eqb_spec (length tokens) 2) as [Hl|Hl]; cbn [negb fst snd CommandParser.errmsg];
      [|done].
    rewrite Hkey by lia. cbn [fst snd CommandParser.key]. apply str_size_nonzero. apply Hkey. lia.
Qed.

(** X14. [split] inverts the writing of a command line: arguments
    written bare (no whitespace, no double quote) or between double
    quotes (no double quote), separated by single blanks, come back as
    the tokens, quotes removed and quoted whitespace kept. *)
Theorem X14_split_command_line `{Ctype} (args : list (string * bool)) :
  isspace " " = true -> Forall argument_ok args ->
  CommandParser.split (command_line args) = map fst args.
Proof. intros Hsp Hargs. unfold CommandParser.split. by rewrite split_loop_command_line. Qed.

Lemma X14_split_command_line_witness :
  CommandParser.split (H := c_locale)
    (command_line [("SET", false); ("greeting", false); ("hello  world", true)]%string)
  = ["SET"; "greeting"; "hello  world"]%string.
Proof.
  apply (X14_split_command_line (H := c_locale)); [reflexivity|].
  repeat constructor; try discriminate; vm_compute; try reflexivity; discriminate.
Defined.

(** ** Commands on the engine *)

Section Commands.
Context `{StdStringImpl} `{Ctype}.
Context (Hblank : isspace " " = true).

Lemma argument_nonempty a : argument_ok a -> fst a <> ""%string.
Proof. destruct a as [w []]; unfold argument_ok; cbn [fst snd]; by intros [? _]. Qed.

Lemma parser_set coins fs cs ak av db :
  Forall argument_ok [cs; ak; av] -> CommandParser.lowercase (fst cs) = "set"%string ->
  CommandParser.parser coins fs (command_line [cs; ak; av]) db
  = db' ← LSMTree.put coins (fst ak) (fst av) db;
    Some (CommandParser.Return (RespEncoder.simpleString "OK"), db').
Proof using Hblank.
  intros Hargs Hcs. unfold CommandParser.parser.
  rewrite (split_command_line _ Hblank Hargs).
  cbn [map fst]. rewrite Hcs. cbn [str_eq String.eqb Ascii.eqb Bool.eqb].
  unfold CommandParser.validate_set. cbn [length Nat.eqb negb CommandParser.token_at nth].
  apply Forall_cons in Hargs as [_ Hargs]. apply Forall_cons in Hargs as [Hk _].
  rewrite (proj2 (str_size_nonzero _) (argument_nonempty _ Hk)). done.
Qed.

Lemma parser_get coins fs cg ak db :
  Forall argument_ok [cg; ak] -> CommandParser.lowercase (fst cg) = "get"%string ->
  CommandParser.parser coins fs (command_line [cg; ak]) db
  = found_value ← LSMTree.get fs db (fst ak);
    if negb (fst found_value) then Some (CommandParser.Return ("NULL" ++ CommandParser.nl)%string, db)
    else Some (CommandParser.Return (snd found_value ++ CommandParser.nl)%string, db).
Proof using Hblank.
  intros Hargs Hcg. unfold CommandParser.parser.
  rewrite (split_command_line _ Hblank Hargs).
  cbn [map fst]. rewrite Hcg. cbn [str_eq String.eqb Ascii.eqb Bool.eqb].
  unfold CommandParser.validate_get. cbn [length Nat.eqb negb CommandParser.token_at nth].
  apply Forall_cons in Hargs as [_ Hargs]. apply Forall_cons in Hargs as [Hk _].
  rewrite (proj2 (str_size_nonzero _) (argument_nonempty _ Hk)). done.
Qed.

Lemma parser_del coins fs cd ak db :
  Forall argument_ok [cd; ak] -> CommandParser.lowercase (fst cd) = "del"%string ->
  CommandParser.parser coins fs (command_line [cd; ak]) db
  = found_value ← LSMTree.get fs db (fst ak);
    if negb (fst found_value) then
      Some (CommandParser.Return
              ("key " ++ String DQUOTE (fst ak) ++ String DQUOTE " not found"
               ++ CommandParser.nl)%string, db)
    else
      db' ← LSMTree.remove coins (fst ak) db;
      Some (CommandParser.Return (RespEncoder.integer 1), db').
Proof using Hblank.
  intros Hargs Hcd. unfold CommandParser.parser.
  rewrite (split_command_line _ Hblank Hargs).
  cbn [map fst]. rewrite Hcd. cbn [str_eq String.eqb Ascii.eqb Bool.eqb].
  unfold CommandParser.validate_del. cbn [length Nat.eqb negb CommandParser.token_at nth].
  apply Forall_cons in Hargs as [_ Hargs]. apply Forall_cons in Hargs as [Hk _].
  rewrite (proj2 (str_size_nonzero _) (argument_nonempty _ Hk)). done.
Qed.

End Commands.

(** X15. A [set] command followed by a [get] command for the same key
    prints the value that was set: the first returns +OK, the second the
    value and a newline.  The command words may be in any letter case and
    every argument may be quoted; the value is not the tombstone, the
    memtables of the engine are well formed, and the [set] does not
    bring the active memtable to [MAX_MEMTABLE_SIZE]: the case of a
    [set] that seals the memtable and hands it to the flush worker is
    left out. *)
Theorem X15_cli_set_then_get `{StdStringImpl} `{Ctype} (coins : list bool) (fs : filesystem)
    (db : LSMTree.t) (cs cg ak av : string * bool) :
  isspace " " = true -> LSM_wf db ->
  Forall argument_ok [cs; cg; ak; av] ->
  CommandParser.lowercase (fst cs) = "set"%string ->
  CommandParser.lowercase (fst cg) = "get"%string ->
  fst av <> TOMBSTONE ->
  put_rotates coins (fst ak) (fst av) db = false ->
  exists db1,
    CommandParser.parser coins fs (command_line [cs; ak; av]) db
    = Some (CommandParser.Return (RespEncoder.simpleString "OK"), db1)
    /\ (forall coins' fs',
          CommandParser.parser coins' fs' (command_line [cg; ak]) db1
          = Some (CommandParser.Return (fst av ++ CommandParser.nl)%string, db1)).
Proof.
  intros Hblank Hwf Hargs Hcs Hcg Hv Hrot.
  apply Forall_cons in Hargs as [Has Hargs]. apply Forall_cons in Hargs as [Hag Hargs].
  pose proof Hargs as Hkv. apply Forall_cons in Hargs as [Hk Hargs].
  destruct (LSM_put_wf coins (fst ak) (fst av) db Hwf) as (db1 & Hput & Hwf1).
  assert (Hset : Forall argument_ok [cs; ak; av]) by (by apply Forall_cons_2).
  assert (Hgetargs : Forall argument_ok [cg; ak]).
  { apply Forall_cons_2; [done|]. by apply Forall_cons_2. }
  exists db1. split.
  - rewrite (parser_set Hblank coins fs cs ak av db Hset Hcs). by rewrite Hput.
  - intros coins' fs'. rewrite (parser_get Hblank coins' fs' cg ak db1 Hgetargs Hcg).
    pose proof (put_active coins (fst ak) (fst av) db db1 Hwf Hrot Hput) as Hact.
    rewrite (active_get fs' _ _ _ Hact). rewrite classify_value by done. done.
Qed.

Lemma X15_cli_set_then_get_witness :
  exists db1,
    CommandParser.parser (H := libstdcxx) (H0 := c_locale) [true] []
      (command_line [("SET", false); ("greeting", false); ("hello  world", true)]%string)
      empty_engine
    = Some (CommandParser.Return (RespEncoder.simpleString "OK"), db1)
    /\ (forall coins' fs',
          CommandParser.parser (H := libstdcxx) (H0 := c_locale) coins' fs'
            (command_line [("Get", false); ("greeting", false)]%string) db1
          = Some (CommandParser.Return ("hello  world" ++ CommandParser.nl)%string, db1)).
Proof.
  apply (X15_cli_set_then_get (H := libstdcxx) (H0 := c_locale) [true] [] empty_engine
           ("SET", false) ("Get", false) ("greeting", false) ("hello  world", true))%string.
  - reflexivity.
  - apply empty_engine_wf.
  - repeat constructor; try discriminate; vm_compute; try reflexivity; discriminate.
  - reflexivity.
  - reflexivity.
  - discriminate.
  - vm_compute. reflexivity.
Defined.

(** X16. A [del] command for a key that [get] finds stores a tombstone
    and returns :1, after which [get] reports the key as deleted; for a
    key that [get] does not find it returns a not-found message and
    leaves the engine as it is. *)
Theorem X16_cli_del `{StdStringImpl} `{Ctype} (coins : list bool) (fs : filesystem)
    (db : LSMTree.t) (cd ak : string * bool) (found_value : bool * string) :
  isspace " " = true -> LSM_wf db ->
  Forall argument_ok [cd; ak] ->
  CommandParser.lowercase (fst cd) = "del"%string ->
  LSMTree.get fs db (fst ak) = Some found_value ->
  if fst found_value then
    exists db1,
      CommandParser.parser coins fs (command_line [cd; ak]) db
      = Some (CommandParser.Return (RespEncoder.integer 1), db1)
      /\ LSMTree.remove coins (fst ak) db = Some db1
      /\ (forall fs', LSMTree.get fs' db1 (fst ak) = Some (false, TOMBSTONE))
  else
    CommandParser.parser coins fs (command_line [cd; ak]) db
    = Some (CommandParser.Return
              ("key " ++ String DQUOTE (fst ak) ++ String DQUOTE " not found"
               ++ CommandParser.nl)%string, db).
Proof.
  intros Hblank Hwf Hargs Hcd Hget.
  rewrite (parser_del Hblank coins fs cd ak db Hargs Hcd). rewrite Hget. cbn [mbind option_bind].
  destruct (fst found_value); cbn [negb]; [|reflexivity].
  destruct (LSM_remove_wf coins (fst ak) db Hwf) as (db1 & Hrem & Hwf1).
  exists db1. rewrite Hrem. cbn [mbind option_bind]. split; [done|]. split; [done|].
  intros fs'. apply Newest_get. exact (remove_Newest coins (fst ak) db db1 Hwf Hrem).
Qed.

Lemma X16_cli_del_witness :
  CommandParser.parser (H := libstdcxx) (H0 := c_locale) [] []
    (command_line [("del", false); ("nothing", false)]%string) empty_engine
  = Some (CommandParser.Return
            ("key " ++ String DQUOTE "nothing" ++ String DQUOTE " not found"
             ++ CommandParser.nl)%string, empty_engine).
Proof.
  apply (X16_cli_del (H := libstdcxx) (H0 := c_locale) [] [] empty_engine
           ("del", false) ("nothing", false) (false, ""))%string.
  - reflexivity.
  - apply empty_engine_wf.
  - repeat constructor; try discriminate; vm_compute; try reflexivity; discriminate.
  - reflexivity.
  - vm_compute. reflexivity.
Defined.

(** * Part XII: the wire protocol and the server *)

(** ** Decimal numbers as text *)

(** The value that reading the digits [d] adds to [acc]. *)
Lemma of_uint_acc_value d : forall p,
  Z.pos (Pos.of_uint_acc d p)
  = Z.pos p * 10 ^ Z.of_nat (Decimal.nb_digits d) + Z.of_N (Pos.of_uint d).
Proof.
  assert (Hstep : forall k (l : Decimal.uint) p, 0 <= k ->
    (forall q, Z.pos (Pos.of_uint_acc l q)
               = Z.pos q * 10 ^ Z.of_nat (Decimal.nb_digits l) + Z.of_N (Pos.of_uint l)) ->
    forall q, Z.pos q = k + 10 * Z.pos p ->
    Z.pos (Pos.of_uint_acc l q)
    = Z.pos p * 10 ^ Z.of_nat (S (Decimal.nb_digits l))
      + (k * 10 ^ Z.of_nat (Decimal.nb_digits l) + Z.of_N (Pos.of_uint l))).
  { intros k l p Hk IH q Hq. rewrite IH, Hq, Nat2Z.inj_succ, Z.pow_succ_r by lia. ring. }
  induction d as [|d IH|d IH|d IH|d IH|d IH|d IH|d IH|d IH|d IH|d IH]; intros p;
    cbn [Pos.of_uint_acc Decimal.nb_digits Pos.of_uint].
  - cbn. lia.
  - rewrite (Hstep 0 d p ltac:(lia) IH) by lia. lia.
  - rewrite (Hstep 1 d p ltac:(lia) IH) by lia. rewrite N2Z.inj_pos, (IH 1%positive). lia.
  - rewrite (Hstep 2 d p ltac:(lia) IH) by lia. rewrite N2Z.inj_pos, (IH 2%positive). lia.
  - rewrite (Hstep 3 d p ltac:(lia) IH) by lia. rewrite N2Z.inj_pos, (IH 3%positive). lia.
  - rewrite (Hstep 4 d p ltac:(lia) IH) by lia. rewrite N2Z.inj_pos, (IH 4%positive). lia.
  - rewrite (Hstep 5 d p ltac:(lia) IH) by lia. rewrite N2Z.inj_pos, (IH 5%positive). lia.
  - rewrite (Hstep 6 d p ltac:(lia) IH) by lia. rewrite N2Z.inj_pos, (IH 6%positive). lia.
  - rewrite (Hstep 7 d p ltac:(lia) IH) by lia. rewrite N2Z.inj_pos, (IH 7%positive). lia.
  - rewrite (Hstep 8 d p ltac:(lia) IH) by lia. rewrite N2Z.inj_pos, (IH 8%positive). lia.
  - rewrite (Hstep 9 d p ltac:(lia) IH) by lia. rewrite N2Z.inj_pos, (IH 9%positive). lia.
Qed.

Lemma read_digits_uint d : forall acc,
  read_digits (DecimalString.NilEmpty.string_of_uint d) acc true
  = Some (acc * 10 ^ Z.of_nat (Decimal.nb_digits d) + Z.of_N (Pos.of_uint d)).
Proof.
  assert (Hstep : forall k (l : Decimal.uint) acc v,
    v = k * 10 ^ Z.of_nat (Decimal.nb_digits l) + Z.of_N (Pos.of_uint l) ->
    (10 * acc + k) * 10 ^ Z.of_nat (Decimal.nb_digits l) + Z.of_N (Pos.of_uint l)
    = acc * 10 ^ Z.of_nat (S (Decimal.nb_digits l)) + v).
  { intros k l acc v ->. rewrite Nat2Z.inj_succ, Z.pow_succ_r by lia. ring. }
  induction d as [|d IH|d IH|d IH|d IH|d IH|d IH|d IH|d IH|d IH|d IH]; intros acc;
    cbn [DecimalString.NilEmpty.string_of_uint read_digits Decimal.nb_digits Pos.of_uint].
  - f_equal. cbn. lia.
  - change (is_digit "0") with true. cbv iota. rewrite IH. f_equal.
    change (Z.of_N (N_of_ascii "0") - 48) with 0. apply Hstep. lia.
  - change (is_digit "1") with true. cbv iota. rewrite IH. f_equal.
    change (Z.of_N (N_of_ascii "1") - 48) with 1. apply Hstep.
    rewrite N2Z.inj_pos, of_uint_acc_value. lia.
  - change (is_digit "2") with true. cbv iota. rewrite IH. f_equal.
    change (Z.of_N (N_of_ascii "2") - 48) with 2. apply Hstep.
    rewrite N2Z.inj_pos, of_uint_acc_value. lia.
  - change (is_digit "3") with true. cbv iota. rewrite IH. f_equal.
    change (Z.of_N (N_of_ascii "3") - 48) with 3. apply Hstep.
    rewrite N2Z.inj_pos, of_uint_acc_value. lia.
  - change (is_digit "4") with true. cbv iota. rewrite IH. f_equal.
    change (Z.of_N (N_of_ascii "4") - 48) with 4. apply Hstep.
    rewrite N2Z.inj_pos, of_uint_acc_value. lia.
  - change (is_digit "5") with true. cbv iota. rewrite IH. f_equal.
    change (Z.of_N (N_of_ascii "5") - 48) with 5. apply Hstep.
    rewrite N2Z.inj_pos, of_uint_acc_value. lia.
  - change (is_digit "6") with true. cbv iota. rewrite IH. f_equal.
    change (Z.of_N (N_of_ascii "6") - 48) with 6. apply Hstep.
    rewrite N2Z.inj_pos, of_uint_acc_value. lia.
  - change (is_digit "7") with true. cbv iota. rewrite IH. f_equal.
    change (Z.of_N (N_of_ascii "7") - 48) with 7. apply Hstep.
    rewrite N2Z.inj_pos, of_uint_acc_value. lia.
  - change (is_digit "8") with true. cbv iota. rewrite IH. f_equal.
    change (Z.of_N (N_of_ascii "8") - 48) with 8. apply Hstep.
    rewrite N2Z.inj_pos, of_uint_acc_value. lia.
  - change (is_digit "9") with true. cbv iota. rewrite IH. f_equal.
    change (Z.of_N (N_of_ascii "9") - 48) with 9. apply Hstep.
    rewrite N2Z.inj_pos, of_uint_acc_value. lia.
Qed.

(** The text of a number that is not negative: digits only, at least
    one, and reading them gives the number back. *)
Lemma to_string_digits z :
  0 <= z ->
  exists c s, to_string z = String c s
    /\ Forall (fun c => is_digit c = true) (c :: list_ascii_of_string s)
    /\ read_digits (to_string z) 0 false = Some z.
Proof.
  intros Hz.
  assert (Hd : forall d, Forall (fun c => is_digit c = true)
                 (list_ascii_of_string (DecimalString.NilEmpty.string_of_uint d))).
  { induction d; cbn [DecimalString.NilEmpty.string_of_uint list_ascii_of_string];
      [constructor|constructor; [reflexivity|done]..]. }
  assert (Hfirst : forall d, d <> Decimal.Nil ->
    exists c s, DecimalString.NilEmpty.string_of_uint d = String c s
      /\ read_digits (DecimalString.NilEmpty.string_of_uint d) 0 false
         = read_digits (DecimalString.NilEmpty.string_of_uint d) 0 true).
  { intros d Hne. destruct d; [done|..]; eexists _, _; (split; [reflexivity|reflexivity]). }
  unfold to_string. destruct z as [|p|p]; [| |lia].
  - exists "0"%char, ""%string. split; [reflexivity|]. split; [|reflexivity].
    constructor; [reflexivity|constructor].
  - cbn [Z.to_int DecimalString.NilZero.string_of_int].
    assert (Hne : Pos.to_uint p <> Decimal.Nil).
    { intros Heq. pose proof (DecimalPos.Unsigned.of_to p) as Hp. rewrite Heq in Hp. done. }
    assert (Hs : DecimalString.NilZero.string_of_uint (Pos.to_uint p)
                 = DecimalString.NilEmpty.string_of_uint (Pos.to_uint p)).
    { unfold DecimalString.NilZero.string_of_uint. by destruct (Pos.to_uint p). }
    rewrite Hs. destruct (Hfirst _ Hne) as (c & s & Hcs & Hr).
    exists c, s. split; [done|]. split.
    + specialize (Hd (Pos.to_uint p)). rewrite Hcs in Hd. exact Hd.
    + rewrite Hr, read_digits_uint, DecimalPos.Unsigned.of_to. reflexivity.
Qed.

(** ** Views *)

Lemma str_size_app (a b : string) : str_size (a ++ b) = str_size a + str_size b.
Proof. unfold str_size. induction a as [|c a IH]; simpl String.length; lia. Qed.

Lemma remove_prefix_app (a b : string) : remove_prefix (String.length a) (a ++ b) = b.
Proof. induction a as [|c a IH]; [done|]. simpl. apply IH. Qed.

Lemma remove_prefix_add (a b : string) k :
  remove_prefix (String.length a + k) (a ++ b) = remove_prefix k b.
Proof. induction a as [|c a IH]; [done|]. simpl. apply IH. Qed.

Lemma index_CRLF_here rest : str_find CRLF (CRLF ++ rest) = Some O.
Proof.
  unfold str_find, CRLF. cbn [append String.index String.prefix].
  destruct (ascii_dec CR CR); [|done]. destruct (ascii_dec LF LF); [|done]. by destruct rest.
Qed.

Lemma index_CRLF_skip c s :
  c <> CR -> str_find CRLF (String c s) = S <$> str_find CRLF s.
Proof.
  intros Hc. unfold str_find, CRLF. cbn [String.index String.prefix].
  destruct (ascii_dec CR c) as [Heq|_]; [by subst c|].
  by destruct (String.index 0 _ s).
Qed.

Lemma index_CRLF_after digits rest :
  Forall (fun c => c <> CR) (list_ascii_of_string digits) ->
  str_find CRLF (digits ++ CRLF ++ rest) = Some (String.length digits).
Proof.
  induction digits as [|c digits IH]; intros Hd; [apply index_CRLF_here|].
  apply Forall_cons in Hd as [Hc Hd]. cbn [append]. rewrite index_CRLF_skip by done.
  rewrite IH by done. done.
Qed.

Lemma is_digit_not c x : is_digit x = false -> is_digit c = true -> c <> x.
Proof. intros Hx Hc ->. congruence. Qed.

Section Decoder.
Context `{Ctype}.
Context (Hdig : digits_are_not_spaces).

Lemma stoi_to_string z : 0 <= z <= INT_MAX -> stoi (to_string z) = Some z.
Proof using Hdig.
  intros Hz. destruct (to_string_digits z ltac:(lia)) as (c & s & Hcs & Hall & Hread).
  unfold stoi. rewrite Hcs. apply Forall_cons in Hall as [Hc Hall].
  cbn [skip_spaces]. rewrite (Hdig c Hc).
  rewrite (proj2 (Ascii.eqb_neq c "-") (is_digit_not c "-" eq_refl Hc)).
  rewrite (proj2 (Ascii.eqb_neq c "+") (is_digit_not c "+" eq_refl Hc)).
  rewrite <- Hcs, Hread. cbn [mbind option_bind].
  unfold INT_MIN, INT_MAX in *.
  rewrite (proj2 (Z.leb_le _ _)) by lia. rewrite (proj2 (Z.leb_le _ _)) by lia. done.
Qed.

(** The length line of a bulk string, as the three parsers read it. *)
Lemma bulk_header s rest :
  0 <= str_size s <= INT_MAX ->
  exists pos,
    (RespEncoder.bulkString s false ++ rest)%string
      = ("$" ++ to_string (str_size s) ++ CRLF ++ s ++ CRLF ++ rest)%string
    /\ str_find CRLF (RespEncoder.bulkString s false ++ rest)%string = Some pos
    /\ stoi (String.substring 1 (pos - 1) (RespEncoder.bulkString s false ++ rest)%string)
       = Some (str_size s)
    /\ remove_prefix (pos + 2) (RespEncoder.bulkString s false ++ rest)%string
       = (s ++ CRLF ++ rest)%string.
Proof using Hdig.
  intros Hs.
  assert (Heq : (RespEncoder.bulkString s false ++ rest)%string
                = ("$" ++ to_string (str_size s) ++ CRLF ++ s ++ CRLF ++ rest)%string).
  { unfold RespEncoder.bulkString. destruct (Z.eqb_spec (str_size s) 0) as [H0|H0].
    - apply Z.eqb_eq, str_size_zero in H0. subst s. reflexivity.
    - by rewrite !append_assoc. }
  destruct (to_string_digits (str_size s) ltac:(lia)) as (c & d & Hcd & Hall & _).
  set (digits := to_string (str_size s)) in *.
  assert (Hcr : Forall (fun c => c <> CR) (list_ascii_of_string digits)).
  { rewrite Hcd. cbn [list_ascii_of_string]. eapply Forall_impl; [exact Hall|].
    intros x Hx. by apply (is_digit_not x CR). }
  exists (S (String.length digits)). rewrite Heq. split; [done|].
  cbn [append]. split; [|split].
  - rewrite index_CRLF_skip by done. by rewrite index_CRLF_after.
  - cbn [String.substring Nat.sub]. rewrite Nat.sub_0_r, substring_app_l.
    apply stoi_to_string. lia.
  - cbn [Nat.add remove_prefix]. rewrite remove_prefix_add. reflexivity.
Qed.

(** The payload of a bulk string, as the three parsers take it. *)
Lemma bulk_payload s rest :
  0 <= str_size s <= INT_MAX - 2 ->
  (str_size (s ++ CRLF ++ rest) <? wrap64 (wrap64 (str_size s) + 2)) = false
  /\ String.substring 0 (Z.to_nat (wrap64 (str_size s))) (s ++ CRLF ++ rest) = s
  /\ (INT_MAX <? str_size s + 2) = false
  /\ remove_prefix (Z.to_nat (wrap64 (str_size s + 2))) (s ++ CRLF ++ rest) = rest.
Proof.
  intros Hs. unfold INT_MAX in *. pose proof (str_size_nonneg rest) as Hr.
  rewrite (wrap64_small (str_size s)) by lia. rewrite !wrap64_small by lia.
  rewrite !str_size_app. change (str_size CRLF) with 2. split_and!.
  - apply Z.ltb_ge. lia.
  - unfold str_size. rewrite Nat2Z.id. apply substring_app_l.
  - apply Z.ltb_ge. lia.
  - unfold str_size. replace (Z.to_nat (Z.of_nat (String.length s) + 2))
      with (String.length s + 2)%nat by lia.
    rewrite remove_prefix_add. reflexivity.
Qed.

Lemma bulk_marker s rest :
  0 <= str_size s <= INT_MAX ->
  (str_size (RespEncoder.bulkString s false ++ rest) =? 0)
  || first_is_not "$" (RespEncoder.bulkString s false ++ rest) = false.
Proof using Hdig.
  intros Hs. destruct (bulk_header s rest Hs) as (pos & -> & _). reflexivity.
Qed.

Lemma parseKey_bulk k rest resp :
  0 <= str_size k <= INT_MAX - 2 ->
  RespDecoder.parseKey (RespEncoder.bulkString k false ++ rest) resp
  = Some (true, rest, Resp.with_key k resp).
Proof using Hdig.
  intros Hk. unfold INT_MAX in Hk.
  destruct (bulk_header k rest ltac:(unfold INT_MAX; lia)) as (pos & _ & Hfind & Hstoi & Hrem).
  destruct (bulk_payload k rest ltac:(unfold INT_MAX; lia)) as (H1 & H2 & H3 & H4).
  unfold RespDecoder.parseKey.
  rewrite bulk_marker by (unfold INT_MAX; lia). rewrite Hfind, Hstoi. cbv zeta.
  rewrite Hrem, H1, H2, H3, H4. reflexivity.
Qed.

Lemma parseValue_bulk v rest resp :
  0 <= str_size v <= INT_MAX - 2 ->
  RespDecoder.parseValue (RespEncoder.bulkString v false ++ rest) resp
  = Some (true, rest, Resp.with_value v resp).
Proof using Hdig.
  intros Hv. unfold INT_MAX in Hv.
  destruct (bulk_header v rest ltac:(unfold INT_MAX; lia)) as (pos & _ & Hfind & Hstoi & Hrem).
  destruct (bulk_payload v rest ltac:(unfold INT_MAX; lia)) as (H1 & H2 & H3 & H4).
  unfold RespDecoder.parseValue.
  rewrite bulk_marker by (unfold INT_MAX; lia). rewrite Hfind, Hstoi. cbv zeta.
  rewrite Hrem, H1, H2, H3, H4. reflexivity.
Qed.

Lemma parseOperation_bulk op o rest resp :
  (op, o) ∈ [("DEL"%string, DEL); ("GET"%string, GET); ("SET"%string, SET)] ->
  RespDecoder.parseOperation (RespEncoder.bulkString op false ++ rest) resp
  = Some (true, rest, Resp.with_operation o resp).
Proof using Hdig.
  intros Hop.
  assert (Hsz : str_size op = 3).
  { repeat (apply elem_of_cons in Hop as [[= -> ->]|Hop]; [reflexivity|]).
    by apply elem_of_nil in Hop. }
  destruct (bulk_header op rest ltac:(unfold INT_MAX; lia)) as (pos & _ & Hfind & Hstoi & Hrem).
  destruct (bulk_payload op rest ltac:(unfold INT_MAX; lia)) as (H1 & H2 & H3 & H4).
  unfold RespDecoder.parseOperation.
  rewrite bulk_marker by (unfold INT_MAX; lia). rewrite Hfind, Hstoi. cbv zeta.
  rewrite Hrem, H1, H2, H3, H4.
  repeat (apply elem_of_cons in Hop as [[= -> ->]|Hop]; [reflexivity|]).
  by apply elem_of_nil in Hop.
Qed.

End Decoder.

Section Requests.
Context `{Ctype}.
Context (Hdig : digits_are_not_spaces).

Lemma decode_header n body :
  2 <= n <= 3 ->
  exists pos,
    str_find CRLF ("*" ++ to_string n ++ CRLF ++ body) = Some pos
    /\ stoi (String.substring 1 (pos - 1) ("*" ++ to_string n ++ CRLF ++ body)) = Some n
    /\ remove_prefix (pos + 2) ("*" ++ to_string n ++ CRLF ++ body) = body.
Proof using Hdig.
  intros Hn. assert (n = 2 \/ n = 3) as [-> | ->] by lia.
  - exists 2%nat. change (to_string 2) with "2"%string. cbn [append].
    split; [|split; [|reflexivity]].
    + rewrite index_CRLF_skip by done. rewrite index_CRLF_skip by done.
      by rewrite index_CRLF_here.
    + cbn [String.substring Nat.sub]. apply (stoi_to_string Hdig 2). unfold INT_MAX. lia.
  - exists 2%nat. change (to_string 3) with "3"%string. cbn [append].
    split; [|split; [|reflexivity]].
    + rewrite index_CRLF_skip by done. rewrite index_CRLF_skip by done.
      by rewrite index_CRLF_here.
    + cbn [String.substring Nat.sub]. apply (stoi_to_string Hdig 3). unfold INT_MAX. lia.
Qed.

Lemma decode_set k v :
  0 <= str_size k <= INT_MAX - 2 -> 0 <= str_size v <= INT_MAX - 2 ->
  RespDecoder.decode (request ["SET"; k; v]%string) = Some (Resp.mk SET k v true "").
Proof using Hdig.
  intros Hk Hv. unfold request. cbn [length map String.concat].
  change (Z.of_nat 3) with 3.
  set (body := (RespEncoder.bulkString "SET" false ++ "" ++ RespEncoder.bulkString k false
                ++ "" ++ RespEncoder.bulkString v false)%string).
  destruct (decode_header 3 body ltac:(lia)) as (pos & Hfind & Hstoi & Hrem).
  unfold RespDecoder.decode. cbn [str_size String.length append first_is_not].
  replace ((Z.of_nat (S (String.length (to_string 3 ++ CRLF ++ body))) =? 0)
           || negb (Ascii.eqb "*" "*")) with false by reflexivity.
  change (String "*" (to_string 3 ++ CRLF ++ body)) with ("*" ++ to_string 3 ++ CRLF ++ body)%string.
  rewrite Hfind, Hstoi. cbv zeta. rewrite Hrem.
  replace ((3 <? 2) || (3 <? 3)) with false by reflexivity.
  unfold body. cbn [append].
  rewrite (parseOperation_bulk Hdig "SET" SET) by (right; right; left).
  cbn [mbind option_bind negb].
  rewrite (parseKey_bulk Hdig k) by done. cbn [mbind option_bind negb].
  rewrite <- (append_nil_r (RespEncoder.bulkString v false)).
  rewrite (parseValue_bulk Hdig v) by done. reflexivity.
Qed.

Lemma decode_two op o k :
  (op, o) ∈ [("DEL"%string, DEL); ("GET"%string, GET)] ->
  0 <= str_size k <= INT_MAX - 2 ->
  RespDecoder.decode (request [op; k]) = Some (Resp.mk o k "" true "").
Proof using Hdig.
  intros Hop Hk. unfold request. cbn [length map String.concat].
  change (Z.of_nat 2) with 2.
  set (body := (RespEncoder.bulkString op false ++ "" ++ RespEncoder.bulkString k false)%string).
  destruct (decode_header 2 body ltac:(lia)) as (pos & Hfind & Hstoi & Hrem).
  unfold RespDecoder.decode. cbn [str_size String.length append first_is_not].
  replace ((Z.of_nat (S (String.length (to_string 2 ++ CRLF ++ body))) =? 0)
           || negb (Ascii.eqb "*" "*")) with false by reflexivity.
  change (String "*" (to_string 2 ++ CRLF ++ body)) with ("*" ++ to_string 2 ++ CRLF ++ body)%string.
  rewrite Hfind, Hstoi. cbv zeta. rewrite Hrem.
  replace ((2 <? 2) || (3 <? 2)) with false by reflexivity.
  unfold body. cbn [append].
  rewrite (parseOperation_bulk Hdig op o).
  2:{ apply elem_of_cons in Hop as [Hop|Hop]; [rewrite Hop; left|].
      apply list_elem_of_singleton in Hop. rewrite Hop. right; left. }
  cbn [mbind option_bind negb].
  rewrite <- (append_nil_r (RespEncoder.bulkString k false)).
  rewrite (parseKey_bulk Hdig k) by done. cbn [mbind option_bind negb].
  apply elem_of_cons in Hop as [[= -> ->]|Hop]; [reflexivity|].
  apply list_elem_of_singleton in Hop. injection Hop as -> ->. reflexivity.
Qed.

End Requests.

Lemma decode_request `{Ctype} (k v : string) :
  digits_are_not_spaces ->
  str_size k <= INT_MAX - 2 -> str_size v <= INT_MAX - 2 ->
  RespDecoder.decode (request ["SET"; k; v]%string) = Some (Resp.mk SET k v true "")
  /\ RespDecoder.decode (request ["GET"; k]%string) = Some (Resp.mk GET k "" true "")
  /\ RespDecoder.decode (request ["DEL"; k]%string) = Some (Resp.mk DEL k "" true "").
Proof.
  intros Hdig Hk Hv. pose proof (str_size_nonneg k). pose proof (str_size_nonneg v).
  split; [by apply decode_set|]. split.
  - apply (decode_two Hdig "GET" GET); [right; left|done].
  - apply (decode_two Hdig "DEL" DEL); [left|done].
Qed.

(** X17. The decoder reads back the requests a client writes with the
    encoder's bulk strings: a SET request gives the operation, the key
    and the value, a GET or DEL request the operation and the key, for
    keys and values of any bytes whose lengths leave room for the two
    bytes that end a bulk string in an [int]. *)
Theorem X17_decode_request `{Ctype} (k v : string) :
  digits_are_not_spaces ->
  str_size k <= INT_MAX - 2 -> str_size v <= INT_MAX - 2 ->
  RespDecoder.decode (request ["SET"; k; v]%string) = Some (Resp.mk SET k v true "")
  /\ RespDecoder.decode (request ["GET"; k]%string) = Some (Resp.mk GET k "" true "")
  /\ RespDecoder.decode (request ["DEL"; k]%string) = Some (Resp.mk DEL k "" true "").
Proof. apply decode_request. Qed.

Lemma c_locale_digits : digits_are_not_spaces (H := c_locale).
Proof.
  intros c Hc. unfold is_digit in Hc. cbn [isspace c_locale].
  apply andb_prop in Hc as [H1 H2]. apply N.leb_le in H1. apply N.leb_le in H2.
  apply orb_false_intro.
  - apply andb_false_intro2. apply N.leb_gt. lia.
  - apply N.eqb_neq. lia.
Qed.

Lemma X17_decode_request_witness :
  RespDecoder.decode (H := c_locale) (request ["SET"; "color"; String CR (String LF "blue")]%string)
  = Some (Resp.mk SET "color" (String CR (String LF "blue")) true "")
  /\ RespDecoder.decode (H := c_locale) (request ["GET"; "color"]%string)
     = Some (Resp.mk GET "color" "" true "")
  /\ RespDecoder.decode (H := c_locale) (request ["DEL"; "color"]%string)
     = Some (Resp.mk DEL "color" "" true "").
Proof.
  apply (X17_decode_request (H := c_locale)); [apply c_locale_digits|vm_compute; discriminate..].
Defined.

(** ** What a decoded request looks like *)

Section Outcome.
Context `{Ctype}.

Lemma parseOperation_outcome input resp ok input' resp' :
  RespDecoder.parseOperation input resp = Some (ok, input', resp') ->
  Resp.success resp' = Resp.success resp /\ Resp.value resp' = Resp.value resp
  /\ (if ok then Resp.operation resp' <> UNKNOWN /\ Resp.error resp' = Resp.error resp
      else Resp.error resp' <> ""%string).
Proof.
  unfold RespDecoder.parseOperation. intros Hp.
  repeat case_match; simplify_eq; cbn; split_and!; done.
Qed.

Lemma parseKey_outcome input resp ok input' resp' :
  RespDecoder.parseKey input resp = Some (ok, input', resp') ->
  Resp.success resp' = Resp.success resp /\ Resp.value resp' = Resp.value resp
  /\ Resp.operation resp' = Resp.operation resp
  /\ (if ok then Resp.error resp' = Resp.error resp else Resp.error resp' <> ""%string).
Proof.
  unfold RespDecoder.parseKey. intros Hp.
  repeat case_match; simplify_eq; cbn; split_and!; done.
Qed.

Lemma parseValue_outcome input resp ok input' resp' :
  RespDecoder.parseValue input resp = Some (ok, input', resp') ->
  Resp.success resp' = Resp.success resp
  /\ Resp.operation resp' = Resp.operation resp
  /\ (if ok then Resp.error resp' = Resp.error resp else Resp.error resp' <> ""%string).
Proof.
  unfold RespDecoder.parseValue. intros Hp.
  repeat case_match; simplify_eq; cbn; split_and!; done.
Qed.

Lemma decode_outcome input r :
  RespDecoder.decode input = Some r ->
  if Resp.success r
  then Resp.operation r <> UNKNOWN /\ Resp.error r = ""%string
       /\ (Resp.operation r = SET \/ Resp.value r = ""%string)
  else Resp.error r <> ""%string.
Proof.
  unfold RespDecoder.decode. intros Hd.
  destruct ((str_size input =? 0) || first_is_not "*" input); [by simplify_eq|].
  destruct (str_find CRLF input) as [pos|]; [|by simplify_eq].
  destruct (stoi _) as [num_args|]; [|by simplify_eq].
  destruct ((num_args <? 2) || (3 <? num_args)); [by simplify_eq|].
  cbv zeta in Hd.
  destruct (RespDecoder.parseOperation _ _) as [[[ok1 in1] r1]|] eqn:E1;
    cbn [mbind option_bind] in Hd; [|done].
  pose proof (parseOperation_outcome _ _ _ _ _ E1) as (Hs1 & Hv1 & Ho1). cbn in Hs1, Hv1.
  destruct ok1; cbn [negb] in Hd.
  2:{ simplify_eq. by rewrite Hs1. }
  destruct Ho1 as [Hop1 He1]. cbn in He1.
  destruct (RespDecoder.parseKey _ _) as [[[ok2 in2] r2]|] eqn:E2;
    cbn [mbind option_bind] in Hd; [|done].
  pose proof (parseKey_outcome _ _ _ _ _ E2) as (Hs2 & Hv2 & Hop2 & He2).
  destruct ok2; cbn [negb] in Hd.
  2:{ simplify_eq. by rewrite Hs2, Hs1. }
  destruct (Operation_eqb (Resp.operation r2) SET) eqn:Eop.
  - assert (Resp.operation r2 = SET) as Hset by (by destruct (Resp.operation r2)).
    destruct (negb (num_args =? 3)).
    { cbn [mbind option_bind] in Hd. simplify_eq. cbn. by rewrite Hs2, Hs1. }
    destruct (RespDecoder.parseValue _ _) as [[[ok3 in3] r3]|] eqn:E3;
      cbn [mbind option_bind] in Hd; [|done].
    pose proof (parseValue_outcome _ _ _ _ _ E3) as (Hs3 & Hop3 & He3).
    destruct ok3; cbn [negb mbind option_bind] in Hd.
    2:{ simplify_eq. by rewrite Hs3, Hs2, Hs1. }
    destruct (negb (str_size in3 =? 0) && negb (str_eq in3 CRLF)); simplify_eq; cbn.
    + by rewrite Hs3, Hs2, Hs1.
    + rewrite Hop3, Hset, He3, He2, He1. split_and!; [done|done|by left].
  - destruct (2 <? num_args); cbn [mbind option_bind] in Hd.
    { simplify_eq. cbn. by rewrite Hs2, Hs1. }
    destruct (negb (str_size in2 =? 0) && negb (str_eq in2 CRLF)); simplify_eq; cbn.
    + by rewrite Hs2, Hs1.
    + rewrite Hop2, He2, He1, Hv2, Hv1. split_and!; [done|done|by right].
Qed.

End Outcome.

(** X18. Whatever the input, a request that the decoder accepts
    carries one of the three operations, never the unknown one, and no
    error message, and a value only for SET; a request that it rejects
    carries an error message. *)
Theorem X18_decode_outcome `{Ctype} (input : string) :
  match RespDecoder.decode input with
  | Some r =>
      if Resp.success r
      then Resp.operation r <> UNKNOWN /\ Resp.error r = ""%string
           /\ (Resp.operation r = SET \/ Resp.value r = ""%string)
      else Resp.error r <> ""%string
  | None => True
  end.
Proof.
  destruct (RespDecoder.decode input) as [r|] eqn:E; [|done]. exact (decode_outcome input r E).
Qed.

(** ** Messages to the server *)

Lemma no_NUL_app (a b : string) : no_NUL a -> no_NUL b -> no_NUL (a ++ b).
Proof. unfold no_NUL. rewrite list_ascii_app. intros. by apply Forall_app. Qed.

Lemma c_str_no_NUL s rest : no_NUL s -> RespDecoder.c_str (s ++ String NUL rest) = s.
Proof.
  unfold no_NUL. induction s as [|c s IH]; intros Hs; cbn [append RespDecoder.c_str].
  - by rewrite Ascii.eqb_refl.
  - cbn [list_ascii_of_string] in Hs. apply Forall_cons in Hs as [Hc Hs].
    rewrite (proj2 (Ascii.eqb_neq _ _) Hc). by rewrite IH.
Qed.

Lemma no_NUL_to_string z : 0 <= z -> no_NUL (to_string z).
Proof.
  intros Hz. destruct (to_string_digits z Hz) as (c & s & -> & Hall & _).
  unfold no_NUL. cbn [list_ascii_of_string]. eapply Forall_impl; [exact Hall|].
  intros x Hx. by apply (is_digit_not x NUL).
Qed.

Lemma no_NUL_bulkString s : no_NUL s -> no_NUL (RespEncoder.bulkString s false).
Proof.
  intros Hs. unfold RespEncoder.bulkString.
  destruct (str_size s =? 0); [by repeat constructor|].
  apply (no_NUL_app "$"); [by repeat constructor|].
  apply no_NUL_app; [apply no_NUL_to_string, str_size_nonneg|].
  apply (no_NUL_app CRLF); [by repeat constructor|].
  apply no_NUL_app; [done|by repeat constructor].
Qed.

Lemma no_NUL_request args : Forall no_NUL args -> no_NUL (request args).
Proof.
  intros Hargs. unfold request. apply (no_NUL_app "*"); [by repeat constructor|].
  apply no_NUL_app; [apply no_NUL_to_string; lia|].
  apply (no_NUL_app CRLF); [by repeat constructor|].
  induction Hargs as [|a args Ha Hargs IH]; [constructor|].
  cbn [map String.concat]. destruct args as [|b args]; [by apply no_NUL_bulkString|].
  apply no_NUL_app; [by apply no_NUL_bulkString|]. exact IH.
Qed.

Lemma request_nonempty args : (0 <? str_size (request args)) = true.
Proof. reflexivity. Qed.

Section Server.
Context `{StdStringImpl} `{Ctype}.
Context (Hdig : digits_are_not_spaces).

Lemma handleClientMessage_request coins fs args lsm resp :
  Forall no_NUL args -> RespDecoder.decode (request args) = Some resp ->
  Resp.success resp = true ->
  KqueueServer.handleClientMessage coins fs (request args) lsm
  = r ← KqueueServer.handle_op coins fs resp lsm; Some (Some (fst r), snd r).
Proof.
  intros Hargs Hdec Hok. unfold KqueueServer.handleClientMessage.
  rewrite request_nonempty. unfold RespDecoder.decode_c_str.
  rewrite c_str_no_NUL by (by apply no_NUL_request). rewrite Hdec. cbn [mbind option_bind].
  by rewrite Hok.
Qed.

End Server.

(** X19. Through the server, a SET request followed by a GET request
    for the same key returns the value as a bulk string: the first is
    answered +OK, the second with the length and the bytes of the value.
    Key and value hold no zero byte, the key is not empty, the value is
    not the tombstone, and the SET does not bring the active memtable to
    [MAX_MEMTABLE_SIZE]: the case of a SET that seals the memtable and
    hands it to the flush worker is left out. *)
Theorem X19_server_set_then_get `{StdStringImpl} `{Ctype} (coins : list bool) (fs : filesystem)
    (lsm : LSMTree.t) (k v : string) :
  digits_are_not_spaces -> LSM_wf lsm ->
  k <> ""%string -> v <> TOMBSTONE -> no_NUL k -> no_NUL v ->
  str_size k <= INT_MAX - 2 -> str_size v <= INT_MAX - 2 ->
  put_rotates coins k v lsm = false ->
  exists lsm1,
    KqueueServer.handleClientMessage coins fs (request ["SET"; k; v]%string) lsm
    = Some (Some (RespEncoder.simpleString "OK"), lsm1)
    /\ (forall coins' fs',
          KqueueServer.handleClientMessage coins' fs' (request ["GET"; k]%string) lsm1
          = Some (Some (RespEncoder.bulkString v false), lsm1)).
Proof.
  intros Hdig Hwf Hk Hv Hnk Hnv Hsk Hsv Hrot.
  destruct (decode_request k v Hdig Hsk Hsv) as (Hset & Hget & _).
  destruct (LSM_put_wf coins k v lsm Hwf) as (lsm1 & Hput & Hwf1).
  assert (Hnop : no_NUL "SET" /\ no_NUL "GET") by (by split; repeat constructor).
  destruct Hnop as [Hn1 Hn2].
  assert (Ha1 : Forall no_NUL ["SET"; k; v]%string) by (by repeat apply Forall_cons_2).
  assert (Ha2 : Forall no_NUL ["GET"; k]%string) by (by repeat apply Forall_cons_2).
  exists lsm1. split.
  - rewrite (handleClientMessage_request coins fs _ lsm _ Ha1 Hset eq_refl).
    unfold KqueueServer.handle_op. cbn [Resp.operation Resp.key Resp.value].
    by rewrite Hput.
  - intros coins' fs'.
    rewrite (handleClientMessage_request coins' fs' _ lsm1 _ Ha2 Hget eq_refl).
    unfold KqueueServer.handle_op. cbn [Resp.operation Resp.key Resp.value].
    pose proof (put_active coins k v lsm lsm1 Hwf Hrot Hput) as Hact.
    rewrite (active_get fs' _ _ _ Hact), classify_value by done. reflexivity.
Qed.

Lemma X19_server_set_then_get_witness :
  exists lsm1,
    KqueueServer.handleClientMessage (H := libstdcxx) (H0 := c_locale) [true] []
      (request ["SET"; "color"; "dark blue"]%string) empty_engine
    = Some (Some (RespEncoder.simpleString "OK"), lsm1)
    /\ (forall coins' fs',
          KqueueServer.handleClientMessage (H := libstdcxx) (H0 := c_locale) coins' fs'
            (request ["GET"; "color"]%string) lsm1
          = Some (Some (RespEncoder.bulkString "dark blue" false), lsm1)).
Proof.
  apply (X19_server_set_then_get (H := libstdcxx) (H0 := c_locale) [true] [] empty_engine
           "color" "dark blue").
  - apply c_locale_digits.
  - apply empty_engine_wf.
  - discriminate.
  - discriminate.
  - repeat constructor; discriminate.
  - repeat constructor; discriminate.
  - vm_compute. discriminate.
  - vm_compute. discriminate.
  - vm_compute. reflexivity.
Defined.


